(** * stniche: niche structure discovery on a hexagonal sampling grid

    A shallow embedding of the core of [stniche/stniche.py] and the
    properties of its specification.

    Conventions of the embedding
    - a pandas table ([adata.obs]) is a list of records, one per row;
    - a Python [dict] is an insertion-ordered association list with unique
      keys ([Dict.t]); assigning to a key that is present keeps its position;
    - a Python [set] that is only iterated and tested for membership is a
      duplicate-free list; no result below depends on its iteration order;
    - float64 quantities of the pairwise statistics are exact rationals [Q];
      the Euclidean distances of the geometric signature are exact reals [R];
      rounding error of the floating-point unit is not modelled;
    - [scipy.stats.mannwhitneyu] and [statsmodels]' [multipletests] are
      library functions outside the repository: they are section variables;
    - a raised exception is the [Raise] branch of [result]. *)

From Stdlib Require Import List ZArith QArith Lia Bool String Ascii.
From Stdlib Require Import Permutation Arith PeanoNat.
From Stdlib Require OrderedTypeEx.
Import ListNotations.

Local Open Scope string_scope.
Local Open Scope list_scope.

(** ** Hashable keys and insertion-ordered dictionaries *)

Class Hashable (K : Type) := {
  key_eqb : K -> K -> bool;
  key_eqb_spec : forall x y : K, reflect (x = y) (key_eqb x y)
}.

Lemma key_eqb_refl {K} `{Hashable K} (k : K) : key_eqb k k = true.
Proof. destruct (key_eqb_spec k k); congruence. Qed.

Lemma key_eqb_neq {K} `{Hashable K} (k k' : K) : k <> k' -> key_eqb k k' = false.
Proof. intros Hn. destruct (key_eqb_spec k k'); congruence. Qed.

Lemma reflect_true_inv (P : Prop) : reflect P true -> P.
Proof. inversion 1; assumption. Qed.

Lemma reflect_false_inv (P : Prop) : reflect P false -> ~ P.
Proof. inversion 1; assumption. Qed.

(** Decidable equality that computes through [key_eqb]. *)
Definition key_eq_dec {K} `{Hashable K} (x y : K) : {x = y} + {x <> y} :=
  match key_eqb x y as b return reflect (x = y) b -> {x = y} + {x <> y} with
  | true => fun r => left (reflect_true_inv _ r)
  | false => fun r => right (reflect_false_inv _ r)
  end (key_eqb_spec x y).

#[export] Instance Hashable_string : Hashable string :=
  {| key_eqb := String.eqb; key_eqb_spec := String.eqb_spec |}.

#[export] Instance Hashable_Z : Hashable Z :=
  {| key_eqb := Z.eqb; key_eqb_spec := Z.eqb_spec |}.

#[export] Instance Hashable_nat : Hashable nat :=
  {| key_eqb := Nat.eqb; key_eqb_spec := Nat.eqb_spec |}.

Definition pair_eqb {A B} `{Hashable A} `{Hashable B} (p q : A * B) : bool :=
  key_eqb (fst p) (fst q) && key_eqb (snd p) (snd q).

Lemma pair_eqb_spec {A B} `{Hashable A} `{Hashable B} (p q : A * B) :
  reflect (p = q) (pair_eqb p q).
Proof.
  destruct p as [a b], q as [a' b']; unfold pair_eqb; simpl.
  destruct (key_eqb_spec a a'); destruct (key_eqb_spec b b'); simpl;
    constructor; congruence.
Qed.

#[export] Instance Hashable_pair {A B} `{Hashable A} `{Hashable B} : Hashable (A * B) :=
  {| key_eqb := pair_eqb; key_eqb_spec := pair_eqb_spec |}.

(** [x in l] on a Python list, tuple or set. *)
Definition mem {K} `{Hashable K} (k : K) (l : list K) : bool :=
  existsb (key_eqb k) l.

Lemma mem_In {K} `{Hashable K} (k : K) (l : list K) : mem k l = true <-> In k l.
Proof.
  unfold mem. rewrite existsb_exists. split.
  - intros [x [Hin Heq]]. destruct (key_eqb_spec k x); congruence.
  - intros Hin. exists k. split; [assumption | apply key_eqb_refl].
Qed.

Lemma mem_false {K} `{Hashable K} (k : K) (l : list K) : mem k l = false <-> ~ In k l.
Proof.
  rewrite <- mem_In. destruct (mem k l); split; congruence.
Qed.

(** [pandas.unique] / building a set: first occurrences, in order. *)
Fixpoint unique {K} `{Hashable K} (l : list K) : list K :=
  match l with
  | [] => []
  | x :: l' => x :: filter (fun y => negb (key_eqb x y)) (unique l')
  end.

Lemma unique_In {K} `{Hashable K} (l : list K) (k : K) : In k (unique l) <-> In k l.
Proof.
  induction l as [|x l IH]; simpl; [tauto|].
  rewrite filter_In, IH. destruct (key_eqb_spec x k) as [->|Hne]; simpl.
  - split; intros _; now left.
  - split.
    + intros [Heq|[Hin _]]; [congruence | now right].
    + intros [Heq|Hin]; [congruence | right; now split].
Qed.

Lemma NoDup_filter {A} (f : A -> bool) (l : list A) : NoDup l -> NoDup (filter f l).
Proof.
  induction 1 as [|x l Hx Hl IH]; simpl; [constructor|].
  destruct (f x); [constructor|]; auto.
  rewrite filter_In. tauto.
Qed.

Lemma unique_NoDup {K} `{Hashable K} (l : list K) : NoDup (unique l).
Proof.
  induction l as [|x l IH]; simpl; constructor.
  - rewrite filter_In. intros [_ Hx]. rewrite key_eqb_refl in Hx. discriminate.
  - apply NoDup_filter, IH.
Qed.

Module Dict.
Section Dict.
Context {K V : Type} `{Hashable K}.

Definition t := list (K * V).

Definition empty : t := [].

Fixpoint get (d : t) (k : K) : option V :=
  match d with
  | [] => None
  | (k', v) :: d' => if key_eqb k' k then Some v else get d' k
  end.

Definition contains (d : t) (k : K) : bool :=
  match get d k with Some _ => true | None => false end.

(** [d[k] = v] *)
Fixpoint set (d : t) (k : K) (v : V) : t :=
  match d with
  | [] => [(k, v)]
  | (k', v') :: d' =>
      if key_eqb k' k then (k', v) :: d' else (k', v') :: set d' k v
  end.

Definition keys (d : t) : list K := map fst d.

Definition items (d : t) : list (K * V) := d.

(** [{k: v for k, v in l}] *)
Definition of_list (l : list (K * V)) : t :=
  fold_left (fun d kv => set d (fst kv) (snd kv)) l empty.

Lemma get_set_same d k v : get (set d k v) k = Some v.
Proof.
  induction d as [|[k' v'] d IH]; simpl.
  - now rewrite key_eqb_refl.
  - destruct (key_eqb k' k) eqn:E; simpl; rewrite E; auto.
Qed.

Lemma get_set_other d k k' v : k <> k' -> get (set d k v) k' = get d k'.
Proof.
  intros Hne. induction d as [|[k0 v0] d IH]; simpl.
  - now rewrite key_eqb_neq.
  - destruct (key_eqb_spec k0 k) as [->|Hk]; simpl.
    + now rewrite key_eqb_neq.
    + now rewrite IH.
Qed.

Lemma get_set d k k' v :
  get (set d k v) k' = if key_eqb k k' then Some v else get d k'.
Proof.
  destruct (key_eqb_spec k k') as [->|Hne].
  - apply get_set_same.
  - now apply get_set_other.
Qed.

Lemma keys_set_In d k v k' : In k' (keys (set d k v)) <-> k' = k \/ In k' (keys d).
Proof.
  unfold keys. induction d as [|[k0 v0] d IH]; simpl.
  - intuition congruence.
  - destruct (key_eqb_spec k0 k) as [->|Hk]; simpl.
    + intuition congruence.
    + rewrite IH. intuition congruence.
Qed.

Lemma keys_set_NoDup d k v : NoDup (keys d) -> NoDup (keys (set d k v)).
Proof.
  unfold keys. induction d as [|[k0 v0] d IH]; simpl; intros Hnd.
  - constructor; [intros []|constructor].
  - inversion Hnd as [|? ? Hk0 Hd]; subst.
    destruct (key_eqb_spec k0 k) as [->|Hk]; simpl.
    + constructor; assumption.
    + constructor; [|auto].
      intros Hin. apply (keys_set_In d k v k0) in Hin.
      destruct Hin as [->|Hin]; [congruence | contradiction].
Qed.

Lemma get_In_keys d k : get d k <> None <-> In k (keys d).
Proof.
  unfold keys. induction d as [|[k0 v0] d IH]; simpl.
  - tauto.
  - destruct (key_eqb_spec k0 k) as [->|Hk].
    + split; [now left | congruence].
    + rewrite IH. intuition congruence.
Qed.

Lemma contains_In_keys d k : contains d k = true <-> In k (keys d).
Proof.
  rewrite <- get_In_keys. unfold contains.
  destruct (get d k); split; congruence.
Qed.

Lemma get_In d k v : get d k = Some v -> In (k, v) d.
Proof.
  induction d as [|[k0 v0] d IH]; simpl; [discriminate|].
  destruct (key_eqb_spec k0 k) as [->|Hk].
  - intros [= ->]. now left.
  - intros Hg. right. auto.
Qed.

Lemma In_get d k v : NoDup (keys d) -> In (k, v) d -> get d k = Some v.
Proof.
  unfold keys. induction d as [|[k0 v0] d IH]; simpl; [tauto|].
  intros Hnd [Heq|Hin]; inversion Hnd as [|? ? Hk0 Hd]; subst.
  - inversion Heq; subst. now rewrite key_eqb_refl.
  - destruct (key_eqb_spec k0 k) as [->|Hk]; [|auto].
    exfalso. apply Hk0. change k with (fst (k, v)). now apply in_map.
Qed.

Lemma fold_set_keys_NoDup (l : list (K * V)) (d : t) :
  NoDup (keys d) ->
  NoDup (keys (fold_left (fun d kv => set d (fst kv) (snd kv)) l d)).
Proof.
  revert d. induction l as [|[k v] l IH]; simpl; intros d Hd; [assumption|].
  apply IH, keys_set_NoDup, Hd.
Qed.

Lemma of_list_keys_NoDup l : NoDup (keys (of_list l)).
Proof. apply fold_set_keys_NoDup. constructor. Qed.

Lemma fold_set_keys_In (l : list (K * V)) (d : t) k :
  In k (keys (fold_left (fun d kv => set d (fst kv) (snd kv)) l d)) <->
  In k (keys d) \/ In k (map fst l).
Proof.
  revert d. induction l as [|[k0 v0] l IH]; simpl; intros d; [tauto|].
  rewrite IH, keys_set_In. intuition congruence.
Qed.

Lemma of_list_keys_In l k : In k (keys (of_list l)) <-> In k (map fst l).
Proof. unfold of_list. rewrite fold_set_keys_In. simpl. tauto. Qed.

End Dict.
End Dict.

(** ** Data model: the spot table [adata.obs] *)

Definition label := string.
Definition coord := (Z * Z)%type.

(** One row of [adata.obs]: grid position ([row_key], [col_key]), sample
    ([sample_key]), cluster label ([cluster_key]) and condition ([group_key]). *)
Record spot := mkSpot {
  array_row : Z;
  array_col : Z;
  sample_id : string;
  leiden : label;
  group_of : string
}.

Definition AnnData := list spot.

Inductive exn := ValueError | KeyError | IndexError.

Inductive result (A : Type) :=
| Return (a : A)
| Raise (e : exn).
Arguments Return {A} a.
Arguments Raise {A} e.

(** [d[k]] where the key is known to be present; the default is never read. *)
Definition getd {K V} `{Hashable K} (dflt : V) (d : Dict.t) (k : K) : V :=
  match Dict.get d k with Some v => v | None => dflt end.

(** ** GridAdjacency: per-sample adjacency of [compute_groupwise_adjacency_matrix] *)

(** The eight neighbour positions tested for the spot at [(row, col)]
    (lines 102-107). *)
Definition neighbors (p : coord) : list coord :=
  let '(row, col) := p in
  [ (row - 1, col); (row + 1, col);
    (row, col - 2); (row, col + 2);
    (row - 1, col - 1); (row + 1, col - 1);
    (row - 1, col + 1); (row + 1, col + 1) ]%Z.

Definition sample_spots_of (adata : AnnData) (sample : string) : list spot :=
  filter (fun s => key_eqb (sample_id s) sample) adata.

(** [spot_dict = {(row, col): cl for ...}] (lines 92-96). *)
Definition spot_dict_of (sample_spots : list spot) : @Dict.t coord label :=
  Dict.of_list (map (fun s => ((array_row s, array_col s), leiden s)) sample_spots).

(** Body of [for nb in neighbors] (lines 108-113). *)
Definition count_neighbor (spot_dict : @Dict.t coord label) (cl : label)
    (adj_counts : @Dict.t label (@Dict.t label nat)) (nb : coord)
  : @Dict.t label (@Dict.t label nat) :=
  match Dict.get spot_dict nb with
  | Some nb_cl =>
      let inner := getd Dict.empty adj_counts cl in
      let inner := if Dict.contains inner nb_cl then inner else Dict.set inner nb_cl 0%nat in
      let inner := Dict.set inner nb_cl (getd 0%nat inner nb_cl + 1)%nat in
      Dict.set adj_counts cl inner
  | None => adj_counts
  end.

(** Body of [for (row, col), cl in spot_dict.items()] (lines 99-113). *)
Definition count_spot (spot_dict : @Dict.t coord label)
    (adj_counts : @Dict.t label (@Dict.t label nat)) (item : coord * label)
  : @Dict.t label (@Dict.t label nat) :=
  let '(p, cl) := item in
  let adj_counts :=
    if Dict.contains adj_counts cl then adj_counts else Dict.set adj_counts cl Dict.empty in
  fold_left (count_neighbor spot_dict cl) (neighbors p) adj_counts.

Definition adj_counts_of (spot_dict : @Dict.t coord label)
  : @Dict.t label (@Dict.t label nat) :=
  fold_left (count_spot spot_dict) (Dict.items spot_dict) Dict.empty.

(** A float-valued pandas frame with labelled rows and columns. [df_at] is
    read only at positions of [df_index] x [df_columns]. *)
Record DataFrame := mkDataFrame {
  df_index : list label;
  df_columns : list label;
  df_at : label -> label -> Q
}.

(** [df.loc[r, c]], [None] when the position does not exist. *)
Definition loc (df : DataFrame) (r c : label) : option Q :=
  if mem r (df_index df) && mem c (df_columns df) then Some (df_at df r c) else None.

(** [pd.DataFrame.from_dict(adj_counts, orient='index').fillna(0).astype(float)]
    (line 115). *)
Definition from_dict_fillna (adj_counts : @Dict.t label (@Dict.t label nat)) : DataFrame :=
  {| df_index := Dict.keys adj_counts;
     df_columns := unique (flat_map (fun kv => Dict.keys (snd kv)) adj_counts);
     df_at := fun r c =>
       match Dict.get adj_counts r with
       | Some inner =>
           match Dict.get inner c with
           | Some n => inject_Z (Z.of_nat n)
           | None => 0
           end
       | None => 0
       end |}.

(** [Series.value_counts()] as a dictionary from value to number of rows. *)
Definition value_counts (values : list label) : @Dict.t label nat :=
  fold_left (fun d v => Dict.set d v (getd 0%nat d v + 1)%nat) values Dict.empty.

(** [adj_df.loc[cl] /= n] *)
Definition div_row (df : DataFrame) (cl : label) (n : nat) : DataFrame :=
  {| df_index := df_index df;
     df_columns := df_columns df;
     df_at := fun r c =>
       if key_eqb r cl then df_at df r c / inject_Z (Z.of_nat n) else df_at df r c |}.

(** Lines 117-119. *)
Definition normalize_rows (leiden_counts : @Dict.t label nat) (adj_df : DataFrame)
  : DataFrame :=
  fold_left
    (fun df cl =>
       match Dict.get leiden_counts cl with
       | Some n => div_row df cl n
       | None => df
       end)
    (df_index adj_df) adj_df.

(** The frame stored in [sample_adj_counts[sample]] (lines 91-121). *)
Definition sample_adj_df (sample_spots : list spot) : DataFrame :=
  let spot_dict := spot_dict_of sample_spots in
  let adj_df := from_dict_fillna (adj_counts_of spot_dict) in
  let leiden_counts := value_counts (map leiden sample_spots) in
  normalize_rows leiden_counts adj_df.

(** [df.fillna(0).reindex(index=labels, columns=labels, fill_value=0)]
    read at one position (line 135). *)
Definition reindexed (df : DataFrame) (r c : label) : Q :=
  match loc df r c with Some q => q | None => 0 end.

(** *** What the adjacency matrix is meant to hold *)

(** The fixed 8-vector neighbour offset set (lines 455-460 and 854-859). *)
Definition neighbors_offset : list (Z * Z) :=
  [ (-1, 0); (1, 0); (0, -2); (0, 2); (-1, -1); (1, -1); (-1, 1); (1, 1) ]%Z.

Definition shift (p : coord) (o : Z * Z) : coord :=
  (fst p + fst o, snd p + snd o)%Z.

(** The ordered adjacencies seen from one spot: one entry
    [(label of the spot, label of the neighbour)] per offset whose target is a
    spot of the sample. *)
Definition adjacencies_from (spot_dict : @Dict.t coord label) (item : coord * label)
  : list (label * label) :=
  flat_map
    (fun o =>
       match Dict.get spot_dict (shift (fst item) o) with
       | Some l2 => [(snd item, l2)]
       | None => []
       end)
    neighbors_offset.

Definition adjacencies (spot_dict : @Dict.t coord label) : list (label * label) :=
  flat_map (adjacencies_from spot_dict) (Dict.items spot_dict).

(** Number of ordered adjacencies from an [l1]-spot to an [l2]-spot. *)
Definition adjacency_count (spot_dict : @Dict.t coord label) (l1 l2 : label) : nat :=
  count_occ key_eq_dec (adjacencies spot_dict) (l1, l2).

(** Number of neighbour interactions of the [l1]-spots, whatever the
    neighbour's label. *)
Definition interaction_count (spot_dict : @Dict.t coord label) (l1 : label) : nat :=
  List.length (filter (fun a => key_eqb (fst a) l1) (adjacencies spot_dict)).

(** Number of spots (rows of the sample) that bear label [l]. *)
Definition spot_count (sample_spots : list spot) (l : label) : nat :=
  count_occ key_eq_dec (map leiden sample_spots) l.

Definition Qsum (l : list Q) : Q := fold_right Qplus 0 l.

(** Sum of one row of a frame over its columns. *)
Definition row_sum (df : DataFrame) (r : label) : Q :=
  Qsum (map (df_at df r) (df_columns df)).

Definition counter (adj_counts : @Dict.t label (@Dict.t label nat)) (l1 l2 : label) : nat :=
  getd 0%nat (getd Dict.empty adj_counts l1) l2.

Definition demo_spots : list spot :=
  [ mkSpot 0 0 "s1" "A" "G1"; mkSpot 0 2 "s1" "B" "G1"; mkSpot 1 1 "s1" "A" "G1";
    mkSpot 5 5 "s1" "C" "G1" ].

Lemma neighbors_shift (p : coord) : neighbors p = map (shift p) neighbors_offset.
Proof.
  destruct p as [row col]. unfold neighbors, neighbors_offset, shift. simpl.
  repeat (f_equal; try lia).
Qed.

Lemma getd_set {K V} `{Hashable K} (dflt : V) (d : Dict.t) (k k' : K) (v : V) :
  getd dflt (Dict.set d k v) k' = if key_eqb k k' then v else getd dflt d k'.
Proof.
  unfold getd. rewrite Dict.get_set. destruct (key_eqb k k'); reflexivity.
Qed.

Lemma getd_ensure {K V} `{Hashable K} (dflt : V) (d : Dict.t) (k k' : K) :
  getd dflt (if Dict.contains d k then d else Dict.set d k dflt) k' = getd dflt d k'.
Proof.
  unfold Dict.contains. destruct (Dict.get d k) eqn:E; [reflexivity|].
  rewrite getd_set. destruct (key_eqb_spec k k') as [->|Hne]; [|reflexivity].
  unfold getd. now rewrite E.
Qed.

Lemma counter_count_neighbor sd cl adj nb l1 l2 :
  counter (count_neighbor sd cl adj nb) l1 l2 =
  (counter adj l1 l2 +
   count_occ key_eq_dec
     (match Dict.get sd nb with Some nb_cl => [(cl, nb_cl)] | None => [] end) (l1, l2))%nat.
Proof.
  unfold count_neighbor, counter. destruct (Dict.get sd nb) as [nb_cl|]; simpl; [|lia].
  rewrite getd_set. destruct (key_eqb_spec cl l1) as [->|Hne].
  - rewrite getd_set. destruct (key_eqb_spec nb_cl l2) as [->|Hne2].
    + rewrite getd_ensure. destruct (key_eq_dec (l1, l2) (l1, l2)); [lia | congruence].
    + rewrite getd_ensure. destruct (key_eq_dec (l1, nb_cl) (l1, l2)); [congruence | lia].
  - destruct (key_eq_dec (cl, nb_cl) (l1, l2)); [congruence | lia].
Qed.

Lemma counter_fold_neighbors sd cl nbs adj l1 l2 :
  counter (fold_left (count_neighbor sd cl) nbs adj) l1 l2 =
  (counter adj l1 l2 +
   count_occ key_eq_dec
     (flat_map (fun nb => match Dict.get sd nb with
                          | Some nb_cl => [(cl, nb_cl)] | None => [] end) nbs)
     (l1, l2))%nat.
Proof.
  revert adj. induction nbs as [|nb nbs IH]; intros adj; simpl; [lia|].
  rewrite IH, counter_count_neighbor, count_occ_app. lia.
Qed.

Lemma counter_count_spot sd adj item l1 l2 :
  counter (count_spot sd adj item) l1 l2 =
  (counter adj l1 l2 + count_occ key_eq_dec (adjacencies_from sd item) (l1, l2))%nat.
Proof.
  destruct item as [p cl]. unfold count_spot, adjacencies_from.
  rewrite counter_fold_neighbors, neighbors_shift, flat_map_concat_map, map_map,
    <- flat_map_concat_map. simpl.
  f_equal. unfold counter. now rewrite getd_ensure.
Qed.

Lemma counter_fold_spots sd items adj l1 l2 :
  counter (fold_left (count_spot sd) items adj) l1 l2 =
  (counter adj l1 l2 +
   count_occ key_eq_dec (flat_map (adjacencies_from sd) items) (l1, l2))%nat.
Proof.
  revert adj. induction items as [|item items IH]; intros adj; simpl; [lia|].
  rewrite IH, counter_count_spot, count_occ_app. lia.
Qed.

(** The nested counters hold the adjacency counts. *)
Lemma counter_adj_counts_of sd l1 l2 :
  counter (adj_counts_of sd) l1 l2 = adjacency_count sd l1 l2.
Proof.
  unfold adj_counts_of, adjacency_count, adjacencies.
  rewrite counter_fold_spots. reflexivity.
Qed.

(** *** Keys of the nested counters *)

Lemma keys_count_neighbor sd cl adj nb k :
  In cl (Dict.keys adj) ->
  In k (Dict.keys (count_neighbor sd cl adj nb)) <-> In k (Dict.keys adj).
Proof.
  intros Hcl. unfold count_neighbor. destruct (Dict.get sd nb); [|tauto].
  rewrite Dict.keys_set_In. split; [intros [->|]|]; auto.
Qed.

Lemma keys_fold_neighbors sd cl nbs adj k :
  In cl (Dict.keys adj) ->
  In k (Dict.keys (fold_left (count_neighbor sd cl) nbs adj)) <-> In k (Dict.keys adj).
Proof.
  revert adj. induction nbs as [|nb nbs IH]; intros adj Hcl; simpl; [tauto|].
  rewrite IH; [now apply keys_count_neighbor|].
  now apply keys_count_neighbor.
Qed.

Lemma keys_count_spot sd adj p cl k :
  In k (Dict.keys (count_spot sd adj (p, cl))) <-> k = cl \/ In k (Dict.keys adj).
Proof.
  unfold count_spot. destruct (Dict.contains adj cl) eqn:E.
  - apply Dict.contains_In_keys in E. rewrite keys_fold_neighbors by assumption.
    split; [auto | intros [->|]; auto].
  - rewrite keys_fold_neighbors.
    + apply Dict.keys_set_In.
    + apply Dict.keys_set_In. now left.
Qed.

Lemma keys_fold_spots sd items adj k :
  In k (Dict.keys (fold_left (count_spot sd) items adj)) <->
  In k (Dict.keys adj) \/ In k (map snd items).
Proof.
  revert adj. induction items as [|[p cl] items IH]; intros adj; [simpl; tauto|].
  cbn [fold_left map snd]. rewrite IH, keys_count_spot. simpl.
  split; [intros [[->|?]|?] | intros [?|[<-|?]]]; auto.
Qed.

(** The rows of the adjacency frame are the labels of the sample's spots. *)
Lemma keys_adj_counts_of sd k :
  In k (Dict.keys (adj_counts_of sd)) <-> In k (map snd (Dict.items sd)).
Proof.
  unfold adj_counts_of. rewrite keys_fold_spots. simpl. tauto.
Qed.

Lemma NoDup_keys_count_neighbor sd cl adj nb :
  NoDup (Dict.keys adj) -> NoDup (Dict.keys (count_neighbor sd cl adj nb)).
Proof.
  intros Hnd. unfold count_neighbor. destruct (Dict.get sd nb); [|assumption].
  now apply Dict.keys_set_NoDup.
Qed.

Lemma NoDup_keys_count_spot sd adj item :
  NoDup (Dict.keys adj) -> NoDup (Dict.keys (count_spot sd adj item)).
Proof.
  destruct item as [p cl]. unfold count_spot. intros Hnd.
  set (adj0 := if Dict.contains adj cl then adj else Dict.set adj cl Dict.empty).
  assert (H0 : NoDup (Dict.keys adj0)).
  { unfold adj0. destruct (Dict.contains adj cl); [assumption|].
    now apply Dict.keys_set_NoDup. }
  clearbody adj0. revert adj0 H0.
  induction (neighbors p) as [|nb nbs IH]; intros adj0 H0; simpl; [assumption|].
  apply IH. now apply NoDup_keys_count_neighbor.
Qed.

Lemma NoDup_keys_adj_counts_of sd : NoDup (Dict.keys (adj_counts_of sd)).
Proof.
  unfold adj_counts_of. generalize (Dict.items sd) as items.
  assert (Hgen : forall items (adj : @Dict.t label (@Dict.t label nat)),
             NoDup (Dict.keys adj) ->
             NoDup (Dict.keys (fold_left (count_spot sd) items adj))).
  { induction items as [|item items IH]; intros adj Hnd; simpl; [assumption|].
    apply IH. now apply NoDup_keys_count_spot. }
  intros items. apply Hgen. constructor.
Qed.

(** *** [value_counts] *)

Lemma value_counts_fold (vs : list label) (d : @Dict.t label nat) (v : label) :
  getd 0%nat
    (fold_left (fun d v => Dict.set d v (getd 0%nat d v + 1)%nat) vs d) v =
  (getd 0%nat d v + count_occ key_eq_dec vs v)%nat.
Proof.
  revert d. induction vs as [|x vs IH]; intros d; simpl; [lia|].
  rewrite IH, getd_set. destruct (key_eqb_spec x v) as [->|Hne].
  - destruct (key_eq_dec v v); [lia | congruence].
  - destruct (key_eq_dec x v); [congruence | lia].
Qed.

Lemma value_counts_keys (vs : list label) (d : @Dict.t label nat) (v : label) :
  In v (Dict.keys (fold_left (fun d v => Dict.set d v (getd 0%nat d v + 1)%nat) vs d)) <->
  In v (Dict.keys d) \/ In v vs.
Proof.
  revert d. induction vs as [|x vs IH]; intros d; simpl; [tauto|].
  rewrite IH, Dict.keys_set_In. intuition congruence.
Qed.

Lemma value_counts_get (vs : list label) (v : label) :
  Dict.get (value_counts vs) v =
  if mem v vs then Some (count_occ key_eq_dec vs v) else None.
Proof.
  pose proof (value_counts_fold vs Dict.empty v) as Hc.
  pose proof (value_counts_keys vs Dict.empty v) as Hk.
  fold (value_counts vs) in Hc, Hk. unfold getd in Hc. simpl in Hc, Hk.
  rewrite <- Dict.get_In_keys in Hk.
  destruct (mem v vs) eqn:E.
  - apply mem_In in E. destruct (Dict.get (value_counts vs) v); [congruence|].
    exfalso. apply Hk; auto.
  - apply mem_false in E. destruct (Dict.get (value_counts vs) v); [|reflexivity].
    exfalso. apply E. destruct Hk as [Hk _].
    destruct Hk as [[]|]; [discriminate | assumption].
Qed.

(** *** Row normalisation *)

Lemma normalize_fold_shape lc idx df :
  let df' := fold_left
               (fun df cl => match Dict.get lc cl with
                             | Some n => div_row df cl n | None => df end) idx df in
  df_index df' = df_index df /\ df_columns df' = df_columns df.
Proof.
  revert df. induction idx as [|cl idx IH]; intros df; simpl; [auto|].
  destruct (IH (match Dict.get lc cl with Some n => div_row df cl n | None => df end))
    as [Hi Hc].
  rewrite Hi, Hc. destruct (Dict.get lc cl); auto.
Qed.

Lemma normalize_fold_at lc idx df r c :
  NoDup idx ->
  df_at (fold_left
           (fun df cl => match Dict.get lc cl with
                         | Some n => div_row df cl n | None => df end) idx df) r c =
  if mem r idx
  then match Dict.get lc r with
       | Some n => df_at df r c / inject_Z (Z.of_nat n)
       | None => df_at df r c
       end
  else df_at df r c.
Proof.
  revert df. induction idx as [|cl idx IH]; intros df Hnd; [reflexivity|].
  inversion Hnd as [|? ? Hcl Hidx]; subst.
  cbn [fold_left]. rewrite IH by assumption.
  assert (Hmem : mem r (cl :: idx) = key_eqb r cl || mem r idx) by reflexivity.
  rewrite Hmem. clear Hmem.
  destruct (key_eqb_spec r cl) as [->|Hne]; cbn [orb].
  - assert (Hm : mem cl idx = false) by now apply mem_false.
    rewrite Hm. destruct (Dict.get lc cl); [|reflexivity].
    cbn [div_row df_at]. now rewrite key_eqb_refl.
  - assert (Hat : forall c', df_at (match Dict.get lc cl with
                                    | Some n => div_row df cl n | None => df end) r c' =
                             df_at df r c').
    { intros c'. destruct (Dict.get lc cl); [|reflexivity].
      cbn [div_row df_at]. now rewrite key_eqb_neq. }
    rewrite Hat. reflexivity.
Qed.

Lemma dict_set_In {K V} `{Hashable K} (d : @Dict.t K V) k v kv :
  In kv (Dict.set d k v) -> kv = (k, v) \/ In kv d.
Proof.
  induction d as [|[k0 v0] d IH]; simpl.
  - intros [<-|[]]. now left.
  - destruct (key_eqb_spec k0 k) as [->|Hne]; simpl.
    + intros [<-|Hin]; auto.
    + intros [<-|Hin]; auto. destruct (IH Hin); auto.
Qed.

Lemma dict_of_list_In {K V} `{Hashable K} (l : list (K * V)) kv :
  In kv (Dict.of_list l) -> In kv l.
Proof.
  unfold Dict.of_list.
  assert (Hgen : forall d : @Dict.t K V,
             In kv (fold_left (fun d kv => Dict.set d (fst kv) (snd kv)) l d) ->
             In kv d \/ In kv l).
  { induction l as [|[k v] l IH]; intros d; simpl; [auto|].
    intros Hin. destruct (IH _ Hin) as [Hd|Hl]; [|auto].
    apply dict_set_In in Hd. simpl in Hd. destruct Hd as [->|Hd]; auto. }
  intros Hin. destruct (Hgen _ Hin) as [[]|]; assumption.
Qed.

(** A label found in [spot_dict] is the label of a row of the sample. *)
Lemma spot_dict_label_in_rows sample_spots l :
  In l (map snd (Dict.items (spot_dict_of sample_spots))) ->
  In l (map leiden sample_spots).
Proof.
  rewrite in_map_iff. intros [[p l'] [Heq Hin]]. simpl in Heq. subst l'.
  apply dict_of_list_In in Hin. rewrite in_map_iff in Hin.
  destruct Hin as [s [Hs Hin]]. inversion Hs; subst. now apply in_map.
Qed.

Lemma In_spot_count sample_spots l :
  In l (map leiden sample_spots) <-> (0 < spot_count sample_spots l)%nat.
Proof. unfold spot_count. apply count_occ_In. Qed.

Lemma sample_adj_df_index sample_spots :
  df_index (sample_adj_df sample_spots) =
  Dict.keys (adj_counts_of (spot_dict_of sample_spots)).
Proof.
  unfold sample_adj_df, normalize_rows.
  now destruct (normalize_fold_shape (value_counts (map leiden sample_spots))
                  (df_index (from_dict_fillna (adj_counts_of (spot_dict_of sample_spots))))
                  (from_dict_fillna (adj_counts_of (spot_dict_of sample_spots)))) as [-> _].
Qed.

Lemma sample_adj_df_columns sample_spots :
  df_columns (sample_adj_df sample_spots) =
  unique (flat_map (fun kv => Dict.keys (snd kv)) (adj_counts_of (spot_dict_of sample_spots))).
Proof.
  unfold sample_adj_df, normalize_rows.
  now destruct (normalize_fold_shape (value_counts (map leiden sample_spots))
                  (df_index (from_dict_fillna (adj_counts_of (spot_dict_of sample_spots))))
                  (from_dict_fillna (adj_counts_of (spot_dict_of sample_spots)))) as [_ ->].
Qed.

Lemma from_dict_fillna_at adj r c :
  df_at (from_dict_fillna adj) r c = inject_Z (Z.of_nat (counter adj r c)).
Proof.
  unfold from_dict_fillna, counter, getd. simpl.
  destruct (Dict.get adj r) as [inner|]; [|reflexivity].
  destruct (Dict.get inner c); reflexivity.
Qed.

(** Every row of the frame is divided once, by the number of spots of its
    label, which is positive. *)
Lemma sample_adj_df_at sample_spots r c :
  In r (df_index (sample_adj_df sample_spots)) ->
  (0 < spot_count sample_spots r)%nat /\
  df_at (sample_adj_df sample_spots) r c =
  inject_Z (Z.of_nat (adjacency_count (spot_dict_of sample_spots) r c)) /
  inject_Z (Z.of_nat (spot_count sample_spots r)).
Proof.
  intros Hin. rewrite sample_adj_df_index in Hin.
  assert (Hrow : In r (map leiden sample_spots)).
  { apply spot_dict_label_in_rows. now apply keys_adj_counts_of. }
  split; [now apply In_spot_count|].
  unfold sample_adj_df, normalize_rows.
  rewrite normalize_fold_at by apply NoDup_keys_adj_counts_of.
  cbn [from_dict_fillna df_index].
  apply mem_In in Hin. rewrite Hin, value_counts_get.
  apply mem_In in Hrow. rewrite Hrow.
  now rewrite from_dict_fillna_at, counter_adj_counts_of.
Qed.

(** An adjacency towards [c] makes [c] a column of the frame. *)
Lemma counter_pos_column adj r c :
  (0 < counter adj r c)%nat ->
  In r (Dict.keys adj) /\
  In c (unique (flat_map (fun kv => Dict.keys (snd kv)) adj)).
Proof.
  unfold counter, getd. intros Hpos.
  destruct (Dict.get adj r) as [inner|] eqn:Er; [|simpl in Hpos; lia].
  split.
  - apply Dict.get_In_keys. congruence.
  - apply unique_In, in_flat_map. exists (r, inner). split.
    + now apply Dict.get_In.
    + simpl. apply Dict.get_In_keys. destruct (Dict.get inner c); [congruence | lia].
Qed.

Definition nat_sum (f : label -> nat) (cols : list label) : nat :=
  fold_right (fun c acc => f c + acc)%nat 0%nat cols.

Lemma Qsum_div (f : label -> nat) (n : Q) (cols : list label) :
  Qsum (map (fun c => inject_Z (Z.of_nat (f c)) / n) cols) ==
  inject_Z (Z.of_nat (nat_sum f cols)) / n.
Proof.
  induction cols as [|c cols IH]; simpl.
  - unfold Qdiv. ring.
  - rewrite IH, Nat2Z.inj_add, inject_Z_plus. unfold Qdiv. ring.
Qed.

Lemma nat_sum_ext (f g : label -> nat) cols :
  (forall c, In c cols -> f c = g c) -> nat_sum f cols = nat_sum g cols.
Proof.
  induction cols as [|c cols IH]; intros Hfg; simpl; [reflexivity|].
  rewrite (Hfg c) by now left. rewrite IH; [reflexivity|].
  intros c' Hc'. apply Hfg. now right.
Qed.

Lemma nat_sum_add (f g : label -> nat) cols :
  nat_sum (fun c => f c + g c)%nat cols = (nat_sum f cols + nat_sum g cols)%nat.
Proof. induction cols as [|c cols IH]; simpl; [reflexivity | rewrite IH; lia]. Qed.

Lemma nat_sum_indicator (b : label) cols :
  NoDup cols ->
  nat_sum (fun c => if key_eqb b c then 1 else 0)%nat cols =
  if mem b cols then 1%nat else 0%nat.
Proof.
  induction 1 as [|c cols Hc Hnd IH]; [reflexivity|].
  cbn [nat_sum fold_right]. fold (nat_sum (fun c => if key_eqb b c then 1 else 0)%nat cols).
  rewrite IH. cbn [mem existsb]. fold (mem b cols).
  destruct (key_eqb_spec b c) as [->|Hne]; cbn [orb].
  - assert (Hm : mem c cols = false) by now apply mem_false.
    now rewrite Hm.
  - reflexivity.
Qed.

(** Summing the counts of [(r, c)] over a duplicate-free list of columns that
    holds every neighbour label counts the events that start at [r]. *)
Lemma sum_count_occ_columns (events : list (label * label)) (r : label) (cols : list label) :
  NoDup cols ->
  (forall c, In (r, c) events -> In c cols) ->
  nat_sum (fun c => count_occ key_eq_dec events (r, c)) cols =
  List.length (filter (fun a => key_eqb (fst a) r) events).
Proof.
  intros Hnd. induction events as [|[a b] events IH]; intros Hcols.
  - simpl. clear. induction cols; simpl; auto.
  - assert (IH' := IH (fun c Hc => Hcols c (or_intror Hc))). clear IH.
    rewrite (nat_sum_ext _
               (fun c => (if key_eqb a r then if key_eqb b c then 1 else 0 else 0) +
                         count_occ key_eq_dec events (r, c))%nat).
    + rewrite nat_sum_add, IH'. cbn [filter fst].
      destruct (key_eqb_spec a r) as [->|Hne]; cbv iota.
      * rewrite nat_sum_indicator by assumption.
        assert (Hb : mem b cols = true) by (apply mem_In, Hcols; now left).
        rewrite Hb. reflexivity.
      * assert (Hz : nat_sum (fun _ => 0%nat) cols = 0%nat)
          by (clear; induction cols; simpl; auto).
        rewrite Hz. reflexivity.
    + intros c _. cbn [count_occ].
      destruct (key_eq_dec (a, b) (r, c)) as [Heq|Hneq].
      * inversion Heq; subst. rewrite !key_eqb_refl. lia.
      * destruct (key_eqb_spec a r) as [->|]; [|reflexivity].
        destruct (key_eqb_spec b c) as [->|]; [congruence | reflexivity].
Qed.

Lemma adjacency_count_column sample_spots r c :
  (0 < adjacency_count (spot_dict_of sample_spots) r c)%nat ->
  In c (df_columns (sample_adj_df sample_spots)).
Proof.
  rewrite <- counter_adj_counts_of, sample_adj_df_columns. apply counter_pos_column.
Qed.



(** On [demo_spots]: label A has two spots with two A-B and two A-A
    adjacencies; C is isolated. *)
Example adjacency_demo :
  let d := sample_adj_df demo_spots in
  df_index d = ["A"; "B"; "C"] /\ df_columns d = ["B"; "A"] /\
  df_at d "A" "B" = 2 # 2 /\ df_at d "B" "A" = 2 # 1 /\ df_at d "C" "A" = 0.
Proof. vm_compute. repeat split. Qed.

(** ** Python's [sorted] *)

Section Sorted.
Context {A : Type} (leb : A -> A -> bool).

Fixpoint insert (x : A) (l : list A) : list A :=
  match l with
  | [] => [x]
  | y :: l' => if leb x y then x :: l else y :: insert x l'
  end.

Definition sorted (l : list A) : list A := fold_right insert [] l.

Lemma insert_perm x l : Permutation (insert x l) (x :: l).
Proof.
  induction l as [|y l IH]; simpl; [reflexivity|].
  destruct (leb x y); [reflexivity|].
  rewrite IH. apply perm_swap.
Qed.

Lemma sorted_perm l : Permutation (sorted l) l.
Proof.
  induction l as [|x l IH]; simpl; [reflexivity|].
  rewrite insert_perm. now constructor.
Qed.

Lemma sorted_In l x : In x (sorted l) <-> In x l.
Proof.
  split; apply Permutation_in; [apply sorted_perm | symmetry; apply sorted_perm].
Qed.


Lemma sorted_length l : List.length (sorted l) = List.length l.
Proof. apply Permutation_length, sorted_perm. Qed.

Lemma sorted_eq_perm l1 l2 : sorted l1 = sorted l2 -> Permutation l1 l2.
Proof.
  intros Heq. rewrite <- (sorted_perm l1), <- (sorted_perm l2), Heq. reflexivity.
Qed.

End Sorted.

(** ** PairwiseEnrichment: the rest of [compute_groupwise_adjacency_matrix] *)

Definition Qltb (x y : Q) : bool := negb (Qle_bool y x).

Lemma Qltb_lt x y : Qltb x y = true <-> x < y.
Proof.
  unfold Qltb. rewrite negb_true_iff, <- not_true_iff_false, Qle_bool_iff.
  split; [apply Qnot_le_lt | apply Qlt_not_le].
Qed.

(** [np.mean] of a vector of floats. It is applied to non-empty vectors only
    (a group that is tested has at least one matrix, see
    [group_adj_matrices_nonempty]). *)
Definition np_mean (v : list Q) : Q := Qsum v / inject_Z (Z.of_nat (List.length v)).

(** [Series.mean()]; [None] stands for the NaN of an empty column. *)
Definition series_mean (v : list Q) : option Q :=
  match v with
  | [] => None
  | _ => Some (np_mean v)
  end.

(** [x > m] where [m] may be NaN: a comparison with NaN is false. *)
Definition gt_nan (x : Q) (m : option Q) : bool :=
  match m with Some y => Qltb y x | None => false end.

(** [np.any(v)] *)
Definition np_any (v : list Q) : bool := existsb (fun x => negb (Qeq_bool x 0)) v.

Definition matrix := label -> label -> Q.

(** One row of [fdr_results]. *)
Record pair_row := mkPairRow {
  Leiden1 : label;
  Leiden2 : label;
  group1_mean : Q;
  group2_mean : Q;
  P_value_of : Q;
  FDR_corrected : Q
}.

(** [sample_adj_counts] (lines 88-121): one frame per sample, in order of first
    appearance of the sample. The samples of the loop are distinct, so every
    assignment adds a key. *)
Definition sample_adj_counts (adata : AnnData) : @Dict.t string DataFrame :=
  map (fun sample => (sample, sample_adj_df (sample_spots_of adata sample)))
      (unique (map sample_id adata)).

(** [all_leiden_classes] (line 125): the sorted union of the column and row
    labels of the concatenated per-sample frames. *)
Definition all_leiden_classes (sac : @Dict.t string DataFrame) : list label :=
  sorted String.leb
    (unique (flat_map (fun kv => df_columns (snd kv)) sac ++
             flat_map (fun kv => df_index (snd kv)) sac)).

(** Body of [for group in groups] (lines 130-140). The frame of a sample is
    re-indexed onto the unified labels; a group with no matrix gets no entry. *)
Definition collect_group (adata : AnnData) (sac : @Dict.t string DataFrame)
    (d : @Dict.t string (list matrix)) (group : string) : @Dict.t string (list matrix) :=
  let samples :=
    unique (map sample_id (filter (fun s => key_eqb (group_of s) group) adata)) in
  let group_matrices :=
    flat_map (fun s => match Dict.get sac s with
                       | Some df => [reindexed df]
                       | None => []
                       end) samples in
  match group_matrices with
  | [] => d
  | _ => Dict.set d group group_matrices
  end.

(** Lines 128-140. *)
Definition group_adj_matrices (adata : AnnData) (sac : @Dict.t string DataFrame)
    (groups : list string) : @Dict.t string (list matrix) :=
  fold_left (collect_group adata sac) groups Dict.empty.

(** [data[:, i, j]] *)
Definition values_at (data : list matrix) (l1 l2 : label) : list Q :=
  map (fun m => m l1 l2) data.

(** [merged_df] (lines 143-147): per group, the element-wise mean matrix over
    the unified labels. [pd.concat] of no frame raises. *)
Definition merged_df_of (gam : @Dict.t string (list matrix))
  : result (list (string * matrix)) :=
  match gam with
  | [] => Raise ValueError
  | _ => Return (map (fun kv => (fst kv, fun l1 l2 => np_mean (values_at (snd kv) l1 l2))) gam)
  end.

Section PairwiseEnrichment.

(** [scipy.stats.mannwhitneyu(v1, v2, alternative='two-sided')]: the p-value. *)
Variable mannwhitneyu : list Q -> list Q -> Q.
(** [statsmodels] [multipletests(p_values, method='fdr_bh')]: the corrected
    p-values. *)
Variable multipletests : list Q -> list Q.

(** The four accumulators of lines 158-173. *)
Record accumulators := mkAcc {
  p_values : list Q;
  comparisons : list (label * label);
  group1_means : list Q;
  group2_means : list Q
}.

(** Body of the inner loop (lines 162-173). *)
Definition test_pair (data1 data2 : list matrix) (l1 : label) (acc : accumulators)
    (l2 : label) : accumulators :=
  let v1 := values_at data1 l1 l2 in
  let v2 := values_at data2 l1 l2 in
  let p := if np_any v1 && np_any v2 then mannwhitneyu v1 v2 else 1 in
  {| p_values := p_values acc ++ [p];
     comparisons := comparisons acc ++ [(l1, l2)];
     group1_means := group1_means acc ++ [np_mean v1];
     group2_means := group2_means acc ++ [np_mean v2] |}.

(** Lines 158-173. *)
Definition test_all_pairs (classes : list label) (data1 data2 : list matrix)
  : accumulators :=
  fold_left
    (fun acc l1 => fold_left (test_pair data1 data2 l1) classes acc)
    classes (mkAcc [] [] [] []).

(** [pd.DataFrame({...})] (lines 177-184): the columns must have one length. *)
Definition fdr_results_of (acc : accumulators) (fdrs : list Q) : result (list pair_row) :=
  if (List.length fdrs =? List.length (p_values acc))%nat
  then Return
         (map (fun t =>
                 match t with
                 | ((((c, m1), m2), p), f) =>
                     mkPairRow (fst c) (snd c) m1 m2 p f
                 end)
              (combine (combine (combine (combine (comparisons acc) (group1_means acc))
                                         (group2_means acc)) (p_values acc)) fdrs))
  else Raise ValueError.

(** Lines 187-190. *)
Definition fdr_filter (P_value : Q) (fdr_results : list pair_row) : list pair_row :=
  filter (fun r => Qltb (FDR_corrected r) P_value &&
                   negb (key_eqb (Leiden1 r) (Leiden2 r))) fdr_results.

(** The column [f"{g}_mean"] of a row; when both groups have one name the
    later column of the frame's dictionary is the one that exists. *)
Definition mean_column (group1 group2 : string) (g : string) (r : pair_row) : Q :=
  if key_eqb g group2 then group2_mean r else group1_mean r.

(** Lines 197-205, the thresholds compared as exact rationals; which rows the
    float64 comparisons keep is stated on [Float64.focus_filter]. *)
Definition focus_filter (groups : list string) (focus_group : option string)
    (enrichment_fold : Q) (fdr_filtered : list pair_row) : result (list pair_row) :=
  match groups with
  | [group1; group2] =>
      match focus_group with
      | Some focus =>
          if mem focus groups then
            match filter (fun g => negb (key_eqb g focus)) groups with
            | other_group :: _ =>
                let focus_mean := mean_column group1 group2 focus in
                let other_mean := mean_column group1 group2 other_group in
                let overall := series_mean (map focus_mean fdr_filtered) in
                Return
                  (filter (fun r =>
                             Qltb (enrichment_fold * other_mean r) (focus_mean r) &&
                             gt_nan (focus_mean r) overall)
                          fdr_filtered)
            | [] => Raise IndexError
            end
          else Raise ValueError
      | None => Raise ValueError
      end
  | _ => Raise ValueError
  end.

(** [compute_groupwise_adjacency_matrix] (lines 21-208). *)
Definition compute_groupwise_adjacency_matrix (adata : AnnData) (groups : list string)
    (focus_group : option string) (enrichment_fold P_value : Q)
  : result (list (string * matrix) * option (list pair_row)) :=
  let sac := sample_adj_counts adata in
  let classes := all_leiden_classes sac in
  let gam := group_adj_matrices adata sac groups in
  match sac, merged_df_of gam with
  | [], _ => Raise ValueError
  | _, Raise e => Raise e
  | _, Return merged_df =>
      match groups with
      | [group1; group2] =>
          match Dict.get gam group1, Dict.get gam group2 with
          | Some data1, Some data2 =>
              let acc := test_all_pairs classes data1 data2 in
              match fdr_results_of acc (multipletests (p_values acc)) with
              | Raise e => Raise e
              | Return fdr_results =>
                  let fdr_filtered := fdr_filter P_value fdr_results in
                  match focus_filter groups focus_group enrichment_fold fdr_filtered with
                  | Raise e => Raise e
                  | Return focus_filtered => Return (merged_df, Some focus_filtered)
                  end
              end
          | _, _ => Raise KeyError
          end
      | _ => Return (merged_df, None)
      end
  end.

End PairwiseEnrichment.

(** *** The unified label set *)









(** *** The pairwise statistics table *)

Lemma combine_map_map {A B C} (f : A -> B) (g : A -> C) (l : list A) :
  combine (map f l) (map g l) = map (fun x => (f x, g x)) l.
Proof. induction l as [|x l IH]; simpl; [reflexivity | now rewrite IH]. Qed.

Lemma map_fst_combine {A B} (l : list A) (l' : list B) :
  List.length l' = List.length l -> map fst (combine l l') = l.
Proof.
  revert l'. induction l as [|x l IH]; intros [|y l'] Hlen; simpl in *;
    try reflexivity; try discriminate.
  f_equal. apply IH. lia.
Qed.

Section PairwiseFacts.
Variable mannwhitneyu : list Q -> list Q -> Q.
Variable multipletests : list Q -> list Q.







End PairwiseFacts.

Lemma NoDup_map_pair {A B} (x : A) (l : list B) : NoDup l -> NoDup (map (pair x) l).
Proof.
  induction 1 as [|y l Hy Hl IH]; simpl; constructor; [|assumption].
  rewrite in_map_iff. intros [y' [Heq Hin]]. inversion Heq; subst. contradiction.
Qed.

Lemma NoDup_list_prod {A B} (l : list A) (l' : list B) :
  NoDup l -> NoDup l' -> NoDup (list_prod l l').
Proof.
  intros Hl Hl'. induction Hl as [|x l Hx Hl IH]; simpl; [constructor|].
  apply NoDup_app; [now apply NoDup_map_pair | assumption |].
  intros [a b] Hin1 Hin2. apply in_map_iff in Hin1. destruct Hin1 as [y [Heq _]].
  inversion Heq; subst. apply in_prod_iff in Hin2. tauto.
Qed.

(** A vector "has a nonzero value"; this is what [np.any] tests. *)
Definition has_nonzero (v : list Q) : Prop := exists x, In x v /\ ~ x == 0.



(** Two samples, one per condition. In [s1] (group G1) the only A-spot
    touches a B-spot; in [s2] (group G2) one A-spot out of five does. *)
Definition demo_adata : AnnData :=
  [ mkSpot 0 0 "s1" "A" "G1"; mkSpot 0 2 "s1" "B" "G1"; mkSpot 10 10 "s1" "B" "G1";
    mkSpot 0 0 "s2" "A" "G2"; mkSpot 0 2 "s2" "B" "G2"; mkSpot 10 10 "s2" "A" "G2";
    mkSpot 20 20 "s2" "A" "G2"; mkSpot 30 30 "s2" "A" "G2"; mkSpot 40 40 "s2" "A" "G2";
    mkSpot 50 50 "s2" "C" "G2" ].


(** The groups that are tested have at least one matrix, so [np_mean] is
    never taken over an empty vector. *)
Lemma group_adj_matrices_nonempty adata sac groups g data :
  Dict.get (group_adj_matrices adata sac groups) g = Some data -> data <> [].
Proof.
  unfold group_adj_matrices.
  assert (Hgen : forall gs (d : @Dict.t string (list matrix)),
             (forall g data, Dict.get d g = Some data -> data <> []) ->
             forall g data,
               Dict.get (fold_left (collect_group adata sac) gs d) g = Some data ->
               data <> []).
  { induction gs as [|g0 gs IH]; intros d Hd; [exact Hd|].
    cbn [fold_left]. apply IH. unfold collect_group.
    destruct (flat_map _ _) as [|m ms] eqn:E; [exact Hd|].
    intros g' data'. rewrite Dict.get_set.
    destruct (key_eqb g0 g'); [intros [= <-]; discriminate | apply Hd]. }
  apply Hgen. intros g' data' Hget. discriminate.
Qed.

(** [focus_group in groups] (line 198) is false when no focus group is given. *)
Lemma focus_filter_none groups enrichment_fold fdr_filtered :
  focus_filter groups None enrichment_fold fdr_filtered = Raise ValueError.
Proof. unfold focus_filter. destruct groups as [|g1 [|g2 [|g3 gs]]]; reflexivity. Qed.

Lemma focus_filter_not_in_groups group1 group2 focus enrichment_fold fdr_filtered :
  ~ In focus [group1; group2] ->
  focus_filter [group1; group2] (Some focus) enrichment_fold fdr_filtered = Raise ValueError.
Proof.
  intros Hn. apply mem_false in Hn. unfold focus_filter. now rewrite Hn.
Qed.

Lemma focus_filter_in_groups group1 group2 focus enrichment_fold fdr_filtered :
  group1 <> group2 -> In focus [group1; group2] ->
  exists table,
    focus_filter [group1; group2] (Some focus) enrichment_fold fdr_filtered = Return table.
Proof.
  intros Hne Hin. unfold focus_filter. apply mem_In in Hin. rewrite Hin.
  apply mem_In in Hin. cbn [filter].
  destruct (key_eqb_spec group1 focus) as [->|H1]; cbn [negb].
  - destruct (key_eqb_spec group2 focus) as [->|H2]; cbn [negb]; [congruence|].
    eexists; reflexivity.
  - eexists; reflexivity.
Qed.

(** C2. The specification lets a call without focus group succeed and return
    the FDR-filtered table; the code does not. With two groups and no focus
    group (the default [focus_group=None]) the call never returns: line 198
    tests [None in groups], which is false, and line 205 raises [ValueError]
    (an earlier exception apart). *)
Theorem focus_group_none_raises
    (mannwhitneyu : list Q -> list Q -> Q) (multipletests : list Q -> list Q)
    (adata : AnnData) (group1 group2 : string) (enrichment_fold P_value : Q) :
  exists e,
    compute_groupwise_adjacency_matrix mannwhitneyu multipletests adata [group1; group2]
      None enrichment_fold P_value = Raise e.
Proof.
  unfold compute_groupwise_adjacency_matrix.
  destruct (sample_adj_counts adata) as [|kv sac'] eqn:Esac; [eexists; reflexivity|].
  rewrite <- Esac.
  destruct (merged_df_of _) as [merged|e]; [|eexists; reflexivity].
  destruct (Dict.get _ group1) as [data1|]; [|eexists; reflexivity].
  destruct (Dict.get _ group2) as [data2|]; [|eexists; reflexivity].
  destruct (fdr_results_of _ _) as [fdr_results|e]; [|eexists; reflexivity].
  rewrite focus_filter_none. eexists; reflexivity.
Qed.

(** On [demo_adata], whose two groups both have samples, the exception is the
    [ValueError] of line 205. *)
Example focus_group_none_demo :
  compute_groupwise_adjacency_matrix (fun _ _ => 1 # 100) (fun ps => ps) demo_adata
    ["G1"; "G2"] None 4 (1 # 20) = Raise ValueError.
Proof. vm_compute. reflexivity. Qed.

(** ** Sorting is canonical for a total order *)

Section SortedCanonical.
Context {A : Type} (leb : A -> A -> bool).
Hypothesis leb_total : forall x y, leb x y = true \/ leb y x = true.
Hypothesis leb_trans : forall x y z, leb x y = true -> leb y z = true -> leb x z = true.
Hypothesis leb_antisym : forall x y, leb x y = true -> leb y x = true -> x = y.

Lemma insert_insert x y l : insert leb x (insert leb y l) = insert leb y (insert leb x l).
Proof.
  induction l as [|z l IH]; simpl.
  - destruct (leb x y) eqn:Exy; destruct (leb y x) eqn:Eyx; try reflexivity.
    + now rewrite (leb_antisym x y Exy Eyx).
    + destruct (leb_total x y); congruence.
  - destruct (leb x z) eqn:Exz; destruct (leb y z) eqn:Eyz; simpl.
    + destruct (leb x y) eqn:Exy; destruct (leb y x) eqn:Eyx;
        rewrite ?Exz, ?Eyz; try reflexivity.
      * now rewrite (leb_antisym x y Exy Eyx).
      * destruct (leb_total x y); congruence.
    + rewrite Exz.
      destruct (leb y x) eqn:Eyx; [|now rewrite Eyz].
      rewrite (leb_trans y x z Eyx Exz) in Eyz. discriminate.
    + rewrite Eyz.
      destruct (leb x y) eqn:Exy; [|now rewrite Exz].
      rewrite (leb_trans x y z Exy Eyz) in Exz. discriminate.
    + now rewrite Exz, Eyz, IH.
Qed.

Lemma sorted_canonical l1 l2 : Permutation l1 l2 -> sorted leb l1 = sorted leb l2.
Proof.
  induction 1 as [|x l1 l2 _ IH|x y l|l1 l2 l3 _ IH1 _ IH2]; simpl.
  - reflexivity.
  - now rewrite IH.
  - apply insert_insert.
  - now rewrite IH1.
Qed.

Lemma sorted_eq_iff l1 l2 : sorted leb l1 = sorted leb l2 <-> Permutation l1 l2.
Proof.
  split; [apply sorted_eq_perm | apply sorted_canonical].
Qed.

End SortedCanonical.

(** ** The order of Python strings and of tuples of two strings *)

Lemma string_compare_refl (s : string) : String.compare s s = Eq.
Proof. now apply OrderedTypeEx.String_as_OT.cmp_eq. Qed.

Lemma string_compare_lt_trans (a b c : string) :
  String.compare a b = Lt -> String.compare b c = Lt -> String.compare a c = Lt.
Proof.
  intros Hab Hbc. apply OrderedTypeEx.String_as_OT.cmp_lt.
  apply OrderedTypeEx.String_as_OT.cmp_lt in Hab, Hbc.
  eapply OrderedTypeEx.String_as_OT.lt_trans; eassumption.
Qed.

Lemma string_compare_gt_lt (a b : string) :
  String.compare a b = Gt <-> String.compare b a = Lt.
Proof.
  rewrite (String.compare_antisym b a). destruct (String.compare a b); simpl;
    split; congruence.
Qed.

Lemma string_leb_trans (a b c : string) :
  String.leb a b = true -> String.leb b c = true -> String.leb a c = true.
Proof.
  unfold String.leb. intros Hab Hbc.
  destruct (String.compare a c) eqn:Eac; try reflexivity.
  apply string_compare_gt_lt in Eac.
  destruct (String.compare a b) eqn:Eab; [| |discriminate].
  - apply String.compare_eq_iff in Eab. subst b.
    apply string_compare_gt_lt in Eac. rewrite Eac in Hbc. discriminate.
  - destruct (String.compare b c) eqn:Ebc; [| |discriminate].
    + apply String.compare_eq_iff in Ebc. subst c.
      apply string_compare_gt_lt in Eac. congruence.
    + pose proof (string_compare_lt_trans _ _ _ Eac Eab) as Hcb.
      apply string_compare_gt_lt in Hcb. congruence.
Qed.

(** [p <= q] on tuples of two strings. *)
Definition pair_leb (p q : label * label) : bool :=
  match String.compare (fst p) (fst q) with
  | Lt => true
  | Gt => false
  | Eq => String.leb (snd p) (snd q)
  end.

Lemma pair_leb_total p q : pair_leb p q = true \/ pair_leb q p = true.
Proof.
  unfold pair_leb. rewrite (String.compare_antisym (fst q) (fst p)).
  destruct (String.compare (fst p) (fst q)); simpl; auto.
  apply String.leb_total.
Qed.

Lemma pair_leb_antisym p q : pair_leb p q = true -> pair_leb q p = true -> p = q.
Proof.
  destruct p as [a b], q as [c d]. unfold pair_leb. simpl.
  rewrite (String.compare_antisym c a).
  destruct (String.compare a c) eqn:E; simpl; try discriminate.
  apply String.compare_eq_iff in E. subst c. intros H1 H2.
  now rewrite (String.leb_antisym b d H1 H2).
Qed.

Lemma pair_leb_trans p q r :
  pair_leb p q = true -> pair_leb q r = true -> pair_leb p r = true.
Proof.
  destruct p as [a b], q as [c d], r as [e f]. unfold pair_leb. simpl.
  destruct (String.compare a c) eqn:Eac; try discriminate.
  - apply String.compare_eq_iff in Eac. subst c.
    destruct (String.compare a e) eqn:Eae; try discriminate; auto.
    apply string_leb_trans.
  - destruct (String.compare c e) eqn:Ece; try discriminate.
    + apply String.compare_eq_iff in Ece. subst e. now rewrite Eac.
    + now rewrite (string_compare_lt_trans _ _ _ Eac Ece).
Qed.

(** [tuple(sorted(label))] for a pair of labels (lines 340-341). *)
Definition sort_pair (p : label * label) : label * label :=
  if String.leb (fst p) (snd p) then p else (snd p, fst p).

Lemma sort_pair_sym a b : sort_pair (a, b) = sort_pair (b, a).
Proof.
  unfold sort_pair. simpl.
  destruct (String.leb a b) eqn:Eab; destruct (String.leb b a) eqn:Eba; try reflexivity.
  - now rewrite (String.leb_antisym a b Eab Eba).
  - destruct (String.leb_total a b); congruence.
Qed.

(** ** GeometricSignature: [geometric_signature] and [compare_structures] *)

From Stdlib Require Import Reals Lra.

Definition Rleb (a b : R) : bool := if Rle_dec a b then true else false.
Definition Rltb (a b : R) : bool := if Rlt_dec a b then true else false.
Definition Reqb (a b : R) : bool := if Req_dec_T a b then true else false.

Lemma Reqb_spec (a b : R) : reflect (a = b) (Reqb a b).
Proof. unfold Reqb. destruct (Req_dec_T a b); constructor; assumption. Qed.

#[export] Instance Hashable_R : Hashable R :=
  {| key_eqb := Reqb; key_eqb_spec := Reqb_spec |}.

Fixpoint list_eqb {A} `{Hashable A} (l1 l2 : list A) : bool :=
  match l1, l2 with
  | [], [] => true
  | x :: l1', y :: l2' => key_eqb x y && list_eqb l1' l2'
  | _, _ => false
  end.

Lemma list_eqb_spec {A} `{Hashable A} (l1 l2 : list A) : list_eqb l1 l2 = true <-> l1 = l2.
Proof.
  revert l2. induction l1 as [|x l1 IH]; intros [|y l2]; simpl; try (split; congruence).
  rewrite andb_true_iff, IH. destruct (key_eqb_spec x y); split.
  - intros [_ ->]. congruence.
  - intros [= _ ->]. auto.
  - intros [? _]. discriminate.
  - intros [= ? _]. contradiction.
Qed.

(** The [name] of a node is its coordinate tuple ([df["name"] = df["(x, y)"]],
    lines 506 and 696); [x] and [y] are its components. *)
Definition name := (R * R)%type.

(** The frame [structure] passed to [geometric_signature]: one row
    [(name, label)] per node. *)
Definition structure := list (name * label).

Definition Rsum (l : list R) : R := fold_right Rplus 0%R l.

(** [np.mean(coordinates, axis=0)] (line 298). *)
Definition center (s : structure) : R * R :=
  ((Rsum (map (fun nd => fst (fst nd)) s) / INR (List.length s))%R,
   (Rsum (map (fun nd => snd (fst nd)) s) / INR (List.length s))%R).

Definition vsub (p q : R * R) : R * R := ((fst p - fst q)%R, (snd p - snd q)%R).

(** [np.linalg.norm] of a plane vector. *)
Definition norm (v : R * R) : R := sqrt (fst v * fst v + snd v * snd v)%R.

(** One row of [distance_flat]. *)
Record distance_row := mkDistanceRow {
  From_name : name;
  To_name : name;
  Distance : R
}.

(** Lines 299-313: the centred vectors, their pairwise distances, and the
    stacked matrix, row-major. *)
Definition distance_flat (s : structure) : list distance_row :=
  let c := center s in
  flat_map
    (fun ni =>
       map (fun nj =>
              mkDistanceRow (fst ni) (fst nj)
                (norm (vsub (vsub (fst ni) c) (vsub (fst nj) c))))
           s)
    s.

(** [From < To] on coordinate tuples (line 316). *)
Definition name_ltb (a b : name) : bool :=
  Rltb (fst a) (fst b) || (Reqb (fst a) (fst b) && Rltb (snd a) (snd b)).

(** [sort_values(by='Distance')] (line 319). pandas does not promise the
    order of rows with equal distance; [compare_structures] does not depend
    on it (see [compare_structures_spec]). *)
Definition sort_values (rows : list distance_row) : list distance_row :=
  sorted (fun r1 r2 => Rleb (Distance r1) (Distance r2)) rows.

(** [structure.set_index('name')['label'].to_dict()] (line 322). *)
Definition labels_dict (s : structure) : @Dict.t name label := Dict.of_list s.

Definition signature := (list distance_row * list (label * label))%type.

(** [geometric_signature] (lines 296-325), over exact reals. *)
Definition geometric_signature (s : structure) : signature :=
  let sorted_distances :=
    sort_values (filter (fun r => name_ltb (From_name r) (To_name r)) (distance_flat s)) in
  let ld := labels_dict s in
  (sorted_distances,
   map (fun r => (getd EmptyString ld (From_name r), getd EmptyString ld (To_name r)))
       sorted_distances).

(** [np.rint]: the nearest integer, ties to the even one. *)
Definition rint (x : R) : Z :=
  let f := Int_part x in
  let frac := (x - IZR f)%R in
  if Rlt_dec frac (1 / 2) then f
  else if Rlt_dec (1 / 2) frac then (f + 1)%Z
  else if Z.even f then f else (f + 1)%Z.

(** [np.round(x, decimals=6)] (lines 332-333). *)
Definition round6 (x : R) : R := (IZR (rint (x * 1000000)) / 1000000)%R.

(** Filling a [defaultdict(list)] (lines 347-354). *)
Definition group_by_distance (pairs : list (R * (label * label)))
  : @Dict.t R (list (label * label)) :=
  fold_left (fun g dl => Dict.set g (fst dl) (getd [] g (fst dl) ++ [snd dl]))
            pairs Dict.empty.

(** [compare_structures] (lines 328-367); [tolerance] is not used by the code. *)
Definition compare_structures (sig1 sig2 : list distance_row)
    (labels1 labels2 : list (label * label)) : bool :=
  let distances1 := map round6 (map Distance sig1) in
  let distances2 := map round6 (map Distance sig2) in
  if negb (List.length distances1 =? List.length distances2)%nat then false
  else
    let normalized_labels1 := map sort_pair labels1 in
    let normalized_labels2 := map sort_pair labels2 in
    let group1 := group_by_distance (combine distances1 normalized_labels1) in
    let group2 := group_by_distance (combine distances2 normalized_labels2) in
    forallb
      (fun d =>
         Dict.contains group2 d &&
         list_eqb (sorted pair_leb (getd [] group1 d)) (sorted pair_leb (getd [] group2 d)))
      (sorted Rleb (Dict.keys group1)).

(** [compare_structures(sig, ref_sig, labels, ref_labels)] on two results of
    [geometric_signature]. *)
Definition same_signature (a b : signature) : bool :=
  compare_structures (fst a) (fst b) (snd a) (snd b).

(** *** What [compare_structures] decides *)

(** The entries of a signature as the comparison sees them: rounded distance
    and order-normalised label pair. *)
Definition canon (sg : signature) : list (R * (label * label)) :=
  combine (map round6 (map Distance (fst sg))) (map sort_pair (snd sg)).

(** A signature is well formed when it has one label pair per distance, as
    every result of [geometric_signature] has. *)
Definition signature_wf (sg : signature) : Prop :=
  List.length (snd sg) = List.length (fst sg).

Lemma geometric_signature_wf s : signature_wf (geometric_signature s).
Proof. unfold signature_wf, geometric_signature. simpl. apply length_map. Qed.

Lemma canon_length sg : signature_wf sg -> List.length (canon sg) = List.length (fst sg).
Proof.
  unfold signature_wf, canon. intros Hwf.
  rewrite length_combine, !length_map, Hwf. apply Nat.min_id.
Qed.

Definition bucket (pairs : list (R * (label * label))) (d : R) : list (label * label) :=
  map snd (filter (fun e => key_eqb (fst e) d) pairs).

Lemma group_by_fold_get pairs g d :
  getd [] (fold_left (fun g dl => Dict.set g (fst dl) (getd [] g (fst dl) ++ [snd dl]))
                     pairs g) d =
  getd [] g d ++ bucket pairs d.
Proof.
  revert g. induction pairs as [|[d0 l0] pairs IH]; intros g.
  - unfold bucket. simpl. now rewrite app_nil_r.
  - cbn [fold_left fst snd]. rewrite IH, getd_set. unfold bucket. cbn [filter fst].
    destruct (key_eqb_spec d0 d) as [->|Hne].
    + cbn [map snd]. now rewrite <- app_assoc.
    + reflexivity.
Qed.

Lemma group_by_fold_keys pairs (g : @Dict.t R (list (label * label))) d :
  In d (Dict.keys (fold_left (fun g dl => Dict.set g (fst dl) (getd [] g (fst dl) ++ [snd dl]))
                             pairs g)) <->
  In d (Dict.keys g) \/ In d (map fst pairs).
Proof.
  revert g. induction pairs as [|[d0 l0] pairs IH]; intros g; [simpl; tauto|].
  cbn [fold_left map fst snd]. rewrite IH, Dict.keys_set_In. simpl.
  split; [intros [[->|?]|?] | intros [?|[<-|?]]]; auto.
Qed.

Lemma group_by_get pairs d : getd [] (group_by_distance pairs) d = bucket pairs d.
Proof. unfold group_by_distance. now rewrite group_by_fold_get. Qed.

Lemma group_by_keys pairs d :
  In d (Dict.keys (group_by_distance pairs)) <-> In d (map fst pairs).
Proof. unfold group_by_distance. rewrite group_by_fold_keys. simpl. tauto. Qed.

Lemma count_occ_bucket pairs d l :
  count_occ key_eq_dec (bucket pairs d) l = count_occ key_eq_dec pairs (d, l).
Proof.
  unfold bucket. induction pairs as [|[d0 l0] pairs IH]; [reflexivity|].
  cbn [filter fst]. destruct (key_eqb_spec d0 d) as [->|Hne].
  - cbn [map snd count_occ]. rewrite IH.
    destruct (key_eq_dec l0 l) as [Hl|Hl]; destruct (key_eq_dec (d, l0) (d, l)) as [He|He];
      try reflexivity; congruence.
  - rewrite IH. cbn [count_occ].
    destruct (key_eq_dec (d0, l0) (d, l)); [congruence | reflexivity].
Qed.

Lemma Permutation_bucket pairs1 pairs2 d :
  Permutation pairs1 pairs2 -> Permutation (bucket pairs1 d) (bucket pairs2 d).
Proof.
  intros Hp. unfold bucket. apply (Permutation_map snd).
  induction Hp as [|x l1 l2 _ IH|x y l|l1 l2 l3 _ IH1 _ IH2]; cbn [filter].
  - constructor.
  - destruct (key_eqb (fst x) d); [now constructor | assumption].
  - destruct (key_eqb (fst y) d); destruct (key_eqb (fst x) d);
      first [apply perm_swap | apply Permutation_refl].
  - now rewrite IH1.
Qed.

(** A multiset included in another one of the same size is equal to it. *)
Lemma Permutation_of_count_le {A} (dec : forall x y : A, {x = y} + {x <> y})
    (l1 l2 : list A) :
  List.length l1 = List.length l2 ->
  (forall x, (count_occ dec l1 x <= count_occ dec l2 x)%nat) ->
  Permutation l1 l2.
Proof.
  revert l2. induction l1 as [|a l1 IH]; intros l2 Hlen Hle.
  - destruct l2; [constructor | discriminate].
  - assert (Hin : In a l2).
    { apply (count_occ_In dec). specialize (Hle a). simpl in Hle.
      destruct (dec a a); [lia | congruence]. }
    apply in_split in Hin. destruct Hin as [u [v ->]].
    rewrite <- Permutation_middle. constructor. apply IH.
    + rewrite length_app in *. simpl in *. lia.
    + intros x. specialize (Hle x). rewrite count_occ_app in *. simpl in Hle.
      destruct (dec a x); lia.
Qed.

(** On well-formed signatures, [compare_structures] holds exactly when the two
    signatures have the same multiset of (rounded distance, normalised label
    pair) entries. In particular the order of rows of equal distance is
    irrelevant. *)
Lemma compare_structures_spec (a b : signature) :
  signature_wf a -> signature_wf b ->
  same_signature a b = true <-> Permutation (canon a) (canon b).
Proof.
  intros Ha Hb. unfold same_signature, compare_structures.
  fold (canon a). fold (canon b).
  pose proof (canon_length a Ha) as La. pose proof (canon_length b Hb) as Lb.
  rewrite !length_map.
  destruct (Nat.eqb_spec (List.length (fst a)) (List.length (fst b))) as [Hlen|Hlen]; simpl.
  - rewrite forallb_forall. split.
    + intros Hall. apply (Permutation_of_count_le key_eq_dec); [congruence|].
      intros [d l].
      destruct (in_dec key_eq_dec d (map fst (canon a))) as [Hd|Hd].
      * assert (Hk : In d (sorted Rleb (Dict.keys (group_by_distance (canon a)))))
          by now apply sorted_In, group_by_keys.
        apply Hall in Hk. apply andb_true_iff in Hk. destruct Hk as [_ Hk].
        apply list_eqb_spec in Hk. rewrite !group_by_get in Hk.
        apply sorted_eq_perm in Hk.
        rewrite <- !count_occ_bucket.
        rewrite (Permutation_count_occ key_eq_dec) in Hk. now rewrite Hk.
      * assert (Hz : count_occ key_eq_dec (canon a) (d, l) = 0%nat).
        { apply count_occ_not_In. intros Hin. apply Hd.
          change d with (fst (d, l)). now apply in_map. }
        lia.
    + intros Hp d Hd. apply sorted_In, group_by_keys in Hd.
      apply andb_true_iff. split.
      * apply Dict.contains_In_keys, group_by_keys.
        eapply Permutation_in; [apply Permutation_map; exact Hp | exact Hd].
      * apply list_eqb_spec. rewrite !group_by_get.
        apply (sorted_canonical pair_leb pair_leb_total pair_leb_trans pair_leb_antisym).
        now apply Permutation_bucket.
  - split; [discriminate|]. intros Hp. apply Permutation_length in Hp. congruence.
Qed.

(** *** The entries of a geometric signature *)

(** Euclidean distance of two points of the plane. *)
Definition euclid (p q : name) : R :=
  sqrt ((fst p - fst q) * (fst p - fst q) + (snd p - snd q) * (snd p - snd q))%R.

Lemma norm_centered (p q c : R * R) : norm (vsub (vsub p c) (vsub q c)) = euclid p q.
Proof. unfold norm, euclid, vsub. simpl. f_equal. ring. Qed.

Lemma euclid_sym p q : euclid p q = euclid q p.
Proof. unfold euclid. f_equal. ring. Qed.

Lemma euclid_zero p q : euclid p q = 0%R -> p = q.
Proof.
  destruct p as [x1 y1], q as [x2 y2]. unfold euclid. simpl. intros H.
  pose proof (Rle_0_sqr (x1 - x2)) as Hx. pose proof (Rle_0_sqr (y1 - y2)) as Hy.
  unfold Rsqr in Hx, Hy.
  apply sqrt_eq_0 in H; [|lra].
  assert (Hx0 : ((x1 - x2) * (x1 - x2) = 0)%R) by lra.
  assert (Hy0 : ((y1 - y2) * (y1 - y2) = 0)%R) by lra.
  apply Rmult_integral in Hx0, Hy0.
  f_equal; lra.
Qed.

(** The entry of the signature that a pair of nodes gives rise to. *)
Definition pair_entry (ab : (name * label) * (name * label)) : R * (label * label) :=
  (round6 (euclid (fst (fst ab)) (fst (snd ab))), sort_pair (snd (fst ab), snd (snd ab))).

Lemma pair_entry_sym a b : pair_entry (a, b) = pair_entry (b, a).
Proof. unfold pair_entry. simpl. now rewrite euclid_sym, sort_pair_sym. Qed.

(** The unordered pairs of distinct positions of a list. *)
Fixpoint upairs {A} (l : list A) : list (A * A) :=
  match l with
  | [] => []
  | x :: l' => map (pair x) l' ++ upairs l'
  end.

Lemma name_ltb_irrefl a : name_ltb a a = false.
Proof.
  unfold name_ltb, Rltb, Reqb.
  destruct (Rlt_dec (fst a) (fst a)); [lra|].
  destruct (Rlt_dec (snd a) (snd a)); [lra|].
  destruct (Req_dec_T (fst a) (fst a)); reflexivity.
Qed.

Lemma name_ltb_total a b : a <> b -> name_ltb a b = negb (name_ltb b a).
Proof.
  destruct a as [x1 y1], b as [x2 y2]. intros Hne. unfold name_ltb, Rltb, Reqb. simpl.
  destruct (Rlt_dec x1 x2); destruct (Rlt_dec x2 x1);
    destruct (Req_dec_T x1 x2); destruct (Req_dec_T x2 x1);
    destruct (Rlt_dec y1 y2); destruct (Rlt_dec y2 y1); simpl; try reflexivity; try lra.
  exfalso. apply Hne. f_equal; lra.
Qed.

Lemma Permutation_filter {A} (f : A -> bool) (l l' : list A) :
  Permutation l l' -> Permutation (filter f l) (filter f l').
Proof.
  induction 1 as [|x l1 l2 _ IH|x y l|l1 l2 l3 _ IH1 _ IH2]; cbn [filter].
  - constructor.
  - destruct (f x); [now constructor | assumption].
  - destruct (f y); destruct (f x); first [apply perm_swap | apply Permutation_refl].
  - now rewrite IH1.
Qed.

Lemma filter_map_comm {A B} (f : B -> bool) (g : A -> B) (l : list A) :
  filter f (map g l) = map g (filter (fun x => f (g x)) l).
Proof.
  induction l as [|x l IH]; simpl; [reflexivity|].
  destruct (f (g x)); simpl; now rewrite IH.
Qed.

Lemma flat_map_list_prod {A B C} (g : A -> B -> C) (l : list A) (l' : list B) :
  flat_map (fun a => map (g a) l') l = map (fun p => g (fst p) (snd p)) (list_prod l l').
Proof.
  induction l as [|a l IH]; simpl; [reflexivity|].
  now rewrite IH, map_app, map_map.
Qed.

Lemma list_prod_cons_r {A B} (l : list A) (y : B) (l' : list B) :
  Permutation (list_prod l (y :: l')) (map (fun x => (x, y)) l ++ list_prod l l').
Proof.
  induction l as [|x l IH]; simpl; [constructor|].
  constructor. rewrite IH. rewrite !app_assoc.
  apply Permutation_app_tail, Permutation_app_comm.
Qed.

Section Orientation.
Context {A B : Type} (h : A * A -> B) (o : A * A -> bool).
Hypothesis h_sym : forall a b, h (a, b) = h (b, a).

(** Choosing one orientation of every pair [x, y] gives the entries of the
    pairs [(x, y)]. *)
Lemma orient_one (x : A) (t : list A) :
  (forall y, In y t -> o (x, y) = negb (o (y, x))) ->
  Permutation (map h (filter o (map (pair x) t)) ++
               map h (filter o (map (fun y => (y, x)) t)))
              (map h (map (pair x) t)).
Proof.
  induction t as [|y t IH]; intros Hor; [constructor|].
  assert (IH' := IH (fun z Hz => Hor z (or_intror Hz))).
  cbn [map filter]. rewrite (Hor y (or_introl eq_refl)).
  destruct (o (y, x)); cbn [negb map app].
  - rewrite <- Permutation_middle, (h_sym y x). now constructor.
  - now constructor.
Qed.

Lemma orient_all (s : list A) :
  (forall x, In x s -> o (x, x) = false) ->
  (forall x y, In x s -> In y s -> x <> y -> o (x, y) = negb (o (y, x))) ->
  NoDup s ->
  Permutation (map h (filter o (list_prod s s))) (map h (upairs s)).
Proof.
  intros Hirr Hor Hnd. induction Hnd as [|x t Hx Hnd IH]; [constructor|].
  cbn [list_prod upairs map filter app].
  rewrite (Hirr x (or_introl eq_refl)).
  rewrite filter_app, !map_app.
  assert (Hmid : Permutation (map h (filter o (list_prod t (x :: t))))
                   (map h (filter o (map (fun y => (y, x)) t)) ++
                    map h (filter o (list_prod t t)))).
  { rewrite <- map_app, <- filter_app.
    apply Permutation_map, Permutation_filter, list_prod_cons_r. }
  rewrite Hmid, app_assoc.
  apply Permutation_app.
  - apply orient_one. intros y Hy. apply Hor; [now left | now right |].
    intros ->. contradiction.
  - apply IH.
    + intros y Hy. apply Hirr. now right.
    + intros y z Hy Hz. apply Hor; now right.
Qed.

Lemma upairs_perm (l l' : list A) :
  Permutation l l' -> Permutation (map h (upairs l)) (map h (upairs l')).
Proof.
  induction 1 as [|x l1 l2 Hp IH|x y l|l1 l2 l3 _ IH1 _ IH2].
  - constructor.
  - cbn [upairs]. rewrite !map_app. apply Permutation_app; [|assumption].
    apply Permutation_map. now apply Permutation_map.
  - cbn [upairs map app]. rewrite (h_sym y x). constructor.
    rewrite !map_app, !app_assoc. apply Permutation_app_tail, Permutation_app_comm.
  - now rewrite IH1.
Qed.

End Orientation.

Lemma upairs_map {A B} (g : A -> B) (l : list A) :
  upairs (map g l) = map (fun p => (g (fst p), g (snd p))) (upairs l).
Proof.
  induction l as [|x l IH]; simpl; [reflexivity|].
  now rewrite IH, map_app, !map_map.
Qed.


Lemma dict_set_fresh {K V} `{Hashable K} (d : @Dict.t K V) k v :
  ~ In k (Dict.keys d) -> Dict.set d k v = d ++ [(k, v)].
Proof.
  unfold Dict.keys. induction d as [|[k0 v0] d IH]; simpl; intros Hn; [reflexivity|].
  destruct (key_eqb_spec k0 k) as [->|Hne]; [tauto|].
  rewrite IH; tauto.
Qed.

Lemma dict_fold_set_fresh {K V} `{Hashable K} (l : list (K * V)) (d : @Dict.t K V) :
  NoDup (Dict.keys d ++ map fst l) ->
  fold_left (fun d kv => Dict.set d (fst kv) (snd kv)) l d = d ++ l.
Proof.
  revert d. induction l as [|[k v] l IH]; intros d Hnd; simpl.
  - now rewrite app_nil_r.
  - simpl in Hnd. rewrite dict_set_fresh.
    + rewrite IH.
      * now rewrite <- app_assoc.
      * unfold Dict.keys in *. rewrite map_app, <- app_assoc. exact Hnd.
    + apply NoDup_remove_2 in Hnd. intros Hin. apply Hnd, in_or_app. now left.
Qed.

(** A dictionary built from rows with distinct keys holds exactly the rows. *)
Lemma dict_of_list_NoDup {K V} `{Hashable K} (l : list (K * V)) :
  NoDup (map fst l) -> Dict.of_list l = l.
Proof. intros Hnd. unfold Dict.of_list. now rewrite dict_fold_set_fresh. Qed.

Lemma labels_dict_get (s : structure) nd :
  NoDup (map fst s) -> In nd s -> getd EmptyString (labels_dict s) (fst nd) = snd nd.
Proof.
  intros Hnd Hin. unfold labels_dict, getd. rewrite dict_of_list_NoDup by assumption.
  destruct nd as [n l]. now rewrite (Dict.In_get s n l Hnd Hin).
Qed.

(** The comparison entries of the signature of a structure whose nodes have
    distinct names: one entry per unordered pair of nodes. *)
Lemma canon_geometric_signature (s : structure) :
  NoDup (map fst s) ->
  Permutation (canon (geometric_signature s)) (map pair_entry (upairs s)).
Proof.
  intros Hnd. unfold canon, geometric_signature. cbn [fst snd].
  rewrite !map_map, combine_map_map.
  unfold sort_values. etransitivity; [apply Permutation_map, sorted_perm|].
  unfold distance_flat. cbv zeta.
  rewrite (flat_map_list_prod
             (fun ni nj : name * label =>
                mkDistanceRow (fst ni) (fst nj)
                  (norm (vsub (vsub (fst ni) (center s)) (vsub (fst nj) (center s)))))).
  rewrite filter_map_comm, map_map.
  cbn [From_name To_name].
  rewrite (map_ext_in _ pair_entry).
  - apply orient_all.
    + intros a b. apply pair_entry_sym.
    + intros x _. apply name_ltb_irrefl.
    + intros x y Hx Hy Hne. cbn [fst snd]. apply name_ltb_total. intros Heq. apply Hne.
      destruct x as [n l], y as [n' l']. simpl in Heq. subst n'.
      assert (H1 := Dict.In_get s n l Hnd Hx).
      assert (H2 := Dict.In_get s n l' Hnd Hy). congruence.
    + eapply NoDup_map_inv. exact Hnd.
  - intros [a b] Hin. apply filter_In in Hin. destruct Hin as [Hin _].
    apply in_prod_iff in Hin. destruct Hin as [Ha Hb].
    unfold pair_entry. cbn [fst snd Distance From_name To_name].
    now rewrite norm_centered, (labels_dict_get s a Hnd Ha), (labels_dict_get s b Hnd Hb).
Qed.

(** *** Isometries of the plane *)

Inductive isometry :=
| Translate (dx dy : R)
| Rotate (theta : R)
| Reflect
| Compose (f g : isometry).

Fixpoint apply_isometry (f : isometry) (p : name) : name :=
  match f with
  | Translate dx dy => ((fst p + dx)%R, (snd p + dy)%R)
  | Rotate theta =>
      ((fst p * cos theta - snd p * sin theta)%R,
       (fst p * sin theta + snd p * cos theta)%R)
  | Reflect => (fst p, (- snd p)%R)
  | Compose f g => apply_isometry f (apply_isometry g p)
  end.

(** The structure moved by an isometry: coordinates are transformed, labels
    are carried along. *)
Definition transform (f : isometry) (s : structure) : structure :=
  map (fun nd => (apply_isometry f (fst nd), snd nd)) s.

Lemma euclid_isometry f p q :
  euclid (apply_isometry f p) (apply_isometry f q) = euclid p q.
Proof.
  revert p q. induction f as [dx dy|theta| |f IHf g IHg]; intros p q.
  - unfold euclid. simpl. f_equal. ring.
  - unfold euclid. simpl. f_equal.
    pose proof (sin2_cos2 theta) as Hsc. unfold Rsqr in Hsc.
    transitivity (((fst p - fst q) * (fst p - fst q) + (snd p - snd q) * (snd p - snd q)) *
                  (sin theta * sin theta + cos theta * cos theta))%R; [ring|].
    rewrite Hsc. ring.
  - unfold euclid. simpl. f_equal. ring.
  - simpl. now rewrite IHf, IHg.
Qed.

Lemma apply_isometry_inj f p q : apply_isometry f p = apply_isometry f q -> p = q.
Proof.
  intros Heq. apply euclid_zero. rewrite <- (euclid_isometry f), Heq.
  unfold euclid. replace (_ + _)%R with 0%R by ring. apply sqrt_0.
Qed.

Lemma transform_NoDup f s : NoDup (map fst s) -> NoDup (map fst (transform f s)).
Proof.
  unfold transform. rewrite map_map. cbn [fst].
  induction s as [|nd s IH]; simpl; intros Hnd; [constructor|].
  inversion Hnd as [|? ? Hn Hs]; subst. constructor; [|auto].
  rewrite in_map_iff. intros [nd' [Heq Hin]]. apply apply_isometry_inj in Heq.
  apply Hn. rewrite <- Heq. now apply in_map.
Qed.

Lemma pair_entry_transform f s :
  map pair_entry (upairs (transform f s)) = map pair_entry (upairs s).
Proof.
  unfold transform. rewrite upairs_map, map_map. apply map_ext. intros [a b].
  unfold pair_entry. cbn [fst snd]. now rewrite euclid_isometry.
Qed.

(** The nodes of a motif are distinct spots: no two have the same name. *)
Definition distinct_nodes (s : structure) : Prop := NoDup (map fst s).

(** In exact real arithmetic the signature of a motif moved by an isometry of
    the plane (any composition of translations, rotations and the
    reflection), its nodes enumerated in any order, compares equal to the
    signature of the motif. What holds of the float64 computation is stated
    on [Float64.geometric_signature]. *)
Theorem signature_invariant (s s' : structure) (f : isometry) :
  distinct_nodes s ->
  Permutation s' (transform f s) ->
  same_signature (geometric_signature s') (geometric_signature s) = true /\
  same_signature (geometric_signature s) (geometric_signature s') = true.
Proof.
  intros Hnd Hperm.
  assert (Hnd' : distinct_nodes s').
  { unfold distinct_nodes. eapply Permutation_NoDup.
    - symmetry. apply Permutation_map. exact Hperm.
    - now apply transform_NoDup. }
  assert (Hcanon : Permutation (canon (geometric_signature s'))
                               (canon (geometric_signature s))).
  { rewrite (canon_geometric_signature s' Hnd'), (canon_geometric_signature s Hnd).
    rewrite <- (pair_entry_transform f s).
    apply upairs_perm; [intros a b; apply pair_entry_sym | exact Hperm]. }
  split; apply compare_structures_spec;
    try apply geometric_signature_wf; [exact Hcanon | symmetry; exact Hcanon].
Qed.

Definition demo_structure : structure :=
  [ ((0%R, 0%R), "A"); ((1%R, 1%R), "B"); ((0%R, 2%R), "A") ].

Definition demo_isometry : isometry :=
  Compose (Translate 3 4) (Compose (Rotate (PI / 6)) Reflect).

Lemma demo_structure_distinct : distinct_nodes demo_structure.
Proof.
  unfold distinct_nodes, demo_structure. simpl.
  repeat constructor; simpl; intros H;
    repeat (destruct H as [H|H]; [inversion H; lra|]); assumption.
Qed.

Lemma signature_invariant_witness :
  same_signature (geometric_signature (rev (transform demo_isometry demo_structure)))
                 (geometric_signature demo_structure) = true.
Proof.
  apply (signature_invariant demo_structure _ demo_isometry).
  - exact demo_structure_distinct.
  - symmetry. apply Permutation_rev.
Defined.

(** *** Label multisets *)

(** Number of occurrences of [x] among the components of label pairs. *)
Definition occ (x : label) (ps : list (label * label)) : nat :=
  fold_right
    (fun p acc => ((if key_eqb (fst p) x then 1 else 0) +
                   (if key_eqb (snd p) x then 1 else 0) + acc)%nat)
    0%nat ps.

Lemma occ_app x ps qs : occ x (ps ++ qs) = (occ x ps + occ x qs)%nat.
Proof. induction ps as [|p ps IH]; simpl; [reflexivity | rewrite IH; lia]. Qed.

Lemma occ_perm x ps qs : Permutation ps qs -> occ x ps = occ x qs.
Proof.
  induction 1 as [|p l1 l2 _ IH|p q l|l1 l2 l3 _ IH1 _ IH2]; simpl; lia.
Qed.

Lemma occ_sort_pair x ps : occ x (map sort_pair ps) = occ x ps.
Proof.
  induction ps as [|[a b] ps IH]; simpl; [reflexivity|]. rewrite IH.
  unfold sort_pair. simpl. destruct (String.leb a b); simpl; lia.
Qed.

Lemma occ_map_pair x a (L : list label) :
  occ x (map (pair a) L) =
  ((if key_eqb a x then List.length L else 0) + count_occ key_eq_dec L x)%nat.
Proof.
  induction L as [|b L IH].
  - cbn. destruct (String.eqb a x); reflexivity.
  - cbn [map occ fold_right fst snd List.length count_occ]. fold (occ x (map (pair a) L)).
    rewrite IH. destruct (key_eqb a x); destruct (key_eq_dec b x) as [->|Hne].
    + rewrite key_eqb_refl. lia.
    + rewrite (key_eqb_neq b x) by assumption. lia.
    + rewrite key_eqb_refl. lia.
    + rewrite (key_eqb_neq b x) by assumption. lia.
Qed.

Lemma occ_upairs x (L : list label) :
  (occ x (upairs L) + count_occ key_eq_dec L x = List.length L * count_occ key_eq_dec L x)%nat.
Proof.
  induction L as [|a L IH]; [reflexivity|].
  cbn [upairs List.length count_occ]. rewrite occ_app, occ_map_pair.
  destruct (key_eq_dec a x) as [->|Hne].
  - rewrite key_eqb_refl. lia.
  - rewrite (key_eqb_neq a x) by assumption. lia.
Qed.

Lemma upairs_length {A} (L : list A) :
  (2 * List.length (upairs L) + List.length L = List.length L * List.length L)%nat.
Proof.
  induction L as [|a L IH]; [reflexivity|].
  cbn [upairs List.length]. rewrite length_app, length_map. lia.
Qed.

Lemma label_pairs_of_entries (s : structure) :
  map snd (map pair_entry (upairs s)) = map sort_pair (upairs (map snd s)).
Proof.
  rewrite upairs_map, !map_map. apply map_ext. intros [a b]. reflexivity.
Qed.

(** C7. Two motifs (nodes at distinct positions, at least one of the two with
    two nodes or more) whose multisets of node labels differ never match,
    whatever their distances. *)
Theorem different_labels_never_match (s1 s2 : structure) :
  distinct_nodes s1 -> distinct_nodes s2 ->
  (2 <= List.length s1 \/ 2 <= List.length s2)%nat ->
  ~ Permutation (map snd s1) (map snd s2) ->
  same_signature (geometric_signature s1) (geometric_signature s2) = false.
Proof.
  intros Hnd1 Hnd2 Hsize Hlabels.
  apply not_true_iff_false. intros Hsame. apply Hlabels. clear Hlabels.
  apply compare_structures_spec in Hsame; try apply geometric_signature_wf.
  rewrite (canon_geometric_signature s1 Hnd1), (canon_geometric_signature s2 Hnd2) in Hsame.
  apply (Permutation_map snd) in Hsame. rewrite !label_pairs_of_entries in Hsame.
  set (L1 := map snd s1) in *. set (L2 := map snd s2) in *.
  assert (Hlen : List.length L1 = List.length L2).
  { pose proof (Permutation_length Hsame) as Hl. rewrite !length_map in Hl.
    pose proof (upairs_length L1) as H1. pose proof (upairs_length L2) as H2.
    assert (Hs : (2 <= List.length L1 \/ 2 <= List.length L2)%nat)
      by (unfold L1, L2; now rewrite !length_map).
    nia. }
  apply (Permutation_count_occ key_eq_dec). intros x.
  pose proof (occ_perm x _ _ Hsame) as Hocc. rewrite !occ_sort_pair in Hocc.
  pose proof (occ_upairs x L1) as H1. pose proof (occ_upairs x L2) as H2.
  assert (Hn : (2 <= List.length L1)%nat).
  { unfold L1, L2 in *. rewrite !length_map in *. lia. }
  rewrite <- Hlen in H2. nia.
Qed.

Lemma different_labels_never_match_witness :
  same_signature (geometric_signature demo_structure)
                 (geometric_signature [ ((0%R, 0%R), "A"); ((1%R, 1%R), "B"); ((0%R, 2%R), "B") ])
  = false.
Proof.
  apply different_labels_never_match.
  - exact demo_structure_distinct.
  - unfold distinct_nodes. simpl.
    repeat constructor; simpl; intros H;
      repeat (destruct H as [H|H]; [inversion H; lra|]); assumption.
  - left. simpl. lia.
  - intros Hp. apply (Permutation_count_occ key_eq_dec) with (x := "A") in Hp.
    vm_compute in Hp. discriminate.
Defined.

(** With fewer than two nodes there is no pair of nodes: the signature is
    empty, and two such signatures match whatever the labels are. *)
Example single_node_signatures_match :
  same_signature (geometric_signature [ ((0%R, 0%R), "A") ])
                 (geometric_signature [ ((0%R, 0%R), "B") ]) = true.
Proof.
  apply compare_structures_spec; try apply geometric_signature_wf.
  rewrite !canon_geometric_signature by (repeat constructor; simpl; tauto).
  simpl. constructor.
Qed.

(** ** MotifGrouping: greedy grouping by representative *)

Section GreedyGrouping.
Context {K Sg : Type} `{Hashable K}.

(** [compare_structures(sig, ref_sig, labels, ref_labels)] *)
Variable matches : Sg -> Sg -> bool.
(** [structure_signatures[ref]], for a key that is in the dictionary. *)
Variable sig_of : K -> Sg.

(** Lines 515-521: the id of the first group whose first member matches.
    A group is never empty. *)
Fixpoint find_match (sg : Sg) (grouped : @Dict.t nat (list K)) : option nat :=
  match grouped with
  | [] => None
  | (gid, items) :: rest =>
      match items with
      | ref :: _ =>
          if matches sg (sig_of ref) then Some gid else find_match sg rest
      | [] => find_match sg rest
      end
  end.

(** Lines 514-526, one iteration. *)
Definition group_step (grouped : @Dict.t nat (list K)) (item : K * Sg)
  : @Dict.t nat (list K) :=
  match find_match (snd item) grouped with
  | Some matched => Dict.set grouped matched (getd [] grouped matched ++ [fst item])
  | None => Dict.set grouped (List.length grouped) [fst item]
  end.

(** Lines 513-526. *)
Definition group_all (items : list (K * Sg)) : @Dict.t nat (list K) :=
  fold_left group_step items Dict.empty.

(** *** The groups are the classes of the matching relation *)

Definition equiv (x y : K) : bool := matches (sig_of x) (sig_of y).

Hypothesis equiv_refl : forall x, equiv x x = true.
Hypothesis equiv_sym : forall x y, equiv x y = true -> equiv y x = true.
Hypothesis equiv_trans :
  forall x y z, equiv x y = true -> equiv y z = true -> equiv x z = true.

(** Members of the class of [r] among the keys [P], in order. *)
Definition class_of (P : list K) (r : K) : list K := filter (fun y => equiv y r) P.

(** First members of the classes met in [P], in order of first appearance. *)
Definition reps_step (rs : list K) (x : K) : list K :=
  if existsb (equiv x) rs then rs else rs ++ [x].

Definition reps (P : list K) : list K := fold_left reps_step P [].

Definition numbered (a : nat) (groups : list (list K)) : @Dict.t nat (list K) :=
  combine (seq a (List.length groups)) groups.

Lemma class_of_snoc P x r :
  class_of (P ++ [x]) r = class_of P r ++ (if equiv x r then [x] else []).
Proof. unfold class_of. rewrite filter_app. reflexivity. Qed.

Lemma numbered_cons a g groups :
  numbered a (g :: groups) = (a, g) :: numbered (S a) groups.
Proof. reflexivity. Qed.

Lemma numbered_keys_ge a groups k : In k (Dict.keys (numbered a groups)) -> (a <= k)%nat.
Proof.
  revert a. induction groups as [|g groups IH]; intros a; [intros []|].
  rewrite numbered_cons. cbn [Dict.keys map fst]. intros [<-|Hin]; [lia|].
  apply IH in Hin. lia.
Qed.

Lemma numbered_snoc a groups g :
  Dict.set (numbered a groups) (a + List.length groups)%nat g = numbered a (groups ++ [g]).
Proof.
  revert a. induction groups as [|g0 groups IH]; intros a.
  - cbn. now rewrite Nat.add_0_r.
  - rewrite numbered_cons. cbn [Dict.set List.length app].
    rewrite key_eqb_neq by (cbn; lia).
    rewrite numbered_cons. f_equal.
    replace (a + S (List.length groups))%nat with (S a + List.length groups)%nat by lia.
    apply IH.
Qed.

Lemma numbered_length a groups : List.length (numbered a groups) = List.length groups.
Proof. unfold numbered. rewrite length_combine, length_seq. apply Nat.min_id. Qed.

Definition pairwise_distinct (rs : list K) : Prop :=
  forall i j r r', nth_error rs i = Some r -> nth_error rs j = Some r' ->
                   i <> j -> equiv r r' = false.

Lemma pairwise_distinct_tail r rs : pairwise_distinct (r :: rs) -> pairwise_distinct rs.
Proof.
  intros Hp i j a b Hi Hj Hne. apply (Hp (S i) (S j)); simpl; auto.
Qed.

Lemma pairwise_distinct_head r rs r' :
  pairwise_distinct (r :: rs) -> In r' rs -> equiv r r' = false.
Proof.
  intros Hp Hin. apply In_nth_error in Hin. destruct Hin as [j Hj].
  apply (Hp 0%nat (S j)); simpl; auto.
Qed.

(** One iteration on groups that are the classes of [P]. *)
Lemma group_step_classes (P : list K) (x : K) (rs : list K) (a : nat) :
  (forall r, In r rs -> exists tl, class_of P r = r :: tl) ->
  pairwise_distinct rs ->
  match find_match (sig_of x) (numbered a (map (class_of P) rs)) with
  | Some gid =>
      existsb (equiv x) rs = true /\
      Dict.set (numbered a (map (class_of P) rs)) gid
        (getd [] (numbered a (map (class_of P) rs)) gid ++ [x]) =
      numbered a (map (class_of (P ++ [x])) rs)
  | None =>
      existsb (equiv x) rs = false /\
      map (class_of (P ++ [x])) rs = map (class_of P) rs
  end.
Proof.
  revert a. induction rs as [|r rs IH]; intros a Hhead Hdist.
  - cbn. auto.
  - destruct (Hhead r (or_introl eq_refl)) as [tl Htl].
    cbn [map]. rewrite numbered_cons. cbn [find_match]. rewrite Htl.
    fold (equiv x r). cbn [existsb].
    assert (Hhead' : forall r', In r' rs -> exists tl, class_of P r' = r' :: tl)
      by (intros r' Hr'; apply Hhead; now right).
    assert (Hdist' := pairwise_distinct_tail _ _ Hdist).
    destruct (equiv x r) eqn:Exr.
    + split; [reflexivity|].
      unfold getd. cbn [Dict.get Dict.set]. rewrite key_eqb_refl.
      rewrite numbered_cons. f_equal.
      * f_equal. now rewrite class_of_snoc, Exr, Htl.
      * f_equal. apply map_ext_in. intros r' Hr'. rewrite class_of_snoc.
        destruct (equiv x r') eqn:Exr'; [|now rewrite app_nil_r].
        pose proof (pairwise_distinct_head r rs r' Hdist Hr') as Hrr'.
        rewrite (equiv_trans r x r' (equiv_sym _ _ Exr) Exr') in Hrr'. discriminate.
    + specialize (IH (S a) Hhead' Hdist').
      destruct (find_match (sig_of x) (numbered (S a) (map (class_of P) rs))) as [gid|] eqn:Ef.
      * destruct IH as [Hex Hset]. split; [assumption|].
        assert (Hge : (S a <= gid)%nat).
        { apply (numbered_keys_ge (S a) (map (class_of P) rs)).
          clear -Ef. revert Ef. generalize (numbered (S a) (map (class_of P) rs)).
          induction t as [|[g0 items] t IHt]; [discriminate|].
          cbn [find_match Dict.keys map fst]. destruct items as [|ref items'].
          - intros Ef. right. now apply IHt.
          - destruct (matches (sig_of x) (sig_of ref)).
            + intros [= ->]. now left.
            + intros Ef. right. now apply IHt. }
        unfold getd. cbn [Dict.get Dict.set]. rewrite key_eqb_neq by (cbn; lia).
        rewrite numbered_cons. f_equal.
        -- f_equal. rewrite class_of_snoc, Exr. now rewrite app_nil_r.
        -- exact Hset.
      * destruct IH as [Hex Hmap]. split; [assumption|].
        f_equal; [|assumption]. rewrite class_of_snoc, Exr. now rewrite app_nil_r.
Qed.

(** What holds of the first members [reps P] of the classes of [P]. *)
Definition classes_inv (P : list K) : Prop :=
  (forall r, In r (reps P) -> exists tl, class_of P r = r :: tl) /\
  pairwise_distinct (reps P) /\
  (forall y, In y P -> existsb (equiv y) (reps P) = true).

Lemma reps_snoc P x : reps (P ++ [x]) = reps_step (reps P) x.
Proof. unfold reps. now rewrite fold_left_app. Qed.

Lemma equiv_false_sym x y : equiv x y = false -> equiv y x = false.
Proof.
  intros Hxy. destruct (equiv y x) eqn:Eyx; [|reflexivity].
  now rewrite (equiv_sym y x Eyx) in Hxy.
Qed.

Lemma class_of_new P x :
  classes_inv P -> existsb (equiv x) (reps P) = false -> class_of P x = [].
Proof.
  intros [_ [_ Hcov]] Hnone. unfold class_of.
  apply not_true_iff_false in Hnone.
  assert (Hno : forall z, In z P -> equiv z x = false).
  { intros z Hz. destruct (equiv z x) eqn:Ezx; [|reflexivity].
    exfalso. apply Hnone. specialize (Hcov z Hz).
    apply existsb_exists in Hcov. destruct Hcov as [r [Hr Ezr]].
    apply existsb_exists. exists r. split; [assumption|].
    apply (equiv_trans x z r); [now apply equiv_sym | assumption]. }
  clear Hcov Hnone. induction P as [|z Q IHQ]; [reflexivity|].
  cbn [filter]. rewrite (Hno z (or_introl eq_refl)). apply IHQ.
  intros w Hw. apply Hno. now right.
Qed.

Lemma classes_inv_snoc P x : classes_inv P -> classes_inv (P ++ [x]).
Proof.
  intros Hinv. pose proof Hinv as [Hhead [Hdist Hcov]].
  unfold classes_inv. rewrite reps_snoc. unfold reps_step.
  destruct (existsb (equiv x) (reps P)) eqn:Ex.
  - split; [|split].
    + intros r Hr. destruct (Hhead r Hr) as [tl Htl].
      rewrite class_of_snoc, Htl. eexists. reflexivity.
    + assumption.
    + intros y Hy. apply in_app_or in Hy. destruct Hy as [Hy|[<-|[]]]; auto.
  - pose proof (class_of_new P x Hinv Ex) as Hnew.
    assert (Hxr : forall r, In r (reps P) -> equiv x r = false).
    { intros r Hr. destruct (equiv x r) eqn:Exr; [|reflexivity].
      assert (Ht : existsb (equiv x) (reps P) = true)
        by (apply existsb_exists; now exists r).
      congruence. }
    split; [|split].
    + intros r Hr. apply in_app_or in Hr. destruct Hr as [Hr|[<-|[]]].
      * destruct (Hhead r Hr) as [tl Htl]. rewrite class_of_snoc, Htl. eexists. reflexivity.
      * rewrite class_of_snoc, Hnew, equiv_refl. eexists. reflexivity.
    + intros i j r r' Hi Hj Hne.
      destruct (Nat.lt_ge_cases i (List.length (reps P))) as [Hil|Hil];
        destruct (Nat.lt_ge_cases j (List.length (reps P))) as [Hjl|Hjl].
      * rewrite nth_error_app1 in Hi, Hj by assumption. eapply Hdist; eauto.
      * rewrite nth_error_app1 in Hi by assumption.
        rewrite nth_error_app2 in Hj by assumption.
        destruct (j - List.length (reps P))%nat as [|n]; simpl in Hj;
          [|destruct n; discriminate].
        injection Hj as <-. apply equiv_false_sym, Hxr. eapply nth_error_In; eauto.
      * rewrite nth_error_app2 in Hi by assumption.
        rewrite nth_error_app1 in Hj by assumption.
        destruct (i - List.length (reps P))%nat as [|n]; simpl in Hi;
          [|destruct n; discriminate].
        injection Hi as <-. apply Hxr. eapply nth_error_In; eauto.
      * rewrite nth_error_app2 in Hi, Hj by assumption.
        destruct (i - List.length (reps P))%nat as [|n] eqn:Ei; simpl in Hi;
          [|destruct n; discriminate].
        destruct (j - List.length (reps P))%nat as [|m] eqn:Ej; simpl in Hj;
          [|destruct m; discriminate].
        lia.
    + intros y Hy. rewrite existsb_app. apply in_app_or in Hy.
      destruct Hy as [Hy|[<-|[]]].
      * now rewrite (Hcov y Hy).
      * cbn [existsb]. rewrite equiv_refl. now rewrite orb_true_r.
Qed.

Lemma classes_inv_nil : classes_inv [].
Proof.
  split; [|split].
  - intros r [].
  - intros i j r r' Hi. destruct i; discriminate.
  - intros y [].
Qed.

Definition consistent (items : list (K * Sg)) : Prop :=
  forall item, In item items -> snd item = sig_of (fst item).

(** After any number of iterations the groups are the classes of the keys
    processed so far, numbered in order of their first members. *)
Lemma group_fold_classes (items : list (K * Sg)) (P : list K) :
  consistent items -> classes_inv P ->
  fold_left group_step items (numbered 0 (map (class_of P) (reps P))) =
  numbered 0 (map (class_of (P ++ map fst items)) (reps (P ++ map fst items))).
Proof.
  revert P. induction items as [|[x sg] items IH]; intros P Hcons Hinv.
  - cbn. now rewrite app_nil_r.
  - cbn [fold_left map fst].
    replace (P ++ x :: map fst items) with ((P ++ [x]) ++ map fst items)
      by (rewrite <- app_assoc; reflexivity).
    rewrite <- IH.
    + f_equal. unfold group_step. cbn [fst snd].
      pose proof (Hcons (x, sg) (or_introl eq_refl)) as Hsg. cbn [fst snd] in Hsg. subst sg.
      destruct Hinv as [Hhead [Hdist Hcov]].
      pose proof (group_step_classes P x (reps P) 0 Hhead Hdist) as Hstep.
      rewrite reps_snoc. unfold reps_step.
      destruct (find_match (sig_of x) (numbered 0 (map (class_of P) (reps P)))) as [gid|].
      * destruct Hstep as [-> Hset]. exact Hset.
      * destruct Hstep as [Hex Hmap]. rewrite Hex.
        rewrite numbered_length.
        pose proof (numbered_snoc 0 (map (class_of P) (reps P)) [x]) as Hs.
        cbn [Nat.add] in Hs. rewrite Hs. clear Hs.
        rewrite map_app, Hmap. cbn [map]. do 3 f_equal.
        rewrite class_of_snoc, equiv_refl.
        now rewrite (class_of_new P x (conj Hhead (conj Hdist Hcov)) Hex).
    + intros item Hin. apply Hcons. now right.
    + now apply classes_inv_snoc.
Qed.

Lemma classes_inv_all (P : list K) : classes_inv P.
Proof.
  induction P as [|x P IH] using rev_ind; [apply classes_inv_nil|].
  now apply classes_inv_snoc.
Qed.

Lemma group_all_classes (items : list (K * Sg)) :
  consistent items ->
  map snd (group_all items) = map (class_of (map fst items)) (reps (map fst items)).
Proof.
  intros Hcons. unfold group_all.
  change (@Dict.empty nat (list K)) with (numbered 0 (map (class_of []) (reps []))).
  rewrite (group_fold_classes items [] Hcons classes_inv_nil). cbn [app].
  unfold numbered. generalize (map (class_of (map fst items)) (reps (map fst items))).
  intros groups. generalize 0%nat.
  induction groups as [|g groups IHg]; intros a; [reflexivity|].
  cbn. f_equal. apply IHg.
Qed.

(** Enumerating the items in another order gives the same groups, up to the
    order of the groups and of their members. *)
Lemma group_all_perm (items items' : list (K * Sg)) :
  consistent items -> Permutation items items' ->
  forall g, In g (map snd (group_all items)) ->
            exists g', In g' (map snd (group_all items')) /\ Permutation g g'.
Proof.
  intros Hcons Hperm g Hg.
  assert (Hcons' : consistent items').
  { intros item Hin. apply Hcons. eapply Permutation_in; [symmetry|]; eassumption. }
  rewrite group_all_classes in Hg by assumption.
  rewrite group_all_classes by assumption.
  set (P := map fst items) in *. set (P' := map fst items').
  assert (HP : Permutation P P') by now apply Permutation_map.
  apply in_map_iff in Hg. destruct Hg as [r [<- Hr]].
  destruct (classes_inv_all P) as [Hhead _].
  destruct (classes_inv_all P') as [_ [_ Hcov']].
  assert (HrP : In r P).
  { destruct (Hhead r Hr) as [tl Htl].
    assert (Hin : In r (class_of P r)) by (rewrite Htl; now left).
    apply filter_In in Hin. tauto. }
  assert (HrP' : In r P') by (eapply Permutation_in; eassumption).
  specialize (Hcov' r HrP'). apply existsb_exists in Hcov'.
  destruct Hcov' as [r' [Hr' Err']].
  exists (class_of P' r'). split; [now apply in_map|].
  unfold class_of. rewrite (Permutation_filter _ _ _ HP).
  rewrite (filter_ext (fun y => equiv y r) (fun y => equiv y r')); [reflexivity|].
  intros y. destruct (equiv y r) eqn:Eyr.
  - symmetry. eapply equiv_trans; eassumption.
  - destruct (equiv y r') eqn:Eyr'; [|reflexivity].
    rewrite (equiv_trans y r' r Eyr' (equiv_sym _ _ Err')) in Eyr. discriminate.
Qed.

End GreedyGrouping.

Lemma find_match_ext {K Sg} (matches : Sg -> Sg -> bool) (f g : K -> Sg) sg grouped :
  (forall k, f k = g k) -> find_match matches f sg grouped = find_match matches g sg grouped.
Proof.
  intros Hfg. induction grouped as [|[gid items] rest IH]; [reflexivity|].
  cbn [find_match]. destruct items as [|ref items']; [assumption|].
  now rewrite Hfg, IH.
Qed.

Lemma group_all_ext {K Sg} (matches : Sg -> Sg -> bool) (f g : K -> Sg) items :
  (forall k, f k = g k) -> group_all matches f items = group_all matches g items.
Proof.
  intros Hfg. unfold group_all. generalize (@Dict.empty nat (list K)).
  induction items as [|item items IH]; intros d; [reflexivity|].
  cbn [fold_left]. rewrite IH. f_equal. unfold group_step.
  now rewrite (find_match_ext matches f g _ _ Hfg).
Qed.

(** *** Grouping the motifs of [extract_and_group_3rd_structures_from_2nd_with_ratio] *)

(** A motif: its nodes [((row, col), label)], in the order they were added. *)
Definition motif := list (coord * label).

(** The key [(sample, structure_name)] of a motif. *)
Definition motif_key := (string * string)%type.

(** The frame built from the nodes of a motif (lines 505-509). *)
Definition structure_of (nodes : motif) : structure :=
  map (fun nd => ((IZR (fst (fst nd)), IZR (snd (fst nd))), snd nd)) nodes.

(** [structure_signatures] (lines 502-511). *)
Definition signatures_of (motifs : list (motif_key * motif)) : @Dict.t motif_key signature :=
  Dict.of_list (map (fun km => (fst km, geometric_signature (structure_of (snd km)))) motifs).

Definition empty_signature : signature := ([], []).

(** [grouped_structures] (lines 513-526). *)
Definition grouped_structures_of (motifs : list (motif_key * motif))
  : @Dict.t nat (list motif_key) :=
  let structure_signatures := signatures_of motifs in
  group_all same_signature (getd empty_signature structure_signatures)
            (Dict.items structure_signatures).

Lemma same_signature_refl a : signature_wf a -> same_signature a a = true.
Proof. intros Ha. now apply compare_structures_spec. Qed.

Lemma same_signature_sym a b :
  signature_wf a -> signature_wf b -> same_signature a b = true -> same_signature b a = true.
Proof.
  intros Ha Hb Hab. apply compare_structures_spec; try assumption.
  symmetry. now apply compare_structures_spec.
Qed.

Lemma same_signature_trans a b c :
  signature_wf a -> signature_wf b -> signature_wf c ->
  same_signature a b = true -> same_signature b c = true -> same_signature a c = true.
Proof.
  intros Ha Hb Hc Hab Hbc. apply compare_structures_spec; try assumption.
  transitivity (canon b); now apply compare_structures_spec.
Qed.

Lemma signatures_wf (sigs_rows : list (motif_key * motif)) k :
  signature_wf
    (getd empty_signature
       (map (fun km => (fst km, geometric_signature (structure_of (snd km)))) sigs_rows) k).
Proof.
  unfold getd. destruct (Dict.get _ k) as [sg|] eqn:E; [|reflexivity].
  apply Dict.get_In, in_map_iff in E. destruct E as [km [Heq _]].
  inversion Heq. apply geometric_signature_wf.
Qed.

Lemma getd_perm {K V} `{Hashable K} (dflt : V) (l l' : list (K * V)) k :
  NoDup (map fst l) -> Permutation l l' -> getd dflt l k = getd dflt l' k.
Proof.
  intros Hnd Hp. assert (Hnd' : NoDup (map fst l')).
  { eapply Permutation_NoDup; [apply Permutation_map; exact Hp | exact Hnd]. }
  unfold getd. destruct (Dict.get l k) as [v|] eqn:E.
  - apply Dict.get_In in E. apply (Permutation_in _ Hp) in E.
    now rewrite (Dict.In_get l' k v Hnd' E).
  - destruct (Dict.get l' k) as [v'|] eqn:E'; [|reflexivity].
    apply Dict.get_In in E'. apply (Permutation_in _ (Permutation_sym Hp)) in E'.
    rewrite (Dict.In_get l k v' Hnd E') in E. discriminate.
Qed.

Lemma grouped_structures_perm (motifs motifs' : list (motif_key * motif)) :
  NoDup (map fst motifs) -> Permutation motifs motifs' ->
  forall g, In g (map snd (grouped_structures_of motifs)) ->
            exists g', In g' (map snd (grouped_structures_of motifs')) /\ Permutation g g'.
Proof.
  intros Hnd Hperm.
  set (row := fun km : motif_key * motif =>
                (fst km, geometric_signature (structure_of (snd km)))).
  assert (HndL : NoDup (map fst (map row motifs))) by (rewrite map_map; exact Hnd).
  assert (HpL : Permutation (map row motifs) (map row motifs'))
    by now apply Permutation_map.
  assert (HndL' : NoDup (map fst (map row motifs'))).
  { eapply Permutation_NoDup; [apply Permutation_map; exact HpL | exact HndL]. }
  unfold grouped_structures_of, signatures_of. fold row.
  rewrite !dict_of_list_NoDup by assumption. unfold Dict.items.
  rewrite (group_all_ext same_signature
             (getd empty_signature (map row motifs'))
             (getd empty_signature (map row motifs)))
    by (intros k; symmetry; now apply getd_perm).
  apply group_all_perm; try assumption.
  - intros x. apply same_signature_refl. apply signatures_wf.
  - intros x y. apply same_signature_sym; apply signatures_wf.
  - intros x y z. apply same_signature_trans; apply signatures_wf.
  - intros [k sg] Hin. cbn [fst snd]. unfold getd.
    now rewrite (Dict.In_get (map row motifs) k sg HndL Hin).
Qed.

(** C6. Shuffling the motifs before grouping gives groups with the same
    members: every group of one run is, up to the order of its members, a
    group of the other run. The keys of the motifs are distinct (they are the
    keys of a dictionary). *)
Theorem grouping_order_independent (motifs motifs' : list (motif_key * motif)) :
  NoDup (map fst motifs) -> Permutation motifs motifs' ->
  (forall g, In g (map snd (grouped_structures_of motifs)) ->
     exists g', In g' (map snd (grouped_structures_of motifs')) /\ Permutation g g') /\
  (forall g', In g' (map snd (grouped_structures_of motifs')) ->
     exists g, In g (map snd (grouped_structures_of motifs)) /\ Permutation g' g).
Proof.
  intros Hnd Hperm. split.
  - now apply grouped_structures_perm.
  - apply grouped_structures_perm; [|now symmetry].
    eapply Permutation_NoDup; [apply Permutation_map; exact Hperm | exact Hnd].
Qed.

Definition demo_motifs : list (motif_key * motif) :=
  [ (("s1", "structure_0"), [ ((0, 0)%Z, "A"); ((0, 2)%Z, "B"); ((1, 1)%Z, "A") ]);
    (("s1", "structure_1"), [ ((0, 0)%Z, "A"); ((0, 2)%Z, "B"); ((0, 4)%Z, "A") ]);
    (("s2", "structure_0"), [ ((5, 5)%Z, "B"); ((4, 4)%Z, "A"); ((4, 6)%Z, "A") ]) ].

Lemma demo_motifs_keys : NoDup (map fst demo_motifs).
Proof.
  unfold demo_motifs. simpl.
  repeat constructor; simpl; intros H;
    repeat (destruct H as [H|H]; [discriminate|]); assumption.
Qed.

(** Every motif is a member of one of the groups. *)
Lemma grouped_structures_cover (motifs : list (motif_key * motif)) (k : motif_key) :
  NoDup (map fst motifs) -> In k (map fst motifs) ->
  exists g, In g (map snd (grouped_structures_of motifs)) /\ In k g.
Proof.
  intros Hnd Hk.
  set (row := fun km : motif_key * motif =>
                (fst km, geometric_signature (structure_of (snd km)))).
  assert (HndL : NoDup (map fst (map row motifs))) by (rewrite map_map; exact Hnd).
  unfold grouped_structures_of, signatures_of. fold row.
  rewrite dict_of_list_NoDup by assumption. unfold Dict.items.
  set (sig_of := getd empty_signature (map row motifs)).
  assert (Hrefl : forall x, equiv same_signature sig_of x x = true)
    by (intros x; apply same_signature_refl, signatures_wf).
  assert (Hsym : forall x y, equiv same_signature sig_of x y = true ->
                             equiv same_signature sig_of y x = true)
    by (intros x y; apply same_signature_sym; apply signatures_wf).
  assert (Htrans : forall x y z, equiv same_signature sig_of x y = true ->
                                 equiv same_signature sig_of y z = true ->
                                 equiv same_signature sig_of x z = true)
    by (intros x y z; apply same_signature_trans; apply signatures_wf).
  rewrite (group_all_classes same_signature sig_of Hrefl Hsym Htrans).
  - destruct (classes_inv_all same_signature sig_of Hrefl Hsym Htrans
                (map fst (map row motifs))) as [_ [_ Hcov]].
    assert (Hk' : In k (map fst (map row motifs))) by (rewrite map_map; exact Hk).
    specialize (Hcov k Hk'). apply existsb_exists in Hcov. destruct Hcov as [r [Hr Ekr]].
    exists (class_of same_signature sig_of (map fst (map row motifs)) r). split.
    + now apply in_map.
    + apply filter_In. now split.
  - intros [k' sg] Hin. cbn [fst snd]. unfold sig_of, getd.
    now rewrite (Dict.In_get (map row motifs) k' sg HndL Hin).
Qed.

Lemma grouping_order_independent_witness :
  exists g g',
    In ("s1", "structure_0") g /\
    In g (map snd (grouped_structures_of demo_motifs)) /\
    In g' (map snd (grouped_structures_of (rev demo_motifs))) /\
    Permutation g g'.
Proof.
  destruct (grouped_structures_cover demo_motifs ("s1", "structure_0") demo_motifs_keys
              (or_introl eq_refl)) as [g [Hg Hk]].
  destruct (proj1 (grouping_order_independent demo_motifs (rev demo_motifs)
                     demo_motifs_keys (Permutation_rev demo_motifs)) g Hg)
    as [g' [Hg' Hp]].
  exists g, g'. repeat split; assumption.
Defined.

(** ** MotifAssembler and ExpansionController *)

From Stdlib Require Import DecimalString.

Lemma list_eqb_reflect {A} `{Hashable A} (l1 l2 : list A) : reflect (l1 = l2) (list_eqb l1 l2).
Proof. apply iff_reflect. symmetry. apply list_eqb_spec. Qed.

#[export] Instance Hashable_list {A} `{Hashable A} : Hashable (list A) :=
  {| key_eqb := list_eqb; key_eqb_spec := list_eqb_reflect |}.

(** [f"structure_{structure_id}"] *)
Definition structure_name (structure_id : nat) : string :=
  "structure_" ++ NilEmpty.string_of_uint (Nat.to_uint structure_id).

(** A dictionary of motifs keyed by [(sample, structure_name)]. *)
Definition motif_dict := @Dict.t motif_key motif.

(** Lines 882-890: the spots next to a node of the motif that are not in it.
    Python enumerates the set [potential_new_nodes] in an order that depends
    on the hashes of its members; the list below holds the same members in
    order of first insertion, which is one of the possible orders. No
    statement about [expand_structure] below says which child gets which
    number. *)
Definition potential_new_nodes (spot_dict : @Dict.t coord label)
    (existing_points : list coord) : list (coord * label) :=
  unique
    (flat_map
       (fun p =>
          flat_map
            (fun o =>
               let nb := shift p o in
               match Dict.get spot_dict nb with
               | Some leiden_new =>
                   if mem nb existing_points then [] else [(nb, leiden_new)]
               | None => []
               end)
            neighbors_offset)
       existing_points).

(** Lines 897-905. *)
Definition add_expanded (sample : string) (points : motif)
    (acc : motif_dict * nat) (new_node : coord * label) : motif_dict * nat :=
  (Dict.set (fst acc) (sample, structure_name (snd acc)) (points ++ [new_node]),
   S (snd acc)).

(** Body of the loop over [structure_dict.items()] (lines 865-905). *)
Definition expand_one (adata : AnnData) (acc : motif_dict * nat)
    (entry : motif_key * motif) : motif_dict * nat :=
  let sample := fst (fst entry) in
  let points := snd entry in
  let existing_points := unique (map fst points) in
  let spot_dict := spot_dict_of (sample_spots_of adata sample) in
  fold_left (add_expanded sample points)
            (potential_new_nodes spot_dict existing_points) acc.

(** [expand_structure] (lines 831-907). *)
Definition expand_structure (structure_dict : motif_dict) (adata : AnnData) : motif_dict :=
  match structure_dict with
  | [] => Dict.empty
  | _ => fst (fold_left (expand_one adata) structure_dict (Dict.empty, 0%nat))
  end.

(** [group_by_label_sets] (lines 680-687); a [frozenset] of labels is the
    sorted list of its members. *)
Definition group_by_label_sets (structures_dict : motif_dict)
  : @Dict.t (list label) (list motif_key) :=
  fold_left
    (fun label_groups entry =>
       let label_set := sorted String.leb (unique (map snd (snd entry))) in
       Dict.set label_groups label_set (getd [] label_groups label_set ++ [fst entry]))
    structures_dict Dict.empty.

(** [group_structures_by_geometry] (lines 689-732). *)
Definition group_structures_by_geometry (structures_dict : motif_dict)
  : @Dict.t nat (list motif_key) :=
  let structure_signatures := signatures_of structures_dict in
  let label_based_groups := group_by_label_sets structures_dict in
  let sig_of := getd empty_signature structure_signatures in
  group_all same_signature sig_of
    (map (fun struct_name => (struct_name, sig_of struct_name))
         (flat_map snd label_based_groups)).

(** The columns of [df_results] that the controller reads. *)
Record score_row := mkScoreRow {
  Group_ID : nat;
  Fold_Change : Q;
  Coverage : Q;
  P_Value : Q
}.

(** [Series.max()] of a non-empty column. *)
Definition column_max (x : Q) (xs : list Q) : Q :=
  fold_left (fun m y => if Qltb m y then y else m) xs x.

(** [Series.idxmin()] followed by [.loc]: the first row of least [P_Value].
    The p-values of this model are rationals: a column that holds a NaN, on
    which [idxmin] can raise, is not described by it. *)
Definition row_of_min_p (r : score_row) (rs : list score_row) : score_row :=
  fold_left (fun best y => if Qltb (P_Value y) (P_Value best) then y else best) rs r.

(** Lines 961-964: [{key: new_structures[key] for key in members}]. *)
Definition select_members (new_structures : motif_dict) (members : list motif_key)
  : result motif_dict :=
  fold_left
    (fun acc key =>
       match acc with
       | Raise e => Raise e
       | Return next_structures =>
           match Dict.get new_structures key with
           | Some points => Return (Dict.set next_structures key points)
           | None => Raise KeyError
           end
       end)
    members (Return Dict.empty).

Section ExpansionController.

(** [analyze_structure_groups(grouped, adata, ..., fc_threshold, p_threshold,
    coverage_threshold)]: the table [df_results]. Its statistics (rank test,
    FDR correction) come from library functions; the controller reads four
    columns of it. *)
Variable analyze_structure_groups :
  @Dict.t nat (list motif_key) -> AnnData -> Q -> Q -> Q -> list score_row.

Variable adata : AnnData.
Variables fc_threshold p_threshold coverage_threshold : Q.

(** One pass through the body of [while True] (lines 919-968): [Return None]
    is a [break], [Return (Some next)] goes on with [next_structures]. *)
Definition next_round (extracted_structures : motif_dict) : result (option motif_dict) :=
  let new_structures := expand_structure extracted_structures adata in
  match new_structures with
  | [] => Return None
  | _ =>
      let grouped := group_structures_by_geometry new_structures in
      let df_results :=
        analyze_structure_groups grouped adata fc_threshold p_threshold coverage_threshold in
      let df_filtered := filter (fun r => Qltb fc_threshold (Fold_Change r)) df_results in
      match df_filtered with
      | [] => Return None
      | r0 :: rs =>
          let max_cov := column_max (Coverage r0) (map Coverage rs) in
          if Qltb max_cov coverage_threshold then Return None
          else
            let best := row_of_min_p r0 rs in
            match Dict.get grouped (Group_ID best) with
            | None => Raise KeyError
            | Some members =>
                match select_members new_structures members with
                | Raise e => Raise e
                | Return next_structures => Return (Some next_structures)
                end
            end
      end
  end.

(** The loop of lines 918-971 with its two variables; [fuel] bounds the
    number of passes, [None] means the bound was reached. *)
Fixpoint iterate (fuel : nat) (extracted_structures last_valid_structures : motif_dict)
  : option (result motif_dict) :=
  match fuel with
  | O => None
  | S fuel' =>
      match next_round extracted_structures with
      | Raise e => Some (Raise e)
      | Return None => Some (Return last_valid_structures)
      | Return (Some next_structures) => iterate fuel' next_structures next_structures
      end
  end.

(** [iterative_structure_analysis] (lines 909-971); [reference_row] is not
    used by the code. *)
Definition iterative_structure_analysis (fuel : nat) (initial_structures : motif_dict)
  : option (result motif_dict) :=
  iterate fuel initial_structures initial_structures.

Lemma column_max_In x xs : In (column_max x xs) (x :: xs).
Proof.
  unfold column_max. revert x. induction xs as [|y xs IH]; intros x; [now left|].
  cbn [fold_left]. destruct (Qltb x y).
  - right. apply IH.
  - destruct (IH x) as [Heq|Hin]; [left | right; right]; assumption.
Qed.

(** C3. In any pass of the loop on the current motifs: an empty expansion
    halts the loop, which returns the current motifs (the seed in the first
    pass); so does an expansion none of whose groups has
    [Fold_Change > fc_threshold], and one whose groups with such a fold change
    all have [Coverage < coverage_threshold]. Both loop variables hold the
    current motifs in every pass, so what is returned is the motif set of the
    pass before, never the expansion. *)
Theorem halting_returns_current_motifs (fuel : nat) (current : motif_dict) :
  let new_structures := expand_structure current adata in
  let df_results :=
    analyze_structure_groups (group_structures_by_geometry new_structures) adata
      fc_threshold p_threshold coverage_threshold in
  let df_filtered := filter (fun r => Qltb fc_threshold (Fold_Change r)) df_results in
  iterative_structure_analysis (S fuel) current = iterate (S fuel) current current /\
  (new_structures = [] -> iterate (S fuel) current current = Some (Return current)) /\
  (new_structures <> [] ->
   (forall r, In r df_results -> ~ fc_threshold < Fold_Change r) ->
   iterate (S fuel) current current = Some (Return current)) /\
  (new_structures <> [] -> df_filtered <> [] ->
   (forall r, In r df_results -> fc_threshold < Fold_Change r ->
              Coverage r < coverage_threshold) ->
   iterate (S fuel) current current = Some (Return current)) /\
  (forall next_structures,
     next_round current = Return (Some next_structures) ->
     iterate (S fuel) current current = iterate fuel next_structures next_structures).
Proof.
  intros new_structures df_results df_filtered.
  split; [reflexivity|]. split; [|split; [|split]].
  - intros Hempty. cbn [iterate]. unfold next_round. fold new_structures.
    now rewrite Hempty.
  - intros Hne Hnone. cbn [iterate]. unfold next_round. fold new_structures.
    destruct new_structures as [|e es] eqn:En; [congruence|].
    fold df_results. fold df_filtered.
    assert (Hf : df_filtered = []).
    { unfold df_filtered. clear -Hnone. induction df_results as [|r rs IH]; [reflexivity|].
      cbn [filter]. destruct (Qltb fc_threshold (Fold_Change r)) eqn:E.
      - apply Qltb_lt in E. exfalso. apply (Hnone r); [now left | assumption].
      - apply IH. intros r' Hr'. apply Hnone. now right. }
    now rewrite Hf.
  - intros Hne Hsome Hcov. cbn [iterate]. unfold next_round. fold new_structures.
    destruct new_structures as [|e es] eqn:En; [congruence|].
    fold df_results. fold df_filtered.
    destruct df_filtered as [|r0 rs] eqn:Ef; [congruence|].
    assert (Hmax : Qltb (column_max (Coverage r0) (map Coverage rs)) coverage_threshold = true).
    { apply Qltb_lt.
      pose proof (column_max_In (Coverage r0) (map Coverage rs)) as Hin.
      change (Coverage r0 :: map Coverage rs) with (map Coverage (r0 :: rs)) in Hin.
      apply in_map_iff in Hin. destruct Hin as [r [<- Hr]].
      rewrite <- Ef in Hr. unfold df_filtered in Hr. apply filter_In in Hr.
      destruct Hr as [Hr Hfc]. apply Qltb_lt in Hfc. now apply Hcov. }
    now rewrite Hmax.
  - intros next_structures Hnext. cbn [iterate]. now rewrite Hnext.
Qed.

(** *** Termination *)

(** [child] was made from [parent] by [expand_structure]: same sample, one
    more node, which is a spot of the sample that is not in the parent. *)
Definition is_child (parent child : motif_key * motif) : Prop :=
  fst (fst child) = fst (fst parent) /\
  exists node,
    snd child = snd parent ++ [node] /\
    In node (Dict.items (spot_dict_of (sample_spots_of adata (fst (fst parent))))) /\
    ~ In (fst node) (map fst (snd parent)).

(** Number of spots of the motif's sample that are not nodes of the motif. *)
Definition uncovered (entry : motif_key * motif) : nat :=
  List.length
    (filter (fun k => negb (mem k (map fst (snd entry))))
            (Dict.keys (spot_dict_of (sample_spots_of adata (fst (fst entry)))))).

Definition max_uncovered (d : motif_dict) : nat := list_max (map uncovered d).

Lemma potential_new_nodes_spec spot_dict existing_points node :
  In node (potential_new_nodes spot_dict existing_points) ->
  In node (Dict.items spot_dict) /\ ~ In (fst node) existing_points.
Proof.
  unfold potential_new_nodes. rewrite unique_In, in_flat_map.
  intros [p [_ Hin]]. apply in_flat_map in Hin. destruct Hin as [o [_ Hin]].
  cbv zeta in Hin. destruct (Dict.get spot_dict (shift p o)) as [l|] eqn:Eg; [|destruct Hin].
  destruct (mem (shift p o) existing_points) eqn:Em; [destruct Hin|].
  destruct Hin as [<-|[]]. split.
  - now apply Dict.get_In.
  - now apply mem_false.
Qed.

Lemma add_expanded_entries sample points cands acc e :
  In e (fst (fold_left (add_expanded sample points) cands acc)) ->
  In e (fst acc) \/
  (fst (fst e) = sample /\ exists node, In node cands /\ snd e = points ++ [node]).
Proof.
  revert acc. induction cands as [|c cands IH]; intros acc Hin; [now left|].
  cbn [fold_left] in Hin. apply IH in Hin. destruct Hin as [Hin|[Hs [node [Hn He]]]].
  - unfold add_expanded in Hin. cbn [fst] in Hin. apply dict_set_In in Hin.
    destruct Hin as [->|Hin]; [|now left].
    right. split; [reflexivity|]. exists c. split; [now left | reflexivity].
  - right. split; [assumption|]. exists node. split; [now right | assumption].
Qed.

Lemma expand_one_entries acc entry e :
  In e (fst (expand_one adata acc entry)) -> In e (fst acc) \/ is_child entry e.
Proof.
  unfold expand_one. intros Hin. apply add_expanded_entries in Hin.
  destruct Hin as [Hin|[Hs [node [Hn He]]]]; [now left|].
  right. apply potential_new_nodes_spec in Hn. destruct Hn as [Hspot Hnew].
  split; [assumption|]. exists node. repeat split; try assumption.
  intros Hin. apply Hnew. now apply unique_In.
Qed.

Lemma expand_fold_entries (d : motif_dict) acc e :
  In e (fst (fold_left (expand_one adata) d acc)) ->
  In e (fst acc) \/ exists parent, In parent d /\ is_child parent e.
Proof.
  revert acc. induction d as [|entry d IH]; intros acc Hin; [now left|].
  cbn [fold_left] in Hin. apply IH in Hin. destruct Hin as [Hin|[parent [Hp Hc]]].
  - apply expand_one_entries in Hin. destruct Hin as [Hin|Hc]; [now left|].
    right. exists entry. split; [now left | assumption].
  - right. exists parent. split; [now right | assumption].
Qed.

(** Every motif that [expand_structure] returns is a child of a motif it was
    given. *)
Lemma expand_structure_children (d : motif_dict) e :
  In e (expand_structure d adata) -> exists parent, In parent d /\ is_child parent e.
Proof.
  unfold expand_structure. destruct d as [|entry d]; [intros []|].
  intros Hin. apply expand_fold_entries in Hin. destruct Hin as [[]|Hin]. exact Hin.
Qed.

Lemma filter_length_lt {A} (f g : A -> bool) (l : list A) (a : A) :
  (forall x, g x = true -> f x = true) ->
  In a l -> f a = true -> g a = false ->
  (List.length (filter g l) < List.length (filter f l))%nat.
Proof.
  intros Hgf. induction l as [|x l IH]; intros Hin Hfa Hga; [destruct Hin|].
  assert (Hle : forall l', (List.length (filter g l') <= List.length (filter f l'))%nat).
  { induction l' as [|y l' IH']; [apply Nat.le_refl|]. cbn [filter].
    destruct (g y) eqn:Eg.
    - rewrite (Hgf y Eg). cbn [List.length]. lia.
    - destruct (f y); cbn [List.length]; lia. }
  cbn [filter]. destruct Hin as [->|Hin].
  - rewrite Hfa, Hga. cbn [List.length]. specialize (Hle l). lia.
  - specialize (IH Hin Hfa Hga). destruct (g x) eqn:Eg.
    + rewrite (Hgf x Eg). cbn [List.length]. lia.
    + destruct (f x); cbn [List.length]; lia.
Qed.

(** A child leaves one spot less uncovered than its parent. *)
Lemma is_child_uncovered parent child :
  is_child parent child -> (uncovered child < uncovered parent)%nat.
Proof.
  intros [Hs [node [Hc [Hspot Hnew]]]]. unfold uncovered. rewrite Hs, Hc.
  apply filter_length_lt with (a := fst node).
  - intros k. rewrite !negb_true_iff, !mem_false, map_app, in_app_iff. tauto.
  - change (fst node) with (fst (fst node, snd node)). destruct node as [nb l].
    now apply (in_map fst) in Hspot.
  - now apply negb_true_iff, mem_false.
  - apply negb_false_iff, mem_In. rewrite map_app, in_app_iff. right. now left.
Qed.

Lemma list_max_lt (l : list nat) (n : nat) :
  (0 < n)%nat -> (forall x, In x l -> (x < n)%nat) -> (list_max l < n)%nat.
Proof.
  intros Hn. induction l as [|x l IH]; intros Hall; [exact Hn|].
  cbn [list_max]. apply Nat.max_lub_lt.
  - apply Hall. now left.
  - apply IH. intros y Hy. apply Hall. now right.
Qed.

Lemma list_max_ge (l : list nat) (x : nat) : In x l -> (x <= list_max l)%nat.
Proof.
  induction l as [|y l IH]; [intros []|]. cbn [list_max]. intros [->|Hin].
  - apply Nat.le_max_l.
  - etransitivity; [now apply IH | apply Nat.le_max_r].
Qed.

Lemma uncovered_le_max (d : motif_dict) entry :
  In entry d -> (uncovered entry <= max_uncovered d)%nat.
Proof. intros Hin. apply list_max_ge. now apply in_map. Qed.

Lemma select_members_entries new_structures members next_structures e :
  select_members new_structures members = Return next_structures ->
  In e next_structures -> In e new_structures.
Proof.
  unfold select_members.
  assert (Hgen : forall (acc : result motif_dict),
            (forall d, acc = Return d -> forall e, In e d -> In e new_structures) ->
            forall d,
              fold_left
                (fun acc key =>
                   match acc with
                   | Raise e => Raise e
                   | Return next_structures =>
                       match Dict.get new_structures key with
                       | Some points => Return (Dict.set next_structures key points)
                       | None => Raise KeyError
                       end
                   end) members acc = Return d ->
              forall e, In e d -> In e new_structures).
  { induction members as [|key members IH]; intros acc Hacc d Hfold; [now apply Hacc|].
    cbn [fold_left] in Hfold. revert Hfold. apply IH.
    intros d' Hd' e' He'. destruct acc as [d0|ex]; [|discriminate].
    destruct (Dict.get new_structures key) as [points|] eqn:Eg; [|discriminate].
    injection Hd' as <-. apply dict_set_In in He'. destruct He' as [->|He'].
    - now apply Dict.get_In.
    - now apply (Hacc d0 eq_refl). }
  intros Hsel Hin. apply (Hgen (Return Dict.empty)) with (d := next_structures); auto.
  intros d [= <-] e' [].
Qed.

(** A pass that goes on leaves fewer spots uncovered. *)
Lemma next_round_decreases current next_structures :
  next_round current = Return (Some next_structures) ->
  (max_uncovered next_structures < max_uncovered current)%nat.
Proof.
  unfold next_round.
  destruct (expand_structure current adata) as [|e0 es] eqn:Enew; [discriminate|].
  destruct (filter _ _) as [|r0 rs]; [discriminate|].
  destruct (Qltb _ coverage_threshold); [discriminate|].
  destruct (Dict.get _ _) as [members|]; [|discriminate].
  destruct (select_members _ members) as [next|ex] eqn:Esel; [|discriminate].
  intros [= <-].
  assert (Hchild : forall e, In e (e0 :: es) ->
                     (uncovered e < max_uncovered current)%nat).
  { intros e He. rewrite <- Enew in He. apply expand_structure_children in He.
    destruct He as [parent [Hp Hc]]. apply is_child_uncovered in Hc.
    pose proof (uncovered_le_max current parent Hp). lia. }
  apply list_max_lt.
  - specialize (Hchild e0 (or_introl eq_refl)). lia.
  - intros x Hx. apply in_map_iff in Hx. destruct Hx as [e [<- He]].
    apply Hchild. eapply select_members_entries; eassumption.
Qed.

Lemma iterate_terminates (n : nat) (current last_valid : motif_dict) :
  (max_uncovered current < n)%nat -> exists r, iterate n current last_valid = Some r.
Proof.
  revert current last_valid. induction n as [|n IH]; intros current last_valid Hlt; [lia|].
  cbn [iterate]. destruct (next_round current) as [[next|]|ex] eqn:Enext.
  - apply IH. apply next_round_decreases in Enext. lia.
  - eexists; reflexivity.
  - eexists; reflexivity.
Qed.

Lemma iterate_more_fuel (n m : nat) (current last_valid : motif_dict) r :
  iterate n current last_valid = Some r -> (n <= m)%nat ->
  iterate m current last_valid = Some r.
Proof.
  revert m current last_valid. induction n as [|n IH]; intros m current last_valid Hn Hle;
    [discriminate|].
  destruct m as [|m]; [lia|]. cbn [iterate] in *.
  destruct (next_round current) as [[next|]|ex]; try assumption.
  apply IH; [assumption | lia].
Qed.

Lemma dict_set_length {K V} `{Hashable K} (d : @Dict.t K V) k v :
  (List.length (Dict.set d k v) <= S (List.length d))%nat.
Proof.
  induction d as [|[k0 v0] d IH]; cbn [Dict.set List.length]; [lia|].
  destruct (key_eqb k0 k); cbn [List.length]; lia.
Qed.

Lemma dict_of_list_length {K V} `{Hashable K} (l : list (K * V)) :
  (List.length (Dict.of_list l) <= List.length l)%nat.
Proof.
  unfold Dict.of_list.
  assert (Hgen : forall d : @Dict.t K V,
            (List.length (fold_left (fun d kv => Dict.set d (fst kv) (snd kv)) l d)
             <= List.length d + List.length l)%nat).
  { induction l as [|kv l IH]; intros d; cbn [fold_left List.length]; [lia|].
    specialize (IH (Dict.set d (fst kv) (snd kv))).
    pose proof (dict_set_length d (fst kv) (snd kv)). lia. }
  apply (Hgen Dict.empty).
Qed.

Lemma uncovered_le_adata entry : (uncovered entry <= List.length adata)%nat.
Proof.
  unfold uncovered. etransitivity; [apply filter_length_le|].
  unfold Dict.keys. rewrite length_map. unfold spot_dict_of.
  etransitivity; [apply dict_of_list_length|]. rewrite length_map.
  unfold sample_spots_of. apply filter_length_le.
Qed.

Lemma max_uncovered_le_adata (d : motif_dict) : (max_uncovered d <= List.length adata)%nat.
Proof.
  unfold max_uncovered. induction d as [|entry d IH]; [simpl; lia|].
  cbn [map list_max]. apply Nat.max_lub; [apply uncovered_le_adata | exact IH].
Qed.

(** C4. [iterative_structure_analysis] halts within a number of passes
    bounded by the number of spots (one more than it at most), whatever the
    scores are: every motif that [expand_structure] returns has one node more
    than the motif it was made from, the new node being a spot of the same
    sample that is not in the parent, so the number of spots left uncovered
    decreases in every pass; a set of motifs that leave no spot uncovered
    expands to nothing. The result does not depend on the bound. *)
Theorem expansion_terminates (initial_structures : motif_dict) :
  (forall current child,
     In child (expand_structure current adata) ->
     exists parent, In parent current /\ is_child parent child /\
                    List.length (snd child) = S (List.length (snd parent))) /\
  (forall current,
     max_uncovered current = 0%nat -> expand_structure current adata = []) /\
  exists r, forall fuel,
    (List.length adata < fuel)%nat ->
    iterative_structure_analysis fuel initial_structures = Some r.
Proof.
  split; [|split].
  - intros current child Hin. apply expand_structure_children in Hin.
    destruct Hin as [parent [Hp Hc]]. exists parent.
    split; [assumption|]. split; [assumption|].
    destruct Hc as [_ [node [Heq _]]]. rewrite Heq, length_app. cbn [List.length]. lia.
  - intros current Hzero.
    destruct (expand_structure current adata) as [|e es] eqn:Enew; [reflexivity|].
    assert (Hin : In e (expand_structure current adata)) by (rewrite Enew; now left).
    apply expand_structure_children in Hin. destruct Hin as [parent [Hp Hc]].
    apply is_child_uncovered in Hc. pose proof (uncovered_le_max current parent Hp). lia.
  - destruct (iterate_terminates (S (List.length adata)) initial_structures
                initial_structures) as [r Hr].
    { pose proof (max_uncovered_le_adata initial_structures). lia. }
    exists r. intros fuel Hfuel. unfold iterative_structure_analysis.
    apply (iterate_more_fuel _ _ _ _ _ Hr). lia.
Qed.

End ExpansionController.

(** A sample of four spots on two rows of the grid. *)
Definition demo_grid : AnnData :=
  [ mkSpot 0 0 "s1" "A" "G1"; mkSpot 0 2 "s1" "B" "G1"; mkSpot 1 1 "s1" "A" "G1";
    mkSpot 1 3 "s1" "C" "G1" ].

(** The pair (0,0)-(0,2) has two free neighbours: it expands to two motifs of
    three nodes, named [structure_0] and [structure_1]. Which of the two gets
    which name depends on the iteration order of the set
    [potential_new_nodes], which Python does not fix. *)
Example expand_structure_demo :
  let expanded :=
    expand_structure [ (("s1", "structure_7"), [ ((0, 0)%Z, "A"); ((0, 2)%Z, "B") ]) ]
                     demo_grid in
  Dict.keys expanded = [ ("s1", "structure_0"); ("s1", "structure_1") ] /\
  Permutation (map snd expanded)
    [ [ ((0, 0)%Z, "A"); ((0, 2)%Z, "B"); ((1, 3)%Z, "C") ];
      [ ((0, 0)%Z, "A"); ((0, 2)%Z, "B"); ((1, 1)%Z, "A") ] ].
Proof. vm_compute. split; [reflexivity | apply perm_swap]. Qed.

(** A motif that covers the four spots of its sample. *)
Definition demo_full_motif : motif_dict :=
  [ (("s1", "structure_0"),
     [ ((0, 0)%Z, "A"); ((0, 2)%Z, "B"); ((1, 1)%Z, "A"); ((1, 3)%Z, "C") ]) ].

(** On a motif that cannot grow the first pass halts and the seed is returned,
    whatever the scoring function is. *)
Lemma halting_returns_current_motifs_witness :
  iterative_structure_analysis (fun _ _ _ _ _ => []) demo_grid 4 (1 # 20) (3 # 5) 1
    demo_full_motif = Some (Return demo_full_motif).
Proof.
  destruct (halting_returns_current_motifs (fun _ _ _ _ _ => []) demo_grid 4 (1 # 20) (3 # 5)
              0 demo_full_motif) as [Hfirst [Hempty _]].
  rewrite Hfirst. apply Hempty. vm_compute. reflexivity.
Defined.

(** ** The triple-quote delimiters of [stniche.py] *)

Module Lexical.

(** The lines of [stniche.py] (1629 lines) that hold a triple-quote token;
    each of them consists of that token alone, and no other line holds one. *)
Definition triple_quote_lines : list nat :=
  [ 33; 86; 216; 250; 383; 453; 607; 641; 735; 756; 758; 833; 847; 988; 1056;
    1100; 1144; 1220; 1267; 1327; 1377; 1487; 1528 ]%nat.

Definition last_line : nat := 1629.

(** Where the source opens its functions of this region. *)
Definition def_analyze_structure_groups : nat := 734.
Definition def_expand_structure : nat := 831.
Definition def_iterative_structure_analysis : nat := 909.

(** What the lexer is reading: code, or the inside of a triple-quoted string. *)
Inductive lexer_state := InCode | InString.

Definition toggle (st : lexer_state) : lexer_state :=
  match st with InCode => InString | InString => InCode end.

Definition lexer_state_eqb (a b : lexer_state) : bool :=
  match a, b with
  | InCode, InCode | InString, InString => true
  | _, _ => false
  end.

(** State of the lexer when it reaches line [n], having read the tokens of
    the lines before it: every triple quote opens a string in code and closes
    the string it is in. *)
Definition state_before_in (tokens : list nat) (n : nat) : lexer_state :=
  fold_left (fun st l => if (l <? n)%nat then toggle st else st) tokens InCode.

Definition state_before (n : nat) : lexer_state := state_before_in triple_quote_lines n.

(** State after the last line. *)
Definition state_at_end : lexer_state := state_before (S last_line).

(** A module loads only if the lexer reaches the end of the file outside a
    string; otherwise the last string literal is unterminated. *)
Definition module_loads : bool := lexer_state_eqb state_at_end InCode.

(** A line is executed by some call only if the module loads and the line
    is code. *)
Definition executable (n : nat) : bool :=
  module_loads && lexer_state_eqb (state_before n) InCode.

(** The delimiters as the docstrings intend them: without the stray token of
    line 758. *)
Definition intended_lines : list nat :=
  filter (fun l => negb (l =? 758)%nat) triple_quote_lines.

Definition lines_between (a b : nat) : list nat := seq a (S b - a).

(** C1. The file has 23 triple-quote tokens. The one at line 758 opens a
    string in the body of [analyze_structure_groups]; the string is closed by
    the token at line 833, so lines 759-832, which hold the statistical body
    (759-829) and the header of [expand_structure] (831), are string data.
    Every later token has the role opposite to the intended one, the lexer is
    inside a string at the end of the file, the module does not load, and no
    line of the region is executable. *)
Theorem triple_quotes_unbalanced :
  List.length triple_quote_lines = 23%nat /\
  state_before 758 = InCode /\
  forallb (fun n => lexer_state_eqb (state_before n) InString) (lines_between 759 833) = true /\
  state_before 834 = InCode /\
  state_before def_expand_structure = InString /\
  forallb (fun l => negb (lexer_state_eqb (state_before l) (state_before_in intended_lines l)))
          (filter (fun l => 758 <? l)%nat triple_quote_lines) = true /\
  state_at_end = InString /\
  module_loads = false /\
  forallb (fun n => negb (executable n))
          (lines_between def_analyze_structure_groups 988) = true.
Proof. vm_compute. repeat split. Qed.

End Lexical.

(** ** Further properties of the per-sample adjacency counts *)

(** The opposite of a neighbour offset. *)
Definition opposite (o : Z * Z) : Z * Z := (- fst o, - snd o)%Z.

(** The adjacency events of a sample behind the counter of [(l1, l2)]: a
    dictionary item with label [l1] and an offset that leads to a spot with
    label [l2]. *)
Definition adjacency_events (spot_dict : @Dict.t coord label) (l1 l2 : label)
  : list ((coord * label) * (Z * Z)) :=
  filter
    (fun e =>
       key_eqb (snd (fst e)) l1 &&
       match Dict.get spot_dict (shift (fst (fst e)) (snd e)) with
       | Some l => key_eqb l l2
       | None => false
       end)
    (list_prod (Dict.items spot_dict) neighbors_offset).

Lemma opposite_offset o : In o neighbors_offset -> In (opposite o) neighbors_offset.
Proof.
  unfold neighbors_offset, opposite. cbn [In].
  intros H; repeat (destruct H as [<-|H]; [cbn; tauto|]); destruct H.
Qed.

Lemma shift_opposite p o : shift (shift p o) (opposite o) = p.
Proof. destruct p, o. unfold shift, opposite. cbn. f_equal; lia. Qed.

Lemma opposite_involutive o : opposite (opposite o) = o.
Proof. destruct o. unfold opposite. cbn. f_equal; lia. Qed.

Lemma NoDup_neighbors_offset : NoDup neighbors_offset.
Proof.
  unfold neighbors_offset.
  repeat (constructor; [cbn [In]; intros H; repeat (destruct H as [H|H]; [discriminate H|]);
                        exact H|]).
  constructor.
Qed.

Lemma count_occ_filter_length {A} `{Hashable A} (l : list A) (x : A) :
  count_occ key_eq_dec l x = List.length (filter (fun y => key_eqb y x) l).
Proof.
  induction l as [|a l IH]; [reflexivity|].
  cbn [count_occ filter]. destruct (key_eq_dec a x) as [->|Hne].
  - rewrite key_eqb_refl. cbn [List.length]. now rewrite IH.
  - rewrite (key_eqb_neq _ _ Hne). exact IH.
Qed.

Lemma filter_flat_map {A B} (f : B -> bool) (g : A -> list B) (l : list A) :
  filter f (flat_map g l) = flat_map (fun a => filter f (g a)) l.
Proof.
  induction l as [|a l IH]; [reflexivity|].
  cbn [flat_map]. now rewrite filter_app, IH.
Qed.

Lemma count_adjacencies_from (sd its : @Dict.t coord label) l1 l2 :
  count_occ key_eq_dec (flat_map (adjacencies_from sd) its) (l1, l2) =
  List.length
    (filter
       (fun e =>
          key_eqb (snd (fst e)) l1 &&
          match Dict.get sd (shift (fst (fst e)) (snd e)) with
          | Some l => key_eqb l l2
          | None => false
          end)
       (list_prod its neighbors_offset)).
Proof.
  induction its as [|item its IH]; [reflexivity|].
  cbn [flat_map list_prod]. rewrite count_occ_app, filter_app, length_app, IH. f_equal.
  unfold adjacencies_from. generalize neighbors_offset. intros os.
  induction os as [|o os IHo]; [reflexivity|].
  cbn [flat_map map filter fst snd]. rewrite count_occ_app, IHo.
  destruct (Dict.get sd (shift (fst item) o)) as [l|]; cbn [count_occ].
  - destruct (key_eq_dec (snd item, l) (l1, l2)) as [Heq|Hne].
    + injection Heq as -> ->. rewrite !key_eqb_refl. reflexivity.
    + destruct (key_eqb_spec (snd item) l1) as [E1|]; cbn [andb]; [|reflexivity].
      destruct (key_eqb_spec l l2) as [E2|]; [congruence | reflexivity].
  - rewrite andb_false_r. reflexivity.
Qed.

(** The counter of [(l1, l2)] is the number of adjacency events. *)
Lemma adjacency_count_events sd l1 l2 :
  adjacency_count sd l1 l2 = List.length (adjacency_events sd l1 l2).
Proof. apply count_adjacencies_from. Qed.

Lemma NoDup_items {K V} (d : list (K * V)) : NoDup (map fst d) -> NoDup d.
Proof. apply NoDup_map_inv. Qed.

Lemma NoDup_adjacency_events sd l1 l2 :
  NoDup (Dict.keys sd) -> NoDup (adjacency_events sd l1 l2).
Proof.
  intros Hnd. unfold adjacency_events. apply NoDup_filter.
  apply NoDup_list_prod; [now apply NoDup_items | apply NoDup_neighbors_offset].
Qed.

(** An event seen from the other end. *)
Definition reverse_event (l2 : label) (e : (coord * label) * (Z * Z))
  : (coord * label) * (Z * Z) :=
  ((shift (fst (fst e)) (snd e), l2), opposite (snd e)).

Lemma adjacency_events_In sd l1 l2 p l o :
  In ((p, l), o) (adjacency_events sd l1 l2) <->
  In (p, l) sd /\ In o neighbors_offset /\ l = l1 /\ Dict.get sd (shift p o) = Some l2.
Proof.
  unfold adjacency_events. rewrite filter_In, in_prod_iff, andb_true_iff. cbn [fst snd].
  unfold Dict.items.
  destruct (key_eqb_spec l l1) as [->|Hne].
  - destruct (Dict.get sd (shift p o)) as [l'|].
    + destruct (key_eqb_spec l' l2) as [->|Hne]; [tauto|].
      split; [intros [_ [_ H]]; discriminate | intros [_ [_ [_ H]]]; congruence].
    + split; [intros [_ [_ H]]; discriminate | intros [_ [_ [_ H]]]; discriminate].
  - split; [intros [_ [H _]]; discriminate | tauto].
Qed.

Lemma adjacency_events_le sd l1 l2 :
  NoDup (Dict.keys sd) ->
  (List.length (adjacency_events sd l1 l2) <= List.length (adjacency_events sd l2 l1))%nat.
Proof.
  intros Hnd.
  rewrite <- (length_map (reverse_event l2) (adjacency_events sd l1 l2)).
  apply NoDup_incl_length.
  - apply NoDup_map_NoDup_ForallPairs; [|now apply NoDup_adjacency_events].
    intros [[p l] o] [[p' l'] o'] Hin Hin' Heq.
    apply adjacency_events_In in Hin, Hin'.
    destruct Hin as [_ [_ [-> _]]]. destruct Hin' as [_ [_ [-> _]]].
    pose proof (f_equal (fun e => fst (fst e)) Heq) as Hs.
    pose proof (f_equal snd Heq) as Ho.
    unfold reverse_event in Hs, Ho. cbn [fst snd] in Hs, Ho.
    assert (o = o') as <-.
    { rewrite <- (opposite_involutive o), Ho. apply opposite_involutive. }
    assert (p = p') as <-.
    { rewrite <- (shift_opposite p o), Hs. apply shift_opposite. }
    reflexivity.
  - intros e Hin. apply in_map_iff in Hin. destruct Hin as [[[p l] o] [<- Hin]].
    apply adjacency_events_In in Hin. destruct Hin as [Hp [Ho [-> Hg]]].
    unfold reverse_event. cbn [fst snd]. apply adjacency_events_In.
    split; [now apply Dict.get_In|]. split; [now apply opposite_offset|].
    split; [reflexivity|]. rewrite shift_opposite. now apply Dict.In_get.
Qed.

Lemma adjacency_count_sym sd l1 l2 :
  NoDup (Dict.keys sd) -> adjacency_count sd l1 l2 = adjacency_count sd l2 l1.
Proof.
  intros Hnd. rewrite !adjacency_count_events.
  apply Nat.le_antisymm; now apply adjacency_events_le.
Qed.

(** What [reindexed] reads, cleared of its denominator. *)
Lemma reindexed_scaled sample_spots r c :
  reindexed (sample_adj_df sample_spots) r c *
    inject_Z (Z.of_nat (spot_count sample_spots r)) ==
  inject_Z (Z.of_nat (adjacency_count (spot_dict_of sample_spots) r c)).
Proof.
  assert (Hzero : forall n : nat, n = 0%nat -> 0 * inject_Z (Z.of_nat (spot_count sample_spots r))
                                               == inject_Z (Z.of_nat n)).
  { intros n ->. cbn. ring. }
  unfold reindexed, loc.
  destruct (mem r (df_index (sample_adj_df sample_spots))) eqn:Er; cbn [andb].
  - apply mem_In in Er. destruct (sample_adj_df_at sample_spots r c Er) as [Hpos Hat].
    destruct (mem c (df_columns (sample_adj_df sample_spots))) eqn:Ec.
    + rewrite Hat. field. intros Hq.
      assert (Hz : inject_Z (Z.of_nat (spot_count sample_spots r)) == inject_Z 0) by exact Hq.
      rewrite inject_Z_injective in Hz. lia.
    + apply Hzero. apply mem_false in Ec.
      destruct (adjacency_count (spot_dict_of sample_spots) r c) eqn:Ea; [reflexivity|].
      exfalso. apply Ec. apply adjacency_count_column with (r := r). lia.
  - apply Hzero. apply mem_false in Er.
    destruct (adjacency_count (spot_dict_of sample_spots) r c) eqn:Ea; [reflexivity|].
    exfalso. apply Er. rewrite sample_adj_df_index.
    apply (counter_pos_column _ r c). rewrite counter_adj_counts_of. lia.
Qed.

(** X1. The raw neighbour counters of a sample are symmetric: as the eight
    offsets are closed under negation, the number of adjacencies counted from
    [L1]-spots to [L2]-spots is the number counted from [L2]-spots to
    [L1]-spots. The normalised matrix is symmetric once each row is weighted
    by the number of spots of its label. *)
Theorem adjacency_counts_symmetric (sample_spots : list spot) (L1 L2 : label) :
  let spot_dict := spot_dict_of sample_spots in
  let adj_df := sample_adj_df sample_spots in
  counter (adj_counts_of spot_dict) L1 L2 = counter (adj_counts_of spot_dict) L2 L1 /\
  reindexed adj_df L1 L2 * inject_Z (Z.of_nat (spot_count sample_spots L1)) ==
  reindexed adj_df L2 L1 * inject_Z (Z.of_nat (spot_count sample_spots L2)).
Proof.
  intros spot_dict adj_df.
  assert (Hsym : adjacency_count spot_dict L1 L2 = adjacency_count spot_dict L2 L1)
    by apply adjacency_count_sym, Dict.of_list_keys_NoDup.
  split.
  - now rewrite !counter_adj_counts_of.
  - unfold adj_df. rewrite !reindexed_scaled. fold spot_dict. now rewrite Hsym.
Qed.

Lemma adjacencies_from_length sd item :
  (List.length (adjacencies_from sd item) <= 8)%nat.
Proof.
  unfold adjacencies_from.
  change 8%nat with (List.length neighbors_offset). generalize neighbors_offset.
  intros os. induction os as [|o os IH]; [reflexivity|].
  cbn [flat_map]. rewrite length_app.
  destruct (Dict.get sd (shift (fst item) o)); cbn [List.length]; lia.
Qed.

Lemma adjacencies_from_fst sd item a :
  In a (adjacencies_from sd item) -> fst a = snd item.
Proof.
  unfold adjacencies_from. rewrite in_flat_map. intros [o [_ Hin]].
  destruct (Dict.get sd (shift (fst item) o)); [|destruct Hin].
  destruct Hin as [<-|[]]. reflexivity.
Qed.

Lemma filter_none {A} (f : A -> bool) (l : list A) :
  (forall x, In x l -> f x = false) -> filter f l = [].
Proof.
  induction l as [|a l IH]; intros H; [reflexivity|].
  cbn [filter]. rewrite (H a) by now left. apply IH. intros x Hx. apply H. now right.
Qed.

(** The interactions of the [l1]-spots: at most eight per dictionary item. *)
Lemma interactions_le (sd its : @Dict.t coord label) l1 :
  (List.length (filter (fun a => key_eqb (fst a) l1) (flat_map (adjacencies_from sd) its)) <=
   8 * List.length (filter (fun kv => key_eqb (snd kv) l1) its))%nat.
Proof.
  induction its as [|item its IH]; [cbn; lia|].
  cbn [flat_map filter]. rewrite filter_app, length_app.
  destruct (key_eqb_spec (snd item) l1) as [Heq|Hne].
  - cbn [List.length].
    pose proof (filter_length_le (fun a => key_eqb (fst a) l1) (adjacencies_from sd item)).
    pose proof (adjacencies_from_length sd item). lia.
  - rewrite filter_none; [cbn [List.length]; lia|].
    intros a Ha. apply adjacencies_from_fst in Ha. apply key_eqb_neq. congruence.
Qed.

Lemma adjacency_le_interaction sd l1 l2 :
  (adjacency_count sd l1 l2 <= interaction_count sd l1)%nat.
Proof.
  unfold adjacency_count, interaction_count. generalize (adjacencies sd). intros evs.
  induction evs as [|[a b] evs IH]; [reflexivity|].
  cbn [count_occ filter fst]. destruct (key_eq_dec (a, b) (l1, l2)) as [Heq|Hne].
  - injection Heq as -> ->. rewrite key_eqb_refl. cbn [List.length]. lia.
  - destruct (key_eqb a l1); cbn [List.length]; lia.
Qed.

(** A label has at most as many dictionary items as rows: a coordinate that
    occurs twice keeps one item. *)
Lemma labelled_items_le sample_spots l :
  (List.length (filter (fun kv => key_eqb (snd kv) l) (spot_dict_of sample_spots)) <=
   spot_count sample_spots l)%nat.
Proof.
  unfold spot_count, spot_dict_of.
  set (rows := map (fun s => ((array_row s, array_col s), leiden s)) sample_spots).
  assert (Hrows : map leiden sample_spots = map snd rows).
  { unfold rows. rewrite map_map. reflexivity. }
  rewrite Hrows, count_occ_filter_length.
  assert (Hlen : List.length (filter (fun y => key_eqb y l) (map snd rows)) =
                 List.length (filter (fun kv : coord * label => key_eqb (snd kv) l) rows)).
  { clear. induction rows as [|[k v] rows IH]; [reflexivity|].
    cbn [map filter snd]. destruct (key_eqb v l); cbn [List.length]; now rewrite IH. }
  rewrite Hlen. apply NoDup_incl_length.
  - apply NoDup_filter, NoDup_items, Dict.of_list_keys_NoDup.
  - intros kv Hin. apply filter_In in Hin. apply filter_In.
    split; [apply dict_of_list_In|]; tauto.
Qed.

Lemma interaction_count_le sample_spots l :
  (interaction_count (spot_dict_of sample_spots) l <= 8 * spot_count sample_spots l)%nat.
Proof.
  unfold interaction_count, adjacencies, Dict.items.
  etransitivity; [apply interactions_le|].
  pose proof (labelled_items_le sample_spots l). lia.
Qed.

Lemma row_sum_interactions sample_spots r :
  In r (df_index (sample_adj_df sample_spots)) ->
  row_sum (sample_adj_df sample_spots) r ==
  inject_Z (Z.of_nat (interaction_count (spot_dict_of sample_spots) r)) /
  inject_Z (Z.of_nat (spot_count sample_spots r)).
Proof.
  intros Hin. unfold row_sum.
  rewrite (map_ext_in _ (fun c => inject_Z (Z.of_nat (adjacency_count (spot_dict_of sample_spots) r c)) /
                                  inject_Z (Z.of_nat (spot_count sample_spots r)))).
  - rewrite Qsum_div. unfold adjacency_count, interaction_count.
    rewrite sum_count_occ_columns; [reflexivity | | ].
    + rewrite sample_adj_df_columns. apply unique_NoDup.
    + intros c Hc. apply adjacency_count_column with (r := r).
      unfold adjacency_count. now apply (count_occ_In key_eq_dec).
  - intros c _. now destruct (sample_adj_df_at sample_spots r c Hin) as [_ ->].
Qed.

Lemma ratio_bounds (a n : nat) :
  (0 < n)%nat -> (a <= 8 * n)%nat ->
  0 <= inject_Z (Z.of_nat a) / inject_Z (Z.of_nat n) <= 8.
Proof.
  intros Hn Ha.
  assert (Hpos : 0 < inject_Z (Z.of_nat n)).
  { change 0 with (inject_Z 0). rewrite <- Zlt_Qlt. lia. }
  split.
  - apply Qle_shift_div_l; [assumption|]. rewrite Qmult_0_l.
    change 0 with (inject_Z 0). rewrite <- Zle_Qle. lia.
  - apply Qle_shift_div_r; [assumption|].
    change 8 with (inject_Z 8). rewrite <- inject_Z_mult, <- Zle_Qle. lia.
Qed.

(** X2. Every entry of a sample's adjacency matrix lies between 0 and 8, and
    so does the sum of each of its rows: a spot has at most eight neighbour
    positions, and a row is divided by the number of rows of the sample that
    bear its label. *)
Theorem adjacency_entries_bounded (sample_spots : list spot) (L1 L2 : label) :
  let adj_df := sample_adj_df sample_spots in
  0 <= reindexed adj_df L1 L2 <= 8 /\
  (In L1 (df_index adj_df) -> 0 <= row_sum adj_df L1 <= 8).
Proof.
  intros adj_df. split.
  - unfold reindexed, loc.
    destruct (mem L1 (df_index adj_df)) eqn:Er; cbn [andb]; [|split; discriminate].
    destruct (mem L2 (df_columns adj_df)); [|split; discriminate].
    apply mem_In in Er. unfold adj_df.
    destruct (sample_adj_df_at sample_spots L1 L2 Er) as [Hpos ->].
    apply ratio_bounds; [assumption|].
    etransitivity; [apply adjacency_le_interaction | apply interaction_count_le].
  - intros Hin. unfold adj_df. rewrite row_sum_interactions by assumption.
    apply ratio_bounds; [|apply interaction_count_le].
    now destruct (sample_adj_df_at sample_spots L1 L2 Hin).
Qed.

(** ** Edge behaviour of [compute_groupwise_adjacency_matrix] *)

(** The filtered table of a call, if it returned one. *)
Definition table_of {A B} (r : result (A * option B)) : option B :=
  match r with
  | Return (_, Some t) => Some t
  | _ => None
  end.








(** X4. Comparing a group with itself never returns: when the focus group is
    that group, [[g for g in groups if g != focus_group][0]] indexes an empty
    list; any other focus group is rejected. *)
Theorem same_group_twice_raises
    (mannwhitneyu : list Q -> list Q -> Q) (multipletests : list Q -> list Q)
    (adata : AnnData) (group : string) (focus_group : option string)
    (enrichment_fold P_value : Q) :
  exists e,
    compute_groupwise_adjacency_matrix mannwhitneyu multipletests adata [group; group]
      focus_group enrichment_fold P_value = Raise e /\
    (e = IndexError -> focus_group = Some group).
Proof.
  unfold compute_groupwise_adjacency_matrix.
  destruct (sample_adj_counts adata) as [|sa0 sac] eqn:Esac;
    [exists ValueError; split; [reflexivity | discriminate]|].
  rewrite <- Esac.
  destruct (merged_df_of _) as [merged|e0] eqn:Em.
  2:{ exists e0. split; [reflexivity|]. intros ->.
      unfold merged_df_of in Em. destruct (group_adj_matrices _ _ _); discriminate. }
  destruct (Dict.get _ group) as [data|];
    [|exists KeyError; split; [reflexivity | discriminate]].
  destruct (fdr_results_of _ _) as [fdr_results|e1] eqn:Ef.
  2:{ exists e1. split; [reflexivity|]. intros ->.
      unfold fdr_results_of in Ef. destruct (_ =? _)%nat; discriminate. }
  unfold focus_filter. destruct focus_group as [focus|];
    [|exists ValueError; split; [reflexivity | discriminate]].
  cbn [mem existsb filter]. destruct (key_eqb_spec group focus) as [->|Hne].
  - rewrite key_eqb_refl. cbn [orb negb].
    exists IndexError. split; reflexivity.
  - rewrite (key_eqb_neq focus group) by congruence. cbn [orb].
    exists ValueError. split; [reflexivity | discriminate].
Qed.

(** With a number of groups other than two the call runs no test and
    checks no focus group: its outcome does not depend on the test functions,
    the focus group or the thresholds, and it holds no filtered table. *)
Theorem other_group_counts_skip_testing
    (mannwhitneyu mannwhitneyu' : list Q -> list Q -> Q)
    (multipletests multipletests' : list Q -> list Q)
    (adata : AnnData) (groups : list string) (focus_group focus_group' : option string)
    (enrichment_fold enrichment_fold' P_value P_value' : Q) :
  List.length groups <> 2%nat ->
  compute_groupwise_adjacency_matrix mannwhitneyu multipletests adata groups
    focus_group enrichment_fold P_value =
  compute_groupwise_adjacency_matrix mannwhitneyu' multipletests' adata groups
    focus_group' enrichment_fold' P_value' /\
  table_of (compute_groupwise_adjacency_matrix mannwhitneyu multipletests adata groups
              focus_group enrichment_fold P_value) = None.
Proof.
  intros Hlen. unfold compute_groupwise_adjacency_matrix.
  destruct (sample_adj_counts adata) as [|sa0 sac] eqn:Esac; [split; reflexivity|].
  rewrite <- Esac.
  destruct (merged_df_of _) as [merged|e0]; [|split; reflexivity].
  destruct groups as [|g1 [|g2 [|g3 gs]]]; try (split; reflexivity).
  cbn in Hlen. congruence.
Qed.

Lemma other_group_counts_skip_testing_witness :
  compute_groupwise_adjacency_matrix (fun _ _ => 1) (fun ps => ps) demo_adata ["G1"]
    None 2 (5 # 100) =
  compute_groupwise_adjacency_matrix (fun _ _ => 0) (fun ps => []) demo_adata ["G1"]
    (Some "G9") 1 1 /\
  table_of (compute_groupwise_adjacency_matrix (fun _ _ => 1) (fun ps => ps) demo_adata ["G1"]
              None 2 (5 # 100)) = None.
Proof.
  apply (other_group_counts_skip_testing (fun _ _ => 1) (fun _ _ => 0) (fun ps => ps)
           (fun ps => []) demo_adata ["G1"] None (Some "G9") 2 1 (5 # 100) 1).
  cbn. discriminate.
Defined.

(** ** The pair table of [compute_groupwise_adjacency_matrix] *)

(** The samples of a group, in order of first appearance (line 130). *)
Definition group_samples (adata : AnnData) (group : string) : list string :=
  unique (map sample_id (filter (fun s => key_eqb (group_of s) group) adata)).




Lemma group_samples_nonempty adata group :
  (exists s, In s adata /\ group_of s = group) -> group_samples adata group <> [].
Proof.
  intros [s [Hs Hg]] Hnil.
  assert (Hin : In (sample_id s) (group_samples adata group)).
  { unfold group_samples. apply unique_In, in_map, filter_In. split; [assumption|].
    rewrite Hg. apply key_eqb_refl. }
  rewrite Hnil in Hin. destruct Hin.
Qed.


Lemma has_nonzero_Qeq v w : Forall2 Qeq v w -> has_nonzero v -> has_nonzero w.
Proof.
  intros Hvw [x [Hx Hnz]]. induction Hvw as [|a b v w Hab Hvw IH]; [destruct Hx|].
  destruct Hx as [->|Hx].
  - exists b. split; [now left|]. now rewrite <- Hab.
  - destruct (IH Hx) as [y [Hy Hny]]. exists y. split; [now right | assumption].
Qed.



(** ** Further properties of the geometric signature *)

From Stdlib Require Import Sorted.

Section SortedOrder.
Context {A : Type} (leb : A -> A -> bool).
Hypothesis leb_total : forall x y, leb x y = true \/ leb y x = true.
Hypothesis leb_trans : forall x y z, leb x y = true -> leb y z = true -> leb x z = true.

Lemma insert_StronglySorted x l :
  StronglySorted (fun a b => leb a b = true) l ->
  StronglySorted (fun a b => leb a b = true) (insert leb x l).
Proof.
  induction 1 as [|y l Hs IH Hy]; cbn [insert].
  - constructor; constructor.
  - destruct (leb x y) eqn:Exy.
    + constructor; [now constructor|]. constructor; [assumption|].
      apply Forall_forall. intros z Hz. rewrite Forall_forall in Hy.
      eapply leb_trans; [exact Exy | now apply Hy].
    + constructor; [assumption|].
      apply Forall_forall. intros z Hz.
      apply (Permutation_in _ (insert_perm leb x l)) in Hz. destruct Hz as [<-|Hz].
      * destruct (leb_total x y); congruence.
      * rewrite Forall_forall in Hy. now apply Hy.
Qed.

Lemma sorted_StronglySorted l : StronglySorted (fun a b => leb a b = true) (sorted leb l).
Proof.
  induction l as [|x l IH]; cbn [sorted fold_right]; [constructor|].
  now apply insert_StronglySorted.
Qed.

End SortedOrder.

Lemma Rleb_le a b : Rleb a b = true <-> (a <= b)%R.
Proof.
  unfold Rleb. destruct (Rle_dec a b); split; intros;
    try assumption; try reflexivity; try discriminate; contradiction.
Qed.

Lemma StronglySorted_impl {A} (P Q : A -> A -> Prop) l :
  (forall a b, P a b -> Q a b) -> StronglySorted P l -> StronglySorted Q l.
Proof.
  intros HPQ. induction 1 as [|a l Hs IH Ha]; constructor; [assumption|].
  eapply Forall_impl; [|exact Ha]. intros b. apply HPQ.
Qed.

(** X6. [geometric_signature] returns its rows in ascending order of
    distance, each row joins a name to a strictly greater one, and there is
    one label pair per row. *)
Theorem signature_sorted_ascending (s : structure) :
  let sg := geometric_signature s in
  StronglySorted (fun r1 r2 => (Distance r1 <= Distance r2)%R) (fst sg) /\
  Forall (fun r => name_ltb (From_name r) (To_name r) = true) (fst sg) /\
  List.length (snd sg) = List.length (fst sg).
Proof.
  intros sg. split; [|split].
  - unfold sg, geometric_signature, sort_values. cbn [fst].
    apply (StronglySorted_impl (fun r1 r2 => Rleb (Distance r1) (Distance r2) = true)).
    + intros a b. apply Rleb_le.
    + apply sorted_StronglySorted.
      * intros x y. rewrite !Rleb_le. lra.
      * intros x y z. rewrite !Rleb_le. lra.
  - unfold sg, geometric_signature, sort_values. cbn [fst].
    apply Forall_forall. intros r Hr. apply sorted_In, filter_In in Hr. tauto.
  - apply geometric_signature_wf.
Qed.

Lemma signature_rows_length s :
  distinct_nodes s ->
  List.length (fst (geometric_signature s)) = List.length (upairs s).
Proof.
  intros Hnd. rewrite <- (canon_length _ (geometric_signature_wf s)).
  rewrite (Permutation_length (canon_geometric_signature s Hnd)). apply length_map.
Qed.

(** X7. A structure of [n] nodes with distinct names has a signature of
    [n (n - 1) / 2] rows: one per unordered pair of nodes. *)
Theorem signature_size (s : structure) :
  distinct_nodes s ->
  (2 * List.length (fst (geometric_signature s)) + List.length s =
   List.length s * List.length s)%nat.
Proof.
  intros Hnd. rewrite signature_rows_length by assumption. apply upairs_length.
Qed.

Lemma signature_size_witness :
  (2 * List.length (fst (geometric_signature demo_structure)) + List.length demo_structure =
   List.length demo_structure * List.length demo_structure)%nat.
Proof. apply (signature_size demo_structure). exact demo_structure_distinct. Defined.

(** X8. On the results of [geometric_signature], [compare_structures] is an
    equivalence: a signature matches itself, the order of the two arguments
    does not matter, and matching is transitive. *)
Theorem compare_structures_equivalence (s1 s2 s3 : structure) :
  let sg1 := geometric_signature s1 in
  let sg2 := geometric_signature s2 in
  let sg3 := geometric_signature s3 in
  same_signature sg1 sg1 = true /\
  same_signature sg1 sg2 = same_signature sg2 sg1 /\
  (same_signature sg1 sg2 = true -> same_signature sg2 sg3 = true ->
   same_signature sg1 sg3 = true).
Proof.
  intros sg1 sg2 sg3.
  pose proof (geometric_signature_wf s1) as H1.
  pose proof (geometric_signature_wf s2) as H2.
  pose proof (geometric_signature_wf s3) as H3.
  split; [|split].
  - now apply same_signature_refl.
  - destruct (same_signature sg1 sg2) eqn:E12.
    + symmetry. now apply same_signature_sym.
    + destruct (same_signature sg2 sg1) eqn:E21; [|reflexivity].
      apply same_signature_sym in E21; [congruence | assumption | assumption].
  - now apply same_signature_trans.
Qed.

(** X9. Two structures with distinct names and different numbers of nodes,
    one of them with two nodes or more, never match. *)
Theorem different_sizes_never_match (s1 s2 : structure) :
  distinct_nodes s1 -> distinct_nodes s2 ->
  List.length s1 <> List.length s2 ->
  (2 <= List.length s1 \/ 2 <= List.length s2)%nat ->
  same_signature (geometric_signature s1) (geometric_signature s2) = false.
Proof.
  intros Hd1 Hd2 Hne Hbig.
  destruct (same_signature _ _) eqn:E; [|reflexivity]. exfalso.
  apply compare_structures_spec in E; try apply geometric_signature_wf.
  apply Permutation_length in E.
  rewrite !canon_length in E by apply geometric_signature_wf.
  pose proof (upairs_length s1) as Hu1. pose proof (upairs_length s2) as Hu2.
  rewrite !signature_rows_length in E by assumption.
  nia.
Qed.

Lemma different_sizes_never_match_witness :
  same_signature (geometric_signature demo_structure)
                 (geometric_signature [ ((0%R, 0%R), "A"); ((1%R, 1%R), "B") ]) = false.
Proof.
  apply different_sizes_never_match.
  - exact demo_structure_distinct.
  - unfold distinct_nodes. simpl.
    repeat constructor; simpl; intros H;
      repeat (destruct H as [H|H]; [inversion H; lra|]); assumption.
  - simpl. lia.
  - left. simpl. lia.
Defined.

(** ** Further properties of the greedy grouping *)

Section GreedyGroupingFacts.
Context {K Sg : Type} `{Hashable K}.
Variable matches : Sg -> Sg -> bool.
Variable sig_of : K -> Sg.

Hypothesis equiv_refl : forall x, equiv matches sig_of x x = true.
Hypothesis equiv_sym :
  forall x y, equiv matches sig_of x y = true -> equiv matches sig_of y x = true.
Hypothesis equiv_trans :
  forall x y z, equiv matches sig_of x y = true -> equiv matches sig_of y z = true ->
                equiv matches sig_of x z = true.

(** The dictionary of groups after the loop: the classes of the keys,
    numbered from 0 in order of their first members. *)
Lemma group_all_numbered (items : list (K * Sg)) :
  consistent sig_of items ->
  group_all matches sig_of items =
  numbered 0 (map (class_of matches sig_of (map fst items))
                  (reps matches sig_of (map fst items))).
Proof.
  intros Hcons. unfold group_all.
  change (@Dict.empty nat (list K))
    with (numbered 0 (map (class_of matches sig_of []) (reps matches sig_of []))).
  rewrite (group_fold_classes matches sig_of equiv_refl equiv_sym equiv_trans items []
             Hcons (classes_inv_all matches sig_of equiv_refl equiv_sym equiv_trans [])).
  reflexivity.
Qed.

Lemma numbered_keys (a : nat) (groups : list (list K)) :
  Dict.keys (numbered a groups) = seq a (List.length groups).
Proof.
  unfold numbered, Dict.keys. revert a.
  induction groups as [|g groups IH]; intros a; [reflexivity|].
  cbn. f_equal. apply IH.
Qed.

Lemma numbered_values (a : nat) (groups : list (list K)) :
  map snd (numbered a groups) = groups.
Proof.
  unfold numbered. revert a.
  induction groups as [|g groups IH]; intros a; [reflexivity|].
  cbn. f_equal. apply IH.
Qed.

Lemma reps_In (P : list K) r : In r (reps matches sig_of P) -> In r P.
Proof.
  intros Hr.
  destruct (classes_inv_all matches sig_of equiv_refl equiv_sym equiv_trans P) as [Hhead _].
  destruct (Hhead r Hr) as [tl Htl].
  assert (Hin : In r (class_of matches sig_of P r)) by (rewrite Htl; now left).
  apply filter_In in Hin. tauto.
Qed.

(** The classes of representatives that do not match one another are
    disjoint. *)
Lemma classes_concat_NoDup (P rs : list K) :
  NoDup P -> pairwise_distinct matches sig_of rs ->
  NoDup (List.concat (map (class_of matches sig_of P) rs)).
Proof.
  intros Hnd. induction rs as [|r rs IH]; intros Hdist; [constructor|].
  cbn [map List.concat]. apply NoDup_app.
  - now apply NoDup_filter.
  - apply IH. eapply pairwise_distinct_tail. exact Hdist.
  - intros k Hk Hk'. apply filter_In in Hk. destruct Hk as [_ Hkr].
    apply in_concat in Hk'. destruct Hk' as [g [Hg Hkg]].
    apply in_map_iff in Hg. destruct Hg as [r' [<- Hr']].
    apply filter_In in Hkg. destruct Hkg as [_ Hkr'].
    pose proof (pairwise_distinct_head matches sig_of r rs r' Hdist Hr') as Hrr'.
    rewrite (equiv_trans r k r' (equiv_sym _ _ Hkr) Hkr') in Hrr'. discriminate.
Qed.

(** The classes partition the keys. *)
Lemma classes_concat_perm (P : list K) :
  NoDup P ->
  Permutation (List.concat (map (class_of matches sig_of P) (reps matches sig_of P))) P.
Proof.
  intros Hnd.
  destruct (classes_inv_all matches sig_of equiv_refl equiv_sym equiv_trans P)
    as [_ [Hdist Hcov]].
  apply NoDup_Permutation; [now apply classes_concat_NoDup | assumption|].
  intros k. split.
  - intros Hk. apply in_concat in Hk. destruct Hk as [g [Hg Hkg]].
    apply in_map_iff in Hg. destruct Hg as [r [<- _]].
    apply filter_In in Hkg. tauto.
  - intros Hk. specialize (Hcov k Hk). apply existsb_exists in Hcov.
    destruct Hcov as [r [Hr Ekr]]. apply in_concat.
    exists (class_of matches sig_of P r). split; [now apply in_map|].
    apply filter_In. now split.
Qed.

Lemma classes_nonempty (P : list K) :
  Forall (fun g => g <> []) (map (class_of matches sig_of P) (reps matches sig_of P)).
Proof.
  destruct (classes_inv_all matches sig_of equiv_refl equiv_sym equiv_trans P) as [Hhead _].
  apply Forall_forall. intros g Hg. apply in_map_iff in Hg. destruct Hg as [r [<- Hr]].
  destruct (Hhead r Hr) as [tl ->]. discriminate.
Qed.

Lemma pairwise_distinct_eq (rs : list K) r r' :
  pairwise_distinct matches sig_of rs -> In r rs -> In r' rs ->
  equiv matches sig_of r r' = true -> r = r'.
Proof.
  intros Hdist Hr Hr' Err'.
  apply In_nth_error in Hr, Hr'. destruct Hr as [i Hi]. destruct Hr' as [j Hj].
  destruct (Nat.eq_dec i j) as [->|Hne]; [congruence|].
  rewrite (Hdist i j r r' Hi Hj Hne) in Err'. discriminate.
Qed.

(** Two keys are in one class exactly when their signatures match. *)
Lemma classes_match (P : list K) g g' k k' :
  In g (map (class_of matches sig_of P) (reps matches sig_of P)) ->
  In g' (map (class_of matches sig_of P) (reps matches sig_of P)) ->
  In k g -> In k' g' ->
  (equiv matches sig_of k k' = true <-> g = g').
Proof.
  intros Hg Hg' Hk Hk'.
  destruct (classes_inv_all matches sig_of equiv_refl equiv_sym equiv_trans P)
    as [_ [Hdist _]].
  apply in_map_iff in Hg, Hg'. destruct Hg as [r [<- Hr]]. destruct Hg' as [r' [<- Hr']].
  apply filter_In in Hk, Hk'. destruct Hk as [_ Hkr]. destruct Hk' as [HkP' Hkr'].
  split.
  - intros Hkk'. f_equal. apply (pairwise_distinct_eq _ _ _ Hdist Hr Hr').
    apply (equiv_trans r k r'); [now apply equiv_sym|].
    now apply (equiv_trans k k' r').
  - intros Heq.
    assert (Hin : In k' (class_of matches sig_of P r)).
    { rewrite Heq. apply filter_In. now split. }
    apply filter_In in Hin. destruct Hin as [_ Hk'r].
    apply (equiv_trans k r k'); [assumption | now apply equiv_sym].
Qed.

End GreedyGroupingFacts.

(** *** The groups of motifs *)

Lemma signatures_of_wf (motifs : list (motif_key * motif)) k :
  signature_wf (getd empty_signature (signatures_of motifs) k).
Proof.
  unfold getd. destruct (Dict.get _ k) as [sg|] eqn:E; [|reflexivity].
  apply Dict.get_In, dict_of_list_In, in_map_iff in E. destruct E as [km [Heq _]].
  inversion Heq. apply geometric_signature_wf.
Qed.

Lemma motif_equiv_refl motifs x :
  equiv same_signature (getd empty_signature (signatures_of motifs)) x x = true.
Proof. apply same_signature_refl, signatures_of_wf. Qed.

Lemma motif_equiv_sym motifs x y :
  equiv same_signature (getd empty_signature (signatures_of motifs)) x y = true ->
  equiv same_signature (getd empty_signature (signatures_of motifs)) y x = true.
Proof. apply same_signature_sym; apply signatures_of_wf. Qed.

Lemma motif_equiv_trans motifs x y z :
  equiv same_signature (getd empty_signature (signatures_of motifs)) x y = true ->
  equiv same_signature (getd empty_signature (signatures_of motifs)) y z = true ->
  equiv same_signature (getd empty_signature (signatures_of motifs)) x z = true.
Proof. apply same_signature_trans; apply signatures_of_wf. Qed.


(** The items of [structure_signatures] carry their own signature. *)
Lemma signatures_of_consistent motifs :
  consistent (getd empty_signature (signatures_of motifs)) (Dict.items (signatures_of motifs)).
Proof.
  intros [k sg] Hin. cbn [fst snd]. unfold getd.
  rewrite (Dict.In_get (signatures_of motifs) k sg); [reflexivity | | exact Hin].
  apply Dict.of_list_keys_NoDup.
Qed.

Lemma signatures_of_keys motifs :
  NoDup (map fst motifs) -> map fst (Dict.items (signatures_of motifs)) = map fst motifs.
Proof.
  intros Hnd. unfold signatures_of, Dict.items.
  rewrite dict_of_list_NoDup by (rewrite map_map; exact Hnd).
  rewrite map_map. reflexivity.
Qed.

(** [grouped_structures] is the numbered list of the classes of the keys. *)
Lemma grouped_structures_numbered motifs :
  NoDup (map fst motifs) ->
  grouped_structures_of motifs =
  numbered 0
    (map (class_of same_signature (getd empty_signature (signatures_of motifs)) (map fst motifs))
         (reps same_signature (getd empty_signature (signatures_of motifs)) (map fst motifs))).
Proof.
  intros Hnd. unfold grouped_structures_of.
  rewrite (group_all_numbered same_signature _ (motif_equiv_refl motifs)
             (motif_equiv_sym motifs) (motif_equiv_trans motifs))
    by apply signatures_of_consistent.
  now rewrite signatures_of_keys.
Qed.

(** X10. The loop that fills [grouped_structures] partitions the motifs: the
    group ids are [0, 1, ...] in order of creation, no group is empty, and
    every motif key is a member of exactly one group. *)
Theorem grouped_structures_partition (motifs : list (motif_key * motif)) :
  NoDup (map fst motifs) ->
  let grouped_structures := grouped_structures_of motifs in
  Dict.keys grouped_structures = seq 0 (List.length grouped_structures) /\
  Forall (fun members => members <> []) (map snd grouped_structures) /\
  Permutation (List.concat (map snd grouped_structures)) (map fst motifs).
Proof.
  intros Hnd grouped_structures. unfold grouped_structures.
  rewrite grouped_structures_numbered by assumption.
  rewrite numbered_keys, numbered_values, numbered_length.
  split; [reflexivity|]. split.
  - apply classes_nonempty;
      [apply motif_equiv_refl | apply motif_equiv_sym | apply motif_equiv_trans].
  - apply classes_concat_perm;
      [apply motif_equiv_refl | apply motif_equiv_sym | apply motif_equiv_trans | assumption].
Qed.

Lemma grouped_structures_partition_witness :
  Dict.keys (grouped_structures_of demo_motifs) =
    seq 0 (List.length (grouped_structures_of demo_motifs)) /\
  Forall (fun members => members <> []) (map snd (grouped_structures_of demo_motifs)) /\
  Permutation (List.concat (map snd (grouped_structures_of demo_motifs)))
              (map fst demo_motifs).
Proof. exact (grouped_structures_partition demo_motifs demo_motifs_keys). Defined.

(** X11. Two motifs are members of one group exactly when
    [compare_structures] accepts their signatures: a group is a class of the
    matching relation, whatever the order in which the motifs were met. *)
Theorem same_group_iff_signatures_match
    (motifs : list (motif_key * motif)) (g g' : list motif_key) (k k' : motif_key) :
  NoDup (map fst motifs) ->
  In g (map snd (grouped_structures_of motifs)) ->
  In g' (map snd (grouped_structures_of motifs)) ->
  In k g -> In k' g' ->
  (same_signature (getd empty_signature (signatures_of motifs) k)
                  (getd empty_signature (signatures_of motifs) k') = true <-> g = g').
Proof.
  intros Hnd. rewrite grouped_structures_numbered by assumption. rewrite numbered_values.
  apply (classes_match same_signature (getd empty_signature (signatures_of motifs)));
    [apply motif_equiv_refl | apply motif_equiv_sym | apply motif_equiv_trans].
Qed.

Lemma same_group_iff_signatures_match_witness :
  exists g,
    In g (map snd (grouped_structures_of demo_motifs)) /\
    In ("s1", "structure_0") g /\
    (same_signature
       (getd empty_signature (signatures_of demo_motifs) ("s1", "structure_0"))
       (getd empty_signature (signatures_of demo_motifs) ("s1", "structure_0")) = true <->
     g = g).
Proof.
  destruct (grouped_structures_cover demo_motifs ("s1", "structure_0") demo_motifs_keys
              (or_introl eq_refl)) as [g [Hg Hk]].
  exists g. split; [exact Hg|]. split; [exact Hk|].
  exact (same_group_iff_signatures_match demo_motifs g g ("s1", "structure_0")
           ("s1", "structure_0") demo_motifs_keys Hg Hg Hk Hk).
Defined.

(** *** [group_by_label_sets] and [group_structures_by_geometry] *)

(** The label set of a motif: the [frozenset] of its labels. *)
Definition label_set_of (nodes : motif) : list label :=
  sorted String.leb (unique (map snd nodes)).

Lemma append_bucket_perm {K V} `{Hashable K} (d : @Dict.t K (list V)) (k : K) (x : V) :
  Permutation (flat_map snd (Dict.set d k (getd [] d k ++ [x]))) (x :: flat_map snd d).
Proof.
  unfold getd. induction d as [|[k0 v0] d IH].
  - cbn. reflexivity.
  - cbn [Dict.set Dict.get]. destruct (key_eqb k0 k) eqn:E.
    + cbn [flat_map snd]. rewrite <- app_assoc. cbn [app].
      symmetry. apply Permutation_middle.
    + cbn [flat_map snd]. rewrite IH. symmetry. apply Permutation_middle.
Qed.

Lemma append_bucket_In {K V} `{Hashable K} (d : @Dict.t K (list V)) (k : K) (x : V) k' vs :
  In (k', vs) (Dict.set d k (getd [] d k ++ [x])) ->
  (k' = k /\ vs = getd [] d k ++ [x]) \/ In (k', vs) d.
Proof.
  intros Hin. apply dict_set_In in Hin. destruct Hin as [Heq|Hin]; [left | now right].
  now inversion Heq.
Qed.

(** Every bucket of [label_groups] is non-empty and holds keys of motifs with
    the bucket's label set. *)
Lemma group_by_label_sets_In (structures_dict : motif_dict) ls ks :
  In (ls, ks) (group_by_label_sets structures_dict) ->
  ks <> [] /\
  forall k, In k ks -> exists nodes, In (k, nodes) structures_dict /\ label_set_of nodes = ls.
Proof.
  unfold group_by_label_sets.
  assert (Hgen : forall (d : motif_dict) (lg : @Dict.t (list label) (list motif_key)),
             (forall ls ks, In (ls, ks) lg ->
                ks <> [] /\
                forall k, In k ks ->
                  exists nodes, In (k, nodes) structures_dict /\ label_set_of nodes = ls) ->
             incl d structures_dict ->
             forall ls ks,
               In (ls, ks)
                  (fold_left
                     (fun label_groups entry =>
                        let label_set := sorted String.leb (unique (map snd (snd entry))) in
                        Dict.set label_groups label_set
                          (getd [] label_groups label_set ++ [fst entry]))
                     d lg) ->
               ks <> [] /\
               forall k, In k ks ->
                 exists nodes, In (k, nodes) structures_dict /\ label_set_of nodes = ls).
  { induction d as [|[k0 nodes0] d IH]; intros lg Hlg Hincl ls0 ks0 Hin; [now apply Hlg|].
    cbn [fold_left] in Hin. revert Hin. apply IH.
    - cbv beta zeta. cbn [fst snd]. intros ls1 ks1 Hin.
      apply append_bucket_In in Hin. destruct Hin as [[-> ->]|Hin]; [|now apply Hlg].
      split; [intros Hnil; now apply app_eq_nil in Hnil|].
      intros k Hk. apply in_app_or in Hk. destruct Hk as [Hk|[<-|[]]].
      + unfold getd in Hk.
        match type of Hk with
        | context [Dict.get ?a ?b] => destruct (Dict.get a b) as [vs|] eqn:Eg
        end; [|destruct Hk].
        apply Dict.get_In in Eg. destruct (Hlg _ _ Eg) as [_ Hm]. now apply Hm.
      + exists nodes0. split; [apply Hincl; now left | reflexivity].
    - intros e He. apply Hincl. now right. }
  apply Hgen; [intros ls0 ks0 [] | apply incl_refl].
Qed.

(** The buckets of [label_groups] hold every key once. *)
Lemma group_by_label_sets_perm (structures_dict : motif_dict) :
  Permutation (flat_map snd (group_by_label_sets structures_dict)) (map fst structures_dict).
Proof.
  unfold group_by_label_sets.
  assert (Hgen : forall (d : motif_dict) (lg : @Dict.t (list label) (list motif_key)),
             Permutation
               (flat_map snd
                  (fold_left
                     (fun label_groups entry =>
                        let label_set := sorted String.leb (unique (map snd (snd entry))) in
                        Dict.set label_groups label_set
                          (getd [] label_groups label_set ++ [fst entry]))
                     d lg))
               (flat_map snd lg ++ map fst d)).
  { induction d as [|[k0 nodes0] d IH]; intros lg.
    - cbn. now rewrite app_nil_r.
    - cbn [fold_left map fst]. rewrite IH. cbv zeta. cbn [fst snd].
      rewrite append_bucket_perm. cbn [app]. apply Permutation_middle. }
  apply (Hgen structures_dict Dict.empty).
Qed.

Lemma group_by_label_sets_keys (structures_dict : motif_dict) :
  NoDup (Dict.keys (group_by_label_sets structures_dict)).
Proof.
  unfold group_by_label_sets.
  assert (Hgen : forall (d : motif_dict) (lg : @Dict.t (list label) (list motif_key)),
             NoDup (Dict.keys lg) ->
             NoDup (Dict.keys
                      (fold_left
                         (fun label_groups entry =>
                            let label_set := sorted String.leb (unique (map snd (snd entry))) in
                            Dict.set label_groups label_set
                              (getd [] label_groups label_set ++ [fst entry]))
                         d lg))).
  { induction d as [|e d IH]; intros lg Hlg; [exact Hlg|].
    cbn [fold_left]. apply IH. now apply Dict.keys_set_NoDup. }
  apply Hgen. constructor.
Qed.

(** X12. [group_by_label_sets] partitions the motif keys by label set: the
    buckets have distinct label sets, none is empty, every member of a bucket
    is a motif with the bucket's label set, and every key is a member of
    exactly one bucket. *)
Theorem label_sets_partition (structures_dict : motif_dict) :
  let label_groups := group_by_label_sets structures_dict in
  NoDup (Dict.keys label_groups) /\
  Permutation (flat_map snd label_groups) (map fst structures_dict) /\
  (forall label_set members, In (label_set, members) label_groups ->
     members <> [] /\
     forall k, In k members ->
       exists nodes, In (k, nodes) structures_dict /\ label_set_of nodes = label_set).
Proof.
  intros label_groups. split; [apply group_by_label_sets_keys|]. split.
  - apply group_by_label_sets_perm.
  - apply group_by_label_sets_In.
Qed.

(** With distinct keys, the items of [structure_signatures] are the keys
    paired with their signatures. *)
Lemma signatures_of_items (structures_dict : motif_dict) :
  NoDup (map fst structures_dict) ->
  Dict.items (signatures_of structures_dict) =
  map (fun k => (k, getd empty_signature (signatures_of structures_dict) k))
      (map fst structures_dict).
Proof.
  intros Hnd. unfold Dict.items. rewrite map_map.
  assert (Hnd' : NoDup (Dict.keys (signatures_of structures_dict)))
    by apply Dict.of_list_keys_NoDup.
  assert (Hitems : signatures_of structures_dict =
                   map (fun km => (fst km, geometric_signature (structure_of (snd km))))
                       structures_dict).
  { unfold signatures_of. apply dict_of_list_NoDup. rewrite map_map. exact Hnd. }
  rewrite Hitems at 1. apply map_ext_in. intros [k nodes] Hin. cbn [fst snd]. f_equal.
  unfold getd. rewrite (Dict.In_get (signatures_of structures_dict) k
                          (geometric_signature (structure_of nodes)) Hnd'); [reflexivity|].
  rewrite Hitems. apply in_map_iff. now exists (k, nodes).
Qed.

Lemma geometry_items_perm (structures_dict : motif_dict) :
  NoDup (map fst structures_dict) ->
  Permutation
    (map (fun k => (k, getd empty_signature (signatures_of structures_dict) k))
         (flat_map snd (group_by_label_sets structures_dict)))
    (Dict.items (signatures_of structures_dict)).
Proof.
  intros Hnd. rewrite signatures_of_items by assumption.
  apply Permutation_map, group_by_label_sets_perm.
Qed.

Lemma geometry_items_consistent (structures_dict : motif_dict) (ks : list motif_key) :
  consistent (getd empty_signature (signatures_of structures_dict))
    (map (fun k => (k, getd empty_signature (signatures_of structures_dict) k)) ks).
Proof.
  intros item Hin. apply in_map_iff in Hin. destruct Hin as [k [<- _]]. reflexivity.
Qed.

(** X13. Going through the motifs label set by label set, as
    [group_structures_by_geometry] does, changes only the order in which they
    are met: its groups are numbered from 0, and they are the groups that the
    loop over [structure_signatures.items()] builds from the same motifs, up to
    the order of the members. *)
Theorem geometry_grouping_agrees (structures_dict : motif_dict) :
  NoDup (map fst structures_dict) ->
  let by_geometry := group_structures_by_geometry structures_dict in
  let by_items := grouped_structures_of structures_dict in
  Dict.keys by_geometry = seq 0 (List.length by_geometry) /\
  (forall g, In g (map snd by_geometry) ->
     exists g', In g' (map snd by_items) /\ Permutation g g') /\
  (forall g', In g' (map snd by_items) ->
     exists g, In g (map snd by_geometry) /\ Permutation g' g).
Proof.
  intros Hnd by_geometry by_items.
  unfold by_geometry, by_items, group_structures_by_geometry, grouped_structures_of.
  split; [|split].
  - rewrite (group_all_numbered same_signature _ (motif_equiv_refl structures_dict)
               (motif_equiv_sym structures_dict) (motif_equiv_trans structures_dict))
      by apply geometry_items_consistent.
    now rewrite numbered_keys, numbered_length.
  - apply group_all_perm.
    + apply motif_equiv_refl.
    + apply motif_equiv_sym.
    + apply motif_equiv_trans.
    + apply geometry_items_consistent.
    + now apply geometry_items_perm.
  - apply group_all_perm.
    + apply motif_equiv_refl.
    + apply motif_equiv_sym.
    + apply motif_equiv_trans.
    + apply signatures_of_consistent.
    + symmetry. now apply geometry_items_perm.
Qed.

Lemma geometry_grouping_agrees_witness :
  Dict.keys (group_structures_by_geometry demo_motifs) =
    seq 0 (List.length (group_structures_by_geometry demo_motifs)) /\
  (forall g, In g (map snd (group_structures_by_geometry demo_motifs)) ->
     exists g', In g' (map snd (grouped_structures_of demo_motifs)) /\ Permutation g g') /\
  (forall g', In g' (map snd (grouped_structures_of demo_motifs)) ->
     exists g, In g (map snd (group_structures_by_geometry demo_motifs)) /\ Permutation g' g).
Proof. exact (geometry_grouping_agrees demo_motifs demo_motifs_keys). Defined.

(** ** Further properties of [expand_structure] *)

From Stdlib Require DecimalNat.

(** Distinct counters give distinct names. *)
Lemma structure_name_inj i j : structure_name i = structure_name j -> i = j.
Proof.
  unfold structure_name. intros Heq. cbn [append] in Heq.
  injection Heq as Heq.
  apply (f_equal NilEmpty.uint_of_string) in Heq. rewrite !NilEmpty.usu in Heq.
  injection Heq as Heq. apply (f_equal Nat.of_uint) in Heq.
  now rewrite !DecimalNat.Unsigned.of_to in Heq.
Qed.

(** The expansions of one motif, before they are named: the motif with one
    of its free neighbouring spots appended (lines 865-905). *)
Definition children_of (adata : AnnData) (entry : motif_key * motif)
  : list (string * motif) :=
  let sample := fst (fst entry) in
  map (fun new_node => (sample, snd entry ++ [new_node]))
      (potential_new_nodes (spot_dict_of (sample_spots_of adata sample))
                           (unique (map fst (snd entry)))).

(** Naming a list of expansions with the counter [structure_id], from [a]. *)
Definition name_children (a : nat) (children : list (string * motif)) : motif_dict :=
  map (fun ic => ((fst (snd ic), structure_name (fst ic)), snd (snd ic)))
      (combine (seq a (List.length children)) children).

Lemma name_children_snoc a children c :
  name_children a (children ++ [c]) =
  name_children a children ++ [((fst c, structure_name (a + List.length children)), snd c)].
Proof.
  unfold name_children. revert a. induction children as [|c0 cs IH]; intros a.
  - cbn. now rewrite Nat.add_0_r.
  - cbn [app List.length seq combine map fst snd]. f_equal.
    rewrite IH. now rewrite Nat.add_succ_r.
Qed.

Lemma name_children_keys a children k :
  In k (Dict.keys (name_children a children)) ->
  exists i, (a <= i < a + List.length children)%nat /\ snd k = structure_name i.
Proof.
  unfold name_children, Dict.keys. rewrite map_map. cbn [fst].
  intros Hin. apply in_map_iff in Hin. destruct Hin as [[i c] [<- Hin]].
  apply in_combine_l in Hin. apply in_seq in Hin. exists i. cbn [fst snd]. split; [lia|reflexivity].
Qed.

Lemma name_children_length a children :
  List.length (name_children a children) = List.length children.
Proof.
  unfold name_children. rewrite length_map, length_combine, length_seq. apply Nat.min_id.
Qed.

(** The inner loop adds the expansions of one motif at the end of the
    dictionary: no name is used twice, so no entry is overwritten. *)
Lemma add_expanded_fold sample points cands children :
  fold_left (add_expanded sample points) cands
            (name_children 0 children, List.length children) =
  (name_children 0 (children ++ map (fun new_node => (sample, points ++ [new_node])) cands),
   List.length (children ++ map (fun new_node => (sample, points ++ [new_node])) cands)).
Proof.
  revert children. induction cands as [|c cands IH]; intros children.
  - cbn. now rewrite app_nil_r.
  - cbn [fold_left map]. unfold add_expanded at 2. cbn [fst snd].
    rewrite dict_set_fresh.
    + transitivity
        (fold_left (add_expanded sample points) cands
           (name_children 0 (children ++ [(sample, points ++ [c])]),
            List.length (children ++ [(sample, points ++ [c])]))).
      * f_equal. rewrite name_children_snoc, length_app. cbn [fst snd Nat.add List.length].
        f_equal. lia.
      * rewrite IH, <- !app_assoc. reflexivity.
    + intros Hin. apply name_children_keys in Hin. destruct Hin as [i [Hi Heq]].
      cbn [snd] in Heq. apply structure_name_inj in Heq. lia.
Qed.

(** [expand_structure] is the list of all expansions, named in order. *)
Lemma expand_structure_named (structure_dict : motif_dict) (adata : AnnData) :
  expand_structure structure_dict adata =
  name_children 0 (flat_map (children_of adata) structure_dict).
Proof.
  assert (Hgen : forall (d : motif_dict) children,
             fold_left (expand_one adata) d (name_children 0 children, List.length children) =
             (name_children 0 (children ++ flat_map (children_of adata) d),
              List.length (children ++ flat_map (children_of adata) d))).
  { induction d as [|entry d IH]; intros children.
    - cbn. now rewrite app_nil_r.
    - cbn [fold_left flat_map]. unfold expand_one at 2.
      rewrite add_expanded_fold. fold (children_of adata entry).
      rewrite IH, <- !app_assoc. reflexivity. }
  unfold expand_structure. destruct structure_dict as [|entry d]; [reflexivity|].
  change (@Dict.empty motif_key motif, 0%nat)
    with (name_children 0 [], List.length (@nil (string * motif))).
  now rewrite Hgen.
Qed.

(** The free neighbouring spots of a set of points. *)
Lemma potential_new_nodes_iff spot_dict existing_points node :
  In node (potential_new_nodes spot_dict existing_points) <->
  (exists p o, In p existing_points /\ In o neighbors_offset /\ fst node = shift p o) /\
  Dict.get spot_dict (fst node) = Some (snd node) /\
  ~ In (fst node) existing_points.
Proof.
  unfold potential_new_nodes. rewrite unique_In, in_flat_map. split.
  - intros [p [Hp Hin]]. apply in_flat_map in Hin. destruct Hin as [o [Ho Hin]].
    cbv zeta in Hin.
    destruct (Dict.get spot_dict (shift p o)) as [l|] eqn:Eg; [|destruct Hin].
    destruct (mem (shift p o) existing_points) eqn:Em; [destruct Hin|].
    destruct Hin as [<-|[]]. cbn [fst snd]. split; [now exists p, o|].
    split; [assumption | now apply mem_false].
  - intros [[p [o [Hp [Ho Heq]]]] [Hg Hnew]]. exists p. split; [assumption|].
    apply in_flat_map. exists o. split; [assumption|]. cbv zeta.
    rewrite <- Heq, Hg. apply mem_false in Hnew. rewrite Hnew.
    left. now destruct node.
Qed.

Lemma name_children_In a children sample nodes :
  (exists i, In ((sample, structure_name i), nodes) (name_children a children)) <->
  In (sample, nodes) children.
Proof.
  unfold name_children. split.
  - intros [i Hin]. apply in_map_iff in Hin. destruct Hin as [[j [s m]] [Heq Hin]].
    cbn [fst snd] in Heq. apply in_combine_r in Hin. now inversion Heq; subst.
  - revert a. induction children as [|c cs IH]; intros a Hin; [destruct Hin|].
    destruct Hin as [->|Hin].
    + exists a. now left.
    + destruct (IH (S a) Hin) as [i Hi]. exists i. now right.
Qed.

Lemma name_children_names a children :
  map (fun e => snd (fst e)) (name_children a children) =
  map structure_name (seq a (List.length children)).
Proof.
  unfold name_children. revert a. induction children as [|c cs IH]; intros a; [reflexivity|].
  cbn [List.length seq combine map fst snd]. f_equal. apply IH.
Qed.

Lemma name_children_NoDup a children : NoDup (Dict.keys (name_children a children)).
Proof.
  apply (NoDup_map_inv snd). unfold Dict.keys.
  assert (Heq : map snd (map fst (name_children a children)) =
                map structure_name (seq a (List.length children)))
    by (rewrite map_map; apply name_children_names).
  rewrite Heq.
  apply NoDup_map_NoDup_ForallPairs; [|apply seq_NoDup].
  intros i j _ _. apply structure_name_inj.
Qed.

Lemma length_flat_map_sum {A B} (f : A -> list B) (l : list A) :
  List.length (flat_map f l) = list_sum (map (fun a => List.length (f a)) l).
Proof.
  induction l as [|a l IH]; [reflexivity|].
  cbn [flat_map map list_sum]. now rewrite length_app, IH.
Qed.

(** X14. [expand_structure] names its motifs [structure_0], [structure_1],
    ... in the order it makes them, across all samples; the keys of the result
    are distinct, so no motif is overwritten, and the result has one motif per
    motif of the input and free neighbouring spot of that motif. *)
Theorem expand_structure_numbering (structure_dict : motif_dict) (adata : AnnData) :
  let expanded_structures := expand_structure structure_dict adata in
  map (fun e => snd (fst e)) expanded_structures =
    map structure_name (seq 0 (List.length expanded_structures)) /\
  NoDup (Dict.keys expanded_structures) /\
  List.length expanded_structures =
    list_sum
      (map (fun entry =>
              List.length
                (potential_new_nodes
                   (spot_dict_of (sample_spots_of adata (fst (fst entry))))
                   (unique (map fst (snd entry)))))
           structure_dict).
Proof.
  intros expanded_structures. unfold expanded_structures.
  rewrite expand_structure_named. split; [|split].
  - rewrite name_children_length. apply name_children_names.
  - apply name_children_NoDup.
  - rewrite name_children_length, length_flat_map_sum. f_equal.
    apply map_ext. intros entry. unfold children_of. apply length_map.
Qed.

(** X15. The motifs that [expand_structure] returns are exactly the motifs of
    the input with one node appended, where the node is a spot of the motif's
    sample that lies at one of the eight offsets from a node of the motif and
    is not itself a node of the motif. *)
Theorem expand_structure_exact
    (structure_dict : motif_dict) (adata : AnnData) (sample : string) (nodes : motif) :
  (exists i, In ((sample, structure_name i), nodes) (expand_structure structure_dict adata)) <->
  (exists parent new_node p o,
     In parent structure_dict /\ fst (fst parent) = sample /\
     nodes = snd parent ++ [new_node] /\
     In p (map fst (snd parent)) /\ In o neighbors_offset /\ fst new_node = shift p o /\
     Dict.get (spot_dict_of (sample_spots_of adata sample)) (fst new_node) =
       Some (snd new_node) /\
     ~ In (fst new_node) (map fst (snd parent))).
Proof.
  rewrite expand_structure_named, name_children_In, in_flat_map. split.
  - intros [parent [Hp Hin]]. unfold children_of in Hin.
    apply in_map_iff in Hin. destruct Hin as [new_node [Heq Hin]].
    injection Heq as Hs Hn.
    apply potential_new_nodes_iff in Hin. destruct Hin as [[p [o [Hpin [Ho Hsh]]]] [Hg Hnew]].
    rewrite unique_In in Hpin. rewrite unique_In in Hnew. rewrite Hs in Hg.
    exists parent, new_node, p, o. repeat split; auto.
  - intros [parent [new_node [p [o [Hp [Hs [Hn [Hpin [Ho [Hsh [Hg Hnew]]]]]]]]]]].
    exists parent. split; [assumption|]. unfold children_of.
    apply in_map_iff. exists new_node. split; [now rewrite Hs, Hn|].
    apply potential_new_nodes_iff. rewrite Hs. split; [|split].
    + exists p, o. rewrite unique_In. auto.
    + assumption.
    + now rewrite unique_In.
Qed.

Lemma structure_of_distinct (nodes : motif) :
  NoDup (map fst nodes) -> distinct_nodes (structure_of nodes).
Proof.
  intros Hnd. unfold distinct_nodes.
  assert (Heq : map fst (structure_of nodes) =
                map (fun c : coord => (IZR (fst c), IZR (snd c))) (map fst nodes)).
  { unfold structure_of. rewrite !map_map. apply map_ext. reflexivity. }
  rewrite Heq. apply NoDup_map_NoDup_ForallPairs; [|assumption].
  intros [r c] [r' c'] _ _ E. cbn [fst snd] in E. injection E as Hr Hc.
  apply eq_IZR in Hr, Hc. congruence.
Qed.

(** X16. Expansion keeps the nodes of a motif at distinct coordinates: when
    no motif of the input repeats a coordinate, no motif of the output does,
    so the rows of the frame passed to [geometric_signature] have distinct
    names. *)
Theorem expansion_keeps_nodes_distinct (structure_dict : motif_dict) (adata : AnnData) :
  Forall (fun e : motif_key * motif => NoDup (map fst (snd e))) structure_dict ->
  Forall (fun e : motif_key * motif =>
            NoDup (map fst (snd e)) /\ distinct_nodes (structure_of (snd e)))
         (expand_structure structure_dict adata).
Proof.
  intros Hd. rewrite Forall_forall in Hd. apply Forall_forall. intros e He.
  apply expand_structure_children in He. destruct He as [parent [Hp [_ [node [Heq [_ Hnew]]]]]].
  assert (Hnd : NoDup (map fst (snd e))).
  { rewrite Heq, map_app. cbn [map]. apply NoDup_app.
    - now apply Hd.
    - constructor; [intros [] | constructor].
    - intros k Hk [<-|[]]. contradiction. }
  split; [assumption | now apply structure_of_distinct].
Qed.

Lemma expansion_keeps_nodes_distinct_witness :
  Forall (fun e : motif_key * motif =>
            NoDup (map fst (snd e)) /\ distinct_nodes (structure_of (snd e)))
         (expand_structure
            [ (("s1", "structure_7"), [ ((0, 0)%Z, "A"); ((0, 2)%Z, "B") ]) ] demo_grid).
Proof.
  apply (expansion_keeps_nodes_distinct
           [ (("s1", "structure_7"), [ ((0, 0)%Z, "A"); ((0, 2)%Z, "B") ]) ] demo_grid).
  constructor; [|constructor]. cbn [map fst snd].
  constructor; [|constructor; [intros []|constructor]].
  intros [H|[]]. discriminate H.
Defined.

(** ** Further properties of the expansion loop *)

(** A member that is not a key of [new_structures] raises [KeyError]. *)
Lemma select_members_missing new_structures members k :
  In k members -> ~ In k (Dict.keys new_structures) ->
  select_members new_structures members = Raise KeyError.
Proof.
  intros Hin Hnot. unfold select_members.
  assert (Hraise : forall ms e,
             fold_left
               (fun acc key =>
                  match acc with
                  | Raise e => Raise e
                  | Return next_structures =>
                      match Dict.get new_structures key with
                      | Some points => Return (Dict.set next_structures key points)
                      | None => Raise KeyError
                      end
                  end) ms (Raise e) = Raise e).
  { induction ms as [|m ms IH]; intros e; [reflexivity | apply IH]. }
  generalize (@Dict.empty motif_key motif). induction members as [|m ms IH]; intros acc;
    [destruct Hin|].
  cbn [fold_left]. destruct (Dict.get new_structures m) as [points|] eqn:Eg.
  - destruct Hin as [->|Hin]; [|now apply IH].
    exfalso. apply Hnot. apply Dict.get_In_keys. congruence.
  - apply Hraise.
Qed.

(** When every member is a key, the selection succeeds and holds the motifs
    of the members, found by the same keys. *)
Lemma select_members_present new_structures members :
  (forall k, In k members -> In k (Dict.keys new_structures)) ->
  exists next_structures,
    select_members new_structures members = Return next_structures /\
    forall k, Dict.get next_structures k =
              if mem k members then Dict.get new_structures k else None.
Proof.
  intros Hall. unfold select_members.
  assert (Hgen : forall ms (acc : motif_dict),
             (forall k, In k ms -> In k (Dict.keys new_structures)) ->
             exists next_structures,
               fold_left
                 (fun acc key =>
                    match acc with
                    | Raise e => Raise e
                    | Return next_structures =>
                        match Dict.get new_structures key with
                        | Some points => Return (Dict.set next_structures key points)
                        | None => Raise KeyError
                        end
                    end) ms (Return acc) = Return next_structures /\
               forall k, Dict.get next_structures k =
                         if mem k ms then Dict.get new_structures k else Dict.get acc k).
  { induction ms as [|m ms IH]; intros acc Hms.
    - exists acc. split; reflexivity.
    - cbn [fold_left].
      destruct (Dict.get new_structures m) as [points|] eqn:Eg.
      + destruct (IH (Dict.set acc m points)) as [next [Hnext Hget]].
        { intros k Hk. apply Hms. now right. }
        exists next. split; [assumption|]. intros k. rewrite Hget.
        cbn [mem existsb]. fold (mem k ms).
        destruct (mem k ms); [now rewrite orb_true_r|]. rewrite orb_false_r.
        rewrite Dict.get_set.
        destruct (key_eqb_spec m k) as [->|Hne].
        * rewrite key_eqb_refl. now rewrite Eg.
        * rewrite (key_eqb_neq k m) by congruence. reflexivity.
      + exfalso. assert (Hk : In m (Dict.keys new_structures)) by (apply Hms; now left).
        apply Dict.get_In_keys in Hk. congruence. }
  destruct (Hgen members Dict.empty Hall) as [next [Hnext Hget]].
  exists next. split; [assumption|]. intros k. rewrite Hget. reflexivity.
Qed.

(** The dictionary comprehension of lines 961-964: when every member is
    a key of [new_structures] it returns the motifs of the members under their
    own keys and nothing else; a member that is not a key raises [KeyError]. *)
Theorem select_members_lookup (new_structures : motif_dict) (members : list motif_key) :
  ((forall k, In k members -> In k (Dict.keys new_structures)) ->
   exists next_structures,
     select_members new_structures members = Return next_structures /\
     forall k, Dict.get next_structures k =
               if mem k members then Dict.get new_structures k else None) /\
  ((exists k, In k members /\ ~ In k (Dict.keys new_structures)) ->
   select_members new_structures members = Raise KeyError).
Proof.
  split.
  - apply select_members_present.
  - intros [k [Hk Hnot]]. now apply (select_members_missing _ _ k).
Qed.

Lemma row_of_min_p_In r rs : In (row_of_min_p r rs) (r :: rs).
Proof.
  unfold row_of_min_p. revert r. induction rs as [|y rs IH]; intros r; [now left|].
  cbn [fold_left]. destruct (Qltb (P_Value y) (P_Value r)).
  - right. apply IH.
  - destruct (IH r) as [Heq|Hin]; [left | right; right]; assumption.
Qed.

(** The members of every group of [group_structures_by_geometry] are keys of
    the grouped dictionary. *)
Lemma geometry_members_are_keys (structures_dict : motif_dict) gid members k :
  Dict.get (group_structures_by_geometry structures_dict) gid = Some members ->
  In k members -> In k (Dict.keys structures_dict).
Proof.
  intros Hget Hk. apply Dict.get_In in Hget.
  assert (Hg : In members (map snd (group_structures_by_geometry structures_dict)))
    by (apply in_map_iff; now exists (gid, members)).
  unfold group_structures_by_geometry in Hg.
  rewrite (group_all_classes same_signature _ (motif_equiv_refl structures_dict)
             (motif_equiv_sym structures_dict) (motif_equiv_trans structures_dict))
    in Hg by apply geometry_items_consistent.
  apply in_map_iff in Hg. destruct Hg as [r [<- _]].
  apply filter_In in Hk. destruct Hk as [Hk _].
  rewrite map_map in Hk. cbn [fst] in Hk. rewrite map_id in Hk.
  apply (Permutation_in _ (group_by_label_sets_perm structures_dict)) in Hk. exact Hk.
Qed.

Section ExpansionFacts.

Variable analyze_structure_groups :
  @Dict.t nat (list motif_key) -> AnnData -> Q -> Q -> Q -> list score_row.
Variable adata : AnnData.
Variables fc_threshold p_threshold coverage_threshold : Q.

Let round := next_round analyze_structure_groups adata fc_threshold p_threshold
                        coverage_threshold.
Let loop := iterate analyze_structure_groups adata fc_threshold p_threshold
                    coverage_threshold.

(** The motifs that go into the next pass are motifs of the expansion. *)
Lemma next_round_entries current next_structures e :
  round current = Return (Some next_structures) ->
  In e next_structures -> In e (expand_structure current adata).
Proof.
  unfold round, next_round.
  destruct (expand_structure current adata) as [|e0 es] eqn:Enew; [discriminate|].
  destruct (filter _ _) as [|r0 rs]; [discriminate|].
  destruct (Qltb _ _); [discriminate|].
  destruct (Dict.get _ _) as [members|]; [|discriminate].
  destruct (select_members (e0 :: es) members) as [next|ex] eqn:Esel; [|discriminate].
  intros [= <-]. now apply (select_members_entries _ _ _ _ Esel).
Qed.

(** [e] is a motif of [seeds] with [rounds] nodes appended. *)
Definition extends_seed (seeds : motif_dict) (rounds : nat) (e : motif_key * motif) : Prop :=
  exists seed ext,
    In seed seeds /\ fst (fst e) = fst (fst seed) /\
    snd e = snd seed ++ ext /\ List.length ext = rounds.

Lemma extends_seed_child seeds rounds parent child :
  extends_seed seeds rounds parent -> is_child adata parent child ->
  extends_seed seeds (S rounds) child.
Proof.
  intros [seed [ext [Hs [Hsample [Hnodes Hlen]]]]] [Hcs [node [Hcn _]]].
  exists seed, (ext ++ [node]). split; [assumption|]. split; [congruence|]. split.
  - rewrite Hcn, Hnodes. now rewrite app_assoc.
  - rewrite length_app. cbn [List.length]. lia.
Qed.

Lemma iterate_extends_seed seeds fuel :
  forall current last_valid rounds rounds' res,
    loop fuel current last_valid = Some (Return res) ->
    Forall (extends_seed seeds rounds) current ->
    Forall (extends_seed seeds rounds') last_valid ->
    (rounds' = 0%nat -> last_valid = seeds) ->
    exists n, Forall (extends_seed seeds n) res /\ (n = 0%nat -> res = seeds).
Proof.
  induction fuel as [|fuel IH]; intros current last_valid rounds rounds' res Hit Hcur Hlast Hzero;
    [discriminate|].
  unfold loop in Hit. cbn [iterate] in Hit.
  fold (round current) in Hit.
  destruct (round current) as [[next|]|ex] eqn:Enext.
  - fold (loop fuel next next) in Hit.
    assert (Hnext : Forall (extends_seed seeds (S rounds)) next).
    { apply Forall_forall. intros e He.
      apply (next_round_entries _ _ _ Enext) in He.
      apply expand_structure_children in He. destruct He as [parent [Hp Hc]].
      rewrite Forall_forall in Hcur. apply (extends_seed_child _ _ parent); auto. }
    apply (IH next next (S rounds) (S rounds) res Hit Hnext Hnext). discriminate.
  - injection Hit as <-. now exists rounds'.
  - discriminate.
Qed.

Lemma extends_seed_self seeds : Forall (extends_seed seeds 0) seeds.
Proof.
  apply Forall_forall. intros e He. exists e, []. repeat split; [assumption|].
  now rewrite app_nil_r.
Qed.

(** X17. Whatever [iterative_structure_analysis] returns grew from the
    seeds: there is a number of rounds [n] such that every returned motif is a
    seed motif of the same sample with [n] nodes appended, and when [n] is 0
    the result is the seed dictionary itself. *)
Theorem iterative_result_extends_seed (fuel : nat) (initial_structures res : motif_dict) :
  iterative_structure_analysis analyze_structure_groups adata fc_threshold p_threshold
    coverage_threshold fuel initial_structures = Some (Return res) ->
  exists n,
    Forall (extends_seed initial_structures n) res /\
    (n = 0%nat -> res = initial_structures).
Proof.
  intros Hit.
  apply (iterate_extends_seed initial_structures fuel initial_structures initial_structures
           0%nat 0%nat res Hit (extends_seed_self _) (extends_seed_self _)).
  reflexivity.
Qed.

End ExpansionFacts.

Lemma iterative_result_extends_seed_witness :
  exists n,
    Forall (extends_seed demo_full_motif n) demo_full_motif /\
    (n = 0%nat -> demo_full_motif = demo_full_motif).
Proof.
  apply (iterative_result_extends_seed (fun _ _ _ _ _ => []) demo_grid 4 (1 # 20) (3 # 5)
           1 demo_full_motif demo_full_motif).
  vm_compute. reflexivity.
Defined.

(** X18. Every group that [group_structures_by_geometry] forms from the
    expanded motifs can be selected: its members are keys of the expanded
    dictionary, so the dictionary comprehension of lines 961-964 raises no
    [KeyError] on it and returns the motifs of the members, each under its
    own key, and nothing else. *)
Theorem chosen_members_found (new_structures : motif_dict) :
  Forall (fun group : nat * list motif_key =>
            exists next_structures,
              select_members new_structures (snd group) = Return next_structures /\
              (forall k, In k (snd group) -> In k (Dict.keys new_structures)) /\
              forall k, Dict.get next_structures k =
                        if mem k (snd group) then Dict.get new_structures k else None)
         (Dict.items (group_structures_by_geometry new_structures)).
Proof.
  apply Forall_forall. intros [gid members] Hin. cbn [snd].
  assert (Hkeys : forall k, In k members -> In k (Dict.keys new_structures)).
  { intros k Hk.
    assert (Hg : In members (map snd (group_structures_by_geometry new_structures)))
      by (apply in_map_iff; now exists (gid, members)).
    unfold group_structures_by_geometry in Hg.
    rewrite (group_all_classes same_signature _ (motif_equiv_refl new_structures)
               (motif_equiv_sym new_structures) (motif_equiv_trans new_structures))
      in Hg by apply geometry_items_consistent.
    apply in_map_iff in Hg. destruct Hg as [r [<- _]].
    apply filter_In in Hk. destruct Hk as [Hk _].
    rewrite map_map in Hk. cbn [fst] in Hk. rewrite map_id in Hk.
    apply (Permutation_in _ (group_by_label_sets_perm new_structures)) in Hk. exact Hk. }
  destruct (select_members_present new_structures members Hkeys) as [next [Hsel Hget]].
  exists next. split; [exact Hsel|]. split; [exact Hkeys | exact Hget].
Qed.

(** ** MotifAssembler: the seeds of
       [extract_and_group_3rd_structures_from_2nd_with_ratio] *)

(** A node of a motif: its coordinate and its label. *)
Definition node := (coord * label)%type.

(** Line 479: [tuple(sorted(pair)) in set(tuple(sorted((str(a), str(b))))
    for a, b in fdr_filtered_2nd[['Leiden1', 'Leiden2']].values)], where
    [pair] is the Python set of the two labels. Two equal labels make a set of
    one element, whose 1-tuple is no member of a set of 2-tuples. *)
Definition significant_pair (fdr_filtered_2nd : list pair_row) (l1 l2 : label) : bool :=
  negb (key_eqb l1 l2) &&
  mem (sort_pair (l1, l2))
      (map (fun r => sort_pair (Leiden1 r, Leiden2 r)) fdr_filtered_2nd).

(** [frozenset([(row, col), (nr, nc)])] of two coordinates: equality does not
    see the order. *)
Definition frozenset2_eqb (a b : coord * coord) : bool :=
  key_eqb a b || key_eqb a (snd b, fst b).

(** [frozenset([(row, col), (nr, nc)]) in visited_2nd] *)
Definition visited_2nd_mem (v : coord * coord) (visited : list (coord * coord)) : bool :=
  existsb (frozenset2_eqb v) visited.

(** The three variables of the first loop (lines 472-474). A value of
    [structures_2nd] is a list literal of two nodes, kept as a pair. *)
Record state_2nd := mkState2 {
  visited_2nd : list (coord * coord);
  structures_2nd : @Dict.t string (node * node);
  sid_2nd : nat
}.

(** Body of [for dr, dc in neighbors_offset] (lines 476-483). *)
Definition step_2nd (spot_dict : @Dict.t coord label) (fdr_filtered_2nd : list pair_row)
    (item : node) (st : state_2nd) (o : Z * Z) : state_2nd :=
  let nb := shift (fst item) o in
  match Dict.get spot_dict nb with
  | Some nb_leiden =>
      if significant_pair fdr_filtered_2nd (snd item) nb_leiden then
        if visited_2nd_mem (fst item, nb) (visited_2nd st) then st
        else
          {| visited_2nd := visited_2nd st ++ [(fst item, nb)];
             structures_2nd :=
               Dict.set (structures_2nd st) (structure_name (sid_2nd st))
                        (item, (nb, nb_leiden));
             sid_2nd := S (sid_2nd st) |}
      else st
  | None => st
  end.

(** Lines 472-483. *)
Definition loop_2nd (spot_dict : @Dict.t coord label) (fdr_filtered_2nd : list pair_row)
  : state_2nd :=
  fold_left
    (fun st item => fold_left (step_2nd spot_dict fdr_filtered_2nd item) neighbors_offset st)
    (Dict.items spot_dict) (mkState2 [] Dict.empty 0).

(** The three variables of the second loop (lines 485-487). The key
    [frozenset([(p1, p2), (nr, nc)])] has a pair of coordinates and a
    coordinate as members, which are never equal: it is the pair of the
    two. *)
Record state_3rd := mkState3 {
  visited_3rd : list ((coord * coord) * coord);
  structures_3rd : @Dict.t string motif;
  sid_3rd : nat
}.

(** Body of [for dr, dc in neighbors_offset] (lines 491-498). *)
Definition step_3rd (spot_dict : @Dict.t coord label) (pts : node * node) (pr : coord)
    (st : state_3rd) (o : Z * Z) : state_3rd :=
  let p1 := fst (fst pts) in
  let p2 := fst (snd pts) in
  let nb := shift pr o in
  match Dict.get spot_dict nb with
  | Some nb_leiden =>
      if mem nb [p1; p2] then st
      else
        let key := ((p1, p2), nb) in
        if mem key (visited_3rd st) then st
        else
          {| visited_3rd := visited_3rd st ++ [key];
             structures_3rd :=
               Dict.set (structures_3rd st) (structure_name (sid_3rd st))
                        [fst pts; snd pts; (nb, nb_leiden)];
             sid_3rd := S (sid_3rd st) |}
  | None => st
  end.

(** Body of [for _, pts in structures_2nd.items()] (lines 488-498). *)
Definition extend_pair (spot_dict : @Dict.t coord label) (st : state_3rd)
    (entry : string * (node * node)) : state_3rd :=
  let pts := snd entry in
  fold_left
    (fun st pr => fold_left (step_3rd spot_dict pts pr) neighbors_offset st)
    [fst (fst pts); fst (snd pts)] st.

(** Lines 485-498. *)
Definition loop_3rd (spot_dict : @Dict.t coord label)
    (structures_2nd : @Dict.t string (node * node)) : state_3rd :=
  fold_left (extend_pair spot_dict) (Dict.items structures_2nd) (mkState3 [] Dict.empty 0).

(** [focus_sample_ids] (line 462). *)
Definition focus_sample_ids (adata : AnnData) (focus_group : string) : list string :=
  unique (map sample_id (filter (fun s => key_eqb (group_of s) focus_group) adata)).

(** [sample_wise_structures[sample]["3rd"]] (lines 467-500); the samples
    of the loop are distinct, so every assignment adds a key. *)
Definition sample_wise_structures (adata : AnnData) (fdr_filtered_2nd : list pair_row)
    (focus_group : string) : @Dict.t string (@Dict.t string motif) :=
  map (fun sample =>
         let spot_dict := spot_dict_of (sample_spots_of adata sample) in
         (sample,
          structures_3rd
            (loop_3rd spot_dict (structures_2nd (loop_2nd spot_dict fdr_filtered_2nd)))))
      (focus_sample_ids adata focus_group).

(** The motifs in the order in which lines 502-511 give them a signature,
    each under its key [(sample, structure_name)]. *)
Definition seed_motifs (adata : AnnData) (fdr_filtered_2nd : list pair_row)
    (focus_group : string) : list (motif_key * motif) :=
  flat_map
    (fun data => map (fun e => ((fst data, fst e), snd e)) (Dict.items (snd data)))
    (Dict.items (sample_wise_structures adata fdr_filtered_2nd focus_group)).

(** [grouped_structures] as the function returns it (lines 502-526). *)
Definition extract_grouped_structures (adata : AnnData) (fdr_filtered_2nd : list pair_row)
    (focus_group : string) : @Dict.t nat (list motif_key) :=
  grouped_structures_of (seed_motifs adata fdr_filtered_2nd focus_group).

Definition demo_pairs : list pair_row := [ mkPairRow "B" "A" 1 0 (1 # 100) (1 # 100) ].

Example seed_demo :
  sample_wise_structures demo_grid demo_pairs "G1" =
  [ ("s1",
     [ ("structure_0", [ ((0, 0)%Z, "A"); ((0, 2)%Z, "B"); ((1, 1)%Z, "A") ]);
       ("structure_1", [ ((0, 0)%Z, "A"); ((0, 2)%Z, "B"); ((1, 3)%Z, "C") ]);
       ("structure_2", [ ((0, 2)%Z, "B"); ((1, 1)%Z, "A"); ((0, 0)%Z, "A") ]);
       ("structure_3", [ ((0, 2)%Z, "B"); ((1, 1)%Z, "A"); ((1, 3)%Z, "C") ]) ]) ].
Proof. vm_compute. reflexivity. Qed.

(** *** Folds *)

Lemma fold_left_invariant {A B} (f : A -> B -> A) (l : list B) (I : A -> Prop) (a : A) :
  I a -> (forall st x, In x l -> I st -> I (f st x)) -> I (fold_left f l a).
Proof.
  revert a. induction l as [|x l IH]; intros a Ha Hstep; [exact Ha|].
  cbn [fold_left]. apply IH.
  - apply Hstep; [now left | assumption].
  - intros st y Hy. apply Hstep. now right.
Qed.

(** A property that every step keeps and that the step at [x] establishes
    holds after a loop that meets [x]. *)
Lemma fold_left_reaches {A B} (f : A -> B -> A) (l : list B) (P : A -> Prop) (a : A) (x : B) :
  In x l ->
  (forall st y, P st -> P (f st y)) ->
  (forall st, P (f st x)) ->
  P (fold_left f l a).
Proof.
  intros Hin Hkeep Hset. revert a. induction l as [|y l IH]; intros a; [destruct Hin|].
  cbn [fold_left]. destruct Hin as [->|Hin]; [|now apply IH].
  apply fold_left_invariant; [apply Hset|]. intros st z _. apply Hkeep.
Qed.

(** Two nested loops as one loop over the pairs. *)
Lemma fold_left_nested {A B C} (f : B -> A -> C -> A) (l : list B) (l' : list C) (a : A) :
  fold_left (fun st x => fold_left (f x) l' st) l a =
  fold_left (fun st xy => f (fst xy) st (snd xy)) (list_prod l l') a.
Proof.
  revert a. induction l as [|x l IH]; intros a; [reflexivity|].
  cbn [fold_left list_prod]. rewrite fold_left_app, <- IH. f_equal.
  generalize a. clear. induction l' as [|y l' IH]; intros a; [reflexivity|].
  cbn [fold_left map fst snd]. apply IH.
Qed.

(** *** The 2nd-order seeds *)

(** The two coordinates of a 2nd-order structure. *)
Definition ends (pts : node * node) : coord * coord := (fst (fst pts), fst (snd pts)).

(** [b] lies at one of the eight offsets from [a]. *)
Definition adjacent (a b : coord) : Prop := exists o, In o neighbors_offset /\ b = shift a o.

Lemma adjacent_sym a b : adjacent a b -> adjacent b a.
Proof.
  intros [o [Ho ->]]. exists (opposite o). split; [now apply opposite_offset|].
  now rewrite shift_opposite.
Qed.

Lemma adjacent_neq a b : adjacent a b -> a <> b.
Proof.
  intros [o [Ho ->]] Heq. destruct a as [r c]. unfold shift in Heq. cbn [fst snd] in Heq.
  unfold neighbors_offset in Ho. cbn [In] in Ho.
  repeat (destruct Ho as [<-|Ho]; [cbn [fst snd] in Heq; injection Heq; lia|]).
  destruct Ho.
Qed.

Lemma frozenset2_eqb_true a b :
  frozenset2_eqb a b = true <-> a = b \/ a = (snd b, fst b).
Proof.
  unfold frozenset2_eqb. rewrite orb_true_iff.
  destruct (key_eqb_spec a b), (key_eqb_spec a (snd b, fst b)); intuition congruence.
Qed.

Lemma frozenset2_eqb_sym a b : frozenset2_eqb a b = frozenset2_eqb b a.
Proof.
  destruct (frozenset2_eqb a b) eqn:Eab; destruct (frozenset2_eqb b a) eqn:Eba;
    try reflexivity; exfalso.
  - apply frozenset2_eqb_true in Eab. apply not_true_iff_false in Eba. apply Eba.
    apply frozenset2_eqb_true. destruct a, b. cbn [fst snd] in *.
    destruct Eab as [Heq|Heq]; injection Heq as -> ->; auto.
  - apply frozenset2_eqb_true in Eba. apply not_true_iff_false in Eab. apply Eab.
    apply frozenset2_eqb_true. destruct a, b. cbn [fst snd] in *.
    destruct Eba as [Heq|Heq]; injection Heq as -> ->; auto.
Qed.

Lemma significant_pair_sym sig l1 l2 :
  significant_pair sig l1 l2 = significant_pair sig l2 l1.
Proof.
  unfold significant_pair. rewrite (sort_pair_sym l1 l2). f_equal. f_equal.
  destruct (key_eqb_spec l1 l2) as [->|Hne]; [now rewrite key_eqb_refl|].
  symmetry. apply key_eqb_neq. congruence.
Qed.

(** What holds of a 2nd-order structure: two adjacent spots of the sample
    whose labels form a significant pair. *)
Definition seed_pair_ok (spot_dict : @Dict.t coord label) (fdr_filtered_2nd : list pair_row)
    (pts : node * node) : Prop :=
  Dict.get spot_dict (fst (fst pts)) = Some (snd (fst pts)) /\
  Dict.get spot_dict (fst (snd pts)) = Some (snd (snd pts)) /\
  adjacent (fst (fst pts)) (fst (snd pts)) /\
  significant_pair fdr_filtered_2nd (snd (fst pts)) (snd (snd pts)) = true.

(** The invariant of the first loop. *)
Record inv_2nd (spot_dict : @Dict.t coord label) (fdr_filtered_2nd : list pair_row)
    (st : state_2nd) : Prop := mkInv2 {
  inv2_names : map fst (structures_2nd st) = map structure_name (seq 0 (sid_2nd st));
  inv2_visited : map (fun e => ends (snd e)) (structures_2nd st) = visited_2nd st;
  inv2_ok : Forall (seed_pair_ok spot_dict fdr_filtered_2nd) (map snd (structures_2nd st));
  inv2_once : ForallOrdPairs (fun a b => frozenset2_eqb a b = false) (visited_2nd st)
}.

Lemma ForallOrdPairs_snoc {A} (R : A -> A -> Prop) (l : list A) (x : A) :
  ForallOrdPairs R l -> Forall (fun a => R a x) l -> ForallOrdPairs R (l ++ [x]).
Proof.
  induction 1 as [|a l Ha Hl IH]; intros Hx.
  - cbn. constructor; constructor.
  - cbn [app]. inversion Hx as [|? ? Hax Hlx]; subst. constructor.
    + apply Forall_app. split; [assumption | now constructor].
    + now apply IH.
Qed.

Lemma fresh_structure_name {V} (d : @Dict.t string V) (sid : nat) :
  map fst d = map structure_name (seq 0 sid) ->
  ~ In (structure_name sid) (Dict.keys d).
Proof.
  intros Hnames Hin. unfold Dict.keys in Hin. rewrite Hnames in Hin.
  apply in_map_iff in Hin. destruct Hin as [i [Heq Hi]].
  apply structure_name_inj in Heq. apply in_seq in Hi. lia.
Qed.

Lemma names_snoc {V} (d : @Dict.t string V) (sid : nat) (v : V) :
  map fst d = map structure_name (seq 0 sid) ->
  map fst (d ++ [(structure_name sid, v)]) = map structure_name (seq 0 (S sid)).
Proof.
  intros Hnames. rewrite map_app, Hnames, seq_S, map_app. reflexivity.
Qed.

Lemma step_2nd_inv spot_dict fdr_filtered_2nd item st o :
  NoDup (Dict.keys spot_dict) -> In item (Dict.items spot_dict) -> In o neighbors_offset ->
  inv_2nd spot_dict fdr_filtered_2nd st ->
  inv_2nd spot_dict fdr_filtered_2nd (step_2nd spot_dict fdr_filtered_2nd item st o).
Proof.
  intros Hnd Hitem Ho [Hnames Hvis Hok Honce]. unfold step_2nd. cbv zeta.
  destruct (Dict.get spot_dict (shift (fst item) o)) as [nb_leiden|] eqn:Eg;
    [|now constructor].
  destruct (significant_pair fdr_filtered_2nd (snd item) nb_leiden) eqn:Esig;
    [|now constructor].
  destruct (visited_2nd_mem (fst item, shift (fst item) o) (visited_2nd st)) eqn:Evis;
    [now constructor|].
  rewrite (dict_set_fresh _ _ _ (fresh_structure_name _ _ Hnames)).
  constructor; cbn [structures_2nd visited_2nd sid_2nd].
  - now apply names_snoc.
  - rewrite map_app, Hvis. reflexivity.
  - rewrite map_app. apply Forall_app. split; [assumption|].
    constructor; [|constructor]. unfold seed_pair_ok. cbn [fst snd].
    split; [|split; [|split]]; try assumption.
    + destruct item as [p l]. now apply Dict.In_get.
    + now exists o.
  - apply ForallOrdPairs_snoc; [assumption|].
    apply Forall_forall. intros a Ha. rewrite frozenset2_eqb_sym.
    unfold visited_2nd_mem in Evis.
    destruct (frozenset2_eqb (fst item, shift (fst item) o) a) eqn:E; [|reflexivity].
    assert (Ht : existsb (frozenset2_eqb (fst item, shift (fst item) o)) (visited_2nd st) = true)
      by (apply existsb_exists; now exists a).
    congruence.
Qed.

Lemma loop_2nd_flat spot_dict fdr_filtered_2nd :
  loop_2nd spot_dict fdr_filtered_2nd =
  fold_left (fun st io => step_2nd spot_dict fdr_filtered_2nd (fst io) st (snd io))
            (list_prod (Dict.items spot_dict) neighbors_offset) (mkState2 [] Dict.empty 0).
Proof. unfold loop_2nd. apply fold_left_nested. Qed.

Lemma loop_2nd_inv spot_dict fdr_filtered_2nd :
  NoDup (Dict.keys spot_dict) ->
  inv_2nd spot_dict fdr_filtered_2nd (loop_2nd spot_dict fdr_filtered_2nd).
Proof.
  intros Hnd. rewrite loop_2nd_flat. apply fold_left_invariant.
  - constructor; cbn; constructor.
  - intros st [item o] Hin Hinv. apply in_prod_iff in Hin. destruct Hin as [Hitem Ho].
    now apply step_2nd_inv.
Qed.

Lemma step_2nd_visited_mono spot_dict fdr_filtered_2nd item st o v :
  visited_2nd_mem v (visited_2nd st) = true ->
  visited_2nd_mem v (visited_2nd (step_2nd spot_dict fdr_filtered_2nd item st o)) = true.
Proof.
  intros Hv. unfold step_2nd. cbv zeta.
  destruct (Dict.get spot_dict (shift (fst item) o)); [|assumption].
  destruct (significant_pair _ _ _); [|assumption].
  destruct (visited_2nd_mem (fst item, shift (fst item) o) (visited_2nd st)); [assumption|].
  cbn [visited_2nd]. unfold visited_2nd_mem in *. rewrite existsb_app, Hv. reflexivity.
Qed.

Lemma step_2nd_marks spot_dict fdr_filtered_2nd item st o nb_leiden :
  Dict.get spot_dict (shift (fst item) o) = Some nb_leiden ->
  significant_pair fdr_filtered_2nd (snd item) nb_leiden = true ->
  visited_2nd_mem (fst item, shift (fst item) o)
    (visited_2nd (step_2nd spot_dict fdr_filtered_2nd item st o)) = true.
Proof.
  intros Hg Hsig. unfold step_2nd. cbv zeta. rewrite Hg, Hsig.
  destruct (visited_2nd_mem (fst item, shift (fst item) o) (visited_2nd st)) eqn:E;
    [assumption|].
  cbn [visited_2nd]. unfold visited_2nd_mem. rewrite existsb_app. cbn [existsb].
  unfold frozenset2_eqb at 2. rewrite key_eqb_refl. cbn [orb]. apply orb_true_r.
Qed.

Lemma loop_2nd_marks spot_dict fdr_filtered_2nd item o nb_leiden :
  In item (Dict.items spot_dict) -> In o neighbors_offset ->
  Dict.get spot_dict (shift (fst item) o) = Some nb_leiden ->
  significant_pair fdr_filtered_2nd (snd item) nb_leiden = true ->
  visited_2nd_mem (fst item, shift (fst item) o)
    (visited_2nd (loop_2nd spot_dict fdr_filtered_2nd)) = true.
Proof.
  intros Hitem Ho Hg Hsig. rewrite loop_2nd_flat.
  apply (fold_left_reaches _ _
           (fun st => visited_2nd_mem (fst item, shift (fst item) o) (visited_2nd st) = true)
           _ (item, o)).
  - now apply in_prod.
  - intros st [item' o']. apply step_2nd_visited_mono.
  - intros st. cbn [fst snd]. now apply (step_2nd_marks _ _ _ _ _ nb_leiden).
Qed.

Lemma ForallOrdPairs_map {A B} (f : A -> B) (R : B -> B -> Prop) (l : list A) :
  ForallOrdPairs R (map f l) -> ForallOrdPairs (fun x y => R (f x) (f y)) l.
Proof.
  induction l as [|a l IH]; intros H; [constructor|].
  cbn [map] in H. inversion H as [|? ? Ha Hl]; subst. constructor.
  - rewrite Forall_map in Ha. exact Ha.
  - now apply IH.
Qed.

Lemma significant_pair_neq sig l1 l2 : significant_pair sig l1 l2 = true -> l1 <> l2.
Proof.
  unfold significant_pair. rewrite andb_true_iff, negb_true_iff. intros [Hne _] ->.
  now rewrite key_eqb_refl in Hne.
Qed.

(** X20. The 2nd-order seeds of a sample are exactly its pairs of adjacent
    spots whose labels differ and form, in either order, a pair of
    [fdr_filtered_2nd]: two coordinates are the ends of a seed, in one order
    or the other, exactly when both are spots, one lies at one of the eight
    offsets from the other, and their labels pass the test of line 479. Two
    adjacent spots with the same label never make a seed. *)
Theorem seed_pairs_exact
    (sample_spots : list spot) (fdr_filtered_2nd : list pair_row) (a b : coord) :
  let spot_dict := spot_dict_of sample_spots in
  let seeds := structures_2nd (loop_2nd spot_dict fdr_filtered_2nd) in
  (exists k pts, In (k, pts) seeds /\ frozenset2_eqb (a, b) (ends pts) = true) <->
  (exists la lb,
     Dict.get spot_dict a = Some la /\ Dict.get spot_dict b = Some lb /\
     adjacent a b /\ la <> lb /\
     In (sort_pair (la, lb))
        (map (fun r => sort_pair (Leiden1 r, Leiden2 r)) fdr_filtered_2nd)).
Proof.
  intros spot_dict seeds.
  assert (Hnd : NoDup (Dict.keys spot_dict)) by apply Dict.of_list_keys_NoDup.
  destruct (loop_2nd_inv spot_dict fdr_filtered_2nd Hnd) as [_ Hvis Hok _].
  fold seeds in Hvis, Hok.
  assert (Hsig : forall la lb,
             significant_pair fdr_filtered_2nd la lb = true <->
             la <> lb /\
             In (sort_pair (la, lb))
                (map (fun r => sort_pair (Leiden1 r, Leiden2 r)) fdr_filtered_2nd)).
  { intros la lb. unfold significant_pair.
    rewrite andb_true_iff, negb_true_iff, mem_In.
    destruct (key_eqb_spec la lb); intuition congruence. }
  split.
  - intros [k [[n1 n2] [Hin Heq]]].
    rewrite Forall_forall in Hok.
    destruct (Hok (n1, n2)) as [H1 [H2 [Hadj Hs]]].
    { apply in_map_iff. now exists (k, (n1, n2)). }
    cbn [fst snd] in H1, H2, Hadj, Hs.
    apply frozenset2_eqb_true in Heq. unfold ends in Heq. cbn [fst snd] in Heq.
    destruct Heq as [Heq|Heq]; injection Heq as -> ->.
    + exists (snd n1), (snd n2). apply Hsig in Hs. tauto.
    + exists (snd n2), (snd n1). rewrite significant_pair_sym in Hs. apply Hsig in Hs.
      apply adjacent_sym in Hadj. tauto.
  - intros [la [lb [Ha [Hb [[o [Ho ->]] Hs]]]]]. apply Hsig in Hs.
    pose proof (loop_2nd_marks spot_dict fdr_filtered_2nd (a, la) o lb
                  (Dict.get_In _ _ _ Ha) Ho Hb Hs) as Hm.
    cbn [fst snd] in Hm. fold seeds in Hm. rewrite <- Hvis in Hm.
    unfold visited_2nd_mem in Hm. apply existsb_exists in Hm.
    destruct Hm as [v [Hv Heq]]. apply in_map_iff in Hv. destruct Hv as [[k pts] [<- Hin]].
    now exists k, pts.
Qed.

(** X21. The 2nd-order seeds are named [structure_0], [structure_1], ... in
    the order they are found; each holds two adjacent spots with the labels
    the sample gives them, which differ; and every adjacency gives one seed:
    no two seeds have the same two coordinates, in either order. *)
Theorem seed_pairs_once (sample_spots : list spot) (fdr_filtered_2nd : list pair_row) :
  let spot_dict := spot_dict_of sample_spots in
  let seeds := structures_2nd (loop_2nd spot_dict fdr_filtered_2nd) in
  map fst seeds = map structure_name (seq 0 (List.length seeds)) /\
  Forall (fun pts =>
            seed_pair_ok spot_dict fdr_filtered_2nd pts /\
            snd (fst pts) <> snd (snd pts) /\ fst (fst pts) <> fst (snd pts))
         (map snd seeds) /\
  (forall k k' pts pts',
     In (k, pts) seeds -> In (k', pts') seeds ->
     frozenset2_eqb (ends pts) (ends pts') = true -> k = k' /\ pts = pts').
Proof.
  intros spot_dict seeds.
  assert (Hnd : NoDup (Dict.keys spot_dict)) by apply Dict.of_list_keys_NoDup.
  destruct (loop_2nd_inv spot_dict fdr_filtered_2nd Hnd) as [Hnames Hvis Hok Honce].
  fold seeds in Hnames, Hvis, Hok. split; [|split].
  - assert (Hlen : List.length seeds = sid_2nd (loop_2nd spot_dict fdr_filtered_2nd)).
    { rewrite <- (length_map fst seeds), Hnames, length_map. apply length_seq. }
    now rewrite Hlen.
  - eapply Forall_impl; [|exact Hok]. intros pts Hpts. split; [assumption|].
    destruct Hpts as [_ [_ [Hadj Hs]]]. split.
    + now apply significant_pair_neq in Hs.
    + now apply adjacent_neq.
  - intros k k' pts pts' Hin Hin' Heq.
    rewrite <- Hvis in Honce. apply ForallOrdPairs_map in Honce.
    destruct (ForallOrdPairs_In Honce _ _ Hin Hin') as [Hsame|[Hne|Hne]].
    + now injection Hsame.
    + cbn [snd] in Hne. congruence.
    + cbn [snd] in Hne. rewrite frozenset2_eqb_sym in Hne. congruence.
Qed.

(** *** The 3rd-order seeds *)

(** The key under which a 3rd-order motif is entered in [visited_3rd]. *)
Definition key_3rd (nodes : motif) : (coord * coord) * coord :=
  match nodes with
  | [n1; n2; n3] => ((fst n1, fst n2), fst n3)
  | _ => (((0, 0), (0, 0)), (0, 0))%Z
  end.

(** What holds of a 3rd-order motif: a 2nd-order seed and a third spot of
    the sample, next to one of the two and different from both. *)
Definition seed_triple_ok (spot_dict : @Dict.t coord label)
    (seeds : @Dict.t string (node * node)) (nodes : motif) : Prop :=
  exists n1 n2 n3,
    nodes = [n1; n2; n3] /\ In (n1, n2) (map snd seeds) /\
    Dict.get spot_dict (fst n3) = Some (snd n3) /\
    fst n3 <> fst n1 /\ fst n3 <> fst n2 /\
    (adjacent (fst n1) (fst n3) \/ adjacent (fst n2) (fst n3)).

Record inv_3rd (spot_dict : @Dict.t coord label) (seeds : @Dict.t string (node * node))
    (st : state_3rd) : Prop := mkInv3 {
  inv3_names : map fst (structures_3rd st) = map structure_name (seq 0 (sid_3rd st));
  inv3_visited : map (fun e => key_3rd (snd e)) (structures_3rd st) = visited_3rd st;
  inv3_ok : Forall (seed_triple_ok spot_dict seeds) (map snd (structures_3rd st));
  inv3_once : NoDup (visited_3rd st)
}.

Lemma step_3rd_inv spot_dict seeds pts pr st o :
  In pts (map snd seeds) -> In pr [fst (fst pts); fst (snd pts)] -> In o neighbors_offset ->
  inv_3rd spot_dict seeds st ->
  inv_3rd spot_dict seeds (step_3rd spot_dict pts pr st o).
Proof.
  intros Hpts Hpr Ho [Hnames Hvis Hok Honce]. unfold step_3rd. cbv zeta.
  destruct (Dict.get spot_dict (shift pr o)) as [nb_leiden|] eqn:Eg; [|now constructor].
  match goal with
  | |- context [if mem ?x ?l then _ else _] => destruct (mem x l) eqn:Emem
  end; [now constructor|].
  match goal with
  | |- context [if mem ?x ?l then _ else _] => destruct (mem x l) eqn:Evis
  end; [now constructor|].
  rewrite (dict_set_fresh _ _ _ (fresh_structure_name _ _ Hnames)).
  apply mem_false in Emem. apply mem_false in Evis.
  constructor; cbn [structures_3rd visited_3rd sid_3rd].
  - now apply names_snoc.
  - rewrite map_app, Hvis. reflexivity.
  - rewrite map_app. apply Forall_app. split; [assumption|].
    constructor; [|constructor].
    exists (fst pts), (snd pts), (shift pr o, nb_leiden). cbn [fst snd].
    split; [reflexivity|]. split; [now destruct pts|]. split; [assumption|].
    split; [intros Heq; apply Emem; left; now symmetry|].
    split; [intros Heq; apply Emem; right; left; now symmetry|].
    destruct Hpr as [<-|[<-|[]]]; [left | right]; now exists o.
  - apply NoDup_app; [assumption | constructor; [intros [] | constructor]|].
    intros v Hv [<-|[]]. contradiction.
Qed.

Lemma extend_pair_flat spot_dict st entry :
  extend_pair spot_dict st entry =
  fold_left (fun st po => step_3rd spot_dict (snd entry) (fst po) st (snd po))
            (list_prod [fst (fst (snd entry)); fst (snd (snd entry))] neighbors_offset) st.
Proof. unfold extend_pair. cbv zeta. apply fold_left_nested. Qed.

Lemma loop_3rd_inv spot_dict seeds :
  inv_3rd spot_dict seeds (loop_3rd spot_dict seeds).
Proof.
  unfold loop_3rd. apply fold_left_invariant.
  - constructor; cbn; constructor.
  - intros st entry Hentry Hinv. rewrite extend_pair_flat.
    apply fold_left_invariant; [assumption|].
    intros st' [pr o] Hin Hinv'. apply in_prod_iff in Hin. destruct Hin as [Hpr Ho].
    cbn [fst snd]. apply step_3rd_inv; try assumption.
    now apply in_map.
Qed.

Lemma step_3rd_visited_mono spot_dict pts pr st o v :
  In v (visited_3rd st) -> In v (visited_3rd (step_3rd spot_dict pts pr st o)).
Proof.
  intros Hv. unfold step_3rd. cbv zeta.
  destruct (Dict.get spot_dict (shift pr o)); [|assumption].
  match goal with
  | |- context [if mem ?x ?l then _ else _] => destruct (mem x l)
  end; [assumption|].
  match goal with
  | |- context [if mem ?x ?l then _ else _] => destruct (mem x l)
  end; [assumption|].
  cbn [visited_3rd]. apply in_or_app. now left.
Qed.

Lemma step_3rd_marks spot_dict pts pr st o nb_leiden :
  Dict.get spot_dict (shift pr o) = Some nb_leiden ->
  ~ In (shift pr o) [fst (fst pts); fst (snd pts)] ->
  In (fst (fst pts), fst (snd pts), shift pr o)
     (visited_3rd (step_3rd spot_dict pts pr st o)).
Proof.
  intros Hg Hnew. unfold step_3rd. cbv zeta. rewrite Hg.
  match goal with
  | |- context [if mem ?x ?l then _ else _] => destruct (mem x l) eqn:Emem
  end; [apply mem_In in Emem; contradiction|].
  match goal with
  | |- context [if mem ?x ?l then _ else _] => destruct (mem x l) eqn:E
  end.
  - now apply mem_In.
  - cbn [visited_3rd]. apply in_or_app. right. now left.
Qed.

Lemma extend_pair_visited_mono spot_dict st entry v :
  In v (visited_3rd st) -> In v (visited_3rd (extend_pair spot_dict st entry)).
Proof.
  intros Hv. rewrite extend_pair_flat.
  apply (fold_left_invariant _ _ (fun st => In v (visited_3rd st))); [assumption|].
  intros st' [pr o] _. apply step_3rd_visited_mono.
Qed.

Lemma loop_3rd_marks spot_dict seeds entry pr o nb_leiden :
  In entry (Dict.items seeds) ->
  In pr [fst (fst (snd entry)); fst (snd (snd entry))] -> In o neighbors_offset ->
  Dict.get spot_dict (shift pr o) = Some nb_leiden ->
  ~ In (shift pr o) [fst (fst (snd entry)); fst (snd (snd entry))] ->
  In (fst (fst (snd entry)), fst (snd (snd entry)), shift pr o)
     (visited_3rd (loop_3rd spot_dict seeds)).
Proof.
  intros Hentry Hpr Ho Hg Hnew. unfold loop_3rd.
  apply (fold_left_reaches _ _
           (fun st => In (fst (fst (snd entry)), fst (snd (snd entry)), shift pr o)
                         (visited_3rd st)) _ entry).
  - assumption.
  - intros st entry'. apply extend_pair_visited_mono.
  - intros st. rewrite extend_pair_flat.
    apply (fold_left_reaches _ _
             (fun st => In (fst (fst (snd entry)), fst (snd (snd entry)), shift pr o)
                           (visited_3rd st)) _ (pr, o)).
    + now apply in_prod.
    + intros st' [pr' o']. apply step_3rd_visited_mono.
    + intros st'. cbn [fst snd]. now apply (step_3rd_marks _ _ _ _ _ nb_leiden).
Qed.

(** X22. The 3rd-order seeds of a sample are exactly the 2nd-order seeds
    extended by a third spot: a list of nodes is a 3rd-order motif exactly
    when its first two nodes are a 2nd-order seed and its third node is a spot
    of the sample, with the label the sample gives it, that lies at one of the
    eight offsets from one of the two and is neither of them. *)
Theorem seed_triples_exact
    (sample_spots : list spot) (fdr_filtered_2nd : list pair_row) (nodes : motif) :
  let spot_dict := spot_dict_of sample_spots in
  let seeds_2nd := structures_2nd (loop_2nd spot_dict fdr_filtered_2nd) in
  let seeds_3rd := structures_3rd (loop_3rd spot_dict seeds_2nd) in
  In nodes (map snd seeds_3rd) <->
  (exists n1 n2 n3,
     nodes = [n1; n2; n3] /\ In (n1, n2) (map snd seeds_2nd) /\
     Dict.get spot_dict (fst n3) = Some (snd n3) /\
     fst n3 <> fst n1 /\ fst n3 <> fst n2 /\
     (adjacent (fst n1) (fst n3) \/ adjacent (fst n2) (fst n3))).
Proof.
  intros spot_dict seeds_2nd seeds_3rd.
  assert (Hnd : NoDup (Dict.keys spot_dict)) by apply Dict.of_list_keys_NoDup.
  destruct (loop_2nd_inv spot_dict fdr_filtered_2nd Hnd) as [_ _ Hok2 _].
  fold seeds_2nd in Hok2. rewrite Forall_forall in Hok2.
  destruct (loop_3rd_inv spot_dict seeds_2nd) as [_ Hvis Hok _].
  fold seeds_3rd in Hvis, Hok. rewrite Forall_forall in Hok.
  split; [apply Hok|].
  intros [n1 [n2 [n3 [-> [Hin [Hg [Hne1 [Hne2 Hadj]]]]]]]].
  assert (Hkey : In (fst n1, fst n2, fst n3) (visited_3rd (loop_3rd spot_dict seeds_2nd))).
  { apply in_map_iff in Hin. destruct Hin as [[k pts] [Heq Hentry]].
    cbn [snd] in Heq. subst pts.
    assert (Hnew : forall pr o, fst n3 = shift pr o ->
                     ~ In (shift pr o) [fst (fst (snd (k, (n1, n2))));
                                        fst (snd (snd (k, (n1, n2))))]).
    { intros pr o Heq. cbn [fst snd]. rewrite <- Heq.
      intros [H|[H|[]]]; [now apply Hne1 | now apply Hne2]. }
    destruct Hadj as [[o [Ho Heq]]|[o [Ho Heq]]].
    - pose proof (loop_3rd_marks spot_dict seeds_2nd (k, (n1, n2)) (fst n1) o (snd n3)
                    Hentry (or_introl eq_refl) Ho) as Hm.
      cbn [fst snd] in Hm. rewrite <- Heq in Hm. apply Hm; [assumption|].
      rewrite Heq. apply (Hnew (fst n1) o Heq).
    - pose proof (loop_3rd_marks spot_dict seeds_2nd (k, (n1, n2)) (fst n2) o (snd n3)
                    Hentry (or_intror (or_introl eq_refl)) Ho) as Hm.
      cbn [fst snd] in Hm. rewrite <- Heq in Hm. apply Hm; [assumption|].
      rewrite Heq. apply (Hnew (fst n2) o Heq). }
  rewrite <- Hvis in Hkey. apply in_map_iff in Hkey. destruct Hkey as [[k m] [Heq Hm]].
  cbn [snd] in Heq.
  assert (Hmv : In m (map snd seeds_3rd)) by (apply in_map_iff; now exists (k, m)).
  destruct (Hok m Hmv) as [m1 [m2 [m3 [-> [Hin' [Hg' _]]]]]].
  cbn [key_3rd] in Heq. injection Heq as H1 H2 H3.
  destruct (Hok2 _ Hin) as [Ha [Hb _]]. destruct (Hok2 _ Hin') as [Ha' [Hb' _]].
  cbn [fst snd] in Ha, Hb, Ha', Hb'.
  assert (m1 = n1) as <- by (destruct m1, n1; cbn [fst snd] in *; congruence).
  assert (m2 = n2) as <- by (destruct m2, n2; cbn [fst snd] in *; congruence).
  assert (m3 = n3) as <- by (destruct m3, n3; cbn [fst snd] in *; congruence).
  exact Hmv.
Qed.

Lemma seed_triple_shape spot_dict fdr_filtered_2nd seeds nodes :
  Forall (seed_pair_ok spot_dict fdr_filtered_2nd) (map snd seeds) ->
  seed_triple_ok spot_dict seeds nodes ->
  List.length nodes = 3%nat /\ NoDup (map fst nodes) /\
  Forall (fun nd => Dict.get spot_dict (fst nd) = Some (snd nd)) nodes.
Proof.
  intros Hok [n1 [n2 [n3 [-> [Hin [Hg [Hne1 [Hne2 _]]]]]]]].
  rewrite Forall_forall in Hok. destruct (Hok _ Hin) as [Ha [Hb [Hadj _]]].
  cbn [fst snd] in Ha, Hb, Hadj. apply adjacent_neq in Hadj.
  split; [reflexivity|]. split.
  - cbn [map]. constructor; [|constructor; [|constructor; [|constructor]]].
    + intros [H|[H|[]]]; congruence.
    + intros [H|[]]. congruence.
    + intros [].
  - repeat constructor; assumption.
Qed.

(** X23. The 3rd-order seeds are named [structure_0], [structure_1], ... in
    the order they are found; no two of them are the same list of nodes; and
    each has three nodes at three distinct coordinates, with the labels the
    sample gives them. *)
Theorem seed_triples_once (sample_spots : list spot) (fdr_filtered_2nd : list pair_row) :
  let spot_dict := spot_dict_of sample_spots in
  let seeds_2nd := structures_2nd (loop_2nd spot_dict fdr_filtered_2nd) in
  let seeds_3rd := structures_3rd (loop_3rd spot_dict seeds_2nd) in
  map fst seeds_3rd = map structure_name (seq 0 (List.length seeds_3rd)) /\
  NoDup (map snd seeds_3rd) /\
  Forall (fun nodes =>
            List.length nodes = 3%nat /\ NoDup (map fst nodes) /\
            Forall (fun nd => Dict.get spot_dict (fst nd) = Some (snd nd)) nodes)
         (map snd seeds_3rd).
Proof.
  intros spot_dict seeds_2nd seeds_3rd.
  assert (Hnd : NoDup (Dict.keys spot_dict)) by apply Dict.of_list_keys_NoDup.
  destruct (loop_2nd_inv spot_dict fdr_filtered_2nd Hnd) as [_ _ Hok2 _].
  fold seeds_2nd in Hok2.
  destruct (loop_3rd_inv spot_dict seeds_2nd) as [Hnames Hvis Hok Honce].
  fold seeds_3rd in Hnames, Hvis, Hok. split; [|split].
  - assert (Hlen : List.length seeds_3rd = sid_3rd (loop_3rd spot_dict seeds_2nd)).
    { rewrite <- (length_map fst seeds_3rd), Hnames, length_map. apply length_seq. }
    now rewrite Hlen.
  - apply (NoDup_map_inv key_3rd). rewrite map_map. now rewrite Hvis.
  - eapply Forall_impl; [|exact Hok]. intros nodes.
    now apply (seed_triple_shape spot_dict fdr_filtered_2nd).
Qed.

(** *** All the seeds *)

Lemma NoDup_nested_keys {A B V} (l : list (A * list (B * V))) :
  NoDup (map fst l) ->
  (forall x, In x l -> NoDup (map fst (snd x))) ->
  NoDup (flat_map (fun data => map (fun e => (fst data, fst e)) (snd data)) l).
Proof.
  induction l as [|[a inner] l IH]; intros Hnd Hinner; [constructor|].
  cbn [flat_map map fst snd] in *. inversion Hnd as [|? ? Ha Hl]; subst.
  apply NoDup_app.
  - assert (Heq : map (fun e : B * V => (a, fst e)) inner = map (pair a) (map fst inner))
      by now rewrite map_map.
    rewrite Heq. apply NoDup_map_pair. apply (Hinner (a, inner)). now left.
  - apply IH; [assumption|]. intros x Hx. apply Hinner. now right.
  - intros [a' b'] Hin Hin'. apply in_map_iff in Hin. destruct Hin as [e [Heq _]].
    injection Heq as <- _. apply in_flat_map in Hin'. destruct Hin' as [[a'' inner''] [Hx Hin']].
    apply in_map_iff in Hin'. destruct Hin' as [e' [Heq' _]]. cbn [fst] in Heq'.
    injection Heq' as -> _. apply Ha. apply in_map_iff. now exists (a, inner'').
Qed.

Lemma seed_motifs_keys adata fdr_filtered_2nd focus_group :
  map fst (seed_motifs adata fdr_filtered_2nd focus_group) =
  flat_map (fun data => map (fun e => (fst data, fst e)) (snd data))
           (sample_wise_structures adata fdr_filtered_2nd focus_group).
Proof.
  unfold seed_motifs, Dict.items.
  generalize (sample_wise_structures adata fdr_filtered_2nd focus_group). intros l.
  induction l as [|data l IH]; [reflexivity|].
  cbn [flat_map]. rewrite map_app. f_equal; [|exact IH].
  rewrite map_map. reflexivity.
Qed.

Lemma names_NoDup {V} (d : @Dict.t string V) (n : nat) :
  map fst d = map structure_name (seq 0 n) -> NoDup (map fst d).
Proof.
  intros ->. apply NoDup_map_NoDup_ForallPairs; [|apply seq_NoDup].
  intros i j _ _. apply structure_name_inj.
Qed.

Lemma seed_motifs_NoDup adata fdr_filtered_2nd focus_group :
  NoDup (map fst (seed_motifs adata fdr_filtered_2nd focus_group)).
Proof.
  rewrite seed_motifs_keys. apply NoDup_nested_keys.
  - unfold sample_wise_structures. rewrite map_map. cbn [fst]. rewrite map_id.
    apply unique_NoDup.
  - intros [sample inner] Hin. unfold sample_wise_structures in Hin.
    apply in_map_iff in Hin. destruct Hin as [s [Heq _]]. injection Heq as _ <-.
    cbn [snd]. eapply names_NoDup. apply (loop_3rd_inv _ _).
Qed.

(** X24. The motifs that go into the grouping are well formed: their keys
    [(sample, structure_name)] are distinct; each belongs to a sample of the
    focus group and has three nodes at three distinct coordinates, with the
    labels the sample gives them, so its frame has distinct names; and
    [grouped_structures] holds every one of them in exactly one group. *)
Theorem seed_motifs_wellformed
    (adata : AnnData) (fdr_filtered_2nd : list pair_row) (focus_group : string) :
  let motifs := seed_motifs adata fdr_filtered_2nd focus_group in
  NoDup (map fst motifs) /\
  Forall (fun e : motif_key * motif =>
            In (fst (fst e)) (focus_sample_ids adata focus_group) /\
            List.length (snd e) = 3%nat /\
            NoDup (map fst (snd e)) /\
            distinct_nodes (structure_of (snd e)) /\
            Forall (fun nd =>
                      Dict.get (spot_dict_of (sample_spots_of adata (fst (fst e)))) (fst nd) =
                      Some (snd nd))
                   (snd e))
         motifs /\
  Permutation
    (List.concat (map snd (extract_grouped_structures adata fdr_filtered_2nd focus_group)))
    (map fst motifs).
Proof.
  intros motifs.
  assert (Hkeys : NoDup (map fst motifs)) by apply seed_motifs_NoDup.
  split; [assumption|]. split.
  - apply Forall_forall. intros [[sample name] nodes] Hin.
    unfold motifs, seed_motifs, Dict.items in Hin. apply in_flat_map in Hin.
    destruct Hin as [[sample' inner] [Hdata Hin]]. cbn [fst snd] in Hin.
    apply in_map_iff in Hin. destruct Hin as [[name' nodes'] [Heq Hin]].
    cbn [fst snd] in Heq. injection Heq as -> -> ->.
    unfold sample_wise_structures in Hdata. apply in_map_iff in Hdata.
    destruct Hdata as [s [Heq Hs]]. injection Heq as -> <-.
    cbn [fst snd]. split; [assumption|].
    set (spot_dict := spot_dict_of (sample_spots_of adata sample)) in *.
    assert (Hnd : NoDup (Dict.keys spot_dict)) by apply Dict.of_list_keys_NoDup.
    destruct (loop_2nd_inv spot_dict fdr_filtered_2nd Hnd) as [_ _ Hok2 _].
    destruct (loop_3rd_inv spot_dict
                (structures_2nd (loop_2nd spot_dict fdr_filtered_2nd))) as [_ _ Hok _].
    rewrite Forall_forall in Hok.
    assert (Hv : In nodes
                    (map snd (structures_3rd
                                (loop_3rd spot_dict
                                   (structures_2nd (loop_2nd spot_dict fdr_filtered_2nd))))))
      by (apply in_map_iff; now exists (name, nodes)).
    destruct (seed_triple_shape _ _ _ _ Hok2 (Hok nodes Hv)) as [Hlen [Hdist Hlab]].
    split; [assumption|]. split; [assumption|]. split; [|assumption].
    now apply structure_of_distinct.
  - unfold extract_grouped_structures. fold motifs.
    rewrite grouped_structures_numbered by assumption. rewrite numbered_values.
    apply classes_concat_perm;
      [apply motif_equiv_refl | apply motif_equiv_sym | apply motif_equiv_trans | assumption].
Qed.

(** ** StructureStatistics: the table [df_counts] *)

(** One row of [df_counts]: the four columns that the expansion loop reads
    ([score]) and the others. *)
Record count_row := mkCountRow {
  score : score_row;
  Count_Sample : nat;
  Count_Mean : Q;
  Ratio_Mean : Q;
  Ratios : list Q;
  Count_Mean_Other : Q;
  Adjusted_P : Q;
  Significant : bool
}.

(** [1e-9] *)
Definition tiny : Q := 1 # 1000000000.

(** [counts[idx] += 1] on an array. *)
Fixpoint increment (counts : list nat) (idx : nat) : list nat :=
  match counts, idx with
  | [], _ => []
  | c :: counts', O => S c :: counts'
  | c :: counts', S idx' => c :: increment counts' idx'
  end.

(** [sample_index = {s: i for i, s in enumerate(all_samples)}] (line 533). *)
Definition sample_index_of (all_samples : list string) : @Dict.t string nat :=
  Dict.of_list (combine all_samples (seq 0 (List.length all_samples))).

(** Body of [for sample, _ in items] (lines 536-538): the look-up
    [sample_index[sample]] comes first, then the [defaultdict] makes the
    array of the group if it has none. *)
Definition count_member (all_samples : list string) (sample_index : @Dict.t string nat)
    (gid : nat) (acc : result (@Dict.t nat (list nat))) (member : motif_key)
  : result (@Dict.t nat (list nat)) :=
  match acc with
  | Raise e => Raise e
  | Return group_ratios =>
      match Dict.get sample_index (fst member) with
      | None => Raise KeyError
      | Some idx =>
          let counts := getd (repeat 0%nat (List.length all_samples)) group_ratios gid in
          Return (Dict.set group_ratios gid (increment counts idx))
      end
  end.

(** Lines 535-538. *)
Definition group_ratios_of (all_samples : list string)
    (grouped_structures : @Dict.t nat (list motif_key)) : result (@Dict.t nat (list nat)) :=
  let sample_index := sample_index_of all_samples in
  fold_left
    (fun acc entry =>
       fold_left (count_member all_samples sample_index (fst entry)) (snd entry) acc)
    (Dict.items grouped_structures) (Return Dict.empty).

Definition Q_of_nat (n : nat) : Q := inject_Z (Z.of_nat n).

(** [count / total if total > 0 else 0] (line 547). *)
Definition ratio_of (count total : nat) : Q :=
  if (0 <? total)%nat then Q_of_nat count / Q_of_nat total else 0.

(** The first five columns of a row (lines 540-554). *)
Record base_row := mkBaseRow {
  base_gid : nat;
  base_sample_count : nat;
  base_count_mean : Q;
  base_ratio_mean : Q;
  base_ratios : list Q
}.

Definition base_row_of (totals : list nat) (entry : nat * list nat) : base_row :=
  let ratios := snd entry in
  let ratio_values := map (fun ct => ratio_of (fst ct) (snd ct)) (combine ratios totals) in
  {| base_gid := fst entry;
     base_sample_count := List.length (filter (fun count => (0 <? count)%nat) ratios);
     base_count_mean := np_mean (map Q_of_nat ratios);
     base_ratio_mean := np_mean ratio_values;
     base_ratios := ratio_values |}.

(** The rows at the positions other than [i]. *)
Definition others {A} (i : nat) (l : list A) : list A :=
  map snd (filter (fun jr => negb (fst jr =? i)%nat) (combine (seq 0 (List.length l)) l)).

(** [Count_Mean_Other] at position [i] (lines 560-564). *)
Definition count_mean_other (rows : list base_row) (i : nat) : Q :=
  if (1 <? List.length rows)%nat
  then np_mean (map base_count_mean (others i rows))
  else tiny.

(** [Count_Mean / Count_Mean_Other.replace(0, np.nan).fillna(1e-9)] (line 568). *)
Definition fold_change_of (count_mean other : Q) : Q :=
  count_mean / (if Qeq_bool other 0 then tiny else other).

(** [np.mean(arrays, axis=0)] of a non-empty list of arrays of length [n]. *)
Definition mean_axis0 (n : nat) (arrays : list (list Q)) : list Q :=
  map (fun k => np_mean (map (fun a => nth k a 0) arrays)) (seq 0 n).

Section StructureStatistics.

(** [mannwhitneyu(current_ratios, other_ratios, alternative="greater").pvalue];
    [None] stands for a [ValueError]. *)
Variable mannwhitneyu_greater : list Q -> list Q -> option Q.
(** The same call when [other_ratios] is the NaN that [np.mean([], axis=0)]
    gives for a table of one row. A NaN that the test returns as its p-value
    is not a value of this model. *)
Variable mannwhitneyu_nan : list Q -> option Q.
(** [multipletests(p_values, method="fdr_bh")[1]] *)
Variable multipletests : list Q -> list Q.

(** Lines 574-583. *)
Definition p_value_of (n_samples : nat) (rows : list base_row) (i : nat) (row : base_row) : Q :=
  let tested :=
    match others i rows with
    | [] => mannwhitneyu_nan (base_ratios row)
    | other_rows =>
        mannwhitneyu_greater (base_ratios row)
                             (mean_axis0 n_samples (map base_ratios other_rows))
    end in
  match tested with
  | Some p => p
  | None => 1
  end.

(** The row of [df_counts] at position [i], all columns filled
    (lines 556-593). *)
Definition count_row_of (n_samples : nat) (rows : list base_row)
    (fc_threshold p_threshold coverage_threshold : Q)
    (irpa : ((nat * base_row) * Q) * Q) : nat * count_row :=
  let '(((i, row), p), adjusted) := irpa in
  let other := count_mean_other rows i in
  let fold_change := fold_change_of (base_count_mean row) other in
  let coverage := Q_of_nat (base_sample_count row) / Q_of_nat n_samples in
  (i,
   {| score := mkScoreRow (base_gid row) fold_change coverage p;
      Count_Sample := base_sample_count row;
      Count_Mean := base_count_mean row;
      Ratio_Mean := base_ratio_mean row;
      Ratios := base_ratios row;
      Count_Mean_Other := other;
      Adjusted_P := adjusted;
      Significant :=
        Qltb adjusted p_threshold && Qltb fc_threshold fold_change &&
        Qle_bool coverage_threshold coverage |}).

(** [df_counts.sort_values(by="Adjusted_P")]; the rows keep their index
    labels. pandas does not promise the order of rows with equal keys. *)
Definition sort_by_adjusted_p (df : list (nat * count_row)) : list (nat * count_row) :=
  sorted (fun a b => Qle_bool (Adjusted_P (snd a)) (Adjusted_P (snd b))) df.

(** The statistics of lines 528-598, which are also the body that
    [analyze_structure_groups] is meant to have (lines 759-829). *)
Definition structure_statistics (adata : AnnData) (focus_group : string)
    (grouped_structures : @Dict.t nat (list motif_key))
    (fc_threshold p_threshold coverage_threshold : Q)
  : result (list (nat * count_row)) :=
  let all_samples := focus_sample_ids adata focus_group in
  let n_samples := List.length all_samples in
  let totals := map (fun s => List.length (sample_spots_of adata s)) all_samples in
  match group_ratios_of all_samples grouped_structures with
  | Raise e => Raise e
  | Return group_ratios =>
      let rows := map (base_row_of totals) (Dict.items group_ratios) in
      let indexed := combine (seq 0 (List.length rows)) rows in
      let p_values := map (fun ir => p_value_of n_samples rows (fst ir) (snd ir)) indexed in
      let adjusted := multipletests p_values in
      if (List.length adjusted =? List.length rows)%nat
      then
        Return
          (sort_by_adjusted_p
             (map (count_row_of n_samples rows fc_threshold p_threshold coverage_threshold)
                  (combine (combine indexed p_values) adjusted)))
      else Raise ValueError
  end.

End StructureStatistics.

(** *** The counters *)

Lemma increment_length counts idx : List.length (increment counts idx) = List.length counts.
Proof.
  revert idx. induction counts as [|c counts IH]; intros [|idx]; cbn; auto.
Qed.

Lemma increment_sum counts idx :
  (idx < List.length counts)%nat -> list_sum (increment counts idx) = S (list_sum counts).
Proof.
  revert idx. induction counts as [|c counts IH]; intros [|idx] Hlt;
    cbn [List.length] in Hlt; cbn [increment]; try lia.
  - change (S c + list_sum counts = S (c + list_sum counts))%nat. lia.
  - change (c + list_sum (increment counts idx) = S (c + list_sum counts))%nat.
    rewrite IH by lia. lia.
Qed.

Lemma sample_index_bound all_samples s idx :
  Dict.get (sample_index_of all_samples) s = Some idx ->
  (idx < List.length all_samples)%nat /\ In s all_samples.
Proof.
  intros Hg. apply Dict.get_In, dict_of_list_In in Hg. split.
  - apply in_combine_r, in_seq in Hg. lia.
  - now apply in_combine_l in Hg.
Qed.

Lemma sample_index_known all_samples s :
  In s all_samples -> exists idx, Dict.get (sample_index_of all_samples) s = Some idx.
Proof.
  intros Hin.
  assert (Hk : In s (Dict.keys (sample_index_of all_samples))).
  { unfold sample_index_of. apply Dict.of_list_keys_In.
    rewrite map_fst_combine; [assumption|]. now rewrite length_seq. }
  apply Dict.get_In_keys in Hk.
  destruct (Dict.get (sample_index_of all_samples) s) as [idx|]; [now exists idx | congruence].
Qed.

(** What every array of [group_ratios] satisfies: it belongs to a group of
    [grouped_structures], has one cell per sample, and counts at least one
    member. *)
Definition counts_ok (all_samples : list string)
    (grouped_structures : @Dict.t nat (list motif_key)) (entry : nat * list nat) : Prop :=
  In (fst entry) (Dict.keys grouped_structures) /\
  List.length (snd entry) = List.length all_samples /\
  (0 < list_sum (snd entry))%nat.

Lemma list_sum_repeat_zero n : list_sum (repeat 0%nat n) = 0%nat.
Proof. induction n; cbn; auto. Qed.

Lemma count_member_ok all_samples grouped gid acc member group_ratios' :
  In gid (Dict.keys grouped) ->
  (forall group_ratios, acc = Return group_ratios ->
                        Forall (counts_ok all_samples grouped) group_ratios) ->
  count_member all_samples (sample_index_of all_samples) gid acc member = Return group_ratios' ->
  Forall (counts_ok all_samples grouped) group_ratios'.
Proof.
  intros Hgid Hacc. unfold count_member. destruct acc as [group_ratios|e]; [|discriminate].
  specialize (Hacc group_ratios eq_refl).
  destruct (Dict.get (sample_index_of all_samples) (fst member)) as [idx|] eqn:Eidx;
    [|discriminate].
  intros [= <-]. apply sample_index_bound in Eidx. destruct Eidx as [Hidx _].
  apply Forall_forall. intros entry Hin. apply dict_set_In in Hin.
  destruct Hin as [->|Hin]; [|rewrite Forall_forall in Hacc; now apply Hacc].
  assert (Hlen : List.length (getd (repeat 0%nat (List.length all_samples)) group_ratios gid) =
                 List.length all_samples).
  { unfold getd. destruct (Dict.get group_ratios gid) as [counts|] eqn:Eg.
    - apply Dict.get_In in Eg. rewrite Forall_forall in Hacc. now apply (Hacc _ Eg).
    - apply repeat_length. }
  split; [assumption|]. cbn [fst snd]. split.
  - now rewrite increment_length.
  - rewrite increment_sum by lia. lia.
Qed.

Lemma group_ratios_ok all_samples grouped group_ratios :
  group_ratios_of all_samples grouped = Return group_ratios ->
  Forall (counts_ok all_samples grouped) group_ratios.
Proof.
  unfold group_ratios_of. cbv zeta.
  assert (Hgen : forall entries (acc : result (@Dict.t nat (list nat))),
             incl entries (Dict.items grouped) ->
             (forall gr, acc = Return gr -> Forall (counts_ok all_samples grouped) gr) ->
             forall gr,
               fold_left
                 (fun acc entry =>
                    fold_left (count_member all_samples (sample_index_of all_samples) (fst entry))
                              (snd entry) acc)
                 entries acc = Return gr ->
               Forall (counts_ok all_samples grouped) gr).
  { induction entries as [|[gid members] entries IH]; intros acc Hincl Hacc gr Hfold.
    - now apply Hacc.
    - cbn [fold_left fst snd] in Hfold. revert Hfold. apply IH.
      + intros e He. apply Hincl. now right.
      + assert (Hgid : In gid (Dict.keys grouped)).
        { apply in_map_iff. exists (gid, members). split; [reflexivity|].
          apply Hincl. now left. }
        clear -Hacc Hgid. revert acc Hacc.
        induction members as [|m members IHm]; intros acc Hacc; [exact Hacc|].
        cbn [fold_left]. apply IHm. intros gr' Hm.
        now apply (count_member_ok _ _ _ _ _ _ Hgid Hacc Hm). }
  apply Hgen; [apply incl_refl|]. intros gr [= <-]. constructor.
Qed.

(** *** Means *)

Lemma Q_of_nat_nonneg n : 0 <= Q_of_nat n.
Proof. unfold Q_of_nat. change 0 with (inject_Z 0). rewrite <- Zle_Qle. lia. Qed.

Lemma Q_of_nat_pos n : (0 < n)%nat -> 0 < Q_of_nat n.
Proof. intros Hn. unfold Q_of_nat. change 0 with (inject_Z 0). rewrite <- Zlt_Qlt. lia. Qed.

Lemma Qsum_nonneg v : Forall (fun q => 0 <= q) v -> 0 <= Qsum v.
Proof.
  induction 1 as [|q v Hq Hv IH]; cbn; [apply Qle_refl|].
  change 0 with (0 + 0). now apply Qplus_le_compat.
Qed.

Lemma Qsum_Q_of_nat counts : Qsum (map Q_of_nat counts) == Q_of_nat (list_sum counts).
Proof.
  induction counts as [|c counts IH]; [reflexivity|].
  change (Q_of_nat c + Qsum (map Q_of_nat counts) == Q_of_nat (c + list_sum counts)).
  rewrite IH. unfold Q_of_nat. rewrite Nat2Z.inj_add, inject_Z_plus. reflexivity.
Qed.

Lemma np_mean_nonneg v : Forall (fun q => 0 <= q) v -> 0 <= np_mean v.
Proof.
  intros Hv. unfold np_mean. destruct v as [|q v].
  - cbn. discriminate.
  - apply Qle_shift_div_l.
    + apply (Q_of_nat_pos (List.length (q :: v))). cbn. lia.
    + rewrite Qmult_0_l. now apply Qsum_nonneg.
Qed.

Lemma np_mean_counts_pos counts :
  (0 < list_sum counts)%nat -> 0 < np_mean (map Q_of_nat counts).
Proof.
  intros Hpos. unfold np_mean. rewrite length_map.
  assert (Hlen : (0 < List.length counts)%nat) by (destruct counts; cbn in *; lia).
  apply Qlt_shift_div_l; [now apply (Q_of_nat_pos (List.length counts))|].
  rewrite Qmult_0_l, Qsum_Q_of_nat. now apply Q_of_nat_pos.
Qed.

Lemma positive_cells counts :
  (0 < list_sum counts)%nat ->
  (1 <= List.length (filter (fun count => (0 <? count)%nat) counts) <= List.length counts)%nat.
Proof.
  intros Hpos. split; [|apply filter_length_le].
  induction counts as [|c counts IH]; [cbn in Hpos; lia|].
  change (0 < c + list_sum counts)%nat in Hpos.
  cbn [filter]. destruct c as [|c]; cbn [Nat.ltb Nat.leb].
  - apply IH. lia.
  - cbn [List.length]. lia.
Qed.

(** *** The rows *)

Lemma fold_change_pos count_mean other :
  0 < count_mean -> 0 <= other -> 0 < fold_change_of count_mean other.
Proof.
  intros Hcm Hother. unfold fold_change_of.
  assert (Hden : 0 < (if Qeq_bool other 0 then tiny else other)).
  { destruct (Qeq_bool other 0) eqn:E; [reflexivity|].
    apply Qeq_bool_neq in E. apply Qle_lteq in Hother.
    destruct Hother as [Hlt|Heq]; [assumption|]. exfalso. apply E. now symmetry. }
  apply Qlt_shift_div_l; [assumption|]. now rewrite Qmult_0_l.
Qed.

Lemma count_mean_other_nonneg rows i :
  Forall (fun row => 0 < base_count_mean row) rows -> 0 <= count_mean_other rows i.
Proof.
  intros Hrows. unfold count_mean_other.
  destruct (1 <? List.length rows)%nat; [|discriminate].
  apply np_mean_nonneg. apply Forall_forall. intros q Hq.
  apply in_map_iff in Hq. destruct Hq as [row [<- Hrow]].
  unfold others in Hrow. apply in_map_iff in Hrow. destruct Hrow as [[j row'] [Heq Hin]].
  cbn [snd] in Heq. subst row'. apply filter_In in Hin. destruct Hin as [Hin _].
  apply in_combine_r in Hin. rewrite Forall_forall in Hrows.
  apply Qlt_le_weak. now apply Hrows.
Qed.

Lemma base_row_facts all_samples grouped totals entry :
  counts_ok all_samples grouped entry ->
  List.length totals = List.length all_samples ->
  let row := base_row_of totals entry in
  In (base_gid row) (Dict.keys grouped) /\
  (1 <= base_sample_count row <= List.length all_samples)%nat /\
  0 < base_count_mean row /\
  List.length (base_ratios row) = List.length all_samples.
Proof.
  intros [Hgid [Hlen Hpos]] Htot row. unfold row, base_row_of.
  cbn [base_gid base_sample_count base_count_mean base_ratios].
  split; [assumption|]. split; [|split].
  - rewrite <- Hlen. now apply positive_cells.
  - now apply np_mean_counts_pos.
  - rewrite length_map, length_combine, Hlen, Htot. apply Nat.min_id.
Qed.

(** What holds of every row of [df_counts]. *)
Definition count_row_ok (n_samples : nat) (grouped_structures : @Dict.t nat (list motif_key))
    (r : count_row) : Prop :=
  In (Group_ID (score r)) (Dict.keys grouped_structures) /\
  (1 <= Count_Sample r <= n_samples)%nat /\
  0 < Coverage (score r) /\ Coverage (score r) <= 1 /\
  0 < Count_Mean r /\ 0 <= Count_Mean_Other r /\ 0 < Fold_Change (score r) /\
  List.length (Ratios r) = n_samples.

Lemma coverage_bounds (sample_count n_samples : nat) :
  (1 <= sample_count <= n_samples)%nat ->
  0 < Q_of_nat sample_count / Q_of_nat n_samples /\
  Q_of_nat sample_count / Q_of_nat n_samples <= 1.
Proof.
  intros [Hlo Hhi].
  assert (Hn : 0 < Q_of_nat n_samples) by (apply Q_of_nat_pos; lia).
  split.
  - apply Qlt_shift_div_l; [assumption|]. rewrite Qmult_0_l. apply Q_of_nat_pos. lia.
  - apply Qle_shift_div_r; [assumption|]. rewrite Qmult_1_l.
    unfold Q_of_nat. rewrite <- Zle_Qle. lia.
Qed.

(** X25. Every row of the table [df_counts] belongs to a group of
    [grouped_structures] and has sound statistics: the group occurs in at
    least one and at most all of the focus samples, so [Coverage] lies in
    (0, 1]; [Count_Mean] is positive; the divisor of [Fold_Change] is never
    zero and [Fold_Change] is positive; and [Ratios] has one entry per focus
    sample. *)
Theorem statistics_rows_bounds
    (mannwhitneyu_greater : list Q -> list Q -> option Q)
    (mannwhitneyu_nan : list Q -> option Q) (multipletests : list Q -> list Q)
    (adata : AnnData) (focus_group : string)
    (grouped_structures : @Dict.t nat (list motif_key))
    (fc_threshold p_threshold coverage_threshold : Q) (df_counts : list (nat * count_row)) :
  structure_statistics mannwhitneyu_greater mannwhitneyu_nan multipletests adata focus_group
    grouped_structures fc_threshold p_threshold coverage_threshold = Return df_counts ->
  Forall (fun ir : nat * count_row =>
            count_row_ok (List.length (focus_sample_ids adata focus_group))
                         grouped_structures (snd ir))
         df_counts.
Proof.
  unfold structure_statistics. cbv zeta.
  set (all_samples := focus_sample_ids adata focus_group).
  set (totals := map (fun s => List.length (sample_spots_of adata s)) all_samples).
  destruct (group_ratios_of all_samples grouped_structures) as [group_ratios|e] eqn:Egr;
    [|discriminate].
  set (rows := map (base_row_of totals) (Dict.items group_ratios)).
  destruct (_ =? _)%nat; [|discriminate].
  intros [= <-]. apply group_ratios_ok in Egr. rewrite Forall_forall in Egr.
  assert (Hrows : forall row, In row rows ->
            In (base_gid row) (Dict.keys grouped_structures) /\
            (1 <= base_sample_count row <= List.length all_samples)%nat /\
            0 < base_count_mean row /\
            List.length (base_ratios row) = List.length all_samples).
  { intros row Hrow. unfold rows in Hrow. apply in_map_iff in Hrow.
    destruct Hrow as [entry [<- Hentry]].
    apply (base_row_facts all_samples grouped_structures totals entry).
    - now apply Egr.
    - unfold totals. apply length_map. }
  assert (Hmeans : Forall (fun row => 0 < base_count_mean row) rows).
  { apply Forall_forall. intros row Hrow. now destruct (Hrows row Hrow) as [_ [_ [H _]]]. }
  apply Forall_forall. intros ir Hir. unfold sort_by_adjusted_p in Hir.
  apply sorted_In, in_map_iff in Hir.
  destruct Hir as [[[[i row] pv] adjusted] [<- Hin]].
  apply in_combine_l, in_combine_l, in_combine_r in Hin.
  destruct (Hrows row Hin) as [Hgid [Hsc [Hcm Hlen]]].
  destruct (coverage_bounds _ _ Hsc) as [Hcov0 Hcov1].
  pose proof (count_mean_other_nonneg rows i Hmeans) as Hother.
  unfold count_row_of, count_row_ok.
  cbn [snd score Group_ID Count_Sample Coverage Count_Mean Count_Mean_Other Fold_Change Ratios].
  repeat split; try assumption; try lia.
  now apply fold_change_pos.
Qed.

(** Two groups on the sample of [demo_grid]. *)
Definition demo_grouped : @Dict.t nat (list motif_key) :=
  [ (0%nat, [ ("s1", "structure_0") ]);
    (1%nat, [ ("s1", "structure_1"); ("s1", "structure_2") ]) ].

Lemma statistics_rows_bounds_witness :
  Forall (fun ir : nat * count_row => count_row_ok 1 demo_grouped (snd ir))
         match
           structure_statistics (fun _ _ => Some (1 # 100)) (fun _ => None) (fun ps => ps)
             demo_grid "G1" demo_grouped 4 (1 # 20) (3 # 5)
         with
         | Return df_counts => df_counts
         | Raise _ => []
         end.
Proof.
  apply (statistics_rows_bounds (fun _ _ => Some (1 # 100)) (fun _ => None) (fun ps => ps)
           demo_grid "G1" demo_grouped 4 (1 # 20) (3 # 5)).
  vm_compute. reflexivity.
Defined.

Example statistics_demo :
  match
    structure_statistics (fun _ _ => Some (1 # 100)) (fun _ => None) (fun ps => ps)
      demo_grid "G1" demo_grouped 4 (1 # 20) (3 # 5)
  with
  | Return df_counts =>
      map (fun ir => (fst ir, Group_ID (score (snd ir)), Count_Sample (snd ir),
                      Qred (Count_Mean (snd ir)), Qred (Fold_Change (score (snd ir))),
                      Qred (Coverage (score (snd ir))), Significant (snd ir))) df_counts
  | Raise _ => []
  end =
  [ (0%nat, 0%nat, 1%nat, 1, 1 # 2, 1, false); (1%nat, 1%nat, 1%nat, 2, 2, 1, false) ].
Proof. vm_compute. reflexivity. Qed.

(** *** The counters hold the numbers of members *)

(** Number of members of a group in each sample. *)
Definition member_counts (all_samples : list string) (members : list motif_key) : list nat :=
  map (fun s => count_occ key_eq_dec (map fst members) s) all_samples.

Lemma keys_set {K V} `{Hashable K} (d : @Dict.t K V) (k : K) (v : V) :
  Dict.keys (Dict.set d k v) =
  if mem k (Dict.keys d) then Dict.keys d else Dict.keys d ++ [k].
Proof.
  induction d as [|[k0 v0] d IH]; [reflexivity|].
  cbn [Dict.set]. unfold Dict.keys in *. cbn [map fst]. unfold mem in *. cbn [existsb].
  destruct (key_eqb_spec k0 k) as [->|Hne].
  - rewrite key_eqb_refl. reflexivity.
  - rewrite (key_eqb_neq k k0) by congruence. cbn [map fst orb]. rewrite IH.
    now destruct (existsb (key_eqb k) (map fst d)).
Qed.

Lemma combine_seq_nth {A} (l : list A) (a : nat) (x : A) (idx : nat) :
  In (x, idx) (combine l (seq a (List.length l))) ->
  (a <= idx)%nat /\ nth_error l (idx - a) = Some x.
Proof.
  revert a. induction l as [|y l IH]; intros a Hin; [destruct Hin|].
  cbn [List.length seq combine] in Hin. destruct Hin as [Heq|Hin].
  - injection Heq as -> ->. split; [lia|]. now rewrite Nat.sub_diag.
  - apply IH in Hin. destruct Hin as [Hle Hnth]. split; [lia|].
    replace (idx - a)%nat with (S (idx - S a)) by lia. exact Hnth.
Qed.

Lemma increment_map (f : string -> nat) (all_samples : list string) (s : string) (i : nat) :
  NoDup all_samples -> nth_error all_samples i = Some s ->
  increment (map f all_samples) i =
  map (fun s' => if key_eqb s' s then S (f s') else f s') all_samples.
Proof.
  revert i. induction all_samples as [|s0 l IH]; intros i Hnd Hnth; [now destruct i|].
  inversion Hnd as [|? ? Hnot Hl]; subst. destruct i as [|i].
  - injection Hnth as ->. cbn [map increment]. rewrite key_eqb_refl. f_equal.
    apply map_ext_in. intros s' Hs'. rewrite key_eqb_neq; [reflexivity|]. congruence.
  - cbn [nth_error] in Hnth. cbn [map increment]. rewrite (IH i Hl Hnth).
    rewrite key_eqb_neq; [reflexivity|]. intros ->. apply Hnot.
    eapply nth_error_In. exact Hnth.
Qed.

Lemma sample_index_nth all_samples s idx :
  Dict.get (sample_index_of all_samples) s = Some idx -> nth_error all_samples idx = Some s.
Proof.
  intros Hg. apply Dict.get_In, dict_of_list_In, combine_seq_nth in Hg.
  destruct Hg as [_ Hnth]. now rewrite Nat.sub_0_r in Hnth.
Qed.

(** The inner loop on the members of one group whose samples are all known:
    the array of the group gains, per sample, the number of members of that
    sample. *)
Lemma count_members_fold all_samples gid members (f : string -> nat) group_ratios :
  NoDup all_samples ->
  (forall m, In m members -> In (fst m) all_samples) ->
  getd (repeat 0%nat (List.length all_samples)) group_ratios gid = map f all_samples ->
  members <> [] ->
  fold_left (count_member all_samples (sample_index_of all_samples) gid) members
            (Return group_ratios) =
  Return (Dict.set group_ratios gid
            (map (fun s => (f s + count_occ key_eq_dec (map fst members) s)%nat) all_samples)).
Proof.
  intros Hnd. revert f group_ratios.
  induction members as [|m members IH]; intros f group_ratios Hknown Hget Hne; [congruence|].
  cbn [fold_left]. unfold count_member at 2.
  destruct (sample_index_known all_samples (fst m)) as [idx Hidx];
    [apply Hknown; now left|].
  rewrite Hidx. cbv zeta. rewrite Hget.
  rewrite (increment_map f all_samples (fst m) idx Hnd (sample_index_nth _ _ _ Hidx)).
  assert (Hcounts : forall s,
            ((if key_eqb s (fst m) then S (f s) else f s) +
             count_occ key_eq_dec (map fst members) s =
             f s + count_occ key_eq_dec (map fst (m :: members)) s)%nat).
  { intros s. cbn [map count_occ].
    destruct (key_eq_dec (fst m) s) as [->|Hne'].
    - destruct (key_eqb_spec s s) as [_|Hn]; [lia | congruence].
    - destruct (key_eqb_spec s (fst m)) as [Heq|_]; [congruence | reflexivity]. }
  destruct members as [|m' members'].
  - cbn [fold_left]. f_equal. f_equal. apply map_ext. intros s. rewrite <- Hcounts.
    cbn [map count_occ]. lia.
  - rewrite (IH (fun s => if key_eqb s (fst m) then S (f s) else f s)).
    + f_equal.
      assert (Hset : forall (d : @Dict.t nat (list nat)) k v v',
                 Dict.set (Dict.set d k v) k v' = Dict.set d k v').
      { clear. intros d k v v'. induction d as [|[k0 v0] d IHd].
        - cbn [Dict.set]. now rewrite key_eqb_refl.
        - cbn [Dict.set]. destruct (key_eqb k0 k) eqn:E; cbn [Dict.set]; rewrite E;
            [reflexivity | now rewrite IHd]. }
      rewrite Hset. f_equal. apply map_ext. intros s. apply Hcounts.
    + intros m0 Hm0. apply Hknown. now right.
    + unfold getd. now rewrite Dict.get_set_same.
    + discriminate.
Qed.

Definition nonempty {A} (l : list A) : bool :=
  match l with [] => false | _ => true end.

(** [group_ratios] as a list: one array per non-empty group, in order. *)
Definition counted (all_samples : list string) (grouped : @Dict.t nat (list motif_key))
  : @Dict.t nat (list nat) :=
  map (fun e => (fst e, member_counts all_samples (snd e)))
      (filter (fun e => nonempty (snd e)) grouped).

Lemma counted_keys_incl all_samples grouped gid :
  In gid (Dict.keys (counted all_samples grouped)) -> In gid (Dict.keys grouped).
Proof.
  unfold counted, Dict.keys. rewrite map_map. cbn [fst]. intros Hin.
  apply in_map_iff in Hin. destruct Hin as [e [<- He]]. apply filter_In in He.
  apply in_map. tauto.
Qed.

Lemma counted_app all_samples l l' :
  counted all_samples (l ++ l') = counted all_samples l ++ counted all_samples l'.
Proof. unfold counted. now rewrite filter_app, map_app. Qed.

Lemma group_ratios_fold all_samples entries done :
  NoDup all_samples -> NoDup (map fst (done ++ entries)) ->
  (forall entry m, In entry entries -> In m (snd entry) -> In (fst m) all_samples) ->
  fold_left
    (fun acc entry =>
       fold_left (count_member all_samples (sample_index_of all_samples) (fst entry))
                 (snd entry) acc)
    entries (Return (counted all_samples done)) =
  Return (counted all_samples (done ++ entries)).
Proof.
  intros Hall. revert done.
  induction entries as [|[gid members] entries IH]; intros done Hnd Hknown.
  - now rewrite app_nil_r.
  - cbn [fold_left fst snd].
    replace (done ++ (gid, members) :: entries) with ((done ++ [(gid, members)]) ++ entries)
      in * by (rewrite <- app_assoc; reflexivity).
    rewrite <- IH; [|assumption | intros entry m He; apply Hknown; now right].
    f_equal. rewrite counted_app. destruct members as [|m members].
    + cbn. now rewrite app_nil_r.
    + assert (Hfresh : ~ In gid (Dict.keys (counted all_samples done))).
      { intros Hin. apply counted_keys_incl in Hin.
        rewrite !map_app in Hnd. apply NoDup_app_remove_r in Hnd.
        apply NoDup_remove_2 in Hnd. rewrite app_nil_r in Hnd. contradiction. }
      rewrite (count_members_fold all_samples gid (m :: members) (fun _ => 0%nat)).
      * rewrite dict_set_fresh by assumption. reflexivity.
      * assumption.
      * intros m0 Hm0. apply (Hknown (gid, m :: members)); [now left | assumption].
      * unfold getd.
        destruct (Dict.get (counted all_samples done) gid) eqn:Eg.
        -- exfalso. apply Hfresh. apply Dict.get_In_keys. congruence.
        -- clear. induction all_samples as [|s l IHl]; [reflexivity|].
           cbn [List.length repeat map]. now rewrite IHl.
      * discriminate.
Qed.

Lemma count_member_raised all_samples gid members e :
  fold_left (count_member all_samples (sample_index_of all_samples) gid) members (Raise e) =
  Raise e.
Proof. induction members as [|m members IH]; [reflexivity | exact IH]. Qed.

(** The only exception of the loop is [KeyError]. *)
Definition key_error_only {A} (acc : result A) : Prop :=
  match acc with
  | Raise e => e = KeyError
  | Return _ => True
  end.

Lemma count_member_key_error_only all_samples gid acc m :
  key_error_only acc ->
  key_error_only (count_member all_samples (sample_index_of all_samples) gid acc m).
Proof.
  unfold count_member. destruct acc as [gr|e]; [|exact (fun H => H)].
  intros _. now destruct (Dict.get _ _).
Qed.

Lemma count_members_key_error_only all_samples gid members acc :
  key_error_only acc ->
  key_error_only
    (fold_left (count_member all_samples (sample_index_of all_samples) gid) members acc).
Proof.
  revert acc. induction members as [|m members IH]; intros acc Hacc; [exact Hacc|].
  cbn [fold_left]. apply IH. now apply count_member_key_error_only.
Qed.

Lemma count_members_unknown all_samples gid members acc m :
  key_error_only acc -> In m members -> ~ In (fst m) all_samples ->
  fold_left (count_member all_samples (sample_index_of all_samples) gid) members acc =
  Raise KeyError.
Proof.
  revert acc. induction members as [|m0 members IH]; intros acc Hacc Hin Hnot; [destruct Hin|].
  cbn [fold_left]. destruct Hin as [->|Hin].
  - assert (Hr : count_member all_samples (sample_index_of all_samples) gid acc m =
                 Raise KeyError).
    { unfold count_member. destruct acc as [gr|e]; [|cbn in Hacc; now subst].
      destruct (Dict.get (sample_index_of all_samples) (fst m)) as [idx|] eqn:Eg;
        [|reflexivity].
      apply sample_index_bound in Eg. tauto. }
    rewrite Hr. apply count_member_raised.
  - apply IH; [now apply count_member_key_error_only | assumption | assumption].
Qed.

Lemma group_ratios_unknown all_samples entries acc entry m :
  key_error_only acc -> In entry entries -> In m (snd entry) -> ~ In (fst m) all_samples ->
  fold_left
    (fun acc entry =>
       fold_left (count_member all_samples (sample_index_of all_samples) (fst entry))
                 (snd entry) acc)
    entries acc = Raise KeyError.
Proof.
  revert acc. induction entries as [|e0 entries IH]; intros acc Hacc Hin Hm Hnot;
    [destruct Hin|].
  cbn [fold_left]. destruct Hin as [->|Hin].
  - rewrite (count_members_unknown _ _ _ _ m Hacc Hm Hnot).
    clear. induction entries as [|e1 entries IHe]; [reflexivity|].
    cbn [fold_left]. now rewrite count_member_raised.
  - apply IH; try assumption. now apply count_members_key_error_only.
Qed.

(** X26. The counters of lines 535-538 count: when every member belongs to
    a focus sample, [group_ratios] holds, for every non-empty group in order,
    the number of members of the group in each focus sample; a member of any
    other sample makes [sample_index[sample]] raise [KeyError]. *)
Theorem group_ratios_exact
    (all_samples : list string) (grouped_structures : @Dict.t nat (list motif_key)) :
  NoDup all_samples -> NoDup (Dict.keys grouped_structures) ->
  ((forall entry m, In entry grouped_structures -> In m (snd entry) ->
                    In (fst m) all_samples) ->
   group_ratios_of all_samples grouped_structures =
   Return (map (fun e => (fst e, member_counts all_samples (snd e)))
               (filter (fun e => nonempty (snd e)) grouped_structures))) /\
  ((exists entry m, In entry grouped_structures /\ In m (snd entry) /\
                    ~ In (fst m) all_samples) ->
   group_ratios_of all_samples grouped_structures = Raise KeyError).
Proof.
  intros Hall Hnd. split.
  - intros Hknown. unfold group_ratios_of. cbv zeta.
    apply (group_ratios_fold all_samples grouped_structures [] Hall Hnd Hknown).
  - intros [entry [m [Hentry [Hm Hnot]]]]. unfold group_ratios_of. cbv zeta.
    now apply (group_ratios_unknown all_samples _ _ entry m).
Qed.

Lemma group_ratios_exact_witness :
  ((forall entry m, In entry demo_grouped -> In m (snd entry) -> In (fst m) ["s1"]) ->
   group_ratios_of ["s1"] demo_grouped =
   Return (map (fun e => (fst e, member_counts ["s1"] (snd e)))
               (filter (fun e => nonempty (snd e)) demo_grouped))) /\
  ((exists entry m, In entry demo_grouped /\ In m (snd entry) /\ ~ In (fst m) ["s1"]) ->
   group_ratios_of ["s1"] demo_grouped = Raise KeyError).
Proof.
  apply (group_ratios_exact ["s1"] demo_grouped).
  - repeat constructor. intros [].
  - unfold demo_grouped. cbn [Dict.keys map fst].
    repeat constructor; cbn [In]; intros H;
      repeat (destruct H as [H|H]; [discriminate H|]); exact H.
Defined.

(** *** The table of the seeds' own groups *)

Lemma seed_motifs_sample adata fdr_filtered_2nd focus_group k :
  In k (map fst (seed_motifs adata fdr_filtered_2nd focus_group)) ->
  In (fst k) (focus_sample_ids adata focus_group).
Proof.
  rewrite seed_motifs_keys. intros Hin. apply in_flat_map in Hin.
  destruct Hin as [[sample inner] [Hdata Hin]]. apply in_map_iff in Hin.
  destruct Hin as [e [<- _]]. cbn [fst].
  unfold sample_wise_structures in Hdata. apply in_map_iff in Hdata.
  destruct Hdata as [s [Heq Hs]]. now injection Heq as -> _.
Qed.

Lemma list_sum_map_add {A} (f g : A -> nat) (l : list A) :
  list_sum (map (fun x => f x + g x)%nat l) = (list_sum (map f l) + list_sum (map g l))%nat.
Proof.
  induction l as [|x l IH]; [reflexivity|].
  change (f x + g x + list_sum (map (fun x => f x + g x)%nat l) =
          f x + list_sum (map f l) + (g x + list_sum (map g l)))%nat.
  rewrite IH. lia.
Qed.

Lemma list_sum_indicator (x : string) (l : list string) :
  NoDup l -> In x l ->
  list_sum (map (fun s => if key_eq_dec x s then 1 else 0)%nat l) = 1%nat.
Proof.
  induction l as [|y l IH]; intros Hnd Hin; [destruct Hin|].
  inversion Hnd as [|? ? Hnot Hl]; subst.
  change ((if key_eq_dec x y then 1 else 0) +
          list_sum (map (fun s => if key_eq_dec x s then 1 else 0) l) = 1)%nat.
  destruct (key_eq_dec x y) as [->|Hne].
  - assert (Hz : list_sum (map (fun s => if key_eq_dec y s then 1 else 0)%nat l) = 0%nat).
    { clear -Hnot. induction l as [|z l IHl]; [reflexivity|].
      change ((if key_eq_dec y z then 1 else 0) +
              list_sum (map (fun s => if key_eq_dec y s then 1 else 0) l) = 0)%nat.
      destruct (key_eq_dec y z) as [->|_]; [exfalso; apply Hnot; now left|].
      rewrite IHl; [reflexivity|]. intros H. apply Hnot. now right. }
    rewrite Hz. reflexivity.
  - destruct Hin as [->|Hin]; [congruence|]. now rewrite IH.
Qed.

(** Summed over the samples, the counters of a group count its members. *)
Lemma member_counts_sum all_samples members :
  NoDup all_samples -> (forall m, In m members -> In (fst m) all_samples) ->
  list_sum (member_counts all_samples members) = List.length members.
Proof.
  intros Hnd. unfold member_counts.
  induction members as [|m members IH]; intros Hknown.
  - cbn [map count_occ]. clear. induction all_samples; [reflexivity | assumption].
  - cbn [map count_occ List.length].
    rewrite (map_ext _ (fun s => (if key_eq_dec (fst m) s then 1 else 0) +
                                 count_occ key_eq_dec (map fst members) s)%nat)
      by (intros s; now destruct (key_eq_dec (fst m) s)).
    rewrite list_sum_map_add.
    rewrite list_sum_indicator; [|assumption | apply Hknown; now left].
    cbn [Nat.add]. f_equal. apply IH. intros m0 Hm0. apply Hknown. now right.
Qed.

Lemma map_snd_combine {A B} (l : list A) (l' : list B) :
  List.length l = List.length l' -> map snd (combine l l') = l'.
Proof.
  revert l'. induction l as [|x l IH]; intros [|y l'] Hlen; cbn in *; try congruence.
  f_equal. apply IH. congruence.
Qed.

(** When the counters are built and [multipletests] gives one value per
    p-value, the table has one row per array of [group_ratios], with the mean
    of the array as [Count_Mean]. *)
Lemma statistics_table
    (mannwhitneyu_greater : list Q -> list Q -> option Q)
    (mannwhitneyu_nan : list Q -> option Q) (multipletests : list Q -> list Q)
    adata focus_group grouped fc_threshold p_threshold coverage_threshold group_ratios :
  (forall p_values, List.length (multipletests p_values) = List.length p_values) ->
  group_ratios_of (focus_sample_ids adata focus_group) grouped = Return group_ratios ->
  exists df_counts,
    structure_statistics mannwhitneyu_greater mannwhitneyu_nan multipletests adata focus_group
      grouped fc_threshold p_threshold coverage_threshold = Return df_counts /\
    Permutation
      (map (fun ir : nat * count_row => (Group_ID (score (snd ir)), Count_Mean (snd ir)))
           df_counts)
      (map (fun e => (fst e, np_mean (map Q_of_nat (snd e)))) group_ratios).
Proof.
  intros Hmt Hgr. unfold structure_statistics. cbv zeta. rewrite Hgr.
  set (totals := map (fun s => List.length (sample_spots_of adata s))
                     (focus_sample_ids adata focus_group)).
  set (rows := map (base_row_of totals) (Dict.items group_ratios)).
  set (indexed := combine (seq 0 (List.length rows)) rows).
  set (p_values := map (fun ir => p_value_of mannwhitneyu_greater mannwhitneyu_nan
                                    (List.length (focus_sample_ids adata focus_group))
                                    rows (fst ir) (snd ir)) indexed).
  assert (Hidx : List.length indexed = List.length rows).
  { unfold indexed. rewrite length_combine, length_seq. apply Nat.min_id. }
  assert (Hps : List.length p_values = List.length rows).
  { unfold p_values. now rewrite length_map. }
  assert (Hadj : List.length (multipletests p_values) = List.length rows)
    by now rewrite Hmt.
  rewrite Hadj, Nat.eqb_refl. eexists. split; [reflexivity|].
  unfold sort_by_adjusted_p.
  etransitivity; [apply Permutation_map, sorted_perm|].
  rewrite map_map.
  rewrite (map_ext _ (fun x : nat * base_row * Q * Q =>
                        (fun row => (base_gid row, base_count_mean row))
                          (snd (fst (fst x)))))
    by (intros [[[i row] pv] adjusted]; reflexivity).
  rewrite <- (map_map (fun x : nat * base_row * Q * Q => snd (fst (fst x)))
                      (fun row => (base_gid row, base_count_mean row))).
  assert (Hrows : map (fun x : nat * base_row * Q * Q => snd (fst (fst x)))
                      (combine (combine indexed p_values) (multipletests p_values)) = rows).
  { rewrite <- (map_map (fun x : nat * base_row * Q * Q => fst (fst x)) snd).
    rewrite <- (map_map fst fst).
    rewrite map_fst_combine
      by (rewrite length_combine, Hidx, Hps, Hadj; now rewrite Nat.min_id).
    rewrite map_fst_combine by now rewrite Hidx, Hps.
    unfold indexed. apply map_snd_combine. apply length_seq. }
  rewrite Hrows. unfold rows, Dict.items. rewrite map_map. reflexivity.
Qed.

Lemma Qdiv_cancel (a n : Q) : ~ n == 0 -> a / n * n == a.
Proof. intros Hn. field. exact Hn. Qed.

Lemma filter_all {A} (f : A -> bool) (l : list A) :
  (forall x, In x l -> f x = true) -> filter f l = l.
Proof.
  induction l as [|a l IH]; intros H; [reflexivity|].
  cbn [filter]. rewrite (H a) by now left. f_equal. apply IH. intros x Hx. apply H. now right.
Qed.

Lemma group_ratios_counted all_samples (grouped : @Dict.t nat (list motif_key)) :
  NoDup all_samples -> NoDup (Dict.keys grouped) ->
  (forall entry m, In entry grouped -> In m (snd entry) -> In (fst m) all_samples) ->
  (forall entry, In entry grouped -> nonempty (snd entry) = true) ->
  group_ratios_of all_samples grouped =
  Return (map (fun e => (fst e, member_counts all_samples (snd e))) grouped).
Proof.
  intros Hall Hnd Hknown Hne. unfold group_ratios_of. cbv zeta.
  transitivity (Return (counted all_samples ([] ++ grouped))).
  - exact (group_ratios_fold all_samples grouped [] Hall Hnd Hknown).
  - cbn [app]. unfold counted. now rewrite filter_all.
Qed.

(** X27. On the groups that the function itself built from the seeds, the
    statistics raise no [KeyError]: when [multipletests] returns one value per
    p-value the table is built, it has exactly one row per group, and the
    [Count_Mean] of a row times the number of focus samples is the number of
    motifs of its group. *)
Theorem extract_statistics_defined
    (mannwhitneyu_greater : list Q -> list Q -> option Q)
    (mannwhitneyu_nan : list Q -> option Q) (multipletests : list Q -> list Q)
    (adata : AnnData) (fdr_filtered_2nd : list pair_row) (focus_group : string)
    (fc_threshold p_threshold coverage_threshold : Q) :
  (forall p_values, List.length (multipletests p_values) = List.length p_values) ->
  let grouped_structures := extract_grouped_structures adata fdr_filtered_2nd focus_group in
  let n_samples := List.length (focus_sample_ids adata focus_group) in
  exists df_counts,
    structure_statistics mannwhitneyu_greater mannwhitneyu_nan multipletests adata focus_group
      grouped_structures fc_threshold p_threshold coverage_threshold = Return df_counts /\
    Permutation (map (fun ir : nat * count_row => Group_ID (score (snd ir))) df_counts)
                (Dict.keys grouped_structures) /\
    Forall (fun ir : nat * count_row =>
              exists members,
                Dict.get grouped_structures (Group_ID (score (snd ir))) = Some members /\
                Count_Mean (snd ir) * Q_of_nat n_samples == Q_of_nat (List.length members))
           df_counts.
Proof.
  intros Hmt grouped_structures n_samples.
  set (all_samples := focus_sample_ids adata focus_group).
  set (motifs := seed_motifs adata fdr_filtered_2nd focus_group).
  assert (Hkeys : NoDup (map fst motifs)) by apply seed_motifs_NoDup.
  assert (Hall : NoDup all_samples) by apply unique_NoDup.
  assert (Hnum : grouped_structures =
                 numbered 0
                   (map (class_of same_signature (getd empty_signature (signatures_of motifs))
                                  (map fst motifs))
                        (reps same_signature (getd empty_signature (signatures_of motifs))
                              (map fst motifs))))
    by (apply grouped_structures_numbered; assumption).
  assert (Hgk : NoDup (Dict.keys grouped_structures)).
  { rewrite Hnum, numbered_keys. apply seq_NoDup. }
  assert (Hne : forall entry, In entry grouped_structures -> nonempty (snd entry) = true).
  { intros entry Hentry.
    assert (Hv : In (snd entry) (map snd grouped_structures)) by now apply in_map.
    rewrite Hnum, numbered_values in Hv.
    pose proof (classes_nonempty same_signature _ (motif_equiv_refl motifs)
                  (motif_equiv_sym motifs) (motif_equiv_trans motifs) (map fst motifs)) as Hc.
    rewrite Forall_forall in Hc. specialize (Hc _ Hv). now destruct (snd entry). }
  assert (Hknown : forall entry m, In entry grouped_structures -> In m (snd entry) ->
                                   In (fst m) all_samples).
  { intros entry m Hentry Hm.
    assert (Hv : In (snd entry) (map snd grouped_structures)) by now apply in_map.
    rewrite Hnum, numbered_values in Hv. apply in_map_iff in Hv.
    destruct Hv as [r [Heq _]]. rewrite <- Heq in Hm. apply filter_In in Hm.
    apply (seed_motifs_sample adata fdr_filtered_2nd focus_group). tauto. }
  pose proof (group_ratios_counted all_samples grouped_structures Hall Hgk Hknown Hne) as Hgr.
  destruct (statistics_table mannwhitneyu_greater mannwhitneyu_nan multipletests adata
              focus_group grouped_structures fc_threshold p_threshold coverage_threshold
              _ Hmt Hgr) as [df_counts [Hdf Hperm]].
  exists df_counts. split; [exact Hdf|]. rewrite map_map in Hperm. cbn [fst snd] in Hperm.
  split.
  - apply (Permutation_map fst) in Hperm. rewrite !map_map in Hperm. exact Hperm.
  - apply Forall_forall. intros ir Hir.
    assert (Hin : In (Group_ID (score (snd ir)), Count_Mean (snd ir))
                     (map (fun x : nat * list motif_key =>
                             (fst x, np_mean (map Q_of_nat (member_counts all_samples (snd x)))))
                          grouped_structures)).
    { eapply Permutation_in; [exact Hperm|].
      apply in_map_iff. now exists ir. }
    apply in_map_iff in Hin. destruct Hin as [[gid members] [Heq Hentry]].
    cbn [fst snd] in Heq. injection Heq as Hg Hc. exists members. split.
    + rewrite <- Hg. now apply Dict.In_get.
    + rewrite <- Hc. unfold np_mean. rewrite length_map. unfold member_counts at 2.
      rewrite length_map. fold n_samples. rewrite Qsum_Q_of_nat.
      rewrite (member_counts_sum all_samples members Hall
                 (fun m Hm => Hknown (gid, members) m Hentry Hm)).
      assert (Hpos : (0 < n_samples)%nat).
      { specialize (Hne _ Hentry). cbn [snd] in Hne. destruct members as [|m ms];
          [discriminate|].
        assert (Hm : In (fst m) all_samples)
          by (apply (Hknown (gid, m :: ms)); [assumption | now left]).
        unfold n_samples. fold all_samples. destruct all_samples; [destruct Hm | cbn; lia]. }
      apply Q_of_nat_pos in Hpos. apply Qdiv_cancel.
      intros Hz. rewrite Hz in Hpos. discriminate.
Qed.

Lemma extract_statistics_defined_witness :
  exists df_counts,
    structure_statistics (fun _ _ => Some (1 # 100)) (fun _ => None) (fun ps => ps)
      demo_grid "G1" (extract_grouped_structures demo_grid demo_pairs "G1")
      4 (1 # 20) (3 # 5) = Return df_counts /\
    Permutation (map (fun ir : nat * count_row => Group_ID (score (snd ir))) df_counts)
                (Dict.keys (extract_grouped_structures demo_grid demo_pairs "G1")) /\
    Forall (fun ir : nat * count_row =>
              exists members,
                Dict.get (extract_grouped_structures demo_grid demo_pairs "G1")
                         (Group_ID (score (snd ir))) = Some members /\
                Count_Mean (snd ir) * Q_of_nat (List.length (focus_sample_ids demo_grid "G1")) ==
                Q_of_nat (List.length members))
           df_counts.
Proof.
  apply (extract_statistics_defined (fun _ _ => Some (1 # 100)) (fun _ => None)
           (fun ps => ps) demo_grid demo_pairs "G1" 4 (1 # 20) (3 # 5)).
  reflexivity.
Defined.

Lemma Qle_bool_total a b : Qle_bool a b = true \/ Qle_bool b a = true.
Proof.
  rewrite !Qle_bool_iff. destruct (Qlt_le_dec a b) as [Hlt|Hle]; [left | right; assumption].
  now apply Qlt_le_weak.
Qed.

Lemma nth_error_combine {A B} (l : list A) (l' : list B) k x y :
  nth_error (combine l l') k = Some (x, y) ->
  nth_error l k = Some x /\ nth_error l' k = Some y.
Proof.
  revert l' k. induction l as [|a l IH]; intros [|b l'] [|k]; cbn; try discriminate.
  - intros [= -> ->]. split; reflexivity.
  - apply IH.
Qed.

Lemma nth_error_seq_inv a n k i : nth_error (seq a n) k = Some i -> i = (a + k)%nat.
Proof.
  revert a k. induction n as [|n IH]; intros a [|k]; cbn; try discriminate.
  - intros [= <-]. lia.
  - intros H. apply IH in H. lia.
Qed.

(** X29. The table comes back sorted by [Adjusted_P], smallest first, and
    its index labels are the positions [0, 1, ...] that the rows had before
    the sort: the row labelled [i] is the row of the [i]-th group of
    [group_ratios], its p-value is the [i]-th p-value and its adjusted
    p-value the [i]-th value that [multipletests] returned; every position
    labels exactly one row. A row is flagged [Significant] exactly when its
    adjusted p-value is below [p_threshold], its fold change above
    [fc_threshold] and its coverage at least [coverage_threshold]. *)
Theorem statistics_sorted
    (mannwhitneyu_greater : list Q -> list Q -> option Q)
    (mannwhitneyu_nan : list Q -> option Q) (multipletests : list Q -> list Q)
    (adata : AnnData) (focus_group : string)
    (grouped_structures : @Dict.t nat (list motif_key))
    (fc_threshold p_threshold coverage_threshold : Q) (df_counts : list (nat * count_row)) :
  structure_statistics mannwhitneyu_greater mannwhitneyu_nan multipletests adata focus_group
    grouped_structures fc_threshold p_threshold coverage_threshold = Return df_counts ->
  exists group_ratios p_values,
    group_ratios_of (focus_sample_ids adata focus_group) grouped_structures =
      Return group_ratios /\
    List.length p_values = List.length group_ratios /\
    StronglySorted (fun a b : nat * count_row => Adjusted_P (snd a) <= Adjusted_P (snd b))
                   df_counts /\
    Permutation (map fst df_counts) (seq 0 (List.length group_ratios)) /\
    Forall (fun ir : nat * count_row =>
              nth_error (Dict.keys group_ratios) (fst ir) = Some (Group_ID (score (snd ir))) /\
              nth_error p_values (fst ir) = Some (P_Value (score (snd ir))) /\
              nth_error (multipletests p_values) (fst ir) = Some (Adjusted_P (snd ir)) /\
              (Significant (snd ir) = true <->
               Adjusted_P (snd ir) < p_threshold /\
               fc_threshold < Fold_Change (score (snd ir)) /\
               coverage_threshold <= Coverage (score (snd ir))))
           df_counts.
Proof.
  unfold structure_statistics. cbv zeta.
  destruct (group_ratios_of _ _) as [group_ratios|e]; [|discriminate].
  set (totals := map (fun s => List.length (sample_spots_of adata s))
                     (focus_sample_ids adata focus_group)).
  set (rows := map (base_row_of totals) (Dict.items group_ratios)).
  set (indexed := combine (seq 0 (List.length rows)) rows).
  set (p_values := map (fun ir => p_value_of mannwhitneyu_greater mannwhitneyu_nan
                                    (List.length (focus_sample_ids adata focus_group))
                                    rows (fst ir) (snd ir)) indexed).
  destruct (_ =? _)%nat eqn:Elen; [|discriminate].
  apply Nat.eqb_eq in Elen. intros [= <-].
  match goal with
  | |- context [sort_by_adjusted_p ?t] => set (table := t)
  end.
  assert (Hrows : List.length rows = List.length group_ratios).
  { unfold rows, Dict.items. apply length_map. }
  assert (Hidx : List.length indexed = List.length rows).
  { unfold indexed. rewrite length_combine, length_seq. apply Nat.min_id. }
  assert (Hps : List.length p_values = List.length rows).
  { unfold p_values. now rewrite length_map. }
  assert (Hlabels : map fst table = seq 0 (List.length rows)).
  { unfold table. rewrite map_map.
    rewrite (map_ext _ (fun x : nat * base_row * Q * Q => fst (fst (fst x))))
      by (intros [[[i row] pv] adjusted]; reflexivity).
    rewrite <- (map_map (fun x : nat * base_row * Q * Q => fst (fst x)) fst).
    rewrite <- (map_map fst fst).
    rewrite map_fst_combine
      by (rewrite length_combine, Hps, Hidx, Elen; now rewrite Nat.min_id).
    rewrite map_fst_combine by now rewrite Hps.
    unfold indexed. apply map_fst_combine. now rewrite length_seq. }
  exists group_ratios, p_values.
  split; [reflexivity|]. split; [congruence|]. split; [|split].
  - unfold sort_by_adjusted_p.
    apply (StronglySorted_impl
             (fun a b : nat * count_row =>
                Qle_bool (Adjusted_P (snd a)) (Adjusted_P (snd b)) = true)).
    + intros a b. apply Qle_bool_iff.
    + apply sorted_StronglySorted.
      * intros x y. apply Qle_bool_total.
      * intros x y z. rewrite !Qle_bool_iff. apply Qle_trans.
  - unfold sort_by_adjusted_p.
    etransitivity; [apply Permutation_map, sorted_perm|].
    rewrite Hlabels, Hrows. reflexivity.
  - apply Forall_forall. intros ir Hir. unfold sort_by_adjusted_p in Hir.
    apply sorted_In in Hir. unfold table in Hir. apply in_map_iff in Hir.
    destruct Hir as [[[[i row] pv] adjusted] [<- Hin]].
    apply In_nth_error in Hin. destruct Hin as [k Hk].
    apply nth_error_combine in Hk. destruct Hk as [Hk Hadj].
    apply nth_error_combine in Hk. destruct Hk as [Hk Hpv].
    unfold indexed in Hk. apply nth_error_combine in Hk. destruct Hk as [Hi Hrow].
    apply nth_error_seq_inv in Hi. cbn [Nat.add] in Hi. subst k.
    cbn [count_row_of fst snd Significant Adjusted_P score Fold_Change Coverage Group_ID
         P_Value].
    split; [|split; [|split]].
    + unfold rows, Dict.items in Hrow. unfold Dict.keys.
      rewrite nth_error_map in Hrow. rewrite nth_error_map.
      destruct (nth_error group_ratios i) as [entry|]; [|discriminate].
      cbn [option_map] in *. injection Hrow as <-. reflexivity.
    + exact Hpv.
    + exact Hadj.
    + rewrite !andb_true_iff, !Qltb_lt, Qle_bool_iff. tauto.
Qed.

(** ** [filter_unique_significant_structures] *)

(** [sample_wise_structures] as the caller holds it: per sample, a
    dictionary whose key ["3rd"] leads to the motifs by name. *)
Definition nested_structures := @Dict.t string (@Dict.t string (@Dict.t string motif)).

(** The value that [extract_and_group_3rd_structures_from_2nd_with_ratio]
    returns (line 500: [{"3rd": structures_3rd}]). *)
Definition returned_structures (adata : AnnData) (fdr_filtered_2nd : list pair_row)
    (focus_group : string) : nested_structures :=
  map (fun data => (fst data, [("3rd", snd data)]))
      (sample_wise_structures adata fdr_filtered_2nd focus_group).

(** [sample_wise_structures.get(sample, {}).get("3rd", {}).get(structure_id, None)] *)
Definition find_structure (sws : nested_structures) (sample structure_id : string)
  : option motif :=
  Dict.get (getd Dict.empty (getd Dict.empty sws sample) "3rd") structure_id.

(** [tuple(sorted(Counter(labels).items()))] *)
Definition label_signature := list (label * nat).

(** The order of Python on tuples [(label, count)]. *)
Definition item_leb (a b : label * nat) : bool :=
  match String.compare (fst a) (fst b) with
  | Lt => true
  | Eq => (snd a <=? snd b)%nat
  | Gt => false
  end.

(** [get_structure_label_signature] (lines 644-653). *)
Definition get_structure_label_signature (grouped_structures : @Dict.t nat (list motif_key))
    (sws : nested_structures) (group_id : nat) : option label_signature :=
  match getd [] grouped_structures group_id with
  | [] => None
  | (sample, structure_id) :: _ =>
      match find_structure sws sample structure_id with
      | None => None
      | Some [] => None
      | Some structure =>
          Some (sorted item_leb (Dict.items (value_counts (map snd structure))))
      end
  end.

#[export] Instance Hashable_label_signature : Hashable label_signature := Hashable_list.

(** Body of the loop of lines 658-667. [df_counts.loc[label, "P_Value"]]
    raises [KeyError] for a label that the frame does not have. *)
Definition best_step (df_counts : list (nat * count_row))
    (grouped_structures : @Dict.t nat (list motif_key)) (sws : nested_structures)
    (acc : result (@Dict.t label_signature nat)) (ir : nat * count_row)
  : result (@Dict.t label_signature nat) :=
  match acc with
  | Raise e => Raise e
  | Return signature_to_best_idx =>
      match get_structure_label_signature grouped_structures sws
              (Group_ID (score (snd ir))) with
      | None => Return signature_to_best_idx
      | Some signature =>
          match Dict.get signature_to_best_idx signature with
          | None => Return (Dict.set signature_to_best_idx signature (fst ir))
          | Some best_idx =>
              match Dict.get df_counts best_idx with
              | None => Raise KeyError
              | Some best_row =>
                  if Qltb (P_Value (score (snd ir))) (P_Value (score best_row))
                  then Return (Dict.set signature_to_best_idx signature (fst ir))
                  else Return signature_to_best_idx
              end
          end
      end
  end.

(** [df_counts.loc[unique_indices]] *)
Fixpoint loc_rows (df_counts : list (nat * count_row)) (labels : list nat)
  : result (list (nat * count_row)) :=
  match labels with
  | [] => Return []
  | label :: labels' =>
      match Dict.get df_counts label, loc_rows df_counts labels' with
      | Some row, Return rows => Return ((label, row) :: rows)
      | None, _ => Raise KeyError
      | _, Raise e => Raise e
      end
  end.

(** [.reset_index(drop=True)] *)
Definition reset_index {A} (df : list (nat * A)) : list (nat * A) :=
  combine (seq 0 (List.length df)) (map snd df).

(** [filter_unique_significant_structures] (lines 601-677). *)
Definition filter_unique_significant_structures (df_counts : list (nat * count_row))
    (grouped_structures : @Dict.t nat (list motif_key)) (sws : nested_structures)
    (adjusted_p_threshold : Q) : result (list (nat * count_row)) :=
  match fold_left (best_step df_counts grouped_structures sws) df_counts (Return Dict.empty) with
  | Raise e => Raise e
  | Return signature_to_best_idx =>
      let unique_indices := map snd (Dict.items signature_to_best_idx) in
      match loc_rows df_counts unique_indices with
      | Raise e => Raise e
      | Return df_unique =>
          Return
            (filter (fun ir => Qle_bool (Adjusted_P (snd ir)) adjusted_p_threshold)
                    (reset_index (sort_by_adjusted_p df_unique)))
      end
  end.

(** *** The best row of every signature *)

Section UniqueFilter.

Variable df_counts : list (nat * count_row).
Variable grouped_structures : @Dict.t nat (list motif_key).
Variable sws : nested_structures.

Hypothesis labels_unique : NoDup (map fst df_counts).

(** The label signature of the group of a row. *)
Definition signature_of_row (r : count_row) : option label_signature :=
  get_structure_label_signature grouped_structures sws (Group_ID (score r)).

(** What holds of [signature_to_best_idx] after the rows [done]: every
    entry names a row of its signature with the least [P_Value] among the
    rows of that signature, and every signature met has an entry. *)
Definition best_inv (done : list (nat * count_row)) (best : @Dict.t label_signature nat)
  : Prop :=
  NoDup (Dict.keys best) /\
  (forall sg idx, In (sg, idx) best ->
     exists row,
       In (idx, row) done /\ signature_of_row row = Some sg /\
       forall ir, In ir done -> signature_of_row (snd ir) = Some sg ->
                  P_Value (score row) <= P_Value (score (snd ir))) /\
  (forall ir sg, In ir done -> signature_of_row (snd ir) = Some sg ->
                 In sg (Dict.keys best)).

Lemma set_entry {K V} `{Hashable K} (d : @Dict.t K V) (k : K) (v : V) (kv : K * V) :
  NoDup (Dict.keys d) -> In kv (Dict.set d k v) ->
  kv = (k, v) \/ (In kv d /\ fst kv <> k).
Proof.
  intros Hnd Hin. destruct (key_eq_dec (fst kv) k) as [Heq|Hne].
  - left. destruct kv as [k' v']. cbn [fst] in Heq. subst k'.
    pose proof (Dict.keys_set_NoDup d k v Hnd) as Hnd'.
    pose proof (Dict.In_get _ _ _ Hnd' Hin) as Hg.
    rewrite Dict.get_set_same in Hg. congruence.
  - right. apply dict_set_In in Hin. destruct Hin as [->|Hin]; [now cbn in Hne|].
    now split.
Qed.

Lemma best_step_inv done ir best :
  incl (done ++ [ir]) df_counts -> best_inv done best ->
  exists best',
    best_step df_counts grouped_structures sws (Return best) ir = Return best' /\
    best_inv (done ++ [ir]) best'.
Proof.
  intros Hincl [Hnd [Hbest Hcover]]. unfold best_step.
  fold (signature_of_row (snd ir)).
  destruct (signature_of_row (snd ir)) as [sg|] eqn:Esig.
  2:{ exists best. split; [reflexivity|]. split; [assumption|]. split.
      - intros sg idx Hin. destruct (Hbest sg idx Hin) as [row [Hrow [Hs Hmin]]].
        exists row. split; [apply in_or_app; now left|]. split; [assumption|].
        intros ir' Hir' Hs'. apply in_app_or in Hir'. destruct Hir' as [Hir'|[<-|[]]].
        + now apply Hmin.
        + congruence.
      - intros ir' sg Hir' Hs'. apply in_app_or in Hir'. destruct Hir' as [Hir'|[<-|[]]].
        + now apply (Hcover ir').
        + congruence. }
  assert (Hnew : forall best',
            best' = Dict.set best sg (fst ir) ->
            (forall ir', In ir' done -> signature_of_row (snd ir') = Some sg ->
                         P_Value (score (snd ir)) <= P_Value (score (snd ir'))) ->
            best_inv (done ++ [ir]) best').
  { intros best' -> Hmin. split; [now apply Dict.keys_set_NoDup|]. split.
    - intros sg' idx Hin. apply set_entry in Hin; [|assumption].
      destruct Hin as [Heq|[Hin Hne]].
      + injection Heq as -> ->. exists (snd ir).
        split; [apply in_or_app; right; left; now destruct ir|].
        split; [assumption|]. intros ir' Hir' Hs'. apply in_app_or in Hir'.
        destruct Hir' as [Hir'|[<-|[]]]; [now apply Hmin | apply Qle_refl].
      + cbn [fst] in Hne. destruct (Hbest sg' idx Hin) as [row [Hrow [Hs Hm]]].
        exists row. split; [apply in_or_app; now left|]. split; [assumption|].
        intros ir' Hir' Hs'. apply in_app_or in Hir'.
        destruct Hir' as [Hir'|[<-|[]]]; [now apply Hm | congruence].
    - intros ir' sg' Hir' Hs'. apply Dict.keys_set_In. apply in_app_or in Hir'.
      destruct Hir' as [Hir'|[<-|[]]].
      + right. now apply (Hcover ir').
      + left. congruence. }
  destruct (Dict.get best sg) as [best_idx|] eqn:Eget.
  - apply Dict.get_In in Eget. destruct (Hbest sg best_idx Eget) as [row [Hrow [Hs Hmin]]].
    assert (Hloc : Dict.get df_counts best_idx = Some row).
    { apply Dict.In_get; [exact labels_unique|]. apply Hincl, in_or_app. now left. }
    rewrite Hloc. destruct (Qltb (P_Value (score (snd ir))) (P_Value (score row))) eqn:Elt.
    + eexists. split; [reflexivity|]. apply Hnew; [reflexivity|].
      intros ir' Hir' Hs'. apply Qltb_lt in Elt. apply Qlt_le_weak.
      eapply Qlt_le_trans; [exact Elt | now apply Hmin].
    + exists best. split; [reflexivity|]. split; [assumption|]. split.
      * intros sg' idx Hin. destruct (Hbest sg' idx Hin) as [row' [Hrow' [Hs' Hm']]].
        exists row'. split; [apply in_or_app; now left|]. split; [assumption|].
        intros ir' Hir' Hsi. apply in_app_or in Hir'.
        destruct Hir' as [Hir'|[<-|[]]]; [now apply Hm'|].
        assert (sg' = sg) as -> by congruence.
        assert (idx = best_idx) as ->.
        { pose proof (Dict.In_get _ _ _ Hnd Hin) as H1.
          pose proof (Dict.In_get _ _ _ Hnd Eget) as H2. congruence. }
        assert (row' = row) as ->.
        { assert (H1 : Dict.get df_counts best_idx = Some row').
          { apply Dict.In_get; [exact labels_unique|]. apply Hincl, in_or_app. now left. }
          congruence. }
        apply Qnot_lt_le. intros Hlt. apply Qltb_lt in Hlt. congruence.
      * intros ir' sg' Hir' Hs'. apply in_app_or in Hir'.
        destruct Hir' as [Hir'|[<-|[]]]; [now apply (Hcover ir')|].
        assert (sg' = sg) as -> by congruence.
        apply in_map_iff. now exists (sg, best_idx).
  - eexists. split; [reflexivity|]. apply Hnew; [reflexivity|].
    intros ir' Hir' Hs'. exfalso.
    apply (Hcover ir' sg Hir') in Hs'. apply Dict.get_In_keys in Hs'. congruence.
Qed.

Lemma best_fold_inv todo done best :
  incl (done ++ todo) df_counts -> best_inv done best ->
  exists best',
    fold_left (best_step df_counts grouped_structures sws) todo (Return best) = Return best' /\
    best_inv (done ++ todo) best'.
Proof.
  revert done best. induction todo as [|ir todo IH]; intros done best Hincl Hinv.
  - exists best. split; [reflexivity|]. now rewrite app_nil_r.
  - cbn [fold_left].
    replace (done ++ ir :: todo) with ((done ++ [ir]) ++ todo) in *
      by (rewrite <- app_assoc; reflexivity).
    destruct (best_step_inv done ir best) as [best1 [-> Hinv1]]; [|assumption|].
    + intros x Hx. apply Hincl, in_or_app. now left.
    + now apply IH.
Qed.

Lemma loc_rows_ok labels :
  (forall label, In label labels -> exists row, In (label, row) df_counts) ->
  exists rows,
    loc_rows df_counts labels = Return rows /\
    map fst rows = labels /\ incl rows df_counts.
Proof.
  induction labels as [|label labels IH]; intros Hall.
  - exists []. repeat split. intros x [].
  - destruct (Hall label (or_introl eq_refl)) as [row Hrow].
    destruct IH as [rows [Hrows [Hfst Hincl]]]; [intros l Hl; apply Hall; now right|].
    exists ((label, row) :: rows). cbn [loc_rows].
    rewrite (Dict.In_get _ _ _ labels_unique Hrow), Hrows.
    split; [reflexivity|]. split; [cbn; now rewrite Hfst|].
    intros x [<-|Hx]; [assumption | now apply Hincl].
Qed.

End UniqueFilter.

Lemma NoDup_map_filter {A B} (g : A -> B) (f : A -> bool) (l : list A) :
  NoDup (map g l) -> NoDup (map g (filter f l)).
Proof.
  induction l as [|a l IH]; intros Hnd; [constructor|].
  cbn [map] in Hnd. inversion Hnd as [|? ? Hnot Hl]; subst. cbn [filter].
  destruct (f a); [|now apply IH]. cbn [map]. constructor; [|now apply IH].
  intros Hin. apply Hnot. apply in_map_iff in Hin. destruct Hin as [x [Heq Hx]].
  apply filter_In in Hx. apply in_map_iff. exists x. tauto.
Qed.

Lemma best_rows_signatures df_counts grouped_structures sws
    (best : @Dict.t label_signature nat) (rows : list (nat * count_row)) :
  NoDup (map fst df_counts) ->
  map fst rows = map snd best -> incl rows df_counts ->
  (forall sg idx, In (sg, idx) best ->
     exists row, In (idx, row) df_counts /\
                 signature_of_row grouped_structures sws row = Some sg) ->
  map (fun ir => signature_of_row grouped_structures sws (snd ir)) rows =
  map (fun e => Some (fst e)) best.
Proof.
  intros Hnd. revert rows. induction best as [|[sg idx] best IH]; intros rows Hfst Hincl Hbest.
  - destruct rows; [reflexivity | discriminate].
  - destruct rows as [|[idx' row] rows]; [discriminate|].
    cbn [map fst snd] in Hfst. injection Hfst as -> Hfst. cbn [map fst snd]. f_equal.
    + destruct (Hbest sg idx (or_introl eq_refl)) as [row' [Hrow' Hs]].
      assert (Hin : In (idx, row) df_counts) by (apply Hincl; now left).
      pose proof (Dict.In_get _ _ _ Hnd Hin) as H1.
      pose proof (Dict.In_get _ _ _ Hnd Hrow') as H2. congruence.
    + apply IH; [assumption | |].
      * intros x Hx. apply Hincl. now right.
      * intros sg' idx0 Hin. apply Hbest. now right.
Qed.

Lemma reset_index_rows {A} (df : list (nat * A)) : map snd (reset_index df) = map snd df.
Proof. unfold reset_index. apply map_snd_combine. now rewrite length_seq, length_map. Qed.

(** X30. [filter_unique_significant_structures] on a table with distinct
    index labels raises nothing and keeps at most one row per label
    signature: the rows it returns have pairwise different signatures; each is
    a row of the table whose group has a signature, whose [Adjusted_P] is at
    most the threshold, and whose [P_Value] is the least among the rows of
    the table with the same signature. *)
Theorem unique_filter_sound
    (df_counts : list (nat * count_row)) (grouped_structures : @Dict.t nat (list motif_key))
    (sws : nested_structures) (adjusted_p_threshold : Q) :
  NoDup (map fst df_counts) ->
  exists df_unique_filtered,
    filter_unique_significant_structures df_counts grouped_structures sws
      adjusted_p_threshold = Return df_unique_filtered /\
    NoDup (map (fun ir => signature_of_row grouped_structures sws (snd ir))
               df_unique_filtered) /\
    Forall (fun ir : nat * count_row =>
              Adjusted_P (snd ir) <= adjusted_p_threshold /\
              In (snd ir) (map snd df_counts) /\
              exists sg,
                signature_of_row grouped_structures sws (snd ir) = Some sg /\
                forall r, In r (map snd df_counts) ->
                          signature_of_row grouped_structures sws r = Some sg ->
                          P_Value (score (snd ir)) <= P_Value (score r))
           df_unique_filtered.
Proof.
  intros Hnd. unfold filter_unique_significant_structures.
  destruct (best_fold_inv df_counts grouped_structures sws Hnd df_counts [] Dict.empty)
    as [best [Hfold [Hkeys [Hbest Hcover]]]].
  { cbn [app]. apply incl_refl. }
  { split; [constructor|]. split; [intros sg idx [] | intros ir sg []]. }
  cbn [app] in Hfold, Hbest. rewrite Hfold. cbv zeta. unfold Dict.items.
  destruct (loc_rows_ok df_counts Hnd (map snd best)) as [rows [Hrows [Hfst Hincl]]].
  { intros label Hl. apply in_map_iff in Hl. destruct Hl as [[sg idx] [<- Hin]].
    destruct (Hbest sg idx Hin) as [row [Hrow _]]. now exists row. }
  rewrite Hrows. eexists. split; [reflexivity|].
  assert (Hsigs : map (fun ir => signature_of_row grouped_structures sws (snd ir)) rows =
                  map (fun e => Some (fst e)) best).
  { apply (best_rows_signatures df_counts); try assumption.
    intros sg idx Hin. destruct (Hbest sg idx Hin) as [row [Hrow [Hs _]]]. now exists row. }
  split.
  - rewrite <- (map_map snd (signature_of_row grouped_structures sws)).
    assert (Hcomm : forall l : list (nat * count_row),
               map snd (filter (fun ir => Qle_bool (Adjusted_P (snd ir)) adjusted_p_threshold) l) =
               filter (fun r => Qle_bool (Adjusted_P r) adjusted_p_threshold) (map snd l)).
    { induction l as [|x l IHl]; [reflexivity|]. cbn [filter map].
      destruct (Qle_bool _ _); cbn [map]; now rewrite IHl. }
    rewrite Hcomm, reset_index_rows. apply NoDup_map_filter.
    rewrite map_map. unfold sort_by_adjusted_p.
    eapply Permutation_NoDup;
      [symmetry; apply Permutation_map, sorted_perm|].
    rewrite Hsigs. rewrite <- (map_map fst Some).
    apply NoDup_map_NoDup_ForallPairs; [|exact Hkeys]. intros a b _ _ Hab. congruence.
  - apply Forall_forall. intros ir Hir. apply filter_In in Hir. destruct Hir as [Hir Hle].
    apply Qle_bool_iff in Hle. split; [assumption|].
    assert (Hrow : In (snd ir) (map snd (sort_by_adjusted_p rows))).
    { rewrite <- reset_index_rows. now apply in_map. }
    apply in_map_iff in Hrow. destruct Hrow as [[idx row] [Heq Hin]].
    cbn [snd] in Heq. subst row. unfold sort_by_adjusted_p in Hin. apply sorted_In in Hin.
    assert (Hdf : In (idx, snd ir) df_counts) by now apply Hincl.
    split; [apply in_map_iff; now exists (idx, snd ir)|].
    assert (Hidx : In idx (map snd best)).
    { rewrite <- Hfst. apply in_map_iff. now exists (idx, snd ir). }
    apply in_map_iff in Hidx. destruct Hidx as [[sg idx'] [Heq Hb]]. cbn [snd] in Heq.
    subst idx'. destruct (Hbest sg idx Hb) as [row [Hrow [Hs Hmin]]].
    assert (row = snd ir) as ->.
    { pose proof (Dict.In_get _ _ _ Hnd Hrow) as H1.
      pose proof (Dict.In_get _ _ _ Hnd Hdf) as H2. congruence. }
    exists sg. split; [assumption|]. intros r Hr Hsr.
    apply in_map_iff in Hr. destruct Hr as [ir' [<- Hir']]. now apply Hmin.
Qed.

Lemma unique_filter_sound_witness :
  exists df_unique_filtered,
    filter_unique_significant_structures
      [ (0%nat, mkCountRow (mkScoreRow 0 5 1 (1 # 100)) 1 1 1 [1] 1 (1 # 50) true);
        (1%nat, mkCountRow (mkScoreRow 1 5 1 (1 # 200)) 1 1 1 [1] 1 (1 # 100) true) ]
      demo_grouped (returned_structures demo_grid demo_pairs "G1") (1 # 20) =
      Return df_unique_filtered /\
    NoDup (map (fun ir => signature_of_row demo_grouped
                            (returned_structures demo_grid demo_pairs "G1") (snd ir))
               df_unique_filtered) /\
    Forall (fun ir : nat * count_row =>
              Adjusted_P (snd ir) <= 1 # 20 /\
              In (snd ir)
                 (map snd
                    [ (0%nat, mkCountRow (mkScoreRow 0 5 1 (1 # 100)) 1 1 1 [1] 1 (1 # 50) true);
                      (1%nat, mkCountRow (mkScoreRow 1 5 1 (1 # 200)) 1 1 1 [1] 1 (1 # 100) true) ]) /\
              exists sg,
                signature_of_row demo_grouped
                  (returned_structures demo_grid demo_pairs "G1") (snd ir) = Some sg /\
                forall r,
                  In r
                    (map snd
                       [ (0%nat, mkCountRow (mkScoreRow 0 5 1 (1 # 100)) 1 1 1 [1] 1 (1 # 50) true);
                         (1%nat, mkCountRow (mkScoreRow 1 5 1 (1 # 200)) 1 1 1 [1] 1 (1 # 100) true) ]) ->
                  signature_of_row demo_grouped
                    (returned_structures demo_grid demo_pairs "G1") r = Some sg ->
                  P_Value (score (snd ir)) <= P_Value (score r))
           df_unique_filtered.
Proof.
  apply unique_filter_sound. cbn [map fst].
  constructor; [intros [H|[]]; discriminate H | constructor; [intros [] | constructor]].
Defined.

(** Two groups of motifs with the labels A, B, A keep one row, the one with
    the lower p-value, re-labelled 0. *)
Example unique_filter_demo :
  match
    filter_unique_significant_structures
      [ (0%nat, mkCountRow (mkScoreRow 0 5 1 (1 # 100)) 1 1 1 [1] 1 (1 # 50) true);
        (1%nat, mkCountRow (mkScoreRow 1 5 1 (1 # 200)) 1 1 1 [1] 1 (1 # 100) true) ]
      [ (0%nat, [ ("s1", "structure_0") ]); (1%nat, [ ("s1", "structure_2") ]) ]
      (returned_structures demo_grid demo_pairs "G1") (1 # 20)
  with
  | Return df => map (fun ir => (fst ir, Group_ID (score (snd ir)))) df
  | Raise _ => []
  end = [ (0%nat, 1%nat) ].
Proof. vm_compute. reflexivity. Qed.

(** ** [run_iterative_analysis_over_df] *)

(** Lines 1063-1072: the motifs of the members that can be found. *)
Definition structure_details_of (sws : nested_structures) (members : list motif_key)
  : motif_dict :=
  fold_left
    (fun structure_details member =>
       match Dict.get sws (fst member) with
       | Some data =>
           match Dict.get (getd Dict.empty data "3rd") (snd member) with
           | Some nodes => Dict.set structure_details member nodes
           | None => structure_details
           end
       | None => structure_details
       end)
    members Dict.empty.

Section IterativeOverDf.

Variable analyze_structure_groups :
  @Dict.t nat (list motif_key) -> AnnData -> Q -> Q -> Q -> list score_row.
Variable adata : AnnData.
Variables fc_threshold p_threshold coverage_threshold : Q.

(** Body of the loop over the rows (lines 1059-1088). An exception of
    [iterative_structure_analysis] is caught and the row gives no entry;
    [None] means that the bound [fuel] was reached. *)
Definition analyse_row (fuel : nat) (grouped_structures : @Dict.t nat (list motif_key))
    (sws : nested_structures) (acc : option (@Dict.t nat motif_dict)) (ir : nat * count_row)
  : option (@Dict.t nat motif_dict) :=
  match acc with
  | None => None
  | Some result_dict =>
      match Dict.get grouped_structures (Group_ID (score (snd ir))) with
      | None => Some result_dict
      | Some members =>
          match structure_details_of sws members with
          | [] => Some result_dict
          | structure_details =>
              match iterative_structure_analysis analyze_structure_groups adata fc_threshold
                      p_threshold coverage_threshold fuel structure_details with
              | None => None
              | Some (Return result) => Some (Dict.set result_dict (fst ir) result)
              | Some (Raise _) => Some result_dict
              end
          end
      end
  end.

(** [run_iterative_analysis_over_df] (lines 973-1090). *)
Definition run_iterative_analysis_over_df (fuel : nat) (df_filtered_new : list (nat * count_row))
    (grouped_structures : @Dict.t nat (list motif_key)) (sws : nested_structures)
  : option (@Dict.t nat motif_dict) :=
  fold_left (analyse_row fuel grouped_structures sws) df_filtered_new (Some Dict.empty).

(** A row is analysed when its group exists and one of its motifs is found. *)
Definition analysed (grouped_structures : @Dict.t nat (list motif_key))
    (sws : nested_structures) (ir : nat * count_row) : bool :=
  match Dict.get grouped_structures (Group_ID (score (snd ir))) with
  | None => false
  | Some members => nonempty (structure_details_of sws members)
  end.

Lemma analyse_row_skipped fuel grouped_structures sws acc ir :
  analysed grouped_structures sws ir = false ->
  analyse_row fuel grouped_structures sws acc ir = acc.
Proof.
  unfold analysed, analyse_row. destruct acc as [result_dict|]; [|reflexivity].
  destruct (Dict.get grouped_structures _) as [members|]; [|reflexivity].
  destruct (structure_details_of sws members); [reflexivity | discriminate].
Qed.

Lemma structure_details_entries sws members e :
  In e (structure_details_of sws members) ->
  In (fst e) members /\ find_structure sws (fst (fst e)) (snd (fst e)) = Some (snd e).
Proof.
  unfold structure_details_of.
  assert (Hgen : forall ms (acc : motif_dict),
             (forall e, In e acc ->
                In (fst e) members /\
                find_structure sws (fst (fst e)) (snd (fst e)) = Some (snd e)) ->
             incl ms members ->
             forall e,
               In e (fold_left
                       (fun structure_details member =>
                          match Dict.get sws (fst member) with
                          | Some data =>
                              match Dict.get (getd Dict.empty data "3rd") (snd member) with
                              | Some nodes => Dict.set structure_details member nodes
                              | None => structure_details
                              end
                          | None => structure_details
                          end) ms acc) ->
               In (fst e) members /\
               find_structure sws (fst (fst e)) (snd (fst e)) = Some (snd e)).
  { induction ms as [|m ms IH]; intros acc Hacc Hincl e0; [apply Hacc|].
    cbn [fold_left]. apply IH; [|intros x Hx; apply Hincl; now right].
    intros e1 He1. destruct (Dict.get sws (fst m)) as [data|] eqn:Es; [|now apply Hacc].
    destruct (Dict.get (getd Dict.empty data "3rd") (snd m)) as [nodes|] eqn:En;
      [|now apply Hacc].
    apply dict_set_In in He1. destruct He1 as [->|He1]; [|now apply Hacc].
    cbn [fst snd]. split; [apply Hincl; now left|].
    unfold find_structure, getd at 2. now rewrite Es. }
  apply Hgen; [intros e0 [] | apply incl_refl].
Qed.

(** What holds of an entry of [result_dict]: it belongs to an analysed row of
    the table, and its motifs grew from the motifs found for the row's
    group. *)
Definition result_ok (df_filtered_new : list (nat * count_row))
    (grouped_structures : @Dict.t nat (list motif_key)) (sws : nested_structures)
    (entry : nat * motif_dict) : Prop :=
  exists row members n,
    In (fst entry, row) df_filtered_new /\
    Dict.get grouped_structures (Group_ID (score row)) = Some members /\
    structure_details_of sws members <> [] /\
    Forall (extends_seed (structure_details_of sws members) n) (snd entry).

Lemma analyse_row_ok fuel df_filtered_new grouped_structures sws result_dict ir :
  (List.length adata < fuel)%nat -> In ir df_filtered_new ->
  Forall (result_ok df_filtered_new grouped_structures sws) result_dict ->
  exists result_dict',
    analyse_row fuel grouped_structures sws (Some result_dict) ir = Some result_dict' /\
    Forall (result_ok df_filtered_new grouped_structures sws) result_dict'.
Proof.
  intros Hfuel Hir Hacc. unfold analyse_row.
  destruct (Dict.get grouped_structures (Group_ID (score (snd ir)))) as [members|] eqn:Eg;
    [|now exists result_dict].
  destruct (structure_details_of sws members) as [|d0 ds] eqn:Ed; [now exists result_dict|].
  rewrite <- Ed.
  destruct (iterate_terminates analyze_structure_groups adata fc_threshold p_threshold
              coverage_threshold fuel (structure_details_of sws members)
              (structure_details_of sws members)) as [r Hr].
  { pose proof (max_uncovered_le_adata adata (structure_details_of sws members)). lia. }
  unfold iterative_structure_analysis. rewrite Hr.
  destruct r as [result|e]; [|now exists result_dict].
  eexists. split; [reflexivity|]. apply Forall_forall. intros entry Hentry.
  apply dict_set_In in Hentry. destruct Hentry as [->|Hentry];
    [|rewrite Forall_forall in Hacc; now apply Hacc].
  assert (Hseed : Forall (extends_seed (structure_details_of sws members) 0)
                         (structure_details_of sws members)).
  { apply Forall_forall. intros e He. exists e, []. repeat split; [assumption|].
    now rewrite app_nil_r. }
  destruct (iterate_extends_seed analyze_structure_groups adata fc_threshold p_threshold
              coverage_threshold (structure_details_of sws members) fuel _ _ 0%nat 0%nat
              result Hr Hseed Hseed (fun _ => eq_refl)) as [n [Hn _]].
  exists (snd ir), members, n. cbn [fst snd].
  split; [now destruct ir|]. split; [assumption|]. split; [|assumption].
  rewrite Ed. discriminate.
Qed.

(** X19. [run_iterative_analysis_over_df] lets no exception out and, with a
    bound above the number of spots, always returns its dictionary. Every key
    is the index label of a row whose group is in [grouped_structures] and has
    a motif that was found, and every motif stored under it is one of the
    found motifs of that group with some fixed number of nodes appended. Rows
    that name an unknown group, or a group none of whose motifs is found, can
    be left out of the table without changing the result. *)
Theorem run_over_df_returns (fuel : nat) (df_filtered_new : list (nat * count_row))
    (grouped_structures : @Dict.t nat (list motif_key)) (sws : nested_structures) :
  (List.length adata < fuel)%nat ->
  (exists result_dict,
     run_iterative_analysis_over_df fuel df_filtered_new grouped_structures sws =
       Some result_dict /\
     Forall (result_ok df_filtered_new grouped_structures sws) result_dict) /\
  run_iterative_analysis_over_df fuel
    (filter (analysed grouped_structures sws) df_filtered_new) grouped_structures sws =
  run_iterative_analysis_over_df fuel df_filtered_new grouped_structures sws.
Proof.
  intros Hfuel. split.
  - unfold run_iterative_analysis_over_df.
    apply (fold_left_invariant _ _
             (fun acc => exists result_dict,
                  acc = Some result_dict /\
                  Forall (result_ok df_filtered_new grouped_structures sws) result_dict)).
    + exists Dict.empty. split; [reflexivity | constructor].
    + intros acc ir Hir [result_dict [-> Hok]]. now apply analyse_row_ok.
  - unfold run_iterative_analysis_over_df. generalize (Some (@Dict.empty nat motif_dict)).
    induction df_filtered_new as [|ir df IH]; intros acc; [reflexivity|].
    cbn [filter fold_left]. destruct (analysed grouped_structures sws ir) eqn:Ea.
    + cbn [fold_left]. apply IH.
    + rewrite analyse_row_skipped by assumption. apply IH.
Qed.

End IterativeOverDf.

Lemma run_over_df_returns_witness :
  (exists result_dict,
     run_iterative_analysis_over_df (fun _ _ _ _ _ => []) demo_grid 4 (1 # 20) (3 # 5) 5
       [ (0%nat, mkCountRow (mkScoreRow 0 5 1 (1 # 100)) 1 1 1 [1] 1 (1 # 50) true);
         (1%nat, mkCountRow (mkScoreRow 7 5 1 (1 # 200)) 1 1 1 [1] 1 (1 # 100) true) ]
       demo_grouped (returned_structures demo_grid demo_pairs "G1") = Some result_dict /\
     Forall (result_ok
               [ (0%nat, mkCountRow (mkScoreRow 0 5 1 (1 # 100)) 1 1 1 [1] 1 (1 # 50) true);
                 (1%nat, mkCountRow (mkScoreRow 7 5 1 (1 # 200)) 1 1 1 [1] 1 (1 # 100) true) ]
               demo_grouped (returned_structures demo_grid demo_pairs "G1")) result_dict) /\
  run_iterative_analysis_over_df (fun _ _ _ _ _ => []) demo_grid 4 (1 # 20) (3 # 5) 5
    (filter (analysed demo_grouped (returned_structures demo_grid demo_pairs "G1"))
       [ (0%nat, mkCountRow (mkScoreRow 0 5 1 (1 # 100)) 1 1 1 [1] 1 (1 # 50) true);
         (1%nat, mkCountRow (mkScoreRow 7 5 1 (1 # 200)) 1 1 1 [1] 1 (1 # 100) true) ])
    demo_grouped (returned_structures demo_grid demo_pairs "G1") =
  run_iterative_analysis_over_df (fun _ _ _ _ _ => []) demo_grid 4 (1 # 20) (3 # 5) 5
    [ (0%nat, mkCountRow (mkScoreRow 0 5 1 (1 # 100)) 1 1 1 [1] 1 (1 # 50) true);
      (1%nat, mkCountRow (mkScoreRow 7 5 1 (1 # 200)) 1 1 1 [1] 1 (1 # 100) true) ]
    demo_grouped (returned_structures demo_grid demo_pairs "G1").
Proof.
  apply (run_over_df_returns (fun _ _ _ _ _ => []) demo_grid 4 (1 # 20) (3 # 5) 5).
  cbn. lia.
Defined.

(** A row of the unknown group 7 is skipped; the row of group 0 keeps the
    expansion of its motif that the scoring lets through, here none, so the
    seed itself. *)
Example run_over_df_demo :
  run_iterative_analysis_over_df (fun _ _ _ _ _ => []) demo_grid 4 (1 # 20) (3 # 5) 5
    [ (0%nat, mkCountRow (mkScoreRow 0 5 1 (1 # 100)) 1 1 1 [1] 1 (1 # 50) true);
      (1%nat, mkCountRow (mkScoreRow 7 5 1 (1 # 200)) 1 1 1 [1] 1 (1 # 100) true) ]
    demo_grouped (returned_structures demo_grid demo_pairs "G1") =
  Some [ (0%nat,
          [ (("s1", "structure_0"), [ ((0, 0)%Z, "A"); ((0, 2)%Z, "B"); ((1, 1)%Z, "A") ]) ]) ].
Proof. vm_compute. reflexivity. Qed.

Lemma statistics_sorted_witness :
  exists group_ratios p_values,
    group_ratios_of (focus_sample_ids demo_grid "G1") demo_grouped = Return group_ratios /\
    List.length p_values = List.length group_ratios /\
    StronglySorted (fun a b : nat * count_row => Adjusted_P (snd a) <= Adjusted_P (snd b))
      match
        structure_statistics (fun _ _ => Some (1 # 100)) (fun _ => None)
          (fun ps => match ps with [a; b] => [a; b * (1 # 2)] | _ => ps end)
          demo_grid "G1" demo_grouped 4 (1 # 20) (3 # 5)
      with
      | Return df_counts => df_counts
      | Raise _ => []
      end /\
    Permutation
      (map fst
         match
           structure_statistics (fun _ _ => Some (1 # 100)) (fun _ => None)
             (fun ps => match ps with [a; b] => [a; b * (1 # 2)] | _ => ps end)
             demo_grid "G1" demo_grouped 4 (1 # 20) (3 # 5)
         with
         | Return df_counts => df_counts
         | Raise _ => []
         end)
      (seq 0 (List.length group_ratios)) /\
    Forall (fun ir : nat * count_row =>
              nth_error (Dict.keys group_ratios) (fst ir) = Some (Group_ID (score (snd ir))) /\
              nth_error p_values (fst ir) = Some (P_Value (score (snd ir))) /\
              nth_error (match p_values with [a; b] => [a; b * (1 # 2)] | _ => p_values end)
                        (fst ir) = Some (Adjusted_P (snd ir)) /\
              (Significant (snd ir) = true <->
               Adjusted_P (snd ir) < 1 # 20 /\
               4 < Fold_Change (score (snd ir)) /\
               3 # 5 <= Coverage (score (snd ir))))
      match
        structure_statistics (fun _ _ => Some (1 # 100)) (fun _ => None)
          (fun ps => match ps with [a; b] => [a; b * (1 # 2)] | _ => ps end)
          demo_grid "G1" demo_grouped 4 (1 # 20) (3 # 5)
      with
      | Return df_counts => df_counts
      | Raise _ => []
      end.
Proof.
  apply (statistics_sorted (fun _ _ => Some (1 # 100)) (fun _ => None)
           (fun ps => match ps with [a; b] => [a; b * (1 # 2)] | _ => ps end)
           demo_grid "G1" demo_grouped 4 (1 # 20) (3 # 5)).
  vm_compute. reflexivity.
Defined.

(** With an adjustment that halves the second p-value the row of the second
    group comes first and keeps its label 1. *)
Example statistics_sorted_demo :
  match
    structure_statistics (fun _ _ => Some (1 # 100)) (fun _ => None)
      (fun ps => match ps with [a; b] => [a; b * (1 # 2)] | _ => ps end)
      demo_grid "G1" demo_grouped 4 (1 # 20) (3 # 5)
  with
  | Return df_counts =>
      map (fun ir => (fst ir, Group_ID (score (snd ir)), Qred (Adjusted_P (snd ir)))) df_counts
  | Raise _ => []
  end = [ (1%nat, 1%nat, 1 # 200); (0%nat, 0%nat, 1 # 100) ].
Proof. vm_compute. reflexivity. Qed.

(** ** The edges that [plot_structure_hex] draws *)

(** Lines 1146-1148, for a non-negative [group]: the first motif of the
    [group]-th entry of [all_iterative_results]. *)
Definition select_structure (all_iterative_results : @Dict.t nat motif_dict) (group : nat)
  : result motif :=
  match nth_error (Dict.keys all_iterative_results) group with
  | None => Raise IndexError
  | Some first_group_key =>
      match Dict.get all_iterative_results first_group_key with
      | None => Raise KeyError
      | Some structures =>
          match Dict.keys structures with
          | [] => Raise IndexError
          | first_structure_key :: _ =>
              match Dict.get structures first_structure_key with
              | None => Raise KeyError
              | Some structure => Return structure
              end
          end
      end
  end.

(** The test of lines 1173-1175 on two coordinates. *)
Definition hex_edge (a b : coord) : bool :=
  mem (Z.abs (fst a - fst b), Z.abs (snd a - snd b))%Z [ (1, 0); (0, 2); (1, 1) ]%Z.

(** The pairs of positions between which a line is drawn (lines 1169-1176). *)
Definition hex_edges (structure : motif) : list (nat * nat) :=
  let coords := map fst structure in
  flat_map
    (fun i =>
       flat_map
         (fun j =>
            if (i <? j)%nat && hex_edge (nth i coords (0, 0)%Z) (nth j coords (0, 0)%Z)
            then [(i, j)] else [])
         (seq 0 (List.length coords)))
    (seq 0 (List.length coords)).

Lemma hex_edge_adjacent (a b : coord) : hex_edge a b = true <-> adjacent a b.
Proof.
  unfold hex_edge. rewrite mem_In. destruct a as [r c], b as [r' c']. cbn [fst snd In].
  split.
  - intros H.
    assert (Hcases : ((r' - r = -1 /\ c' - c = 0) \/ (r' - r = 1 /\ c' - c = 0) \/
                     (r' - r = 0 /\ c' - c = -2) \/ (r' - r = 0 /\ c' - c = 2) \/
                     (r' - r = -1 /\ c' - c = -1) \/ (r' - r = 1 /\ c' - c = -1) \/
                     (r' - r = -1 /\ c' - c = 1) \/ (r' - r = 1 /\ c' - c = 1))%Z).
    { destruct H as [H|[H|[H|[]]]]; injection H as H1 H2; lia. }
    exists ((r' - r)%Z, (c' - c)%Z). split.
    + unfold neighbors_offset. cbn [In].
      destruct Hcases as [H1|[H1|[H1|[H1|[H1|[H1|[H1|H1]]]]]]]; destruct H1 as [-> ->]; tauto.
    + unfold shift. cbn [fst snd]. f_equal; lia.
  - intros [o [Ho Heq]]. unfold shift in Heq. cbn [fst snd] in Heq. injection Heq as -> ->.
    unfold neighbors_offset in Ho. cbn [In] in Ho.
    repeat (destruct Ho as [<-|Ho];
            [cbn [fst snd];
             first [ left; f_equal; lia
                   | right; left; f_equal; lia
                   | right; right; left; f_equal; lia ]|]).
    destruct Ho.
Qed.

Section PlotStructureHex.

(** Python's [int] on a label; [None] stands for its [ValueError]. *)
Variable int : label -> option Z.

(** Line 1157: [labels = [int(pt[1]) for pt in structure]]. *)
Fixpoint int_labels (structure : motif) : result (list Z) :=
  match structure with
  | [] => Return []
  | pt :: rest =>
      match int (snd pt) with
      | None => Raise ValueError
      | Some n =>
          match int_labels rest with
          | Raise e => Raise e
          | Return ns => Return (n :: ns)
          end
      end
  end.

(** Lines 1146-1176 of [plot_structure_hex], for a non-negative [group]: the
    pairs of positions between which a line is drawn, in the order of the
    calls of [ax.plot]. The labels are converted before anything is drawn. *)
Definition plot_structure_hex (all_iterative_results : @Dict.t nat motif_dict) (group : nat)
  : result (list (nat * nat)) :=
  match select_structure all_iterative_results group with
  | Raise e => Raise e
  | Return structure =>
      match int_labels structure with
      | Raise e => Raise e
      | Return _ => Return (hex_edges structure)
      end
  end.

Lemma int_labels_raises structure :
  (exists pt, In pt structure /\ int (snd pt) = None) -> int_labels structure = Raise ValueError.
Proof.
  induction structure as [|pt rest IH]; intros [pt' [Hin Hnone]]; [destruct Hin|].
  cbn [int_labels]. destruct (int (snd pt)) as [n|] eqn:E; [|reflexivity].
  destruct Hin as [->|Hin]; [congruence|].
  rewrite IH; [reflexivity | now exists pt'].
Qed.

Lemma int_labels_returns structure :
  (forall pt, In pt structure -> int (snd pt) <> None) ->
  exists labels, int_labels structure = Return labels.
Proof.
  induction structure as [|pt rest IH]; intros Hall; [now eexists|].
  cbn [int_labels]. destruct (int (snd pt)) as [n|] eqn:E.
  - destruct IH as [ns ->]; [intros pt' Hpt'; apply Hall; now right|]. now eexists.
  - exfalso. apply (Hall pt); [now left | exact E].
Qed.

(** X5. [plot_structure_hex] converts the labels of the motif it shows with
    [int] before it draws: if a label is not an integer numeral the call
    raises [ValueError] and no line is drawn. Otherwise it joins the nodes at
    positions [i < j] exactly when one lies at one of the eight neighbour
    offsets from the other: its test on the absolute coordinate differences
    agrees with the offsets from which the motifs are built. *)
Theorem hex_edges_are_adjacencies
    (all_iterative_results : @Dict.t nat motif_dict) (group : nat) (structure : motif) :
  select_structure all_iterative_results group = Return structure ->
  ((exists pt, In pt structure /\ int (snd pt) = None) ->
   plot_structure_hex all_iterative_results group = Raise ValueError) /\
  ((forall pt, In pt structure -> int (snd pt) <> None) ->
   exists edges,
     plot_structure_hex all_iterative_results group = Return edges /\
     forall i j,
       In (i, j) edges <->
       (i < j < List.length structure)%nat /\
       adjacent (nth i (map fst structure) (0, 0)%Z) (nth j (map fst structure) (0, 0)%Z)).
Proof.
  intros Hsel. unfold plot_structure_hex. rewrite Hsel. split.
  - intros Hbad. now rewrite (int_labels_raises structure Hbad).
  - intros Hall. destruct (int_labels_returns structure Hall) as [labels ->].
    exists (hex_edges structure). split; [reflexivity|]. intros i j.
    unfold hex_edges. cbv zeta. rewrite length_map, in_flat_map. split.
    + intros [i' [Hi' Hin]]. apply in_flat_map in Hin. destruct Hin as [j' [Hj' Hin]].
      destruct ((i' <? j')%nat && hex_edge _ _) eqn:E; [|destruct Hin].
      destruct Hin as [Heq|[]]. injection Heq as -> ->.
      apply andb_true_iff in E. destruct E as [Hlt He].
      apply Nat.ltb_lt in Hlt. apply in_seq in Hj'. apply hex_edge_adjacent in He.
      split; [lia | assumption].
    + intros [[Hlt Hj] Hadj]. exists i. split; [apply in_seq; lia|].
      apply in_flat_map. exists j. split; [apply in_seq; lia|].
      apply Nat.ltb_lt in Hlt. apply hex_edge_adjacent in Hadj. rewrite Hlt, Hadj. now left.
Qed.

End PlotStructureHex.

(** [int] on plain decimal numerals, as Leiden labels are ("0", "1", ...),
    with an optional minus sign. *)
Definition int_of_numeral (l : label) : option Z :=
  option_map Z.of_int (NilZero.int_of_string l).

(** A result holding one motif with the labels 0, 1, 0. *)
Definition demo_results : @Dict.t nat motif_dict :=
  [ (3%nat,
     [ (("s1", "structure_0"), [ ((0, 0)%Z, "0"); ((0, 2)%Z, "1"); ((1, 1)%Z, "0") ]) ]) ].

Lemma hex_edges_are_adjacencies_witness :
  (exists pt, In pt (snd (hd (("", ""), []) demo_motifs)) /\ int_of_numeral (snd pt) = None) /\
  plot_structure_hex int_of_numeral [ (3%nat, demo_motifs) ] 0 = Raise ValueError /\
  exists edges,
    plot_structure_hex int_of_numeral demo_results 0 = Return edges /\
    forall i j,
      In (i, j) edges <->
      (i < j < 3)%nat /\
      adjacent (nth i [ (0, 0); (0, 2); (1, 1) ]%Z (0, 0)%Z)
               (nth j [ (0, 0); (0, 2); (1, 1) ]%Z (0, 0)%Z).
Proof.
  assert (Hbad : exists pt, In pt (snd (hd (("", ""), []) demo_motifs)) /\
                            int_of_numeral (snd pt) = None).
  { exists ((0, 0)%Z, "A"). split; [now left | reflexivity]. }
  split; [exact Hbad|]. split.
  - exact (proj1 (hex_edges_are_adjacencies int_of_numeral [ (3%nat, demo_motifs) ] 0
                    (snd (hd (("", ""), []) demo_motifs)) eq_refl) Hbad).
  - apply (proj2 (hex_edges_are_adjacencies int_of_numeral demo_results 0
                    [ ((0, 0)%Z, "0"); ((0, 2)%Z, "1"); ((1, 1)%Z, "0") ] eq_refl)).
    intros pt [<-|[<-|[<-|[]]]]; discriminate.
Defined.

(** The motif [0 (0,0) - 1 (0,2) - 0 (1,1)] is drawn as a triangle; with the
    labels A and B nothing is drawn. *)
Example hex_edges_demo :
  plot_structure_hex int_of_numeral demo_results 0 = Return [ (0, 1); (0, 2); (1, 2) ]%nat /\
  plot_structure_hex int_of_numeral [ (3%nat, demo_motifs) ] 0 = Raise ValueError.
Proof. split; vm_compute; reflexivity. Qed.

(** * The program in float64 arithmetic *)

(** The definitions above compute with exact rationals and reals. Where the
    program compares floats, its outcome is that of IEEE 754 binary64
    arithmetic: [Float64] restates lines 115-205 of
    [compute_groupwise_adjacency_matrix], [geometric_signature] and
    [compare_structures] over Rocq's binary64 floats. The operations of the
    language ([/], [*], [-], [<], [>], [==], [!=]) and the square root are
    those of [PrimFloat]; the means of numpy and pandas, whose order of
    summation is the library's, are parameters, as the statistical tests
    are. *)

From Stdlib Require Import Floats.

Module Float64.

(** [float(n)] for an integer: the nearest binary64 value, ties to even. *)
Definition of_Z (z : Z) : float := SF2Prim (binary_normalize prec emax z 0 false).

Definition of_nat (n : nat) : float := of_Z (Z.of_nat n).

(** A float-valued pandas frame with labelled rows and columns. *)
Record DataFrame := mkDataFrame {
  df_index : list label;
  df_columns : list label;
  df_at : label -> label -> float
}.

(** [df.loc[r, c]], [None] when the position does not exist. *)
Definition loc (df : DataFrame) (r c : label) : option float :=
  if mem r (df_index df) && mem c (df_columns df) then Some (df_at df r c) else None.

(** [pd.DataFrame.from_dict(adj_counts, orient='index').fillna(0).astype(float)]
    (line 115). *)
Definition from_dict_fillna (adj_counts : @Dict.t label (@Dict.t label nat)) : DataFrame :=
  {| df_index := Dict.keys adj_counts;
     df_columns := unique (flat_map (fun kv => Dict.keys (snd kv)) adj_counts);
     df_at := fun r c =>
       match Dict.get adj_counts r with
       | Some inner =>
           match Dict.get inner c with
           | Some n => of_nat n
           | None => 0%float
           end
       | None => 0%float
       end |}.

(** [adj_df.loc[cl] /= n] (line 119). *)
Definition div_row (df : DataFrame) (cl : label) (n : nat) : DataFrame :=
  {| df_index := df_index df;
     df_columns := df_columns df;
     df_at := fun r c =>
       if key_eqb r cl then (df_at df r c / of_nat n)%float else df_at df r c |}.

(** Lines 117-119. *)
Definition normalize_rows (leiden_counts : @Dict.t label nat) (adj_df : DataFrame)
  : DataFrame :=
  fold_left
    (fun df cl =>
       match Dict.get leiden_counts cl with
       | Some n => div_row df cl n
       | None => df
       end)
    (df_index adj_df) adj_df.

(** The frame stored in [sample_adj_counts[sample]] (lines 91-121). *)
Definition sample_adj_df (sample_spots : list spot) : DataFrame :=
  let spot_dict := spot_dict_of sample_spots in
  let adj_df := from_dict_fillna (adj_counts_of spot_dict) in
  let leiden_counts := value_counts (map leiden sample_spots) in
  normalize_rows leiden_counts adj_df.

(** [df.fillna(0).reindex(index=labels, columns=labels, fill_value=0)]
    read at one position (line 135). *)
Definition reindexed (df : DataFrame) (r c : label) : float :=
  match loc df r c with
  | Some q => if PrimFloat.is_nan q then 0%float else q
  | None => 0%float
  end.

Definition matrix := label -> label -> float.

(** One row of [fdr_results]. *)
Record pair_row := mkPairRow {
  Leiden1 : label;
  Leiden2 : label;
  group1_mean : float;
  group2_mean : float;
  P_value_of : float;
  FDR_corrected : float
}.

(** [sample_adj_counts] (lines 88-121). *)
Definition sample_adj_counts (adata : AnnData) : @Dict.t string DataFrame :=
  map (fun sample => (sample, sample_adj_df (sample_spots_of adata sample)))
      (unique (map sample_id adata)).

(** [all_leiden_classes] (line 125). *)
Definition all_leiden_classes (sac : @Dict.t string DataFrame) : list label :=
  sorted String.leb
    (unique (flat_map (fun kv => df_columns (snd kv)) sac ++
             flat_map (fun kv => df_index (snd kv)) sac)).

(** Body of [for group in groups] (lines 130-140). *)
Definition collect_group (adata : AnnData) (sac : @Dict.t string DataFrame)
    (d : @Dict.t string (list matrix)) (group : string) : @Dict.t string (list matrix) :=
  let samples :=
    unique (map sample_id (filter (fun s => key_eqb (group_of s) group) adata)) in
  let group_matrices :=
    flat_map (fun s => match Dict.get sac s with
                       | Some df => [reindexed df]
                       | None => []
                       end) samples in
  match group_matrices with
  | [] => d
  | _ => Dict.set d group group_matrices
  end.

(** Lines 128-140. *)
Definition group_adj_matrices (adata : AnnData) (sac : @Dict.t string DataFrame)
    (groups : list string) : @Dict.t string (list matrix) :=
  fold_left (collect_group adata sac) groups Dict.empty.

(** [data[:, i, j]] *)
Definition values_at (data : list matrix) (l1 l2 : label) : list float :=
  map (fun m => m l1 l2) data.

(** [np.any(v)]: some element is not equal to zero (a NaN is not). *)
Definition np_any (v : list float) : bool :=
  existsb (fun x => negb (PrimFloat.eqb x 0%float)) v.

Section PairwiseEnrichment.

(** [np.mean] of the entries of the matrices of a group at one position
    (line 145). *)
Variable np_mean_axis0 : list float -> float.
(** [np.mean(v)] of a vector (lines 172-173). *)
Variable np_mean : list float -> float.
(** [Series.mean()] (line 202); NaN for an empty column. *)
Variable series_mean : list float -> float.
(** [scipy.stats.mannwhitneyu(v1, v2, alternative='two-sided')]: the p-value. *)
Variable mannwhitneyu : list float -> list float -> float.
(** [multipletests(p_values, method='fdr_bh')]: the corrected p-values. *)
Variable multipletests : list float -> list float.

(** [merged_df] (lines 143-147). [pd.concat] of no frame raises. *)
Definition merged_df_of (gam : @Dict.t string (list matrix))
  : result (list (string * matrix)) :=
  match gam with
  | [] => Raise ValueError
  | _ => Return (map (fun kv => (fst kv, fun l1 l2 => np_mean_axis0 (values_at (snd kv) l1 l2)))
                     gam)
  end.

(** The four accumulators of lines 158-173. *)
Record accumulators := mkAcc {
  p_values : list float;
  comparisons : list (label * label);
  group1_means : list float;
  group2_means : list float
}.

(** Body of the inner loop (lines 162-173). *)
Definition test_pair (data1 data2 : list matrix) (l1 : label) (acc : accumulators)
    (l2 : label) : accumulators :=
  let v1 := values_at data1 l1 l2 in
  let v2 := values_at data2 l1 l2 in
  let p := if np_any v1 && np_any v2 then mannwhitneyu v1 v2 else 1%float in
  {| p_values := p_values acc ++ [p];
     comparisons := comparisons acc ++ [(l1, l2)];
     group1_means := group1_means acc ++ [np_mean v1];
     group2_means := group2_means acc ++ [np_mean v2] |}.

(** Lines 158-173. *)
Definition test_all_pairs (classes : list label) (data1 data2 : list matrix)
  : accumulators :=
  fold_left
    (fun acc l1 => fold_left (test_pair data1 data2 l1) classes acc)
    classes (mkAcc [] [] [] []).

(** [pd.DataFrame({...})] (lines 177-184): the columns must have one length. *)
Definition fdr_results_of (acc : accumulators) (fdrs : list float) : result (list pair_row) :=
  if (List.length fdrs =? List.length (p_values acc))%nat
  then Return
         (map (fun t =>
                 match t with
                 | ((((c, m1), m2), p), f) =>
                     mkPairRow (fst c) (snd c) m1 m2 p f
                 end)
              (combine (combine (combine (combine (comparisons acc) (group1_means acc))
                                         (group2_means acc)) (p_values acc)) fdrs))
  else Raise ValueError.

(** Lines 187-190. *)
Definition fdr_filter (P_value : float) (fdr_results : list pair_row) : list pair_row :=
  filter (fun r => PrimFloat.ltb (FDR_corrected r) P_value &&
                   negb (key_eqb (Leiden1 r) (Leiden2 r))) fdr_results.

(** The column [f"{g}_mean"] of a row; when both groups have one name the
    later column of the frame's dictionary is the one that exists. *)
Definition mean_column (group1 group2 : string) (g : string) (r : pair_row) : float :=
  if key_eqb g group2 then group2_mean r else group1_mean r.

(** Lines 197-205. [x > y] is [y < x]; a comparison with NaN is false. *)
Definition focus_filter (groups : list string) (focus_group : option string)
    (enrichment_fold : float) (fdr_filtered : list pair_row) : result (list pair_row) :=
  match groups with
  | [group1; group2] =>
      match focus_group with
      | Some focus =>
          if mem focus groups then
            match filter (fun g => negb (key_eqb g focus)) groups with
            | other_group :: _ =>
                let focus_mean := mean_column group1 group2 focus in
                let other_mean := mean_column group1 group2 other_group in
                let overall := series_mean (map focus_mean fdr_filtered) in
                Return
                  (filter (fun r =>
                             PrimFloat.ltb (enrichment_fold * other_mean r)%float
                                           (focus_mean r) &&
                             PrimFloat.ltb overall (focus_mean r))
                          fdr_filtered)
            | [] => Raise IndexError
            end
          else Raise ValueError
      | None => Raise ValueError
      end
  | _ => Raise ValueError
  end.

(** [compute_groupwise_adjacency_matrix] (lines 21-208). *)
Definition compute_groupwise_adjacency_matrix (adata : AnnData) (groups : list string)
    (focus_group : option string) (enrichment_fold P_value : float)
  : result (list (string * matrix) * option (list pair_row)) :=
  let sac := sample_adj_counts adata in
  let classes := all_leiden_classes sac in
  let gam := group_adj_matrices adata sac groups in
  match sac, merged_df_of gam with
  | [], _ => Raise ValueError
  | _, Raise e => Raise e
  | _, Return merged_df =>
      match groups with
      | [group1; group2] =>
          match Dict.get gam group1, Dict.get gam group2 with
          | Some data1, Some data2 =>
              let acc := test_all_pairs classes data1 data2 in
              match fdr_results_of acc (multipletests (p_values acc)) with
              | Raise e => Raise e
              | Return fdr_results =>
                  let fdr_filtered := fdr_filter P_value fdr_results in
                  match focus_filter groups focus_group enrichment_fold fdr_filtered with
                  | Raise e => Raise e
                  | Return focus_filtered => Return (merged_df, Some focus_filtered)
                  end
              end
          | _, _ => Raise KeyError
          end
      | _ => Return (merged_df, None)
      end
  end.

Lemma fdr_filter_In P_value fdr_results r :
  In r (fdr_filter P_value fdr_results) <->
  In r fdr_results /\ PrimFloat.ltb (FDR_corrected r) P_value = true /\
  Leiden1 r <> Leiden2 r.
Proof.
  unfold fdr_filter. rewrite filter_In, andb_true_iff, negb_true_iff.
  destruct (key_eqb_spec (Leiden1 r) (Leiden2 r)); intuition congruence.
Qed.

(** The focus filter on its own (lines 197-203), for a focus group that is
    one of the two groups. *)
Lemma focus_filter_spec group1 group2 focus enrichment_fold fdr_filtered table :
  focus_filter [group1; group2] (Some focus) enrichment_fold fdr_filtered = Return table ->
  exists other_group,
    In focus [group1; group2] /\ In other_group [group1; group2] /\ other_group <> focus /\
    forall r, In r table <->
      In r fdr_filtered /\
      PrimFloat.ltb (enrichment_fold * mean_column group1 group2 other_group r)%float
                    (mean_column group1 group2 focus r) = true /\
      PrimFloat.ltb (series_mean (map (mean_column group1 group2 focus) fdr_filtered))
                    (mean_column group1 group2 focus r) = true.
Proof.
  unfold focus_filter. destruct (mem focus [group1; group2]) eqn:Emem; [|discriminate].
  destruct (filter (fun g => negb (key_eqb g focus)) [group1; group2])
    as [|other_group rest] eqn:Eother; [discriminate|].
  intros [= <-]. exists other_group.
  assert (Hother : In other_group (filter (fun g => negb (key_eqb g focus)) [group1; group2]))
    by (rewrite Eother; now left).
  apply filter_In in Hother. destruct Hother as [Hin Hne].
  split; [now apply mem_In|]. split; [assumption|]. split.
  - rewrite negb_true_iff in Hne. destruct (key_eqb_spec other_group focus); congruence.
  - intros r. rewrite filter_In, andb_true_iff. reflexivity.
Qed.

(** C9. The focus-filtered table that [compute_groupwise_adjacency_matrix]
    returns holds exactly the rows of the pair table [fdr_results] whose
    corrected p-value is below [P_value], whose two labels differ, whose
    focus-group mean exceeds [enrichment_fold] times the other group's mean,
    and whose focus-group mean exceeds the mean of the focus-group means taken
    over the rows retained by the first two conditions. The means are the
    float64 values of the table, and the product and the comparisons are those
    of float64 arithmetic. *)
Theorem focus_filtered_rows
    (adata : AnnData) (group1 group2 focus : string) (enrichment_fold P_value : float)
    (merged_df : list (string * matrix)) (focus_filtered : list pair_row) :
  compute_groupwise_adjacency_matrix adata [group1; group2]
    (Some focus) enrichment_fold P_value = Return (merged_df, Some focus_filtered) ->
  exists data1 data2 fdr_results other_group,
    let sac := sample_adj_counts adata in
    let gam := group_adj_matrices adata sac [group1; group2] in
    let acc := test_all_pairs (all_leiden_classes sac) data1 data2 in
    let focus_mean := mean_column group1 group2 focus in
    let other_mean := mean_column group1 group2 other_group in
    let retained := fdr_filter P_value fdr_results in
    Dict.get gam group1 = Some data1 /\ Dict.get gam group2 = Some data2 /\
    fdr_results_of acc (multipletests (p_values acc)) = Return fdr_results /\
    In focus [group1; group2] /\ In other_group [group1; group2] /\ other_group <> focus /\
    (forall r, In r retained <->
       In r fdr_results /\ PrimFloat.ltb (FDR_corrected r) P_value = true /\
       Leiden1 r <> Leiden2 r) /\
    (forall r, In r focus_filtered <->
       In r fdr_results /\ PrimFloat.ltb (FDR_corrected r) P_value = true /\
       Leiden1 r <> Leiden2 r /\
       PrimFloat.ltb (enrichment_fold * other_mean r)%float (focus_mean r) = true /\
       PrimFloat.ltb (series_mean (map focus_mean retained)) (focus_mean r) = true).
Proof.
  unfold compute_groupwise_adjacency_matrix.
  destruct (sample_adj_counts adata) as [|kv sac'] eqn:Esac; [discriminate|].
  rewrite <- Esac.
  destruct (merged_df_of _) as [merged|e]; [|discriminate].
  destruct (Dict.get _ group1) as [data1|] eqn:E1; [|discriminate].
  destruct (Dict.get _ group2) as [data2|] eqn:E2; [|discriminate].
  destruct (fdr_results_of _ _) as [fdr_results|e] eqn:Efdr; [|discriminate].
  destruct (focus_filter _ _ _ _) as [table|e] eqn:Efocus; [|discriminate].
  intros [= -> ->].
  apply focus_filter_spec in Efocus.
  destruct Efocus as [other_group [Hf [Ho [Hne Hrows]]]].
  exists data1, data2, fdr_results, other_group. cbv zeta.
  repeat (split; [first [assumption | reflexivity]|]). split; [apply fdr_filter_In|].
  intros r. rewrite Hrows, fdr_filter_In. tauto.
Qed.

End PairwiseEnrichment.

(** The mean of a vector summed from left to right. Every order of summation
    gives the same value on the vectors of the examples below. *)
Definition mean_seq (v : list float) : float :=
  (fold_left PrimFloat.add v 0 / of_nat (List.length v))%float.

(** Two samples, one per condition, each with five A-spots 10 columns apart.
    In [t1] (group G1) nine B-spots touch one A-spot each, so that A meets B
    9/5 times per A-spot; in [t2] (group G2) three B-spots do, 3/5 times per
    A-spot. *)
Definition tie_adata : AnnData :=
  flat_map (fun k => [ mkSpot 0 (10 * k) "t1" "A" "G1"; mkSpot 0 (10 * k + 2) "t1" "B" "G1" ])
           [0; 1; 2; 3; 4]%Z ++
  map (fun k => mkSpot 0 (10 * k - 2) "t1" "B" "G1") [0; 1; 2; 3]%Z ++
  map (fun k => mkSpot 0 (10 * k) "t2" "A" "G2") [0; 1; 2; 3; 4]%Z ++
  map (fun k => mkSpot 0 (10 * k + 2) "t2" "B" "G2") [0; 1; 2]%Z.

Definition tie_merged : list (string * matrix) :=
  match compute_groupwise_adjacency_matrix mean_seq mean_seq mean_seq
          (fun _ _ => 1 / 100)%float (fun ps => ps) tie_adata
          ["G1"; "G2"] (Some "G1") 3 (1 / 20)
  with Return (m, _) => m | Raise _ => [] end.

(** On [tie_adata] with focus group G1 and [enrichment_fold = 3] the exact
    means of the pair (A, B) are 9/5 and 3/5, a tie. In float64 the product
    [3 * 0.6] is [1.7999999999999998], below [1.8], and the row is kept; its
    G1 mean also exceeds the mean 1.4 of the retained rows (A, B) and
    (B, A). *)
Lemma focus_filtered_rows_witness :
  compute_groupwise_adjacency_matrix mean_seq mean_seq mean_seq
    (fun _ _ => 1 / 100)%float (fun ps => ps) tie_adata
    ["G1"; "G2"] (Some "G1") 3 (1 / 20) =
  Return (tie_merged,
          Some [mkPairRow "A" "B" (9 / 5) (3 / 5) (1 / 100) (1 / 100)]) /\
  PrimFloat.ltb (3 * (3 / 5)) (9 / 5) = true /\
  exists fdr_results other_group,
    other_group <> "G1" /\
    In (mkPairRow "A" "B" (9 / 5) (3 / 5) (1 / 100) (1 / 100)) fdr_results /\
    PrimFloat.ltb
      (mean_seq (map (mean_column "G1" "G2" "G1") (fdr_filter (1 / 20) fdr_results)))
      (9 / 5) = true.
Proof.
  assert (Htable :
            match compute_groupwise_adjacency_matrix mean_seq mean_seq mean_seq
                    (fun _ _ => 1 / 100)%float (fun ps => ps) tie_adata
                    ["G1"; "G2"] (Some "G1") 3 (1 / 20)
            with Return (_, t) => Some t | Raise _ => None end =
            Some (Some [mkPairRow "A" "B" (9 / 5) (3 / 5) (1 / 100) (1 / 100)]))
    by (vm_compute; reflexivity).
  assert (Hcall :
            compute_groupwise_adjacency_matrix mean_seq mean_seq mean_seq
              (fun _ _ => 1 / 100)%float (fun ps => ps) tie_adata
              ["G1"; "G2"] (Some "G1") 3 (1 / 20) =
            Return (tie_merged,
                    Some [mkPairRow "A" "B" (9 / 5) (3 / 5) (1 / 100) (1 / 100)])).
  { unfold tie_merged.
    destruct (compute_groupwise_adjacency_matrix _ _ _ _ _ _ _ _ _ _) as [[m t]|e];
      [|discriminate].
    injection Htable as ->. reflexivity. }
  split; [exact Hcall|]. split; [vm_compute; reflexivity|].
  destruct (focus_filtered_rows mean_seq mean_seq mean_seq (fun _ _ => 1 / 100)%float
              (fun ps => ps) tie_adata "G1" "G2" "G1" 3 (1 / 20) tie_merged
              [mkPairRow "A" "B" (9 / 5) (3 / 5) (1 / 100) (1 / 100)] Hcall)
    as [data1 [data2 [fdr_results [other_group H]]]].
  cbv zeta in H. destruct H as [_ [_ [_ [_ [_ [Hne [_ Hrows]]]]]]].
  exists fdr_results, other_group. split; [exact Hne|].
  destruct (proj1 (Hrows (mkPairRow "A" "B" (9 / 5) (3 / 5) (1 / 100) (1 / 100)))
                  (or_introl eq_refl))
    as [Hin [_ [_ [_ Hm]]]].
  split; [exact Hin | exact Hm].
Defined.

(** ** Facts of binary64 arithmetic *)





Lemma SFopp_involutive x : SFopp (SFopp x) = x.
Proof. destruct x; cbn; now rewrite ?negb_involutive. Qed.











(** ** [geometric_signature] and [compare_structures] in float64 *)

(** The frame passed to [geometric_signature] is built from the nodes of a
    motif (lines 505-509 and 696-700): the [name] of a node is its coordinate
    tuple, [x] and [y] are its integer components, which numpy converts to
    float64. *)

Definition to_float (p : coord) : float * float := (of_Z (fst p), of_Z (snd p)).

Definition vsub (p q : float * float) : float * float :=
  ((fst p - fst q)%float, (snd p - snd q)%float).

(** [np.linalg.norm] of a plane vector. *)
Definition norm (v : float * float) : float :=
  PrimFloat.sqrt (fst v * fst v + snd v * snd v)%float.

(** One row of [distance_flat]. *)
Record distance_row := mkDistanceRow {
  From_name : coord;
  To_name : coord;
  Distance : float
}.

(** [np.rint]: the nearest integer, ties to the even one. *)
Definition rint (x : float) : float :=
  match Prim2SF x with
  | S754_finite s m e =>
      if (0 <=? e)%Z then x
      else
        let d := (2 ^ (- e))%Z in
        let q := (Z.pos m / d)%Z in
        let r := (Z.pos m mod d)%Z in
        let q' := if (2 * r <? d)%Z then q
                  else if (d <? 2 * r)%Z then (q + 1)%Z
                  else if Z.even q then q else (q + 1)%Z in
        SF2Prim (binary_normalize prec emax (cond_Zopp s q') 0 s)
  | _ => x
  end.

(** [np.round(x, decimals=6)] (lines 332-333): numpy multiplies by [10^6],
    rounds to the nearest integer and divides by [10^6]. *)
Definition round6 (x : float) : float := (rint (x * 1000000) / 1000000)%float.

(** A dictionary keyed by floats: a key is found by [==], so that a NaN is
    never found and the two zeros are one key. *)
Section FloatDict.
Context {V : Type}.

Fixpoint fget (g : list (float * V)) (d : float) : option V :=
  match g with
  | [] => None
  | (k, v) :: g' => if PrimFloat.eqb k d then Some v else fget g' d
  end.

Fixpoint fset (g : list (float * V)) (d : float) (v : V) : list (float * V) :=
  match g with
  | [] => [(d, v)]
  | (k, v0) :: g' => if PrimFloat.eqb k d then (k, v) :: g' else (k, v0) :: fset g' d v
  end.




End FloatDict.

Definition fgetd {V} (dflt : V) (g : list (float * V)) (d : float) : V :=
  match fget g d with Some v => v | None => dflt end.

Definition fcontains {V} (g : list (float * V)) (d : float) : bool :=
  match fget g d with Some _ => true | None => false end.

(** Filling a [defaultdict(list)] (lines 347-354). *)
Definition group_by_distance (pairs : list (float * (label * label)))
  : list (float * list (label * label)) :=
  fold_left (fun g dl => fset g (fst dl) (fgetd [] g (fst dl) ++ [snd dl])) pairs [].

(** [compare_structures] (lines 328-367); [tolerance] is not used by the code. *)
Definition compare_structures (sig1 sig2 : list distance_row)
    (labels1 labels2 : list (label * label)) : bool :=
  let distances1 := map round6 (map Distance sig1) in
  let distances2 := map round6 (map Distance sig2) in
  if negb (List.length distances1 =? List.length distances2)%nat then false
  else
    let normalized_labels1 := map sort_pair labels1 in
    let normalized_labels2 := map sort_pair labels2 in
    let group1 := group_by_distance (combine distances1 normalized_labels1) in
    let group2 := group_by_distance (combine distances2 normalized_labels2) in
    forallb
      (fun d =>
         fcontains group2 d &&
         list_eqb (sorted pair_leb (fgetd [] group1 d)) (sorted pair_leb (fgetd [] group2 d)))
      (sorted PrimFloat.leb (map fst group1)).

Definition signature := (list distance_row * list (label * label))%type.

(** [compare_structures(sig, ref_sig, labels, ref_labels)]. *)
Definition same_signature (a b : signature) : bool :=
  compare_structures (fst a) (fst b) (snd a) (snd b).

(** [From < To] on coordinate tuples (line 316). *)
Definition name_ltb (a b : coord) : bool :=
  (fst a <? fst b)%Z || ((fst a =? fst b)%Z && (snd a <? snd b)%Z).

(** [sort_values(by='Distance')] (line 319). pandas does not promise the
    order of rows with equal distance; [compare_structures] does not depend
    on the order of the rows. *)
Definition sort_values (rows : list distance_row) : list distance_row :=
  sorted (fun r1 r2 => PrimFloat.leb (Distance r1) (Distance r2)) rows.

Section Signature.

(** [np.mean(coordinates, axis=0)] on one column (line 298): the mean of the
    coordinates converted to float64, summed in numpy's order. *)
Variable column_mean : list float -> float.

Definition center (s : motif) : float * float :=
  (column_mean (map (fun nd => of_Z (fst (fst nd))) s),
   column_mean (map (fun nd => of_Z (snd (fst nd))) s)).

(** One entry of [distances] (lines 299-300): the norm of the difference of
    the two centred vectors. *)
Definition distance (s : motif) (p q : coord) : float :=
  norm (vsub (vsub (to_float p) (center s)) (vsub (to_float q) (center s))).

(** Lines 299-313: the stacked distance matrix, row-major. The coordinates
    of the program are 64-bit integers, for which no distance is a NaN;
    [stack] would leave out a row that holds one. *)
Definition distance_flat (s : motif) : list distance_row :=
  flat_map
    (fun ni => map (fun nj => mkDistanceRow (fst ni) (fst nj) (distance s (fst ni) (fst nj))) s)
    s.

(** [geometric_signature] (lines 296-325). *)
Definition geometric_signature (s : motif) : signature :=
  let sorted_distances :=
    sort_values (filter (fun r => name_ltb (From_name r) (To_name r)) (distance_flat s)) in
  let ld := Dict.of_list s in
  (sorted_distances,
   map (fun r => (getd EmptyString ld (From_name r), getd EmptyString ld (To_name r)))
       sorted_distances).

(** The distance of two nodes as [compare_structures] reads it. *)
Definition rounded_distance (s : motif) (p q : coord) : float := round6 (distance s p q).

End Signature.

(** *** What [compare_structures] decides *)

Definition canon (sg : signature) : list (float * (label * label)) :=
  combine (map round6 (map Distance (fst sg))) (map sort_pair (snd sg)).

Definition signature_wf (sg : signature) : Prop :=
  List.length (snd sg) = List.length (fst sg).

Definition bucket (pairs : list (float * (label * label))) (d : float)
  : list (label * label) :=
  map snd (filter (fun e => PrimFloat.eqb (fst e) d) pairs).







Section SignatureFacts.

Variable column_mean : list float -> float.



(** The entry of the signature that a pair of nodes of [s] gives rise to. *)
Definition pair_entry (s : motif) (ab : (coord * label) * (coord * label))
  : float * (label * label) :=
  (rounded_distance column_mean s (fst (fst ab)) (fst (snd ab)),
   sort_pair (snd (fst ab), snd (snd ab))).






End SignatureFacts.

(** A motif of three neighbouring spots. *)
Definition demo_triangle : motif :=
  [ ((0, 0)%Z, "A"); ((0, 2)%Z, "B"); ((1, 1)%Z, "A") ].

(** A quarter turn followed by a translation. *)
Definition quarter_turn (p : coord) : coord := (10 - snd p, 20 + fst p)%Z.


Example demo_triangle_distances :
  map (fun r => round6 (Distance r)) (fst (geometric_signature mean_seq demo_triangle)) =
    [ 1414214 / 1000000; 1414214 / 1000000; 2 ]%float /\
  map (fun r => round6 (Distance r))
      (fst (geometric_signature mean_seq
              (rev (map (fun nd => (quarter_turn (fst nd), snd nd)) demo_triangle)))) =
    [ 1414214 / 1000000; 1414214 / 1000000; 2 ]%float.
Proof. split; vm_compute; reflexivity. Qed.



End Float64.

(** At the tie the exact model and the float64 model part: over the
    rationals [9/5] does not exceed [3 * 3/5] and no row is kept. *)
Example focus_tie_exact_and_float64 :
  table_of (compute_groupwise_adjacency_matrix (fun _ _ => 1 # 100) (fun ps => ps)
              Float64.tie_adata ["G1"; "G2"] (Some "G1") 3 (1 # 20)) = Some [] /\
  option_map (map (fun r => (Float64.Leiden1 r, Float64.Leiden2 r)))
    (table_of (Float64.compute_groupwise_adjacency_matrix Float64.mean_seq Float64.mean_seq
                 Float64.mean_seq (fun _ _ => 1 / 100)%float (fun ps => ps)
                 Float64.tie_adata ["G1"; "G2"] (Some "G1") 3 (1 / 20))) =
  Some [ ("A", "B") ].
Proof. split; vm_compute; reflexivity. Qed.
